(** * View layers, layer collections and object bases (blenkernel/intern/layer.c)

    A shallow embedding of the view-layer code of [layer.c]: the base
    registry, the layer-collection tree and its synchronisation with the
    scene's collection tree, the dynamic override sets, the renderable
    objects iterator, the lookups by address and by index, the selection of
    the objects of a layer collection, the iterators over bases and objects
    and the evaluation of a view layer.

    Pointers are modelled by identities: a [Base], a [LayerCollection], a
    [Collection] and an object each carry a natural number standing for the
    address of the C struct.  Pointer comparisons of the C code are
    comparisons of these numbers, and [MEM_callocN] hands out the next unused
    number.  C [int] and [short] flag words are integers of [Z] with the bit
    operations of [Z]; no arithmetic of the code modelled here can wrap. *)

From Stdlib Require Import ZArith Lia List Bool String Btauto.
From stdpp Require Import gmap list.

Local Open Scope Z_scope.

(** ** Flag bits declared in the DNA headers

    [DNA_layer_types.h], [DNA_group_types.h], [DNA_ID.h] and
    [DNA_scene_types.h] are not part of the sources at hand, so the flag bits
    they declare are parameters of the development.  The only facts used about
    them are that the four evaluated visibility bits of a [Base] do not
    overlap and that the tag bit is not zero. *)

Class DNA_flags := {
  (* Base->flag *)
  BASE_SELECTED : Z;
  BASE_VISIBLED : Z;
  BASE_SELECTABLED : Z;
  BASE_VISIBLE_VIEWPORT : Z;
  BASE_VISIBLE_RENDER : Z;
  (* LayerCollection->flag *)
  LAYER_COLLECTION_EXCLUDE : Z;
  (* Collection->flag *)
  COLLECTION_RESTRICT_VIEW : Z;
  COLLECTION_RESTRICT_SELECT : Z;
  COLLECTION_RESTRICT_RENDER : Z;
  COLLECTION_IS_MASTER : Z;
  (* ViewLayer->flag *)
  VIEW_LAYER_RENDER : Z;
  (* ID->flag *)
  LIB_TAG_DOIT : Z;
  (* OverrideSet->flag, DynamicOverrideProperty->flag and ->operation *)
  DYN_OVERRIDE_SET_USE : Z;
  DYN_OVERRIDE_PROP_USE : Z;
  IDOVERRIDESTATIC_OP_REPLACE : Z;
  (* ARRAY_SIZE(((DynamicOverrideProperty * )NULL)->data.i) *)
  DYN_OVERRIDE_DATA_SIZE : nat;

  visibled_viewport_disjoint : Z.land BASE_VISIBLED BASE_VISIBLE_VIEWPORT = 0;
  visibled_selectabled_disjoint : Z.land BASE_VISIBLED BASE_SELECTABLED = 0;
  visibled_render_disjoint : Z.land BASE_VISIBLED BASE_VISIBLE_RENDER = 0;
  viewport_selectabled_disjoint : Z.land BASE_VISIBLE_VIEWPORT BASE_SELECTABLED = 0;
  viewport_render_disjoint : Z.land BASE_VISIBLE_VIEWPORT BASE_VISIBLE_RENDER = 0;
  selectabled_render_disjoint : Z.land BASE_SELECTABLED BASE_VISIBLE_RENDER = 0;
  tag_doit_nonzero : LIB_TAG_DOIT <> 0
}.

(** One assignment of values to these bits, as in Blender's DNA headers; the
    concrete examples of this file are evaluated with it. *)
#[export] Instance blender_flags : DNA_flags.
Proof.
  refine {|
    BASE_SELECTED := Z.shiftl 1 0;
    BASE_VISIBLED := Z.shiftl 1 1;
    BASE_SELECTABLED := Z.shiftl 1 2;
    BASE_VISIBLE_VIEWPORT := Z.shiftl 1 6;
    BASE_VISIBLE_RENDER := Z.shiftl 1 7;
    LAYER_COLLECTION_EXCLUDE := Z.shiftl 1 4;
    COLLECTION_RESTRICT_VIEW := Z.shiftl 1 0;
    COLLECTION_RESTRICT_SELECT := Z.shiftl 1 1;
    COLLECTION_RESTRICT_RENDER := Z.shiftl 1 2;
    COLLECTION_IS_MASTER := Z.shiftl 1 4;
    VIEW_LAYER_RENDER := Z.shiftl 1 0;
    LIB_TAG_DOIT := Z.shiftl 1 10;
    DYN_OVERRIDE_SET_USE := Z.shiftl 1 0;
    DYN_OVERRIDE_PROP_USE := Z.shiftl 1 0;
    IDOVERRIDESTATIC_OP_REPLACE := 1;
    DYN_OVERRIDE_DATA_SIZE := 4%nat
  |}; try reflexivity.
  discriminate.
Defined.

(** ** Data model *)

#[local] Unset Elimination Schemes.

(** [Base] (DNA_layer_types.h): [object] and [flag] are the fields the code
    reads and writes; [base_id] is the address of the struct. *)
Record Base := mkBase {
  base_id : nat;
  object : nat;
  base_flag : Z
}.

(** [LayerCollection]: [collection] is the weak back-reference ([None] for a
    [NULL] pointer), [layer_collections] the owned list of children. *)
Inductive LayerCollection := mkLayerCollection {
  lc_id : nat;
  collection : option nat;
  lc_flag : Z;
  layer_collections : list LayerCollection
}.

(** [CollectionParent]: a link of a collection's [parents] list.  The link
    points to the parent collection; the model stores the parent's address
    and, for [parent->collection->parents], the parent's own links.  The
    collection graph has no cycles, so following parent links ends. *)
Inductive CollectionParent := mkCollectionParent {
  cp_collection : nat;
  cp_parents : list CollectionParent
}.

(** [Collection]: [children] are the collections of the [CollectionChild]
    links, [gobject] the objects of the [CollectionObject] links.  A
    collection linked under several parents appears once under each of them,
    with the same [col_id]: the tree is the unfolding of the graph. *)
Inductive Collection := mkCollection {
  col_id : nat;
  col_flag : Z;
  parents : list CollectionParent;
  children : list Collection;
  gobject : list nat
}.

#[local] Set Elimination Schemes.

(** The struct a [Collection *] points to, seen from below: its address and
    its parent links. *)
Definition collection_upward (c : Collection) : CollectionParent :=
  mkCollectionParent (col_id c) (parents c).

Inductive ID_Type := ID_OB | ID_ME | ID_MA | ID_SCE | ID_WO | ID_OTHER (code : Z).

Inductive eDynamicOverridePropertyType :=
  DYN_OVERRIDE_PROP_TYPE_SCENE | DYN_OVERRIDE_PROP_TYPE_COLLECTION.

Inductive PropertyType :=
  PROP_BOOLEAN | PROP_INT | PROP_FLOAT | PROP_STRING | PROP_ENUM | PROP_POINTER
| PROP_COLLECTION.

(** A C [float] is kept as its bit pattern; the code only copies floats. *)
Definition float := Z.

(** The [data] union of a [DynamicOverrideProperty], tagged by the member
    that was written last.  A zeroed union reads as an array of zeros. *)
Inductive DynamicOverrideData :=
| data_i (values : list Z)
| data_f (values : list float)
| data_str (s : string)
| data_id (id : option nat).

Record DynamicOverrideProperty := mkDynamicOverrideProperty {
  dyn_prop_id : nat;
  dyn_flag : Z;
  operation : Z;
  root : nat;
  id_type : ID_Type;
  property_type : eDynamicOverridePropertyType;
  rna_path : string;
  array_len : Z;
  data : DynamicOverrideData
}.

(** [LinkData] of the affected-collection list: [link_data] is the
    [Collection *]. *)
Record LinkData := mkLinkData {
  link_id : nat;
  link_data : nat
}.

Record OverrideSet := mkOverrideSet {
  override_set_id : nat;
  override_set_flag : Z;
  affected_collections : list LinkData;
  active_affected_collection : Z;
  scene_properties : list DynamicOverrideProperty;
  collection_properties : list DynamicOverrideProperty
}.

(** [ViewLayer]: [vl_layer_collections] is the root list
    [view_layer->layer_collections]; [active_collection] and [basact] hold
    the address of a [LayerCollection] and of a [Base]; [object_bases_hash]
    maps an object to the address of its [Base]; [object_bases_array] is the
    array cache ([None] when freed). *)
Record ViewLayer := mkViewLayer {
  vl_flag : Z;
  vl_layer_collections : list LayerCollection;
  active_collection : option nat;
  object_bases : list Base;
  object_bases_hash : option (gmap nat nat);
  object_bases_array : option (list nat);
  basact : option nat;
  override_sets : list OverrideSet;
  active_override_set : Z
}.

#[local] Unset Elimination Schemes.

(** [Scene]: the master collection ([None] for old files), the view layers
    and the background set scene. *)
Inductive Scene := mkScene {
  master_collection : option Collection;
  view_layers : list ViewLayer;
  scene_set : option Scene
}.

#[local] Set Elimination Schemes.

Definition set_layer_collections (l : list LayerCollection) (v : ViewLayer) : ViewLayer :=
  mkViewLayer (vl_flag v) l (active_collection v) (object_bases v) (object_bases_hash v)
    (object_bases_array v) (basact v) (override_sets v) (active_override_set v).

Definition set_active_collection (a : option nat) (v : ViewLayer) : ViewLayer :=
  mkViewLayer (vl_flag v) (vl_layer_collections v) a (object_bases v) (object_bases_hash v)
    (object_bases_array v) (basact v) (override_sets v) (active_override_set v).

Definition set_object_bases (l : list Base) (v : ViewLayer) : ViewLayer :=
  mkViewLayer (vl_flag v) (vl_layer_collections v) (active_collection v) l (object_bases_hash v)
    (object_bases_array v) (basact v) (override_sets v) (active_override_set v).

Definition set_object_bases_hash (h : option (gmap nat nat)) (v : ViewLayer) : ViewLayer :=
  mkViewLayer (vl_flag v) (vl_layer_collections v) (active_collection v) (object_bases v) h
    (object_bases_array v) (basact v) (override_sets v) (active_override_set v).

Definition set_object_bases_array (a : option (list nat)) (v : ViewLayer) : ViewLayer :=
  mkViewLayer (vl_flag v) (vl_layer_collections v) (active_collection v) (object_bases v)
    (object_bases_hash v) a (basact v) (override_sets v) (active_override_set v).

Definition set_basact (b : option nat) (v : ViewLayer) : ViewLayer :=
  mkViewLayer (vl_flag v) (vl_layer_collections v) (active_collection v) (object_bases v)
    (object_bases_hash v) (object_bases_array v) b (override_sets v) (active_override_set v).

Definition set_override_sets (l : list OverrideSet) (a : Z) (v : ViewLayer) : ViewLayer :=
  mkViewLayer (vl_flag v) (vl_layer_collections v) (active_collection v) (object_bases v)
    (object_bases_hash v) (object_bases_array v) (basact v) l a.

Definition set_base_flag (f : Z) (b : Base) : Base :=
  mkBase (base_id b) (object b) f.

(** [(word & bit) != 0] *)
Definition flag_test (word bit : Z) : bool := negb (Z.land word bit =? 0).

(** ** Lists of nodes

    Modelled from the spec: blenlib's [ListBase] functions are not among the
    sources.  The spec's ordered sequences, with lookup and removal by
    identity, are lists here, and a node is named by its address [addr]. *)

Section listbase.
Context {A : Type} (addr : A -> nat).

(** [BLI_findindex]: the position of the node at address [p], or [-1];
    [number] counts the nodes walked over. *)
Fixpoint BLI_findindex_from (number : Z) (l : list A) (p : nat) : Z :=
  match l with
  | [] => -1
  | x :: l' => if decide (addr x = p) then number else BLI_findindex_from (number + 1) l' p
  end.

Definition BLI_findindex (l : list A) (p : nat) : Z := BLI_findindex_from 0 l p.

(** [BLI_remlink]: the list without the node at address [p]. *)
Fixpoint BLI_remlink (l : list A) (p : nat) : list A :=
  match l with
  | [] => []
  | x :: l' => if decide (addr x = p) then l' else x :: BLI_remlink l' p
  end.

(** The struct at address [p]. *)
Fixpoint node_at (l : list A) (p : nat) : option A :=
  match l with
  | [] => None
  | x :: l' => if decide (addr x = p) then Some x else node_at l' p
  end.

(** [BLI_listbase_count] *)
Definition BLI_listbase_count (l : list A) : Z := Z.of_nat (length l).

End listbase.

(** The first result of [f] over a list: the early [return] of a search
    loop. *)
Fixpoint first_found {A B : Type} (f : A -> option B) (l : list A) : option B :=
  match l with
  | [] => None
  | x :: l' => match f x with Some y => Some y | None => first_found f l' end
  end.

(** ** Bases *)

Section Layer.
Context {flags : DNA_flags}.

(** [BKE_view_layer_base_select]; [selbase] is the address of a base of
    the view layer, whose [flag] is updated in the base list. *)
Definition base_select_flag (flag : Z) : Z :=
  if flag_test flag BASE_SELECTABLED then Z.lor flag BASE_SELECTED else flag.

Definition BKE_view_layer_base_select (view_layer : ViewLayer) (selbase : nat) : ViewLayer :=
  let view_layer := set_basact (Some selbase) view_layer in
  set_object_bases
    (fmap (fun b => if decide (base_id b = selbase)
                   then set_base_flag (base_select_flag (base_flag b)) b else b)
         (object_bases view_layer))
    view_layer.

(** ** Layer collections *)

(** [layer_collection_add]: a zeroed [LayerCollection] at the next unused
    address, pointing to [collection]; the caller links it to the tail of
    its list. *)
Definition layer_collection_add (heap : nat) (collection : nat) : nat * LayerCollection :=
  (S heap, mkLayerCollection heap (Some collection) 0 []).

(** [layer_collection_free]: the active collection falls back to
    [view_layer->layer_collections.first] when it is the freed node; the
    children are freed the same way. *)
Fixpoint layer_collection_free (view_layer : ViewLayer) (lc : LayerCollection) : ViewLayer :=
  let view_layer :=
    if decide (Some (lc_id lc) = active_collection view_layer)
    then set_active_collection (lc_id <$> head (vl_layer_collections view_layer)) view_layer
    else view_layer in
  fold_left layer_collection_free (layer_collections lc) view_layer.

(** [object_base_new] *)
Definition object_base_new (heap : nat) (ob : nat) : nat * Base :=
  (S heap, mkBase heap ob 0).

(** [view_layer_bases_hash_create] *)
Definition view_layer_bases_hash_create (view_layer : ViewLayer) : ViewLayer :=
  match object_bases_hash view_layer with
  | Some _ => view_layer
  | None =>
      set_object_bases_hash
        (Some (fold_left (fun h base => <[object base := base_id base]> h)
                 (object_bases view_layer) ∅))
        view_layer
  end.

(** The hash of the view layer as [layer_collection_sync] uses it: its
    caller has created it. *)
Definition bases_hash (view_layer : ViewLayer) : gmap nat nat :=
  default ∅ (object_bases_hash view_layer).

(** *** Syncing *)

(** The state [layer_collection_sync] works on: the allocator, the view
    layer and the caller's [new_object_bases] list. *)
Record SyncState := mkSyncState {
  ss_heap : nat;
  ss_view_layer : ViewLayer;
  ss_new_object_bases : list Base
}.

(** The [ListBase *lb_layer] argument: the root list of the view layer
    (which [layer_collection_free] reads through [view_layer] while the
    function edits it) or the child list of a node that is no longer
    reachable from the view layer. *)
Inductive ListRef :=
| lb_view_layer
| lb_local (l : list LayerCollection).

Definition lb_get (view_layer : ViewLayer) (lb : ListRef) : list LayerCollection :=
  match lb with
  | lb_view_layer => vl_layer_collections view_layer
  | lb_local l => l
  end.

Definition lb_set (view_layer : ViewLayer) (lb : ListRef) (l : list LayerCollection)
  : ViewLayer * ListRef :=
  match lb with
  | lb_view_layer => (set_layer_collections l view_layer, lb_view_layer)
  | lb_local _ => (view_layer, lb_local l)
  end.

(** [BLI_findptr(lb_scene, lc->collection, offsetof(CollectionChild, collection))]
    guarded by [lc->collection] not being [NULL] *)
Definition scene_child_find (lb_scene : list Collection) (c : option nat) : bool :=
  match c with
  | Some c => bool_decide (c ∈ fmap col_id lb_scene)
  | None => false
  end.

(** The first loop of [layer_collection_sync]: [kept] are the nodes
    already walked over and left in the list, [rest] the nodes still to
    look at, so that the list is [kept ++ rest]. *)
Fixpoint layer_collection_sync_prune (lb_scene : list Collection) (view_layer : ViewLayer)
  (lb_layer : ListRef) (kept rest : list LayerCollection) : ViewLayer * ListRef :=
  match rest with
  | [] => (view_layer, lb_layer)
  | lc :: lc_next =>
      if scene_child_find lb_scene (collection lc)
      then layer_collection_sync_prune lb_scene view_layer lb_layer (kept ++ [lc]) lc_next
      else
        (* Free recursively. *)
        let view_layer := layer_collection_free view_layer lc in
        let '(view_layer, lb_layer) := lb_set view_layer lb_layer (kept ++ lc_next) in
        layer_collection_sync_prune lb_scene view_layer lb_layer kept lc_next
  end.

(** [BLI_findptr(lb_layer, collection, offsetof(LayerCollection, collection))]
    together with the [BLI_remlink] of the node found: the first node that
    points to [collection], and the list without it. *)
Fixpoint layer_collection_take (collection_ : nat) (l : list LayerCollection)
  : option (LayerCollection * list LayerCollection) :=
  match l with
  | [] => None
  | lc :: l' =>
      if decide (collection lc = Some collection_) then Some (lc, l')
      else match layer_collection_take collection_ l' with
           | Some (found, rest) => Some (found, lc :: rest)
           | None => None
           end
  end.

(** Collection restrict is inherited. *)
Definition child_restrict_of (parent_restrict : Z) (collection_ : Collection) : Z :=
  if flag_test (col_flag collection_) COLLECTION_IS_MASTER then parent_restrict
  else Z.lor parent_restrict (col_flag collection_).

(** The flag updates at the end of the object loop. *)
Definition base_restrict_flag (child_restrict : Z) (flag : Z) : Z :=
  let flag :=
    if flag_test child_restrict COLLECTION_RESTRICT_VIEW then flag
    else
      let flag := Z.lor flag (Z.lor BASE_VISIBLED BASE_VISIBLE_VIEWPORT) in
      if flag_test child_restrict COLLECTION_RESTRICT_SELECT then flag
      else Z.lor flag BASE_SELECTABLED in
  if flag_test child_restrict COLLECTION_RESTRICT_RENDER then flag
  else Z.lor flag BASE_VISIBLE_RENDER.

(** [ELEM(base, new_object_bases->first, new_object_bases->last)] *)
Definition base_is_first_or_last (base : nat) (l : list Base) : bool :=
  bool_decide (base_id <$> head l = Some base) || bool_decide (base_id <$> last l = Some base).

(** [base->flag = f(base->flag)] for the base at address [base]. *)
Definition base_flag_update (base : nat) (f : Z -> Z) (l : list Base) : list Base :=
  fmap (fun b => if bool_decide (base_id b = base) then set_base_flag (f (base_flag b)) b else b) l.

(** The body of the object loop of [layer_collection_sync] for the object
    [ob] of a [CollectionObject].

    A base that the hash knows is linked in [view_layer->object_bases] or
    was moved to [new_object_bases] earlier in this sync.  [BLI_remlink]
    rewires the neighbours of the node, so it takes the node out of either
    chain; the first/last test keeps it away from the two ends of
    [new_object_bases], which it could not unlink through the other list
    head.  A hash entry for a base in neither list is a dangling pointer:
    the state is left as it is. *)
Definition layer_collection_sync_object (child_restrict : Z) (s : SyncState) (ob : nat)
  : SyncState :=
  let view_layer := ss_view_layer s in
  let new_object_bases := ss_new_object_bases s in
  let '(s, base) :=
    match bases_hash view_layer !! ob with
    | Some base =>
        if base_is_first_or_last base new_object_bases then (s, base)
        else
          match node_at base_id (object_bases view_layer ++ new_object_bases) base with
          | Some b =>
              (mkSyncState (ss_heap s)
                 (set_object_bases (BLI_remlink base_id (object_bases view_layer) base)
                    view_layer)
                 (BLI_remlink base_id new_object_bases base ++ [b]),
               base)
          | None => (s, base)
          end
    | None =>
        (* Create new base. *)
        let '(heap, b) := object_base_new (ss_heap s) ob in
        (mkSyncState heap
           (set_object_bases_hash (Some (<[object b := base_id b]> (bases_hash view_layer)))
              view_layer)
           (new_object_bases ++ [b]),
         base_id b)
    end in
  mkSyncState (ss_heap s) (ss_view_layer s)
    (base_flag_update base (base_restrict_flag child_restrict) (ss_new_object_bases s)).

Section sync_body.
(** The recursive call, as the body of the second loop uses it: one child
    of [lb_scene] with the loop state. *)
Variable sync_child :
  Collection -> SyncState * ListRef * list LayerCollection -> Z -> Z ->
  SyncState * ListRef * list LayerCollection.

Fixpoint layer_collection_sync_loop (children_ : list Collection)
  (st : SyncState * ListRef * list LayerCollection) (parent_exclude parent_restrict : Z)
  : SyncState * ListRef * list LayerCollection :=
  match children_ with
  | [] => st
  | child :: next =>
      layer_collection_sync_loop next (sync_child child st parent_exclude parent_restrict)
        parent_exclude parent_restrict
  end.

Definition layer_collection_sync_body (lb_scene : list Collection) (s : SyncState)
  (lb_layer : ListRef) (parent_exclude parent_restrict : Z)
  : SyncState * list LayerCollection :=
  (* Remove layer collections that no longer have a corresponding scene collection. *)
  let '(view_layer, lb_layer) :=
    layer_collection_sync_prune lb_scene (ss_view_layer s) lb_layer []
      (lb_get (ss_view_layer s) lb_layer) in
  let s := mkSyncState (ss_heap s) view_layer (ss_new_object_bases s) in
  (* Add layer collections for any new scene collections, and ensure order is the same. *)
  let '(s, lb_layer, new_lb_layer) :=
    layer_collection_sync_loop lb_scene (s, lb_layer, []) parent_exclude parent_restrict in
  (* Replace layer collection list with new one. *)
  let '(view_layer, _) := lb_set (ss_view_layer s) lb_layer new_lb_layer in
  (mkSyncState (ss_heap s) view_layer (ss_new_object_bases s), new_lb_layer).

End sync_body.

(** The start of the body of the second loop: the layer collection of
    [child], moved out of [lb_layer] or newly added with the flag
    [parent_exclude].  (The node joins [new_lb_layer] at once in the C code;
    nothing reads that list before the node's children are synced.) *)
Definition layer_collection_sync_lookup (child : Collection) (s : SyncState)
  (lb_layer : ListRef) (parent_exclude : Z) : SyncState * ListRef * LayerCollection :=
  match layer_collection_take (col_id child) (lb_get (ss_view_layer s) lb_layer) with
  | Some (lc, rest) =>
      let '(view_layer, lb_layer) := lb_set (ss_view_layer s) lb_layer rest in
      (mkSyncState (ss_heap s) view_layer (ss_new_object_bases s), lb_layer, lc)
  | None =>
      let '(heap, lc) := layer_collection_add (ss_heap s) (col_id child) in
      (mkSyncState heap (ss_view_layer s) (ss_new_object_bases s), lb_layer,
       mkLayerCollection (lc_id lc) (collection lc) parent_exclude (layer_collections lc))
  end.

(** Sync objects, except if collection was excluded. *)
Definition layer_collection_sync_objects (lc_flag_ : Z) (child_restrict : Z)
  (gobject_ : list nat) (s : SyncState) : SyncState :=
  if flag_test lc_flag_ LAYER_COLLECTION_EXCLUDE then s
  else fold_left (layer_collection_sync_object child_restrict) gobject_ s.

(** The body of the second loop of [layer_collection_sync] for one
    [CollectionChild]; the recursive call on [&collection->children] is
    [layer_collection_sync_body layer_collection_sync_child]. *)
Fixpoint layer_collection_sync_child (child : Collection)
  (st : SyncState * ListRef * list LayerCollection) (parent_exclude parent_restrict : Z)
  {struct child} : SyncState * ListRef * list LayerCollection :=
  let '(s, lb_layer, new_lb_layer) := st in
  let '(s, lb_layer, lc) := layer_collection_sync_lookup child s lb_layer parent_exclude in
  (* Collection restrict is inherited. *)
  let child_restrict := child_restrict_of parent_restrict child in
  (* Sync child collections. *)
  let '(s, sub) :=
    layer_collection_sync_body layer_collection_sync_child (children child) s
      (lb_local (layer_collections lc)) (lc_flag lc) child_restrict in
  let lc := mkLayerCollection (lc_id lc) (collection lc) (lc_flag lc) sub in
  (* Layer collection exclude is not inherited. *)
  (layer_collection_sync_objects (lc_flag lc) child_restrict (gobject child) s,
   lb_layer, new_lb_layer ++ [lc]).

(** [layer_collection_sync]: the new content of [lb_layer] is returned next
    to the state. *)
Definition layer_collection_sync (lb_scene : list Collection) (s : SyncState)
  (lb_layer : ListRef) (parent_exclude parent_restrict : Z)
  : SyncState * list LayerCollection :=
  layer_collection_sync_body layer_collection_sync_child lb_scene s lb_layer
    parent_exclude parent_restrict.

(** [find_layer_collection_by_scene_collection] *)
Fixpoint find_layer_collection_by_scene_collection (lc : LayerCollection) (collection_ : nat)
  : option LayerCollection :=
  if decide (collection lc = Some collection_) then Some lc
  else
    first_found (fun nlc => find_layer_collection_by_scene_collection nlc collection_)
      (layer_collections lc).

(** [BKE_layer_collection_first_from_scene_collection] *)
Definition BKE_layer_collection_first_from_scene_collection (view_layer : ViewLayer)
  (collection_ : nat) : option LayerCollection :=
  first_found (fun lc => find_layer_collection_by_scene_collection lc collection_)
    (vl_layer_collections view_layer).

(** [BKE_layer_collection_activate_parent (view_layer, lc)], given the
    collection [lc->collection] points to.  The layer collection found for
    the parent points to [parent->collection], so the recursive call
    continues from the parent link. *)
Fixpoint BKE_layer_collection_activate_parent (view_layer : ViewLayer)
  (lc_collection : CollectionParent) : ViewLayer * option LayerCollection :=
  let activate lc :=
    let lc := match lc with
              | Some lc => Some lc
              | None => head (vl_layer_collections view_layer)
              end in
    (set_active_collection (lc_id <$> lc) view_layer, lc) in
  match cp_parents lc_collection with
  | parent :: _ =>
      match BKE_layer_collection_first_from_scene_collection view_layer (cp_collection parent) with
      | Some lc =>
          if flag_test (lc_flag lc) LAYER_COLLECTION_EXCLUDE
          then (* Don't activate excluded collections. *)
            BKE_layer_collection_activate_parent view_layer parent
          else activate (Some lc)
      | None => activate None
      end
  | [] => activate None
  end.

(** The struct an address of a [LayerCollection] points to, searched in
    the tree of the view layer.  A node outside the tree was freed: the
    model has no struct for it. *)
Fixpoint layer_collection_deref (a : nat) (lc : LayerCollection) : option LayerCollection :=
  if decide (lc_id lc = a) then Some lc
  else first_found (layer_collection_deref a) (layer_collections lc).

Definition layer_collection_at (view_layer : ViewLayer) (a : nat) : option LayerCollection :=
  first_found (layer_collection_deref a) (vl_layer_collections view_layer).

(** The struct a [Collection *] points to, searched in the collection
    tree of the scene. *)
Fixpoint collection_deref (c : nat) (collection_ : Collection) : option Collection :=
  if decide (col_id collection_ = c) then Some collection_
  else first_found (collection_deref c) (children collection_).

(** The bits [BKE_layer_collection_sync] clears on every base. *)
Definition BASE_SYNC_FLAGS : Z :=
  Z.lor (Z.lor (Z.lor BASE_VISIBLED BASE_SELECTABLED) BASE_VISIBLE_VIEWPORT) BASE_VISIBLE_RENDER.

(** The loop over the bases left in [view_layer->object_bases] after the
    recursive pass. *)
Definition layer_collection_sync_remove_base (view_layer : ViewLayer) (base : Base) : ViewLayer :=
  let view_layer :=
    if decide (basact view_layer = Some (base_id base)) then set_basact None view_layer
    else view_layer in
  set_object_bases_hash (Some (delete (object base) (bases_hash view_layer))) view_layer.

(** [BKE_layer_collection_sync] up to the replacement of the base list. *)
Definition layer_collection_sync_rebuild (master : Collection) (heap : nat)
  (view_layer : ViewLayer) : nat * ViewLayer :=
  (* Free cache. *)
  let view_layer := set_object_bases_array None view_layer in
  (* Create object to base hash if it does not exist yet. *)
  let view_layer := view_layer_bases_hash_create view_layer in
  (* Clear visible and selectable flags to be reset. *)
  let view_layer :=
    set_object_bases
      (fmap (fun base => set_base_flag (Z.land (base_flag base) (Z.lnot BASE_SYNC_FLAGS)) base)
         (object_bases view_layer))
      view_layer in
  (* Generate new layer connections and object bases when collections changed. *)
  let collections := [master] in
  let parent_exclude := 0 in
  let parent_restrict := 0 in
  let '(s, _) :=
    layer_collection_sync collections (mkSyncState heap view_layer []) lb_view_layer
      parent_exclude parent_restrict in
  (* Any remaining object bases are to be removed. *)
  let view_layer :=
    fold_left layer_collection_sync_remove_base (object_bases (ss_view_layer s))
      (ss_view_layer s) in
  (ss_heap s, set_object_bases (ss_new_object_bases s) view_layer).

(** The end of [BKE_layer_collection_sync]: always set a valid active
    collection.  [None] stands for a read through a pointer the model has
    no struct for: [active->flag] of a node that is not in the rebuilt tree,
    which is a freed node or, when two nodes of one list pointed to the same
    collection, a node the second loop left behind in the old list. *)
Definition layer_collection_sync_active (master : Collection) (view_layer : ViewLayer)
  : option ViewLayer :=
  match active_collection view_layer with
  | Some a =>
      active ← layer_collection_at view_layer a;
      if flag_test (lc_flag active) LAYER_COLLECTION_EXCLUDE then
        c ← collection active;
        lc_collection ← collection_deref c master;
        Some (BKE_layer_collection_activate_parent view_layer (collection_upward lc_collection)).1
      else Some view_layer
  | None =>
      Some (set_active_collection (lc_id <$> head (vl_layer_collections view_layer)) view_layer)
  end.

(** [BKE_layer_collection_sync] *)
Definition BKE_layer_collection_sync (scene : Scene) (heap : nat) (view_layer : ViewLayer)
  : option (nat * ViewLayer) :=
  match master_collection scene with
  | None =>
      (* Happens for old files that don't have versioning applied yet. *)
      Some (heap, view_layer)
  | Some master =>
      let '(heap, view_layer) := layer_collection_sync_rebuild master heap view_layer in
      view_layer ← layer_collection_sync_active master view_layer;
      Some (heap, view_layer)
  end.

(** ** Dynamic overrides *)

(** The shift of an active index after the node at [index] left a list
    that now has [count] nodes: the tail of
    [BKE_view_layer_override_set_remove] and of
    [BKE_view_layer_override_set_collection_unlink]. *)
Definition active_index_after_remove (active index count : Z) : Z :=
  if active >? index then active - 1
  else if active =? index then
    if index =? count then Z.max 0 (index - 1) else active
  else active.

(** [BKE_view_layer_override_set_remove]; [override_set] is the address of
    the set.  Freeing the set leaves no trace in the model. *)
Definition BKE_view_layer_override_set_remove (view_layer : ViewLayer) (override_set : nat)
  : bool * ViewLayer :=
  let override_set_index :=
    BLI_findindex override_set_id (override_sets view_layer) override_set in
  if override_set_index =? -1 then (false, view_layer)
  else
    let sets := BLI_remlink override_set_id (override_sets view_layer) override_set in
    (true,
     set_override_sets sets
       (active_index_after_remove (active_override_set view_layer) override_set_index
          (BLI_listbase_count sets))
       view_layer).

(** [BLI_findptr(&override_set->affected_collections, collection, offsetof(LinkData, data))] *)
Definition affected_collection_find (l : list LinkData) (collection_ : nat) : option LinkData :=
  List.find (fun link => bool_decide (link_data link = collection_)) l.

(** [BKE_view_layer_override_set_collection_unlink] *)
Definition BKE_view_layer_override_set_collection_unlink (override_set : OverrideSet)
  (collection_ : nat) : bool * OverrideSet :=
  match affected_collection_find (affected_collections override_set) collection_ with
  | None => (false, override_set)
  | Some link =>
      let collection_index :=
        BLI_findindex link_id (affected_collections override_set) (link_id link) in
      let links := BLI_remlink link_id (affected_collections override_set) (link_id link) in
      (true,
       mkOverrideSet (override_set_id override_set) (override_set_flag override_set) links
         (active_index_after_remove (active_affected_collection override_set)
            collection_index (BLI_listbase_count links))
         (scene_properties override_set) (collection_properties override_set))
  end.

(** What the RNA calls of [BKE_view_layer_override_property_add] answer
    for its arguments [ptr], [prop] and [index]; the RNA functions are not
    part of the sources. *)
Record RNAProperty := mkRNAProperty {
  rna_owner_id : nat;                     (* ptr->id.data *)
  rna_owner_id_type : ID_Type;            (* GS(owner_id->name) *)
  rna_path_from_ID : option string;       (* RNA_path_from_ID_to_property_index *)
  rna_array_length : Z;                   (* RNA_property_array_length *)
  rna_array_check : bool;                 (* RNA_property_array_check *)
  rna_type : PropertyType;                (* RNA_property_type *)
  rna_boolean_array : list Z;             (* RNA_property_boolean_get_array *)
  rna_boolean : Z;                        (* RNA_property_boolean_get *)
  rna_int_array : list Z;                 (* RNA_property_int_get_array *)
  rna_int : Z;                            (* RNA_property_int_get *)
  rna_float_array : list float;           (* RNA_property_float_get_array *)
  rna_float : float;                      (* RNA_property_float_get *)
  rna_string : string;                    (* RNA_property_string_get_alloc *)
  rna_enum : Z;                           (* RNA_property_enum_get *)
  rna_pointer : option nat                (* RNA_property_pointer_get (...).id.data *)
}.

(** The zeroed [data.i] array written from its first element on. *)
Definition data_array_write (values : list Z) : list Z :=
  take DYN_OVERRIDE_DATA_SIZE (values ++ replicate DYN_OVERRIDE_DATA_SIZE 0).

(** The [switch (RNA_property_type(prop))] of
    [BKE_view_layer_override_property_add]. *)
Definition override_property_snapshot (p : RNAProperty) : DynamicOverrideData :=
  let is_array := rna_array_check p in
  match rna_type p with
  | PROP_BOOLEAN =>
      data_i (data_array_write (if is_array then rna_boolean_array p else [rna_boolean p]))
  | PROP_INT =>
      data_i (data_array_write (if is_array then rna_int_array p else [rna_int p]))
  | PROP_FLOAT =>
      data_f (data_array_write (if is_array then rna_float_array p else [rna_float p]))
  | PROP_STRING => data_str (rna_string p)
  | PROP_ENUM => data_i (data_array_write [rna_enum p])
  | PROP_POINTER => data_id (rna_pointer p)
  | PROP_COLLECTION => data_i (data_array_write [])
  end.

(** The C comparison [array_len > ARRAY_SIZE(...)] converts the [int] to
    the unsigned type of [sizeof]. *)
Definition array_len_exceeds (array_len_ : Z) : bool :=
  array_len_ mod 2 ^ 64 >? Z.of_nat DYN_OVERRIDE_DATA_SIZE.

(** [BKE_view_layer_override_property_add] *)
Definition BKE_view_layer_override_property_add (heap : nat) (override_set : OverrideSet)
  (p : RNAProperty) : nat * OverrideSet * option DynamicOverrideProperty :=
  let owner_id := rna_owner_id p in
  let id_type_ := rna_owner_id_type p in
  let classified :=
    match id_type_ with
    | ID_OB | ID_ME | ID_MA => Some DYN_OVERRIDE_PROP_TYPE_COLLECTION
    | ID_SCE | ID_WO => Some DYN_OVERRIDE_PROP_TYPE_SCENE
    | ID_OTHER _ => None
    end in
  match classified with
  | None => (heap, override_set, None)
  | Some property_type_ =>
      match rna_path_from_ID p with
      | None => (heap, override_set, None)
      | Some rna_path_str =>
          let array_len_ := rna_array_length p in
          if array_len_exceeds array_len_ then (heap, override_set, None)
          else
            let dyn_prop :=
              mkDynamicOverrideProperty heap DYN_OVERRIDE_PROP_USE IDOVERRIDESTATIC_OP_REPLACE
                owner_id id_type_ property_type_ rna_path_str array_len_
                (override_property_snapshot p) in
            let override_set :=
              match property_type_ with
              | DYN_OVERRIDE_PROP_TYPE_SCENE =>
                  mkOverrideSet (override_set_id override_set) (override_set_flag override_set)
                    (affected_collections override_set)
                    (active_affected_collection override_set)
                    (scene_properties override_set ++ [dyn_prop])
                    (collection_properties override_set)
              | DYN_OVERRIDE_PROP_TYPE_COLLECTION =>
                  mkOverrideSet (override_set_id override_set) (override_set_flag override_set)
                    (affected_collections override_set)
                    (active_affected_collection override_set)
                    (scene_properties override_set)
                    (collection_properties override_set ++ [dyn_prop])
              end in
            (S heap, override_set, Some dyn_prop)
      end
  end.

(** ** The renderable objects iterator *)

(** [BKE_view_layer_default_render] *)
Definition BKE_view_layer_default_render (scene : Scene) : option ViewLayer :=
  match List.find (fun view_layer => flag_test (vl_flag view_layer) VIEW_LAYER_RENDER)
          (view_layers scene) with
  | Some view_layer => Some view_layer
  | None => head (view_layers scene)
  end.

(** The [BLI_Iterator] with its [ObjectsRenderableIteratorData] and the
    [id.flag] word of every object.  A pointer into a list is kept as what
    the code reads through it: [iter_view_layer] is the view layer
    [data->iter.view_layer] followed by its successors, [iter_base_next] the
    chain that starts at [data->iter.base->next], and [iter_set] is [None]
    for a [NULL] [data->iter.set] and otherwise holds [data->iter.set->set]. *)
Record RenderableIterator := mkRenderableIterator {
  ob_id_flag : nat -> Z;
  data_scene : Scene;
  iter_view_layer : list ViewLayer;
  iter_base_next : list Base;
  iter_set : option (option Scene);
  iter_current : option nat;
  iter_valid : bool;
  iter_skip : bool
}.

Definition id_flag_update (ob : nat) (f : Z -> Z) (flags : nat -> Z) : nat -> Z :=
  fun o => if decide (o = ob) then f (flags o) else flags o.

(** Tag objects to prevent going over the same object twice. *)
Definition tag_bases (bases : list Base) (flags : nat -> Z) : nat -> Z :=
  fold_left (fun flags base => id_flag_update (object base) (fun f => Z.lor f LIB_TAG_DOIT) flags)
    bases flags.

Definition tag_view_layers (l : list ViewLayer) (flags : nat -> Z) : nat -> Z :=
  fold_left (fun flags view_layer => tag_bases (object_bases view_layer) flags) l flags.

Fixpoint tag_scenes (scene : Scene) (flags : nat -> Z) : nat -> Z :=
  let flags := tag_view_layers (view_layers scene) flags in
  match scene_set scene with
  | Some set_ => tag_scenes set_ flags
  | None => flags
  end.

(** The [while] loop over the view layers after the current one: the
    first one flagged [VIEW_LAYER_RENDER] with its successors, or nothing. *)
Fixpoint next_render_view_layer (l : list ViewLayer) : list ViewLayer :=
  match l with
  | [] => []
  | view_layer :: next =>
      if flag_test (vl_flag view_layer) VIEW_LAYER_RENDER then l
      else next_render_view_layer next
  end.

(** [BKE_view_layer_renderable_objects_iterator_next]; [None] is a read
    through [NULL] (a scene without view layers). *)
Definition BKE_view_layer_renderable_objects_iterator_next (it : RenderableIterator)
  : option RenderableIterator :=
  (* iter->skip = true *)
  match iter_base_next it with
  | base :: next =>
      (* There is still a base in the current scene layer. *)
      let ob := object base in
      if flag_test (ob_id_flag it ob) LIB_TAG_DOIT then
        let flags := id_flag_update ob (fun f => Z.land f (Z.lnot LIB_TAG_DOIT)) (ob_id_flag it) in
        if flag_test (base_flag base) BASE_VISIBLED then
          Some (mkRenderableIterator flags (data_scene it) (iter_view_layer it) next
                  (iter_set it) (Some ob) (iter_valid it) false)
        else
          Some (mkRenderableIterator flags (data_scene it) (iter_view_layer it) next
                  (iter_set it) (iter_current it) (iter_valid it) true)
      else
        Some (mkRenderableIterator (ob_id_flag it) (data_scene it) (iter_view_layer it) next
                (iter_set it) (iter_current it) (iter_valid it) true)
  | [] =>
      match iter_set it with
      | None =>
          (* Time to go to the next scene layer. *)
          match iter_view_layer it with
          | [] => None
          | _ :: next =>
              match next_render_view_layer next with
              | view_layer :: after =>
                  Some (mkRenderableIterator (ob_id_flag it) (data_scene it)
                          (view_layer :: after) (object_bases view_layer) None
                          (iter_current it) (iter_valid it) true)
              | [] =>
                  (* Setup the "set" for the next iteration. *)
                  Some (mkRenderableIterator (ob_id_flag it) (data_scene it) []
                          [] (Some (Some (data_scene it)))
                          (iter_current it) (iter_valid it) true)
              end
          end
      | Some set_ =>
          (* Look for an object in the next set. *)
          match set_ with
          | Some scene =>
              view_layer ← BKE_view_layer_default_render scene;
              Some (mkRenderableIterator (ob_id_flag it) (data_scene it) (iter_view_layer it)
                      (object_bases view_layer) (Some (scene_set scene))
                      (iter_current it) (iter_valid it) true)
          | None =>
              Some (mkRenderableIterator (ob_id_flag it) (data_scene it) (iter_view_layer it)
                      [] None (iter_current it) false true)
          end
      end
  end.

(** [BKE_view_layer_renderable_objects_iterator_begin] on a fresh iterator
    ([valid] set, as the iterator macro does) for [data->scene = scene];
    [flags] are the [id.flag] words of the objects. *)
Definition BKE_view_layer_renderable_objects_iterator_begin (flags : nat -> Z) (scene : Scene)
  : option RenderableIterator :=
  let flags := tag_scenes scene flags in
  view_layer ← head (view_layers scene);
  BKE_view_layer_renderable_objects_iterator_next
    (mkRenderableIterator flags scene (view_layers scene) (object_bases view_layer) None
       None true false).

(** A full traversal: begin, then next until the iterator is not valid,
    collecting [iter->current] of every step that is not skipped.  [None]
    when [fuel] steps do not reach the end or a step reads through [NULL]. *)
Fixpoint renderable_objects_from (fuel : nat) (it : RenderableIterator) : option (list nat) :=
  if iter_valid it then
    match fuel with
    | O => None
    | S fuel =>
        it' ← BKE_view_layer_renderable_objects_iterator_next it;
        rest ← renderable_objects_from fuel it';
        Some ((if iter_skip it then [] else option_list (iter_current it)) ++ rest)
    end
  else Some [].

Definition renderable_objects (fuel : nat) (flags : nat -> Z) (scene : Scene)
  : option (list nat) :=
  it ← BKE_view_layer_renderable_objects_iterator_begin flags scene;
  renderable_objects_from fuel it.

End Layer.

(** * Lookups, selection, traversal and evaluation of a view layer *)

Definition set_vl_flag (f : Z) (v : ViewLayer) : ViewLayer :=
  mkViewLayer f (vl_layer_collections v) (active_collection v) (object_bases v)
    (object_bases_hash v) (object_bases_array v) (basact v) (override_sets v)
    (active_override_set v).

Definition set_view_layers (l : list ViewLayer) (scene : Scene) : Scene :=
  mkScene (master_collection scene) l (scene_set scene).

Section more_listbase.
Context {A : Type} (addr : A -> nat).

(** Modelled from the spec: [BLI_remlink_safe] is blenlib's removal by
    identity that reports a node that is not in the list, the spec's
    not-found condition of a removal. *)
Definition BLI_remlink_safe (l : list A) (p : nat) : bool * list A :=
  if bool_decide (p ∈ addr <$> l) then (true, BLI_remlink addr l p) else (false, l).

End more_listbase.

Section LayerQueries.
Context {flags : DNA_flags}.

(** ** View layers of a scene *)

(** [BKE_view_layer_default_view] *)
Definition BKE_view_layer_default_view (scene : Scene) : option ViewLayer :=
  match List.find (fun view_layer => negb (flag_test (vl_flag view_layer) VIEW_LAYER_RENDER))
          (view_layers scene) with
  | Some view_layer => Some view_layer
  | None => head (view_layers scene)
  end.

Section find_in_body.
Variable find_nested : LayerCollection -> nat -> bool.

(** The loop of [find_scene_collection_in_scene_collections]; [lc] is the
    address looked for. *)
Fixpoint find_scene_collection_loop (lb : list LayerCollection) (lc : nat) : bool :=
  match lb with
  | [] => false
  | lcn :: next =>
      if decide (lc_id lcn = lc) then true
      else if find_nested lcn lc then true
      else find_scene_collection_loop next lc
  end.

End find_in_body.

(** The recursive call of [find_scene_collection_in_scene_collections] on
    [&lcn->layer_collections]. *)
Fixpoint find_scene_collection_nested (lcn : LayerCollection) (lc : nat) {struct lcn} : bool :=
  find_scene_collection_loop find_scene_collection_nested (layer_collections lcn) lc.

(** [find_scene_collection_in_scene_collections] *)
Definition find_scene_collection_in_scene_collections (lb : list LayerCollection) (lc : nat)
  : bool :=
  find_scene_collection_loop find_scene_collection_nested lb lc.

(** [BKE_view_layer_find_from_collection] *)
Definition BKE_view_layer_find_from_collection (scene : Scene) (lc : nat) : option ViewLayer :=
  List.find
    (fun view_layer =>
       find_scene_collection_in_scene_collections (vl_layer_collections view_layer) lc)
    (view_layers scene).

(** [BKE_view_layer_find_from_override_set] *)
Definition BKE_view_layer_find_from_override_set (scene : Scene) (override_set : nat)
  : option ViewLayer :=
  List.find
    (fun view_layer =>
       negb (BLI_findindex override_set_id (override_sets view_layer) override_set =? -1))
    (view_layers scene).

(** [BKE_view_layer_find_from_dynamic_override_property] *)
Definition BKE_view_layer_find_from_dynamic_override_property (scene : Scene) (dyn_prop : nat)
  : option ViewLayer :=
  List.find
    (fun view_layer =>
       existsb
         (fun override_set =>
            if negb (BLI_findindex dyn_prop_id (scene_properties override_set) dyn_prop =? -1)
            then true
            else negb (BLI_findindex dyn_prop_id (collection_properties override_set) dyn_prop
                       =? -1))
         (override_sets view_layer))
    (view_layers scene).

(** ** Bases *)

(** [BKE_view_layer_base_find]: the address of the base of [ob], with the
    view layer whose hash now exists. *)
Definition BKE_view_layer_base_find (view_layer : ViewLayer) (ob : nat)
  : ViewLayer * option nat :=
  let view_layer :=
    match object_bases_hash view_layer with
    | None => view_layer_bases_hash_create view_layer
    | Some _ => view_layer
    end in
  (view_layer, bases_hash view_layer !! ob).

(** [BKE_view_layer_base_deselect_all] *)
Definition BKE_view_layer_base_deselect_all (view_layer : ViewLayer) : ViewLayer :=
  set_object_bases
    ((fun base => set_base_flag (Z.land (base_flag base) (Z.lnot BASE_SELECTED)) base)
       <$> object_bases view_layer)
    view_layer.

(** [BKE_view_layer_has_collection] *)
Definition BKE_view_layer_has_collection (view_layer : ViewLayer) (collection_ : nat) : bool :=
  match BKE_layer_collection_first_from_scene_collection view_layer collection_ with
  | Some _ => true
  | None => false
  end.

(** The loop of [BKE_scene_has_object]: the view layers walked over have
    their hash created. *)
Fixpoint scene_has_object_loop (l : list ViewLayer) (ob : nat) : list ViewLayer * bool :=
  match l with
  | [] => ([], false)
  | view_layer :: next =>
      let '(view_layer, base) := BKE_view_layer_base_find view_layer ob in
      match base with
      | Some _ => (view_layer :: next, true)
      | None =>
          let '(next, found) := scene_has_object_loop next ob in
          (view_layer :: next, found)
      end
  end.

(** [BKE_scene_has_object] *)
Definition BKE_scene_has_object (scene : Scene) (ob : nat) : Scene * bool :=
  let '(l, found) := scene_has_object_loop (view_layers scene) ob in
  (set_view_layers l scene, found).

(** ** Layer collections by index *)

Section from_index_body.
Variable from_index_nested :
  LayerCollection -> Z -> Z -> Z * option LayerCollection.

(** The loop of [collection_from_index]; the counter [*i] goes in and comes
    out. *)
Fixpoint collection_from_index_loop (lb : list LayerCollection) (number i : Z)
  : Z * option LayerCollection :=
  match lb with
  | [] => (i, None)
  | lc :: next =>
      if i =? number then (i, Some lc)
      else
        let i := i + 1 in
        let '(i, lc_nested) := from_index_nested lc number i in
        match lc_nested with
        | Some lc_nested => (i, Some lc_nested)
        | None => collection_from_index_loop next number i
        end
  end.

End from_index_body.

(** The recursive call of [collection_from_index] on
    [&lc->layer_collections]. *)
Fixpoint collection_from_index_nested (lc : LayerCollection) (number i : Z) {struct lc}
  : Z * option LayerCollection :=
  collection_from_index_loop collection_from_index_nested (layer_collections lc) number i.

(** [collection_from_index] *)
Definition collection_from_index (lb : list LayerCollection) (number i : Z)
  : Z * option LayerCollection :=
  collection_from_index_loop collection_from_index_nested lb number i.

(** [BKE_layer_collection_from_index] *)
Definition BKE_layer_collection_from_index (view_layer : ViewLayer) (index : Z)
  : option LayerCollection :=
  let i := 0 in
  (collection_from_index (vl_layer_collections view_layer) index i).2.

(** [BKE_layer_collection_get_active] *)
Definition BKE_layer_collection_get_active (view_layer : ViewLayer) : option nat :=
  active_collection view_layer.

(** [BKE_layer_collection_activate]; [lc] is a node of the view layer. *)
Definition BKE_layer_collection_activate (view_layer : ViewLayer) (lc : LayerCollection)
  : ViewLayer * bool :=
  if flag_test (lc_flag lc) LAYER_COLLECTION_EXCLUDE then (view_layer, false)
  else (set_active_collection (Some (lc_id lc)) view_layer, true).

(** [collection_count] *)
Fixpoint collection_count_nested (lc : LayerCollection) : Z :=
  fold_left (fun i lc => i + (collection_count_nested lc + 1)) (layer_collections lc) 0.

Definition collection_count (lb : list LayerCollection) : Z :=
  fold_left (fun i lc => i + (collection_count_nested lc + 1)) lb 0.

(** [BKE_layer_collection_count] *)
Definition BKE_layer_collection_count (view_layer : ViewLayer) : Z :=
  collection_count (vl_layer_collections view_layer).

Section index_from_body.
Variable index_from_nested : LayerCollection -> nat -> Z -> Z * Z.

(** The loop of [index_from_collection]; [lc] is the address looked for,
    and the counter [*i] goes in and comes out next to the result. *)
Fixpoint index_from_collection_loop (lb : list LayerCollection) (lc : nat) (i : Z) : Z * Z :=
  match lb with
  | [] => (i, -1)
  | lcol :: next =>
      if decide (lc_id lcol = lc) then (i, i)
      else
        let i := i + 1 in
        let '(i, i_nested) := index_from_nested lcol lc i in
        if negb (i_nested =? -1) then (i, i_nested)
        else index_from_collection_loop next lc i
  end.

End index_from_body.

(** The recursive call of [index_from_collection] on
    [&lcol->layer_collections]. *)
Fixpoint index_from_collection_nested (lcol : LayerCollection) (lc : nat) (i : Z) {struct lcol}
  : Z * Z :=
  index_from_collection_loop index_from_collection_nested (layer_collections lcol) lc i.

(** [index_from_collection] *)
Definition index_from_collection (lb : list LayerCollection) (lc : nat) (i : Z) : Z * Z :=
  index_from_collection_loop index_from_collection_nested lb lc i.

(** [BKE_layer_collection_findindex] *)
Definition BKE_layer_collection_findindex (view_layer : ViewLayer) (lc : nat) : Z :=
  let i := 0 in
  (index_from_collection (vl_layer_collections view_layer) lc i).2.

(** ** Syncing the view layers of a scene *)

(** The loop of [BKE_scene_collection_sync] *)
Fixpoint scene_collection_sync_loop (scene : Scene) (heap : nat) (l : list ViewLayer)
  : option (nat * list ViewLayer) :=
  match l with
  | [] => Some (heap, [])
  | view_layer :: next =>
      '(heap, view_layer) ← BKE_layer_collection_sync scene heap view_layer;
      '(heap, next) ← scene_collection_sync_loop scene heap next;
      Some (heap, view_layer :: next)
  end.

(** [BKE_scene_collection_sync]; the sync of a view layer reads the
    collections of the scene only. *)
Definition BKE_scene_collection_sync (scene : Scene) (heap : nat) : option (nat * Scene) :=
  '(heap, l) ← scene_collection_sync_loop scene heap (view_layers scene);
  Some (heap, set_view_layers l scene).

(** ** Selecting the objects of a layer collection *)

Section objects_select.
(** The struct a [Collection *] points to. *)
Variable collection_at : nat -> option Collection.
Variable deselect : bool.

(** The body of the object loop of [BKE_layer_collection_objects_select];
    [None] is a read through a pointer the model has no struct for (a hash
    entry for a base that is not in the base list). *)
Definition objects_select_object (st : ViewLayer * bool) (ob : nat)
  : option (ViewLayer * bool) :=
  let '(view_layer, changed) := st in
  let '(view_layer, base) := BKE_view_layer_base_find view_layer ob in
  match base with
  | Some base =>
      b ← node_at base_id (object_bases view_layer) base;
      if deselect then
        if flag_test (base_flag b) BASE_SELECTED then
          Some (set_object_bases
                  (base_flag_update base (fun f => Z.land f (Z.lnot BASE_SELECTED))
                     (object_bases view_layer))
                  view_layer,
                true)
        else Some (view_layer, changed)
      else
        if flag_test (base_flag b) BASE_SELECTABLED
           && negb (flag_test (base_flag b) BASE_SELECTED) then
          Some (set_object_bases
                  (base_flag_update base (fun f => Z.lor f BASE_SELECTED)
                     (object_bases view_layer))
                  view_layer,
                true)
        else Some (view_layer, changed)
  | None => Some (view_layer, changed)
  end.

Fixpoint objects_select_objects (st : ViewLayer * bool) (gobject_ : list nat)
  : option (ViewLayer * bool) :=
  match gobject_ with
  | [] => Some st
  | ob :: next =>
      st ← objects_select_object st ob;
      objects_select_objects st next
  end.

Section objects_select_body.
Variable objects_select : ViewLayer -> LayerCollection -> option (ViewLayer * bool).

(** The loop over [lc->layer_collections]: [changed |= ...]. *)
Fixpoint objects_select_children (st : ViewLayer * bool) (l : list LayerCollection)
  : option (ViewLayer * bool) :=
  match l with
  | [] => Some st
  | iter :: next =>
      let '(view_layer, changed) := st in
      '(view_layer, changed_iter) ← objects_select view_layer iter;
      objects_select_children (view_layer, orb changed changed_iter) next
  end.

End objects_select_body.

(** [BKE_layer_collection_objects_select]; [lc] is a node of the layer
    tree of the view layer, which the function does not change.  [None] is
    a read through [lc->collection] when the model has no struct for it. *)
Fixpoint BKE_layer_collection_objects_select (view_layer : ViewLayer) (lc : LayerCollection)
  {struct lc} : option (ViewLayer * bool) :=
  c ← collection lc;
  lc_collection ← collection_at c;
  if flag_test (col_flag lc_collection) COLLECTION_RESTRICT_SELECT then
    Some (view_layer, false)
  else
    let changed := false in
    st ← (if negb (flag_test (lc_flag lc) LAYER_COLLECTION_EXCLUDE)
          then objects_select_objects (view_layer, changed) (gobject lc_collection)
          else Some (view_layer, changed));
    objects_select_children BKE_layer_collection_objects_select st (layer_collections lc).

End objects_select.

(** ** Override sets *)

(** [BKE_view_layer_override_set_add]: the new set, zeroed but for its
    flag, at the next unused address.  (The name of a set is not part of the
    model.) *)
Definition BKE_view_layer_override_set_add (heap : nat) (view_layer : ViewLayer)
  : nat * ViewLayer * OverrideSet :=
  let override_set := mkOverrideSet heap DYN_OVERRIDE_SET_USE [] 0 [] [] in
  let sets := override_sets view_layer ++ [override_set] in
  (S heap, set_override_sets sets (BLI_listbase_count sets - 1) view_layer, override_set).

(** [BKE_view_layer_override_set_collection_link]; [BLI_genericNodeN]
    allocates the link. *)
Definition BKE_view_layer_override_set_collection_link (heap : nat)
  (override_set : OverrideSet) (collection_ : nat) : nat * OverrideSet * bool :=
  (* We don't support duplicated collections in the override set. *)
  match affected_collection_find (affected_collections override_set) collection_ with
  | Some _ => (heap, override_set, false)
  | None =>
      (S heap,
       mkOverrideSet (override_set_id override_set) (override_set_flag override_set)
         (affected_collections override_set ++ [mkLinkData heap collection_])
         (active_affected_collection override_set)
         (scene_properties override_set) (collection_properties override_set),
       true)
  end.

(** [BKE_view_layer_override_property_remove]; [dyn_prop] is the address
    of the property. *)
Definition BKE_view_layer_override_property_remove (override_set : OverrideSet)
  (dyn_prop : nat) : bool * OverrideSet :=
  let '(ok, scene_properties_) :=
    BLI_remlink_safe dyn_prop_id (scene_properties override_set) dyn_prop in
  let '(ok, collection_properties_) :=
    if negb ok
    then BLI_remlink_safe dyn_prop_id (collection_properties override_set) dyn_prop
    else (ok, collection_properties override_set) in
  let override_set :=
    mkOverrideSet (override_set_id override_set) (override_set_flag override_set)
      (affected_collections override_set) (active_affected_collection override_set)
      scene_properties_ collection_properties_ in
  if negb ok then
    (* Something went wrong. *)
    (false, override_set)
  else (true, override_set).

(** ** The flag-filtered iterators *)

(** What [iter->current] points to: a base for the iterators over bases,
    an object for the iterators over objects. *)
Inductive IteratorCurrent :=
| current_null
| current_base (base : Base)
| current_object (ob : nat).

(** The [BLI_Iterator] of the iterators over the base list.  A pointer
    into the list is kept as what the code reads through it: [bi_data] is the
    chain that starts at the base [iter->data] points to. *)
Record BasesIterator := mkBasesIterator {
  bi_data : list Base;
  bi_current : IteratorCurrent;
  bi_valid : bool
}.

(** The [while] loop of [object_bases_iterator_next] from [base]. *)
Fixpoint object_bases_iterator_search (it : BasesIterator) (flag : Z) (base : list Base)
  : BasesIterator :=
  match base with
  | [] => mkBasesIterator (bi_data it) (bi_current it) false
  | b :: next =>
      if negb (Z.land (base_flag b) flag =? 0)
      then mkBasesIterator base (current_base b) (bi_valid it)
      else object_bases_iterator_search it flag next
  end.

(** [object_bases_iterator_next]; [None] is the read of [->next] through
    an [iter->data] that points to no base. *)
Definition object_bases_iterator_next (it : BasesIterator) (flag : Z)
  : option BasesIterator :=
  match bi_data it with
  | [] => None
  | _ :: base => Some (object_bases_iterator_search it flag base)
  end.

(** [object_bases_iterator_begin] on a fresh iterator ([valid] set, as the
    iterator macro does). *)
Definition object_bases_iterator_begin (view_layer : ViewLayer) (flag : Z)
  : option BasesIterator :=
  let it := mkBasesIterator [] current_null true in
  match object_bases view_layer with
  | [] =>
      (* when there are no objects *)
      Some (mkBasesIterator (bi_data it) (bi_current it) false)
  | base :: _ =>
      let it := mkBasesIterator (object_bases view_layer) (bi_current it) (bi_valid it) in
      if Z.land (base_flag base) flag =? 0 then object_bases_iterator_next it flag
      else Some (mkBasesIterator (bi_data it) (current_base base) (bi_valid it))
  end.

(** [iter->current = ((Base * )iter->current)->object] when the iterator
    is valid; [None] when [iter->current] is not a base. *)
Definition objects_iterator_current (it : BasesIterator) : option BasesIterator :=
  if bi_valid it then
    match bi_current it with
    | current_base base =>
        Some (mkBasesIterator (bi_data it) (current_object (object base)) (bi_valid it))
    | _ => None
    end
  else Some it.

(** [objects_iterator_begin] and [objects_iterator_next] *)
Definition objects_iterator_begin (view_layer : ViewLayer) (flag : Z) : option BasesIterator :=
  it ← object_bases_iterator_begin view_layer flag;
  objects_iterator_current it.

Definition objects_iterator_next (it : BasesIterator) (flag : Z) : option BasesIterator :=
  it ← object_bases_iterator_next it flag;
  objects_iterator_current it.

(** [BKE_view_layer_selected_objects_iterator_begin] and [_next] *)
Definition BKE_view_layer_selected_objects_iterator_begin (view_layer : ViewLayer)
  : option BasesIterator :=
  objects_iterator_begin view_layer BASE_SELECTED.

Definition BKE_view_layer_selected_objects_iterator_next (it : BasesIterator)
  : option BasesIterator :=
  objects_iterator_next it BASE_SELECTED.

(** [BKE_view_layer_visible_objects_iterator_begin] and [_next] *)
Definition BKE_view_layer_visible_objects_iterator_begin (view_layer : ViewLayer)
  : option BasesIterator :=
  objects_iterator_begin view_layer BASE_VISIBLED.

Definition BKE_view_layer_visible_objects_iterator_next (it : BasesIterator)
  : option BasesIterator :=
  objects_iterator_next it BASE_VISIBLED.

(** [BKE_view_layer_selected_bases_iterator_begin] and [_next] *)
Definition BKE_view_layer_selected_bases_iterator_begin (view_layer : ViewLayer)
  : option BasesIterator :=
  object_bases_iterator_begin view_layer BASE_SELECTED.

Definition BKE_view_layer_selected_bases_iterator_next (it : BasesIterator)
  : option BasesIterator :=
  object_bases_iterator_next it BASE_SELECTED.

(** [BKE_view_layer_visible_bases_iterator_begin] and [_next] *)
Definition BKE_view_layer_visible_bases_iterator_begin (view_layer : ViewLayer)
  : option BasesIterator :=
  object_bases_iterator_begin view_layer BASE_VISIBLED.

Definition BKE_view_layer_visible_bases_iterator_next (it : BasesIterator)
  : option BasesIterator :=
  object_bases_iterator_next it BASE_VISIBLED.

Section selected_editable.
(** [BKE_object_is_libdata], which is not part of the sources. *)
Variable BKE_object_is_libdata : nat -> bool.

Definition current_is_libdata (it : BasesIterator) : bool :=
  match bi_current it with
  | current_object ob => BKE_object_is_libdata ob
  | _ => false
  end.

(** The [do ... while] loop of
    [BKE_view_layer_selected_editable_objects_iterator_next]: every round
    moves [iter->data] down the chain, so [fuel] rounds are enough when the
    chain has no more than [fuel] bases. *)
Fixpoint selected_editable_objects_loop (fuel : nat) (it : BasesIterator)
  : option BasesIterator :=
  it ← objects_iterator_next it BASE_SELECTED;
  if bi_valid it && current_is_libdata it then
    match fuel with
    | O => None
    | S fuel => selected_editable_objects_loop fuel it
    end
  else Some it.

(** [BKE_view_layer_selected_editable_objects_iterator_next] *)
Definition BKE_view_layer_selected_editable_objects_iterator_next (it : BasesIterator)
  : option BasesIterator :=
  (* Search while there are objects and the one we have is not editable. *)
  selected_editable_objects_loop (length (bi_data it)) it.

(** [BKE_view_layer_selected_editable_objects_iterator_begin] *)
Definition BKE_view_layer_selected_editable_objects_iterator_begin (view_layer : ViewLayer)
  : option BasesIterator :=
  it ← objects_iterator_begin view_layer BASE_SELECTED;
  if bi_valid it then
    if negb (current_is_libdata it) then
      (* First object is valid (selectable and not libdata) -> all good. *)
      Some it
    else
      (* Object is selectable but not editable -> search for another one. *)
      BKE_view_layer_selected_editable_objects_iterator_next it
  else Some it.

End selected_editable.

(** ** The bases in the mode of the active base *)

(** [ObjectsInModeIteratorData] with the iterator: [mode_base_active] is
    the struct [data->base_active] points to, [mode_current] the base
    [iter->current] points to and [mode_next] the chain that starts at its
    [->next], which the code reads for a base of the list only. *)
Record ObjectsInModeIterator := mkObjectsInModeIterator {
  mode_object_mode : Z;
  mode_view_layer : ViewLayer;
  mode_base_active : option Base;
  mode_current : option Base;
  mode_next : list Base;
  mode_valid : bool
}.

Section bases_in_mode.
(** [Object->type] and [Object->mode] of every object. *)
Variable ob_type : nat -> Z.
Variable ob_mode : nat -> Z.

(** [BKE_view_layer_bases_in_mode_iterator_begin] on a fresh iterator. *)
Definition BKE_view_layer_bases_in_mode_iterator_begin (object_mode : Z)
  (view_layer : ViewLayer) (base_active : option Base) : ObjectsInModeIterator :=
  match base_active with
  | None =>
      (* when there are no objects *)
      mkObjectsInModeIterator object_mode view_layer base_active None [] false
  | Some base => mkObjectsInModeIterator object_mode view_layer base_active (Some base) [] true
  end.

(** The [while] loop of [BKE_view_layer_bases_in_mode_iterator_next]. *)
Fixpoint bases_in_mode_search (it : ObjectsInModeIterator) (base_active : Base)
  (base : list Base) : ObjectsInModeIterator :=
  match base with
  | [] =>
      mkObjectsInModeIterator (mode_object_mode it) (mode_view_layer it)
        (mode_base_active it) (mode_current it) (mode_next it) false
  | b :: next =>
      if negb (Z.land (base_flag b) BASE_SELECTED =? 0)
         && (ob_type (object b) =? ob_type (object base_active))
         && negb (bool_decide (base_id b = base_id base_active))
         && negb (Z.land (ob_mode (object b)) (mode_object_mode it) =? 0)
      then
        mkObjectsInModeIterator (mode_object_mode it) (mode_view_layer it)
          (mode_base_active it) (Some b) next (mode_valid it)
      else bases_in_mode_search it base_active next
  end.

(** [BKE_view_layer_bases_in_mode_iterator_next]; [None] is a read through
    [NULL]. *)
Definition BKE_view_layer_bases_in_mode_iterator_next (it : ObjectsInModeIterator)
  : option ObjectsInModeIterator :=
  base ← mode_current it;
  base_active ← mode_base_active it;
  let base :=
    if bool_decide (base_id base = base_id base_active) then
      (* first step *)
      match object_bases (mode_view_layer it) with
      | first :: next =>
          if bool_decide (base_id first = base_id base_active) then next else first :: next
      | [] => []
      end
    else mode_next it in
  Some (bases_in_mode_search it base_active base).

End bases_in_mode.

(** ** Evaluation *)

(** The mode [DEG_get_mode] answers for the depsgraph, which is not part
    of the sources: the viewport mode or another one. *)
Inductive eEvaluationMode := DAG_EVAL_VIEWPORT | DAG_EVAL_RENDER.

Section eval_view_layer.
(** A bit of [ViewLayer->flag] declared in [DNA_layer_types.h]. *)
Variable VIEW_LAYER_ENGINE_DIRTY : Z.

(** [BKE_layer_eval_view_layer] for a depsgraph in the mode [mode]. *)
Definition BKE_layer_eval_view_layer (mode : eEvaluationMode) (view_layer : ViewLayer)
  : ViewLayer :=
  (* Set visibility based on depsgraph mode. *)
  let base_flag_ :=
    match mode with
    | DAG_EVAL_VIEWPORT => BASE_VISIBLE_VIEWPORT
    | _ => BASE_VISIBLE_RENDER
    end in
  let view_layer :=
    set_object_bases
      ((fun base =>
          if flag_test (base_flag base) base_flag_
          then set_base_flag (Z.lor (base_flag base) BASE_VISIBLED) base
          else set_base_flag (Z.land (base_flag base) (Z.lnot BASE_VISIBLED)) base)
         <$> object_bases view_layer)
      view_layer in
  let view_layer := set_vl_flag (Z.lor (vl_flag view_layer) VIEW_LAYER_ENGINE_DIRTY) view_layer in
  (* Create array of bases, for fast index-based lookup. *)
  let view_layer := set_object_bases_array None view_layer in
  let view_layer :=
    set_object_bases
      ((fun base =>
          (* if base is not selectabled, clear select. *)
          if Z.land (base_flag base) BASE_SELECTABLED =? 0
          then set_base_flag (Z.land (base_flag base) (Z.lnot BASE_SELECTED)) base
          else base)
         <$> object_bases view_layer)
      view_layer in
  (* Store base in the array. *)
  set_object_bases_array (Some (base_id <$> object_bases view_layer)) view_layer.

(** [BKE_layer_eval_view_layer_indexed]; [None] when [BLI_findlink] finds
    no view layer at the index. *)
Definition BKE_layer_eval_view_layer_indexed (mode : eEvaluationMode) (scene : Scene)
  (view_layer_index : Z) : option Scene :=
  if view_layer_index <? 0 then None
  else
    view_layer ← view_layers scene !! Z.to_nat view_layer_index;
    Some (set_view_layers
            (<[Z.to_nat view_layer_index := BKE_layer_eval_view_layer mode view_layer]>
               (view_layers scene))
            scene).

End eval_view_layer.

End LayerQueries.

(** * Vocabulary of the properties *)

(** The layer list [lb_layer] mirrors the scene list [lb_scene]: node by
    node in the same order, each node pointing to its collection, at every
    level. *)
Inductive mirrors : list Collection -> list LayerCollection -> Prop :=
| mirrors_nil : mirrors [] []
| mirrors_cons child lc lb_scene lb_layer :
    collection lc = Some (col_id child) ->
    mirrors (children child) (layer_collections lc) ->
    mirrors lb_scene lb_layer ->
    mirrors (child :: lb_scene) (lc :: lb_layer).

(** What the assertion at the end of [layer_collection_sync] tests, at this
    level and at every level below. *)
Inductive counts_agree : list Collection -> list LayerCollection -> Prop :=
| counts_agree_level lb_scene lb_layer :
    BLI_listbase_count lb_scene = BLI_listbase_count lb_layer ->
    (forall (i : nat) child lc,
        lb_scene !! i = Some child -> lb_layer !! i = Some lc ->
        counts_agree (children child) (layer_collections lc)) ->
    counts_agree lb_scene lb_layer.

Section Vocabulary.
Context {flags : DNA_flags}.

(** *** Paths to objects *)

(** The restriction bits accumulated along a path of collections, from the
    scene's root list down: what [layer_collection_sync] holds in
    [child_restrict] when it works on the last collection of the path. *)
Definition path_restrict (path : list Collection) : Z :=
  fold_left child_restrict_of path 0.

(** The bits one path grants to the base of an object it reaches. *)
Definition path_grant (restrict : Z) : Z :=
  Z.lor
    (if flag_test restrict COLLECTION_RESTRICT_VIEW then 0
     else Z.lor (Z.lor BASE_VISIBLED BASE_VISIBLE_VIEWPORT)
            (if flag_test restrict COLLECTION_RESTRICT_SELECT then 0 else BASE_SELECTABLED))
    (if flag_test restrict COLLECTION_RESTRICT_RENDER then 0 else BASE_VISIBLE_RENDER).

Section paths_loop.
Variable child_paths :
  Collection -> LayerCollection -> list Collection -> list (nat * list Collection).

Fixpoint layer_paths_loop (lb_scene : list Collection) (lb_layer : list LayerCollection)
  (prefix : list Collection) : list (nat * list Collection) :=
  match lb_scene, lb_layer with
  | child :: lb_scene, lc :: lb_layer =>
      child_paths child lc prefix ++ layer_paths_loop lb_scene lb_layer prefix
  | _, _ => []
  end.

End paths_loop.

(** The paths through [child] and its layer collection [lc]: those that go
    on into the children, whether [lc] is excluded or not, then, unless [lc]
    is excluded, one path to each object of [child] itself. *)
Fixpoint layer_child_paths (child : Collection) (lc : LayerCollection)
  (prefix : list Collection) {struct child} : list (nat * list Collection) :=
  layer_paths_loop layer_child_paths (children child) (layer_collections lc)
    (prefix ++ [child]) ++
  (if flag_test (lc_flag lc) LAYER_COLLECTION_EXCLUDE then []
   else (fun ob => (ob, prefix ++ [child])) <$> gobject child).

(** The non-excluded paths from a scene list with its layer list to
    objects: each is an object with the collections passed on the way, the
    last of which holds the object and has a layer collection that is not
    excluded. *)
Definition layer_paths (lb_scene : list Collection) (lb_layer : list LayerCollection)
  (prefix : list Collection) : list (nat * list Collection) :=
  layer_paths_loop layer_child_paths lb_scene lb_layer prefix.

(** The union of the bits granted by the paths that reach [ob]. *)
Fixpoint paths_grant (paths : list (nat * list Collection)) (ob : nat) : Z :=
  match paths with
  | [] => 0
  | (ob', path) :: paths =>
      Z.lor (if decide (ob' = ob) then path_grant (path_restrict path) else 0)
        (paths_grant paths ob)
  end.

(** The restriction bit of a collection that withholds a bit of a base. *)
Inductive withheld_by : Z -> Z -> Prop :=
| view_withholds_visibled : withheld_by COLLECTION_RESTRICT_VIEW BASE_VISIBLED
| view_withholds_viewport : withheld_by COLLECTION_RESTRICT_VIEW BASE_VISIBLE_VIEWPORT
| view_withholds_selectabled : withheld_by COLLECTION_RESTRICT_VIEW BASE_SELECTABLED
| select_withholds_selectabled : withheld_by COLLECTION_RESTRICT_SELECT BASE_SELECTABLED
| render_withholds_render : withheld_by COLLECTION_RESTRICT_RENDER BASE_VISIBLE_RENDER.

(** A path passes through a collection, not a master collection, that
    carries a restriction which withholds [base_bit]. *)
Definition path_withholds (path : list Collection) (base_bit : Z) : Prop :=
  exists c restrict_bit,
    c ∈ path /\ Z.land (col_flag c) COLLECTION_IS_MASTER = 0 /\
    withheld_by restrict_bit base_bit /\ Z.land (col_flag c) restrict_bit <> 0.

(** *** The layer collections a sync keeps and adds *)

(** Where the layer collections of a list come from after a sync over the
    scene list [lb_scene], [old] being the list before the sync: the node of
    a child is the first node of [old] that points to the child's collection
    and is not the node of an earlier child, with its address and its flag
    word; when [old] has no such node, it is a new node whose flag word is
    [parent_exclude], the flag word of the node above.  The same holds below
    every node, with the flag word of the node as [parent_exclude] and the
    children it had as [old]. *)
Inductive synced_nodes (parent_exclude : Z)
  : list Collection -> list LayerCollection -> list LayerCollection -> Prop :=
| synced_nodes_nil old : synced_nodes parent_exclude [] old []
| synced_nodes_kept child lb_scene old before lc after lc' lb_layer :
    old = before ++ lc :: after ->
    collection lc = Some (col_id child) ->
    (forall x, x ∈ before -> collection x <> Some (col_id child)) ->
    lc_id lc' = lc_id lc ->
    collection lc' = Some (col_id child) ->
    lc_flag lc' = lc_flag lc ->
    synced_nodes (lc_flag lc) (children child) (layer_collections lc)
      (layer_collections lc') ->
    synced_nodes parent_exclude lb_scene (before ++ after) lb_layer ->
    synced_nodes parent_exclude (child :: lb_scene) old (lc' :: lb_layer)
| synced_nodes_added child lb_scene old lc' lb_layer :
    (forall x, x ∈ old -> collection x <> Some (col_id child)) ->
    collection lc' = Some (col_id child) ->
    lc_flag lc' = parent_exclude ->
    synced_nodes parent_exclude (children child) [] (layer_collections lc') ->
    synced_nodes parent_exclude lb_scene old lb_layer ->
    synced_nodes parent_exclude (child :: lb_scene) old (lc' :: lb_layer).

(** *** Consistency of the base registry *)

(** The base registry of a view layer is consistent: no object and no
    address occurs twice in the base list, the addresses have been handed out
    by the allocator, and the hash, when it exists, maps exactly the objects
    of the list to the addresses of their bases. *)
Definition bases_consistent (heap : nat) (view_layer : ViewLayer) : Prop :=
  NoDup (object <$> object_bases view_layer) /\
  NoDup (base_id <$> object_bases view_layer) /\
  (forall base, base ∈ object_bases view_layer -> (base_id base < heap)%nat) /\
  (forall hash, object_bases_hash view_layer = Some hash ->
   forall ob a, hash !! ob = Some a <->
     exists base, base ∈ object_bases view_layer /\ object base = ob /\ base_id base = a).

(** *** The state of the object loop *)

(** All bases of a sync in progress: those still in the old list and those
    moved to or created in the new list. *)
Definition sync_bases (s : SyncState) : list Base :=
  object_bases (ss_view_layer s) ++ ss_new_object_bases s.

Definition sync_inv (s : SyncState) : Prop :=
  NoDup (object <$> sync_bases s) /\
  NoDup (base_id <$> sync_bases s) /\
  (forall base, base ∈ sync_bases s -> (base_id base < ss_heap s)%nat) /\
  (forall ob a, bases_hash (ss_view_layer s) !! ob = Some a <->
     exists base, base ∈ sync_bases s /\ object base = ob /\ base_id base = a).

(** Where the object loop leaves the base of [ob] in the sequence of
    objects of [new_object_bases]: at the tail when it was not there yet, in
    place when it is the first or the last, moved to the tail otherwise. *)
Definition place (obs : list nat) (ob : nat) : list nat :=
  if bool_decide (ob ∈ obs) then
    if bool_decide (head obs = Some ob \/ last obs = Some ob) then obs
    else BLI_remlink (fun o => o) obs ob ++ [ob]
  else obs ++ [ob].

(** The union of the bits granted by the visits of [ob] in a sequence of
    visits, each an object with the restriction bits of the visit. *)
Fixpoint visits_grant (visits : list (nat * Z)) (ob : nat) : Z :=
  match visits with
  | [] => 0
  | (ob', restrict) :: visits =>
      Z.lor (if decide (ob' = ob) then path_grant restrict else 0) (visits_grant visits ob)
  end.

Definition base_granted (visits : list (nat * Z)) (base : Base) : Base :=
  set_base_flag (Z.lor (base_flag base) (visits_grant visits (object base))) base.

(** The effect of a sequence of visits of the object loop on the bases. *)
Record visited (visits : list (nat * Z)) (s s' : SyncState) : Prop := mk_visited {
  visited_order :
    object <$> ss_new_object_bases s'
    = fold_left place visits.*1 (object <$> ss_new_object_bases s);
  visited_kept :
    forall base, base ∈ sync_bases s -> base_granted visits base ∈ sync_bases s';
  visited_origin :
    forall base', base' ∈ sync_bases s' ->
      (exists base, base ∈ sync_bases s /\ base' = base_granted visits base) \/
      (object base' ∈ visits.*1 /\ (object base' ∉ object <$> sync_bases s) /\
       (ss_heap s <= base_id base' < ss_heap s')%nat /\
       base_flag base' = visits_grant visits (object base'));
  visited_heap : (ss_heap s <= ss_heap s')%nat
}.

(** Only the layer collection list and the active collection of the view
    layer changed. *)
Definition tree_only (v v' : ViewLayer) : Prop :=
  v' = set_active_collection (active_collection v')
         (set_layer_collections (vl_layer_collections v') v).

(** A step of the sync that works on the layer collections only. *)
Definition tree_step (s s' : SyncState) : Prop :=
  tree_only (ss_view_layer s) (ss_view_layer s') /\
  ss_new_object_bases s' = ss_new_object_bases s /\
  (ss_heap s <= ss_heap s')%nat.

(** The visits of the paths: each object with the restriction bits
    accumulated along its path. *)
Definition path_visits (paths : list (nat * list Collection)) : list (nat * Z) :=
  (fun p => (p.1, path_restrict p.2)) <$> paths.

(** *** The nodes of a layer tree *)

(** The nodes of the tree below and with [lc], parents first. *)
Fixpoint layer_tree_nodes (lc : LayerCollection) : list LayerCollection :=
  lc :: concat (layer_tree_nodes <$> layer_collections lc).

(** The nodes of the trees of a layer list. *)
Definition layer_nodes (l : list LayerCollection) : list LayerCollection :=
  concat (layer_tree_nodes <$> l).

(** The active collection designates a node of the layer tree. *)
Definition active_in_tree (view_layer : ViewLayer) : Prop :=
  exists lc, (lc ∈ layer_nodes (vl_layer_collections view_layer)) /\
             active_collection view_layer = Some (lc_id lc).

(** *** The traversal of the renderable objects *)

(** A scene followed by its background sets. *)
Fixpoint scene_chain (scene : Scene) : list Scene :=
  scene :: match scene_set scene with
           | Some set_ => scene_chain set_
           | None => []
           end.

Definition option_chain (set_ : option Scene) : list Scene :=
  match set_ with
  | Some scene => scene_chain scene
  | None => []
  end.

(** The bases of the default render view layer of a scene. *)
Definition default_render_bases (scene : Scene) : list Base :=
  match BKE_view_layer_default_render scene with
  | Some view_layer => object_bases view_layer
  | None => []
  end.

Definition render_view_layers (l : list ViewLayer) : list ViewLayer :=
  List.filter (fun view_layer => flag_test (vl_flag view_layer) VIEW_LAYER_RENDER) l.

(** The bases the traversal goes over, in order: those of the first view
    layer of the scene, those of each later view layer of the scene flagged
    [VIEW_LAYER_RENDER], then those of the default render view layer of the
    scene and of each of its background sets. *)
Definition renderable_bases (scene : Scene) : list Base :=
  concat (object_bases <$> take 1 (view_layers scene)) ++
  concat (object_bases <$> render_view_layers (tail (view_layers scene))) ++
  concat (default_render_bases <$> scene_chain scene).

(** The objects of a sequence of bases whose first base, among those of
    objects not in [seen], has [BASE_VISIBLED]: each once, in the order of
    these first bases. *)
Fixpoint first_visible (seen : list nat) (bases : list Base) : list nat :=
  match bases with
  | [] => []
  | base :: bases =>
      if bool_decide (object base ∈ seen) then first_visible seen bases
      else
        (if flag_test (base_flag base) BASE_VISIBLED then [object base] else []) ++
        first_visible (object base :: seen) bases
  end.

(** A number of steps that ends the traversal of a scene. *)
Definition renderable_steps (scene : Scene) : nat :=
  length (renderable_bases scene) + length (render_view_layers (tail (view_layers scene))) +
  length (scene_chain scene) + 2.

(** The bases an iterator still has to go over. *)
Definition iter_remaining (it : RenderableIterator) : list Base :=
  iter_base_next it ++
  match iter_set it with
  | None =>
      concat (object_bases <$> render_view_layers (tail (iter_view_layer it))) ++
      concat (default_render_bases <$> scene_chain (data_scene it))
  | Some set_ => concat (default_render_bases <$> option_chain set_)
  end.

(** A bound on the steps an iterator still takes. *)
Definition iter_steps (it : RenderableIterator) : nat :=
  length (iter_remaining it) +
  match iter_set it with
  | None =>
      length (render_view_layers (tail (iter_view_layer it))) +
      length (scene_chain (data_scene it)) + 2
  | Some set_ => length (option_chain set_) + 1
  end.

(** The pointers of the iterator that the next steps read through are not
    [NULL]. *)
Definition iter_wf (it : RenderableIterator) : Prop :=
  match iter_set it with
  | None =>
      iter_view_layer it <> [] /\
      forall scene, scene ∈ scene_chain (data_scene it) -> view_layers scene <> []
  | Some set_ => forall scene, scene ∈ option_chain set_ -> view_layers scene <> []
  end.

(** What the steps over a sequence of bases yield from the tags [flags]: the
    object of a base when it is tagged and the base has [BASE_VISIBLED]; the
    tag goes with the first base of the object. *)
Fixpoint iter_yields (flags : nat -> Z) (bases : list Base) : list nat :=
  match bases with
  | [] => []
  | base :: bases =>
      if flag_test (flags (object base)) LIB_TAG_DOIT then
        (if flag_test (base_flag base) BASE_VISIBLED then [object base] else []) ++
        iter_yields
          (id_flag_update (object base) (fun f => Z.land f (Z.lnot LIB_TAG_DOIT)) flags) bases
      else iter_yields flags bases
  end.

(** The rest of a traversal from an iterator whose current step has been
    dealt with. *)
Definition renderable_objects_next (fuel : nat) (it : RenderableIterator)
  : option (list nat) :=
  it' ← BKE_view_layer_renderable_objects_iterator_next it;
  renderable_objects_from fuel it'.

(** The addresses of the nodes of the trees of a layer list. *)
Definition layer_ids (l : list LayerCollection) : list nat := lc_id <$> layer_nodes l.

(** No two sibling nodes point to the same collection, at any level. *)
Definition distinct_siblings (l : list LayerCollection) : Prop :=
  NoDup (collection <$> l) /\
  forall lc, lc ∈ layer_nodes l -> NoDup (collection <$> layer_collections lc).

(** The active collection after the nodes at the addresses [freed] were
    freed while the root list of the view layer was empty. *)
Definition active_without (freed : list nat) (active : option nat) : option nat :=
  match active with
  | Some a => if bool_decide (a ∈ freed) then None else Some a
  | None => None
  end.

(** The layer tree of a view layer as a sync of the scene with the master
    collection [master] left it, or as it is before the first sync: the root
    list is empty or holds the layer collection of the master collection
    only; no two siblings point to the same collection; the nodes have
    distinct addresses, handed out by the allocator; and the active
    collection is null or designates a node of the tree. *)
Record layer_tree_ok (heap : nat) (master : Collection) (view_layer : ViewLayer) : Prop :=
  mk_layer_tree_ok {
  tree_ok_root :
    vl_layer_collections view_layer = [] \/
    exists lc, vl_layer_collections view_layer = [lc] /\ collection lc = Some (col_id master);
  tree_ok_siblings : distinct_siblings (vl_layer_collections view_layer);
  tree_ok_ids : NoDup (layer_ids (vl_layer_collections view_layer));
  tree_ok_heap :
    forall a, a ∈ layer_ids (vl_layer_collections view_layer) -> (a < heap)%nat;
  tree_ok_active : active_collection view_layer = None \/ active_in_tree view_layer
}.



(** The account of the nodes of a layer list [old] over a step of the sync
    from [s] to [s'] that leaves the list [new], made while the root list of
    the view layer is empty: the nodes at the addresses [freed] were freed,
    which resets the active collection when it is one of them; a node of
    [new] is a node of [old] that was not freed or has a new address; and,
    when the step is [complete], every node of [old] was freed or is in
    [new]. *)
Record tree_accounts (complete : Prop) (old : list LayerCollection) (s s' : SyncState)
  (new : list LayerCollection) (freed : list nat) : Prop := mk_tree_accounts {
  accounts_roots : vl_layer_collections (ss_view_layer s') = [];
  accounts_active :
    active_collection (ss_view_layer s')
    = active_without freed (active_collection (ss_view_layer s));
  accounts_heap : (ss_heap s <= ss_heap s')%nat;
  accounts_freed : forall a, a ∈ freed -> a ∈ layer_ids old;
  accounts_new :
    forall a, a ∈ layer_ids new ->
      (a ∈ layer_ids old /\ (NoDup (layer_ids old) -> a ∉ freed)) \/
      (ss_heap s <= a < ss_heap s')%nat;
  accounts_complete :
    complete -> forall a, a ∈ layer_ids old -> a ∈ freed \/ a ∈ layer_ids new
}.

(** The account of the second loop of a call on the child list [cur] of a
    node, and the account of a whole call. *)
Definition loop_accounts (lb_scene : list Collection) : Prop :=
  forall parent_exclude parent_restrict s cur new_lb_layer,
    vl_layer_collections (ss_view_layer s) = [] ->
    let st := layer_collection_sync_loop layer_collection_sync_child lb_scene
                (s, lb_local cur, new_lb_layer) parent_exclude parent_restrict in
    exists added freed,
      st.2 = new_lb_layer ++ added /\
      tree_accounts
        (distinct_siblings cur /\
         forall lc, lc ∈ cur -> scene_child_find lb_scene (collection lc) = true)
        cur s st.1.1 added freed.

Definition call_accounts (lb_scene : list Collection) : Prop :=
  forall parent_exclude parent_restrict s l,
    vl_layer_collections (ss_view_layer s) = [] ->
    let r := layer_collection_sync lb_scene s (lb_local l) parent_exclude parent_restrict in
    exists freed, tree_accounts (distinct_siblings l) l s r.1 r.2 freed.



(** The account of the addresses: from a list without an address twice,
    all handed out by the allocator, the second loop and the whole call leave
    a list without an address twice. *)
Definition loop_distinct (lb_scene : list Collection) : Prop :=
  forall parent_exclude parent_restrict s cur new_lb_layer,
    vl_layer_collections (ss_view_layer s) = [] ->
    NoDup (layer_ids cur) ->
    (forall a, a ∈ layer_ids cur -> (a < ss_heap s)%nat) ->
    let st := layer_collection_sync_loop layer_collection_sync_child lb_scene
                (s, lb_local cur, new_lb_layer) parent_exclude parent_restrict in
    forall added, st.2 = new_lb_layer ++ added -> NoDup (layer_ids added).

Definition call_distinct (lb_scene : list Collection) : Prop :=
  forall parent_exclude parent_restrict s l,
    vl_layer_collections (ss_view_layer s) = [] ->
    NoDup (layer_ids l) ->
    (forall a, a ∈ layer_ids l -> (a < ss_heap s)%nat) ->
    NoDup (layer_ids (layer_collection_sync lb_scene s (lb_local l) parent_exclude
                        parent_restrict).2).

(** The collections of the trees of a scene list, and scene lists in which
    no collection is linked twice below the same parent. *)
Fixpoint collection_tree_nodes (c : Collection) : list Collection :=
  c :: concat (collection_tree_nodes <$> children c).

Definition collection_nodes (l : list Collection) : list Collection :=
  concat (collection_tree_nodes <$> l).


(** The list reference of a call on the child list of a node. *)
Definition is_local (lb_layer : ListRef) : Prop := exists l, lb_layer = lb_local l.




End Vocabulary.

(** ** Vocabulary of the lookups, the selection and the traversals *)

Section QueriesVocabulary.
Context {flags : DNA_flags}.

(** The properties of the override sets of a view layer, scene properties
    and collection properties alike. *)
Definition view_layer_properties (view_layer : ViewLayer) : list DynamicOverrideProperty :=
  concat ((fun override_set =>
             scene_properties override_set ++ collection_properties override_set)
            <$> override_sets view_layer).

(** *** Traversals *)

(** A full traversal with an iterator over the base list: after begin,
    next until the iterator is not valid, collecting [iter->current] of every
    step.  [None] when [fuel] steps do not reach the end or a step reads
    through a pointer the model has no struct for. *)
Fixpoint bases_iterator_from (next : BasesIterator -> option BasesIterator) (fuel : nat)
  (it : BasesIterator) : option (list IteratorCurrent) :=
  if bi_valid it then
    match fuel with
    | O => None
    | S fuel =>
        it' ← next it;
        rest ← bases_iterator_from next fuel it';
        Some (bi_current it :: rest)
    end
  else Some [].

Definition bases_traversal (begin : option BasesIterator)
  (next : BasesIterator -> option BasesIterator) (fuel : nat)
  : option (list IteratorCurrent) :=
  it ← begin;
  bases_iterator_from next fuel it.

(** The bases of a view layer whose flag word has a bit of [flag]. *)
Definition flagged_bases (flag : Z) (view_layer : ViewLayer) : list Base :=
  List.filter (fun base => flag_test (base_flag base) flag) (object_bases view_layer).

(** The same for the iterator over the bases in the mode of the active
    base. *)
Fixpoint bases_in_mode_from (ob_type ob_mode : nat -> Z) (fuel : nat)
  (it : ObjectsInModeIterator) : option (list Base) :=
  if mode_valid it then
    match fuel with
    | O => None
    | S fuel =>
        it' ← BKE_view_layer_bases_in_mode_iterator_next ob_type ob_mode it;
        rest ← bases_in_mode_from ob_type ob_mode fuel it';
        Some (option_list (mode_current it) ++ rest)
    end
  else Some [].

(** A base other than [base_active] that is selected, whose object has the
    type of the object of [base_active] and a mode bit of [object_mode]. *)
Definition in_mode_of (ob_type ob_mode : nat -> Z) (object_mode : Z) (base_active : Base)
  (base : Base) : bool :=
  flag_test (base_flag base) BASE_SELECTED
  && (ob_type (object base) =? ob_type (object base_active))
  && negb (bool_decide (base_id base = base_id base_active))
  && flag_test (ob_mode (object base)) object_mode.

(** *** Selection *)

(** What [BKE_layer_collection_objects_select] may do to a base: nothing,
    or clear [BASE_SELECTED] when it deselects, or set [BASE_SELECTED] on a
    base that is selectable when it selects. *)
Definition selection_step (deselect : bool) (base base' : Base) : Prop :=
  base_id base' = base_id base /\ object base' = object base /\
  (base_flag base' = base_flag base \/
   if deselect then base_flag base' = Z.land (base_flag base) (Z.lnot BASE_SELECTED)
   else flag_test (base_flag base) BASE_SELECTABLED = true /\
        base_flag base' = Z.lor (base_flag base) BASE_SELECTED).

(** Only the hash and the flag words of the bases of the view layer
    changed, each flag word by a [selection_step]. *)
Definition selection_only (deselect : bool) (v v' : ViewLayer) : Prop :=
  v' = set_object_bases_hash (object_bases_hash v')
         (set_object_bases (object_bases v') v) /\
  Forall2 (selection_step deselect) (object_bases v) (object_bases v').

(** *** The fields the sync leaves alone *)

(** The flag word, the array cache, the active base and the override sets
    of the view layer are as they were, and the hash still exists. *)
Definition sync_keeps (v v' : ViewLayer) : Prop :=
  (is_Some (object_bases_hash v) -> is_Some (object_bases_hash v')) /\
  vl_flag v' = vl_flag v /\
  object_bases_array v' = object_bases_array v /\
  basact v' = basact v /\
  override_sets v' = override_sets v /\
  active_override_set v' = active_override_set v.

End QueriesVocabulary.

(** * Concrete inputs

    The scenes and view layers the properties below are run on, with the flag
    values of [blender_flags]. *)

(** A view layer with two bases; the second is not selectable. *)
Definition example_bases_view_layer : ViewLayer :=
  mkViewLayer 0 [] None [mkBase 1 10 4; mkBase 2 11 0] None None None [] 0.

(** An override set list with three sets, the last one active. *)
Definition example_override_view_layer : ViewLayer :=
  mkViewLayer 0 [] None [] None None None
    [mkOverrideSet 5 1 [] 0 [] []; mkOverrideSet 6 1 [] 0 [] []; mkOverrideSet 7 1 [] 0 [] []]
    2.

(** A scene property without an array, and an empty override set. *)
Definition example_rna_property : RNAProperty :=
  mkRNAProperty 3 ID_SCE (Some "frame_start"%string) 0 false PROP_INT [] 0 [] 5 [] 0
    EmptyString 0 None.

Definition example_override_set : OverrideSet := mkOverrideSet 5 1 [] 0 [] [].


(** A scene whose master collection has two children that share the object
    1: [example_hidden], which is restricted in the viewport and also holds
    the object 2, and [example_shown]. *)
Definition example_master_link : CollectionParent := mkCollectionParent 10 [].

Definition example_hidden : Collection :=
  mkCollection 11 COLLECTION_RESTRICT_VIEW [example_master_link] [] [1; 2]%nat.

Definition example_shown : Collection :=
  mkCollection 12 0 [example_master_link] [] [1%nat].

Definition example_master : Collection :=
  mkCollection 10 COLLECTION_IS_MASTER [] [example_hidden; example_shown] [].

Definition example_scene : Scene := mkScene (Some example_master) [] None.

(** A view layer that was never synced. *)
Definition example_new_view_layer : ViewLayer :=
  mkViewLayer 0 [] None [] None None None [] 0.

(** A view layer whose layer collection of [example_outer] is excluded
    while the one of [example_inner] below it is not. *)
Definition example_inner : Collection :=
  mkCollection 13 0 [mkCollectionParent 11 [example_master_link]] [] [2%nat].

Definition example_outer : Collection :=
  mkCollection 11 0 [example_master_link] [example_inner] [1%nat].

Definition example_nested_master : Collection :=
  mkCollection 10 COLLECTION_IS_MASTER [] [example_outer] [].

Definition example_nested_scene : Scene := mkScene (Some example_nested_master) [] None.

Definition example_excluding_view_layer : ViewLayer :=
  mkViewLayer 0
    [mkLayerCollection 0 (Some 10%nat) 0
       [mkLayerCollection 1 (Some 11%nat) LAYER_COLLECTION_EXCLUDE
          [mkLayerCollection 2 (Some 13%nat) 0 []]]]
    (Some 0%nat) [] None None None [] 0.

(** A view layer of [example_nested_scene] from before [example_inner] was
    linked below [example_outer]: the layer collection of [example_outer] is
    excluded, and [example_inner] has no layer collection. *)
Definition example_unlinked_inner_view_layer : ViewLayer :=
  mkViewLayer 0
    [mkLayerCollection 0 (Some 10%nat) 0
       [mkLayerCollection 1 (Some 11%nat) LAYER_COLLECTION_EXCLUDE []]]
    (Some 0%nat) [] None None None [] 0.

(** A scene with two view layers, the second flagged for render, and a
    background set with one view layer.  The object 1 has a base in all
    three; the first one is not visible. *)
Definition example_set_scene : Scene :=
  mkScene None
    [mkViewLayer 0 [] None [mkBase 30 1 BASE_VISIBLED; mkBase 31 3 BASE_VISIBLED]
       None None None [] 0]
    None.

Definition example_render_scene : Scene :=
  mkScene None
    [mkViewLayer 0 [] None [mkBase 20 1 0; mkBase 21 2 BASE_VISIBLED] None None None [] 0;
     mkViewLayer VIEW_LAYER_RENDER [] None [mkBase 22 2 BASE_VISIBLED; mkBase 23 1 BASE_VISIBLED]
       None None None [] 0]
    (Some example_set_scene).

(** A scene in which the collection 13 is linked below the two children 11
    and 12 of the master collection, and a view layer in which the layer
    collection of 11 is excluded and the active one, that of 13 below 12, is
    excluded too. *)
Definition example_first_link : CollectionParent := mkCollectionParent 11 [example_master_link].

Definition example_second_link : CollectionParent :=
  mkCollectionParent 12 [example_master_link].

Definition example_shared : Collection :=
  mkCollection 13 0 [example_first_link; example_second_link] [] [].

Definition example_shared_master : Collection :=
  mkCollection 10 COLLECTION_IS_MASTER []
    [mkCollection 11 0 [example_master_link] [example_shared] [];
     mkCollection 12 0 [example_master_link] [example_shared] []]
    [].


Definition example_shared_tree : list LayerCollection :=
  [mkLayerCollection 0 (Some 10%nat) 0
     [mkLayerCollection 1 (Some 11%nat) LAYER_COLLECTION_EXCLUDE
        [mkLayerCollection 2 (Some 13%nat) 0 []];
      mkLayerCollection 3 (Some 12%nat) 0
        [mkLayerCollection 4 (Some 13%nat) LAYER_COLLECTION_EXCLUDE []]]].

Definition example_shared_view_layer : ViewLayer :=
  mkViewLayer 0 example_shared_tree (Some 4%nat) [] None None None [] 0.

(** A scene with two view layers, neither flagged for render; the second
    holds a visible base. *)
Definition example_two_layer_scene : Scene :=
  mkScene None
    [mkViewLayer 0 [] None [] None None None [] 0;
     mkViewLayer 0 [] None [mkBase 40 5 BASE_VISIBLED] None None None [] 0]
    None.

(** A view layer with three bases: the first and the third are selected
    and selectable, the first two carry [BASE_VISIBLED], and the object of the
    first is the active base. *)
Definition example_selection_view_layer : ViewLayer :=
  mkViewLayer 0 [] None
    [mkBase 1 10 (Z.lor (Z.lor BASE_SELECTED BASE_SELECTABLED) BASE_VISIBLED);
     mkBase 2 11 (Z.lor BASE_VISIBLED BASE_VISIBLE_RENDER);
     mkBase 3 12 (Z.lor (Z.lor BASE_SELECTED BASE_SELECTABLED) BASE_VISIBLE_VIEWPORT)]
    None None (Some 1%nat) [] 0.

(** A view layer of [example_scene] with a layer collection for each of its
    collections and a base for each of its objects; the base of the object 2
    is not selectable. *)
Definition example_synced_view_layer : ViewLayer :=
  mkViewLayer 0
    [mkLayerCollection 0 (Some 10%nat) 0
       [mkLayerCollection 1 (Some 11%nat) 0 []; mkLayerCollection 4 (Some 12%nat) 0 []]]
    (Some 0%nat) [mkBase 2 1 BASE_SYNC_FLAGS; mkBase 3 2 BASE_VISIBLE_RENDER]
    None None None [] 0.

(** A view layer that was never synced, with a selected base of the object
    1 and, as the active base, a base of the object 7, which is in no
    collection of [example_scene]. *)
Definition example_active_base_view_layer : ViewLayer :=
  mkViewLayer 0 [] None [mkBase 0 1 BASE_SELECTED; mkBase 1 7 0] None None (Some 1%nat) [] 0.

(** [example_scene] with these two view layers. *)
Definition example_two_view_scene : Scene :=
  mkScene (Some example_master) [example_new_view_layer; example_active_base_view_layer] None.

(** * Properties *)

Section LayerProperties.
Context {flags : DNA_flags}.

(** ** Bit words *)

Lemma testbit_land_lor_same a b : Z.land (Z.lor a b) b = b.
Proof.
  apply Z.bits_inj'. intros n _.
  rewrite Z.land_spec, Z.lor_spec. destruct (Z.testbit a n), (Z.testbit b n); reflexivity.
Qed.

Lemma flag_test_true word bit : flag_test word bit = true <-> Z.land word bit <> 0.
Proof.
  unfold flag_test. rewrite negb_true_iff, Z.eqb_neq. reflexivity.
Qed.

Lemma flag_test_false word bit : flag_test word bit = false <-> Z.land word bit = 0.
Proof.
  unfold flag_test. rewrite negb_false_iff, Z.eqb_eq. reflexivity.
Qed.

(** Equations between bit words, bit by bit. *)
Ltac bitwise :=
  apply Z.bits_inj'; intros ?n ?Hn;
  repeat rewrite ?Z.lor_spec, ?Z.land_spec, ?Z.ldiff_spec, ?Z.lnot_spec, ?Z.bits_0 by assumption;
  try btauto.

Lemma lor_land_distr_0 a b m : Z.land a m = 0 -> Z.land (Z.lor a b) m = Z.land b m.
Proof. intros Ha. rewrite Z.land_lor_distr_l, Ha. apply Z.lor_0_l. Qed.

Lemma land_lnot_cleared f m : Z.land (Z.land f (Z.lnot m)) m = 0.
Proof. bitwise. Qed.

Lemma lor_cleared_again a g m :
  Z.land a m = 0 -> Z.lor (Z.land (Z.lor a g) (Z.lnot m)) g = Z.lor a g.
Proof.
  intros Ha. apply Z.bits_inj'. intros n Hn.
  apply (f_equal (fun z => Z.testbit z n)) in Ha.
  rewrite Z.land_spec, Z.bits_0 in Ha.
  repeat rewrite ?Z.lor_spec, ?Z.land_spec, ?Z.lnot_spec by assumption.
  destruct (Z.testbit a n), (Z.testbit g n), (Z.testbit m n); cbn in *; congruence.
Qed.

(** The flag updates of the object loop add the bits the path grants. *)
Lemma base_restrict_flag_lor restrict flag :
  base_restrict_flag restrict flag = Z.lor flag (path_grant restrict).
Proof.
  unfold base_restrict_flag, path_grant.
  destruct (flag_test restrict COLLECTION_RESTRICT_VIEW),
    (flag_test restrict COLLECTION_RESTRICT_SELECT),
    (flag_test restrict COLLECTION_RESTRICT_RENDER); bitwise.
Qed.

Lemma path_grant_in_sync_flags restrict :
  Z.land (path_grant restrict) BASE_SYNC_FLAGS = path_grant restrict.
Proof.
  unfold path_grant, BASE_SYNC_FLAGS.
  destruct (flag_test restrict COLLECTION_RESTRICT_VIEW),
    (flag_test restrict COLLECTION_RESTRICT_SELECT),
    (flag_test restrict COLLECTION_RESTRICT_RENDER); bitwise.
Qed.

Lemma visits_grant_app visits visits' ob :
  visits_grant (visits ++ visits') ob
  = Z.lor (visits_grant visits ob) (visits_grant visits' ob).
Proof.
  induction visits as [| [ob' restrict] visits IH]; cbn; [reflexivity |].
  rewrite IH. apply Z.lor_assoc.
Qed.

Lemma visits_grant_absent visits ob : ob ∉ visits.*1 -> visits_grant visits ob = 0.
Proof.
  induction visits as [| [ob' restrict] visits IH]; cbn; [reflexivity |].
  intros Hin. apply not_elem_of_cons in Hin as [Hne Hin].
  destruct (decide (ob' = ob)); [congruence |]. rewrite IH by assumption. reflexivity.
Qed.

Lemma visits_grant_in_sync_flags visits ob :
  Z.land (visits_grant visits ob) BASE_SYNC_FLAGS = visits_grant visits ob.
Proof.
  induction visits as [| [ob' restrict] visits IH]; cbn; [reflexivity |].
  rewrite Z.land_lor_distr_l, IH. f_equal.
  destruct (decide (ob' = ob)); [apply path_grant_in_sync_flags | reflexivity].
Qed.

Lemma paths_grant_visits paths ob :
  paths_grant paths ob = visits_grant (path_visits paths) ob.
Proof.
  induction paths as [| [ob' path] paths IH]; cbn; [reflexivity |].
  rewrite IH. reflexivity.
Qed.

Lemma path_visits_objects paths : (path_visits paths).*1 = paths.*1.
Proof.
  unfold path_visits. rewrite <- list_fmap_compose. reflexivity.
Qed.

(** ** Lists of nodes *)

Section listbase_facts.
Context {A : Type} (addr : A -> nat).

Lemma BLI_findindex_from_absent (l : list A) (p : nat) (number : Z) :
  p ∉ fmap addr l -> BLI_findindex_from addr number l p = -1.
Proof.
  revert number. induction l as [| x l IH]; intros number Hp; cbn; [reflexivity |].
  cbn in Hp. apply not_elem_of_cons in Hp as [Hx Hl].
  destruct (decide (addr x = p)); [congruence | auto].
Qed.

(** A node that is in the list is found at its first position, and
    [BLI_remlink] takes that node out. *)
Lemma BLI_findindex_from_present (l : list A) (p : nat) (number : Z) :
  p ∈ fmap addr l ->
  exists l1 x l2,
    l = l1 ++ x :: l2 /\ addr x = p /\ (p ∉ fmap addr l1) /\
    BLI_findindex_from addr number l p = number + Z.of_nat (length l1) /\
    BLI_remlink addr l p = l1 ++ l2.
Proof.
  revert number. induction l as [| x l IH]; intros number Hp; cbn in *.
  - apply elem_of_nil in Hp. contradiction.
  - destruct (decide (addr x = p)) as [Heq | Hne].
    + exists [], x, l. cbn. repeat split; auto using not_elem_of_nil. lia.
    + apply elem_of_cons in Hp as [Hp | Hp]; [congruence |].
      destruct (IH (number + 1) Hp) as (l1 & y & l2 & -> & Hy & Hl1 & Hidx & Hrem).
      exists (x :: l1), y, l2. cbn. repeat split; auto.
      * apply not_elem_of_cons. split; auto.
      * rewrite Hidx. lia.
      * rewrite Hrem. reflexivity.
Qed.

Lemma BLI_findindex_from_at (before after : list A) (x : A) (p : nat) (number : Z) :
  addr x = p -> p ∉ fmap addr before ->
  BLI_findindex_from addr number (before ++ x :: after) p
  = number + Z.of_nat (length before).
Proof.
  intros Hx. revert number. induction before as [| y before IH]; intros number Hp; cbn.
  - destruct (decide (addr x = p)); [lia | contradiction].
  - cbn in Hp. apply not_elem_of_cons in Hp as [Hy Hp].
    destruct (decide (addr y = p)); [congruence |]. rewrite IH by assumption. lia.
Qed.

Lemma BLI_remlink_at (before after : list A) (x : A) (p : nat) :
  addr x = p -> p ∉ fmap addr before ->
  BLI_remlink addr (before ++ x :: after) p = before ++ after.
Proof.
  intros Hx. induction before as [| y before IH]; intros Hp; cbn.
  - destruct (decide (addr x = p)); [reflexivity | contradiction].
  - cbn in Hp. apply not_elem_of_cons in Hp as [Hy Hp].
    destruct (decide (addr y = p)); [congruence |]. rewrite IH by assumption. reflexivity.
Qed.

Lemma node_at_at (before after : list A) (x : A) (p : nat) :
  addr x = p -> p ∉ fmap addr before ->
  node_at addr (before ++ x :: after) p = Some x.
Proof.
  intros Hx. induction before as [| y before IH]; intros Hp; cbn.
  - destruct (decide (addr x = p)); [reflexivity | contradiction].
  - cbn in Hp. apply not_elem_of_cons in Hp as [Hy Hp].
    destruct (decide (addr y = p)); [congruence | auto].
Qed.

Lemma BLI_remlink_absent (l : list A) (p : nat) :
  p ∉ fmap addr l -> BLI_remlink addr l p = l.
Proof.
  induction l as [| x l IH]; intros Hp; cbn; [reflexivity |].
  cbn in Hp. apply not_elem_of_cons in Hp as [Hx Hl].
  destruct (decide (addr x = p)); [congruence |]. rewrite IH; auto.
Qed.

Lemma node_at_absent (l : list A) (p : nat) :
  p ∉ fmap addr l -> node_at addr l p = None.
Proof.
  induction l as [| x l IH]; intros Hp; cbn; [reflexivity |].
  cbn in Hp. apply not_elem_of_cons in Hp as [Hx Hl].
  destruct (decide (addr x = p)); [congruence | auto].
Qed.

Lemma node_at_Some (l : list A) (p : nat) (x : A) :
  node_at addr l p = Some x -> x ∈ l /\ addr x = p.
Proof.
  induction l as [| y l IH]; cbn; [discriminate |].
  destruct (decide (addr y = p)) as [Heq | Hne].
  - intros [= ->]. split; [apply elem_of_cons; left; reflexivity | assumption].
  - intros Hx. destruct (IH Hx). split; [apply elem_of_cons; right |]; assumption.
Qed.

Lemma NoDup_addr_eq (l : list A) (x y : A) :
  NoDup (fmap addr l) -> x ∈ l -> y ∈ l -> addr x = addr y -> x = y.
Proof.
  induction l as [| z l IH]; cbn; intros Hnd Hx Hy Heq.
  - apply elem_of_nil in Hx. contradiction.
  - apply NoDup_cons in Hnd as [Hz Hnd].
    apply elem_of_cons in Hx as [-> | Hx]; apply elem_of_cons in Hy as [-> | Hy].
    + reflexivity.
    + exfalso. apply Hz. rewrite Heq. apply list_elem_of_fmap_2. assumption.
    + exfalso. apply Hz. rewrite <- Heq. apply list_elem_of_fmap_2. assumption.
    + auto.
Qed.

Lemma node_at_NoDup (l : list A) (x : A) :
  NoDup (fmap addr l) -> x ∈ l -> node_at addr l (addr x) = Some x.
Proof.
  induction l as [| y l IH]; cbn; intros Hnd Hx.
  - apply elem_of_nil in Hx. contradiction.
  - apply NoDup_cons in Hnd as [Hy Hnd].
    destruct (decide (addr y = addr x)) as [Heq | Hne].
    + apply elem_of_cons in Hx as [-> | Hx]; [reflexivity |].
      exfalso. apply Hy. rewrite Heq. apply list_elem_of_fmap_2, Hx.
    + apply elem_of_cons in Hx as [-> | Hx]; [congruence | auto].
Qed.

Lemma elem_of_BLI_remlink (l : list A) (p : nat) (x : A) :
  x ∈ BLI_remlink addr l p -> x ∈ l.
Proof.
  induction l as [| y l IH]; cbn; [auto |].
  destruct (decide (addr y = p)); rewrite !elem_of_cons; [auto |].
  intros [-> | Hx]; auto.
Qed.

Lemma elem_of_BLI_remlink_ne (l : list A) (p : nat) (x : A) :
  x ∈ l -> addr x <> p -> x ∈ BLI_remlink addr l p.
Proof.
  induction l as [| y l IH]; cbn; [auto |].
  intros Hx Hne. apply elem_of_cons in Hx as [-> | Hx].
  - rewrite decide_False by assumption. apply elem_of_cons. left. reflexivity.
  - destruct (decide (addr y = p)); [assumption |]. apply elem_of_cons. right. auto.
Qed.

Lemma NoDup_addr_split (l : list A) (x : A) :
  NoDup (fmap addr l) -> x ∈ l ->
  exists l1 l2, l = l1 ++ x :: l2 /\ (addr x ∉ fmap addr l1) /\ (addr x ∉ fmap addr l2).
Proof.
  intros Hnd Hx. apply list_elem_of_split in Hx as (l1 & l2 & ->).
  exists l1, l2. split; [reflexivity |].
  rewrite fmap_app in Hnd. cbn in Hnd.
  apply NoDup_app in Hnd as (_ & Hdisj & Hnd2). apply NoDup_cons in Hnd2 as [Hx2 _].
  split; [| assumption].
  intros Hin. apply (Hdisj _ Hin). apply elem_of_cons. left. reflexivity.
Qed.

End listbase_facts.

(** ** Selecting a base *)

(** C10: [BKE_view_layer_base_select] makes [selbase] the active base of the
    view layer whatever its flags are; the base at that address gets all of
    [BASE_SELECTED] when it has a [BASE_SELECTABLED] bit and keeps its flag
    word otherwise; every other base and every other field of the view layer
    is left as it was. *)
Theorem base_select_activates_and_selects (view_layer : ViewLayer) (selbase : nat) :
  let view_layer' := BKE_view_layer_base_select view_layer selbase in
  basact view_layer' = Some selbase /\
  length (object_bases view_layer') = length (object_bases view_layer) /\
  (forall (i : nat) (base : Base),
      object_bases view_layer !! i = Some base ->
      exists base',
        object_bases view_layer' !! i = Some base' /\
        base_id base' = base_id base /\ object base' = object base /\
        (base_id base = selbase -> Z.land (base_flag base) BASE_SELECTABLED <> 0 ->
         base_flag base' = Z.lor (base_flag base) BASE_SELECTED /\
         Z.land (base_flag base') BASE_SELECTED = BASE_SELECTED) /\
        (base_id base = selbase -> Z.land (base_flag base) BASE_SELECTABLED = 0 ->
         base_flag base' = base_flag base) /\
        (base_id base <> selbase -> base' = base)) /\
  vl_layer_collections view_layer' = vl_layer_collections view_layer /\
  active_collection view_layer' = active_collection view_layer /\
  object_bases_hash view_layer' = object_bases_hash view_layer /\
  override_sets view_layer' = override_sets view_layer.
Proof.
  cbn zeta. unfold BKE_view_layer_base_select. cbn.
  split; [reflexivity |]. split; [apply length_fmap |].
  split; [| repeat split].
  intros i base Hi.
  rewrite list_lookup_fmap, Hi. cbn.
  destruct (decide (base_id base = selbase)) as [Heq | Hne].
  - eexists. split; [reflexivity |]. cbn. unfold base_select_flag.
    split; [reflexivity |]. split; [reflexivity |].
    split; [| split].
    + intros _ Hsel. apply flag_test_true in Hsel. rewrite Hsel.
      split; [reflexivity | apply testbit_land_lor_same].
    + intros _ Hsel. apply flag_test_false in Hsel. rewrite Hsel. reflexivity.
    + intros Hne. contradiction.
  - exists base. split; [reflexivity |]. split; [reflexivity |]. split; [reflexivity |].
    split; [| split]; try (intros Heq; contradiction). reflexivity.
Qed.

(** ** Override sets *)

(** The shift rule keeps a valid active index valid: with [count + 1]
    nodes before the removal of the node at [index], the new index is not
    negative, stays below the new count when that is not zero, goes down by
    one when it pointed past [index], and otherwise is the old index clamped
    to [count - 1], never below zero. *)
Lemma active_index_after_remove_valid (active index count : Z) :
  0 <= index <= count -> 0 <= active <= count ->
  let active' := active_index_after_remove active index count in
  0 <= active' /\ active' <= Z.max 0 (count - 1) /\
  (index < active -> active' = active - 1) /\
  (active <= index -> active' = Z.min active (Z.max 0 (count - 1))).
Proof.
  intros Hi Ha. cbn zeta. unfold active_index_after_remove.
  destruct (Z.gtb_spec active index); [lia |].
  destruct (Z.eqb_spec active index); [| lia].
  destruct (Z.eqb_spec index count); lia.
Qed.

Lemma affected_collection_find_present (l : list LinkData) (collection_ : nat) :
  collection_ ∈ fmap link_data l ->
  exists before link after,
    l = before ++ link :: after /\ link_data link = collection_ /\
    (collection_ ∉ fmap link_data before) /\
    affected_collection_find l collection_ = Some link.
Proof.
  unfold affected_collection_find.
  induction l as [| x l IH]; intros Hin; cbn in *.
  - apply elem_of_nil in Hin. contradiction.
  - destruct (bool_decide (link_data x = collection_)) eqn:Hx.
    + apply bool_decide_eq_true in Hx.
      exists [], x, l. cbn. repeat split; auto using not_elem_of_nil.
    + apply bool_decide_eq_false in Hx.
      apply elem_of_cons in Hin as [Hin | Hin]; [congruence |].
      destruct (IH Hin) as (before & link & after & -> & Hdata & Hbefore & Hfind).
      exists (x :: before), link, after. cbn. repeat split; auto.
      apply not_elem_of_cons. split; auto.
Qed.

(** C8: [BKE_view_layer_override_set_remove] returns false and the view
    layer as it was when the set is not in the list; otherwise it returns
    true, the list loses that set and nothing else, and a valid active index
    stays valid by the shift rule (one less when it pointed past the removed
    position, else clamped to the new count minus one and never negative).
    [BKE_view_layer_override_set_collection_unlink] returns false and the set
    as it was when no link holds the collection; otherwise the first link
    holding it leaves the list and the active index of the affected
    collections follows the same rule. *)
Theorem override_set_remove_and_unlink :
  (forall (view_layer : ViewLayer) (override_set : nat),
      (override_set ∉ fmap override_set_id (override_sets view_layer) ->
       BKE_view_layer_override_set_remove view_layer override_set = (false, view_layer)) /\
      (override_set ∈ fmap override_set_id (override_sets view_layer) ->
       exists before removed after view_layer',
         override_sets view_layer = before ++ removed :: after /\
         override_set_id removed = override_set /\
         (override_set ∉ fmap override_set_id before) /\
         BKE_view_layer_override_set_remove view_layer override_set = (true, view_layer') /\
         override_sets view_layer' = before ++ after /\
         object_bases view_layer' = object_bases view_layer /\
         vl_layer_collections view_layer' = vl_layer_collections view_layer /\
         let index := Z.of_nat (length before) in
         let count := Z.of_nat (length (before ++ after)) in
         let active := active_override_set view_layer in
         let active' := active_override_set view_layer' in
         (0 <= active <= count ->
          0 <= active' /\ active' <= Z.max 0 (count - 1) /\
          (index < active -> active' = active - 1) /\
          (active <= index -> active' = Z.min active (Z.max 0 (count - 1)))))) /\
  (forall (override_set : OverrideSet) (collection_ : nat),
      (collection_ ∉ fmap link_data (affected_collections override_set) ->
       BKE_view_layer_override_set_collection_unlink override_set collection_
       = (false, override_set)) /\
      (collection_ ∈ fmap link_data (affected_collections override_set) ->
       NoDup (fmap link_id (affected_collections override_set)) ->
       exists before removed after override_set',
         affected_collections override_set = before ++ removed :: after /\
         link_data removed = collection_ /\
         (collection_ ∉ fmap link_data before) /\
         BKE_view_layer_override_set_collection_unlink override_set collection_
         = (true, override_set') /\
         affected_collections override_set' = before ++ after /\
         scene_properties override_set' = scene_properties override_set /\
         collection_properties override_set' = collection_properties override_set /\
         let index := Z.of_nat (length before) in
         let count := Z.of_nat (length (before ++ after)) in
         let active := active_affected_collection override_set in
         let active' := active_affected_collection override_set' in
         (0 <= active <= count ->
          0 <= active' /\ active' <= Z.max 0 (count - 1) /\
          (index < active -> active' = active - 1) /\
          (active <= index -> active' = Z.min active (Z.max 0 (count - 1)))))).
Proof.
  split.
  - intros view_layer override_set. unfold BKE_view_layer_override_set_remove. split.
    + intros Habsent. unfold BLI_findindex.
      rewrite BLI_findindex_from_absent by assumption. reflexivity.
    + intros Hpresent.
      destruct (BLI_findindex_from_present override_set_id _ _ 0 Hpresent)
        as (before & removed & after & Hl & Hid & Hbefore & Hidx & Hrem).
      unfold BLI_findindex. rewrite Hidx, Hrem.
      destruct (Z.eqb_spec (0 + Z.of_nat (length before)) (-1)) as [Hneg | _]; [lia |].
      eexists before, removed, after, _.
      split; [exact Hl |]. split; [exact Hid |]. split; [exact Hbefore |].
      split; [reflexivity |]. cbn.
      split; [reflexivity |]. split; [reflexivity |]. split; [reflexivity |].
      intros Hactive. unfold BLI_listbase_count. rewrite Z.add_0_l.
      apply active_index_after_remove_valid; [| assumption].
      rewrite length_app. lia.
  - intros override_set collection_.
    unfold BKE_view_layer_override_set_collection_unlink, affected_collection_find. split.
    + intros Habsent.
      destruct (List.find _ _) as [link |] eqn:Hfind; [| reflexivity].
      apply List.find_some in Hfind as [Hin Hdata].
      apply bool_decide_eq_true in Hdata.
      exfalso. apply Habsent. apply list_elem_of_fmap. exists link.
      split; [auto | apply list_elem_of_In; assumption].
    + intros Hpresent Hnodup.
      destruct (affected_collection_find_present _ _ Hpresent)
        as (before & removed & after & Hl & Hdata & Hbefore & Hfind).
      unfold affected_collection_find in Hfind. rewrite Hfind.
      assert (Hid : link_id removed ∉ fmap link_id before).
      { rewrite Hl, fmap_app in Hnodup. apply NoDup_app in Hnodup as (_ & Hdisj & _).
        intros Hin. apply (Hdisj _ Hin). cbn. apply elem_of_cons. left. reflexivity. }
      destruct override_set as [set_id set_flag links active sprops cprops].
      cbn in *. subst links. unfold BLI_findindex.
      rewrite BLI_findindex_from_at, BLI_remlink_at by (reflexivity || assumption).
      eexists before, removed, after, _.
      split; [reflexivity |]. split; [exact Hdata |]. split; [exact Hbefore |].
      split; [reflexivity |]. cbn.
      split; [reflexivity |]. split; [reflexivity |]. split; [reflexivity |].
      intros Hactive. unfold BLI_listbase_count. rewrite Z.add_0_l.
      apply active_index_after_remove_valid; [| assumption].
      rewrite length_app. lia.
Qed.



#[local] Arguments override_property_snapshot : simpl never.


(** ** Induction over the collection tree *)

Lemma Collection_tree_ind (Pc : Collection -> Prop) (Pl : list Collection -> Prop) :
  (forall c, Pl (children c) -> Pc c) ->
  Pl [] ->
  (forall c l, Pc c -> Pl l -> Pl (c :: l)) ->
  (forall c, Pc c) /\ (forall l, Pl l).
Proof.
  intros Hc Hnil Hcons.
  assert (Hall : forall c, Pc c).
  { fix IH 1. intros [id fl ps cs obs]. apply Hc. cbn.
    induction cs as [| c cs IHcs]; [exact Hnil |].
    apply Hcons; [apply IH | exact IHcs]. }
  split; [exact Hall |].
  induction l as [| c l IHl]; [exact Hnil | apply Hcons; auto].
Qed.

Lemma LayerCollection_tree_ind (Pc : LayerCollection -> Prop)
  (Pl : list LayerCollection -> Prop) :
  (forall lc, Pl (layer_collections lc) -> Pc lc) ->
  Pl [] ->
  (forall lc l, Pc lc -> Pl l -> Pl (lc :: l)) ->
  (forall lc, Pc lc) /\ (forall l, Pl l).
Proof.
  intros Hc Hnil Hcons.
  assert (Hall : forall lc, Pc lc).
  { fix IH 1. intros [id col fl cs]. apply Hc. cbn.
    induction cs as [| c cs IHcs]; [exact Hnil |].
    apply Hcons; [apply IH | exact IHcs]. }
  split; [exact Hall |].
  induction l as [| c l IHl]; [exact Hnil | apply Hcons; auto].
Qed.

Lemma CollectionParent_tree_ind (P : CollectionParent -> Prop) :
  (forall c, Forall P (cp_parents c) -> P c) -> forall c, P c.
Proof.
  intros Hc. fix IH 1. intros [id ps]. apply Hc. cbn.
  induction ps as [| p ps IHps]; constructor; [apply IH | exact IHps].
Qed.

(** The unfolding of the recursive function: the recursive call is
    [layer_collection_sync] on the children. *)
Lemma layer_collection_sync_child_eq child s lb_layer new_lb_layer parent_exclude
  parent_restrict :
  layer_collection_sync_child child (s, lb_layer, new_lb_layer) parent_exclude parent_restrict
  = let found := layer_collection_sync_lookup child s lb_layer parent_exclude in
    let lc := found.2 in
    let child_restrict := child_restrict_of parent_restrict child in
    let sub :=
      layer_collection_sync (children child) found.1.1 (lb_local (layer_collections lc))
        (lc_flag lc) child_restrict in
    (layer_collection_sync_objects (lc_flag lc) child_restrict (gobject child) sub.1,
     found.1.2,
     new_lb_layer ++ [mkLayerCollection (lc_id lc) (collection lc) (lc_flag lc) sub.2]).
Proof.
  destruct child. cbn.
  destruct (layer_collection_sync_lookup _ _ _ _) as [[s1 lb1] lc]. cbn.
  unfold layer_collection_sync.
  destruct (layer_collection_sync_body _ _ _ _ _ _) as [s2 sub]. reflexivity.
Qed.

(** [layer_collection_sync] is its first loop, its second loop from the
    empty list, and the replacement of the list. *)
Lemma layer_collection_sync_eq lb_scene s lb_layer parent_exclude parent_restrict :
  layer_collection_sync lb_scene s lb_layer parent_exclude parent_restrict
  = let pruned :=
      layer_collection_sync_prune lb_scene (ss_view_layer s) lb_layer []
        (lb_get (ss_view_layer s) lb_layer) in
    let st :=
      layer_collection_sync_loop layer_collection_sync_child lb_scene
        (mkSyncState (ss_heap s) pruned.1 (ss_new_object_bases s), pruned.2, [])
        parent_exclude parent_restrict in
    (mkSyncState (ss_heap st.1.1) (lb_set (ss_view_layer st.1.1) st.1.2 st.2).1
       (ss_new_object_bases st.1.1),
     st.2).
Proof.
  unfold layer_collection_sync, layer_collection_sync_body.
  destruct (layer_collection_sync_prune _ _ _ _ _) as [view_layer lb0]. cbn.
  destruct (layer_collection_sync_loop _ _ _ _ _) as [[s1 lb1] new_lb_layer]. cbn.
  destruct (lb_set _ _ _). reflexivity.
Qed.

(** ** The rebuilt layer list mirrors the scene list *)

Lemma layer_collection_take_Some c l lc rest :
  layer_collection_take c l = Some (lc, rest) -> collection lc = Some c.
Proof.
  revert lc rest. induction l as [| x l IH]; intros lc rest; cbn; [discriminate |].
  destruct (decide (collection x = Some c)) as [Heq | Hne].
  - intros [= <- <-]. exact Heq.
  - destruct (layer_collection_take c l) as [[found rest'] |]; [| discriminate].
    intros [= <- <-]. eapply IH. reflexivity.
Qed.

Lemma layer_collection_sync_lookup_collection child s lb_layer parent_exclude :
  collection (layer_collection_sync_lookup child s lb_layer parent_exclude).2
  = Some (col_id child).
Proof.
  unfold layer_collection_sync_lookup.
  destruct (layer_collection_take _ _) as [[lc rest] |] eqn:Htake.
  - destruct (lb_set _ _ _). cbn. eapply layer_collection_take_Some, Htake.
  - reflexivity.
Qed.

Lemma layer_collection_sync_loop_mirrors :
  forall lb_scene s lb_layer new_lb_layer parent_exclude parent_restrict,
  exists added,
    (layer_collection_sync_loop layer_collection_sync_child lb_scene
       (s, lb_layer, new_lb_layer) parent_exclude parent_restrict).2
    = new_lb_layer ++ added /\
    mirrors lb_scene added.
Proof.
  refine (proj2 (Collection_tree_ind
    (fun child => forall s lb_layer new_lb_layer parent_exclude parent_restrict,
       exists lc,
         (layer_collection_sync_child child (s, lb_layer, new_lb_layer) parent_exclude
            parent_restrict).2 = new_lb_layer ++ [lc] /\
         collection lc = Some (col_id child) /\
         mirrors (children child) (layer_collections lc))
    (fun lb_scene => forall s lb_layer new_lb_layer parent_exclude parent_restrict,
       exists added,
         (layer_collection_sync_loop layer_collection_sync_child lb_scene
            (s, lb_layer, new_lb_layer) parent_exclude parent_restrict).2
         = new_lb_layer ++ added /\
         mirrors lb_scene added) _ _ _)).
  - intros child IH s lb_layer new_lb_layer parent_exclude parent_restrict.
    rewrite layer_collection_sync_child_eq. cbn zeta.
    eexists. split; [reflexivity |]. cbn.
    split; [apply layer_collection_sync_lookup_collection |].
    rewrite layer_collection_sync_eq. cbn zeta. cbn [snd].
    edestruct IH as (added & -> & Hmirror). exact Hmirror.
  - intros s lb_layer new_lb_layer parent_exclude parent_restrict.
    exists []. cbn. rewrite app_nil_r. split; [reflexivity | constructor].
  - intros child lb_scene Hchild Hrest s lb_layer new_lb_layer parent_exclude parent_restrict.
    cbn [layer_collection_sync_loop].
    destruct (Hchild s lb_layer new_lb_layer parent_exclude parent_restrict)
      as (lc & Hlc & Hcol & Hsub).
    destruct (layer_collection_sync_child _ _ _ _) as [[s1 lb1] new1]. cbn in Hlc. subst new1.
    destruct (Hrest s1 lb1 (new_lb_layer ++ [lc]) parent_exclude parent_restrict)
      as (added & Hadded & Hmirror).
    exists (lc :: added). rewrite Hadded, <- app_assoc. split; [reflexivity |].
    constructor; assumption.
Qed.

(** Whatever the old layer list was, the list [layer_collection_sync]
    returns mirrors [lb_scene]. *)
Lemma layer_collection_sync_mirrors lb_scene s lb_layer parent_exclude parent_restrict :
  mirrors lb_scene
    (layer_collection_sync lb_scene s lb_layer parent_exclude parent_restrict).2.
Proof.
  rewrite layer_collection_sync_eq. cbn zeta. cbn [snd].
  edestruct layer_collection_sync_loop_mirrors as (added & -> & Hmirror). exact Hmirror.
Qed.

Lemma mirrors_counts_agree lb_scene lb_layer :
  mirrors lb_scene lb_layer -> counts_agree lb_scene lb_layer.
Proof.
  induction 1 as [| child lc lb_scene lb_layer Hcol Hsub IHsub Hrest IHrest].
  - constructor; [reflexivity |]. intros i child lc Hi. rewrite lookup_nil in Hi. discriminate.
  - inversion IHrest as [? ? Hcount Hlevels]; subst.
    constructor.
    + unfold BLI_listbase_count in *. cbn. lia.
    + intros [| i] child' lc' Hc Hl; cbn in Hc, Hl.
      * injection Hc as <-. injection Hl as <-. exact IHsub.
      * eapply Hlevels; eassumption.
Qed.

(** C3: the list [layer_collection_sync] leaves in [lb_layer] has as many
    layer collections as [lb_scene] has children, for every old state of the
    layer list and every argument, and so has the list of every recursive
    call below: the count assertion at the end of the function holds at
    every level. *)
Theorem layer_collection_sync_counts (lb_scene : list Collection) (s : SyncState)
  (lb_layer : ListRef) (parent_exclude parent_restrict : Z) :
  let new_lb_layer :=
    (layer_collection_sync lb_scene s lb_layer parent_exclude parent_restrict).2 in
  BLI_listbase_count lb_scene = BLI_listbase_count new_lb_layer /\
  counts_agree lb_scene new_lb_layer.
Proof.
  cbn zeta.
  pose proof (mirrors_counts_agree _ _
    (layer_collection_sync_mirrors lb_scene s lb_layer parent_exclude parent_restrict))
    as Hagree.
  split; [| exact Hagree].
  inversion Hagree. assumption.
Qed.

(** ** The object loop *)

#[local] Arguments base_flag_update : simpl never.

Lemma base_flag_update_absent a f l :
  a ∉ base_id <$> l -> base_flag_update a f l = l.
Proof.
  unfold base_flag_update.
  induction l as [| b l IH]; cbn; intros Ha; [reflexivity |].
  apply not_elem_of_cons in Ha as [Hb Ha].
  rewrite bool_decide_eq_false_2 by congruence.
  f_equal. apply IH, Ha.
Qed.

Lemma base_flag_update_app a f l1 l2 :
  base_flag_update a f (l1 ++ l2) = base_flag_update a f l1 ++ base_flag_update a f l2.
Proof. apply fmap_app. Qed.

Lemma base_flag_update_at a f l1 b l2 :
  base_id b = a -> a ∉ base_id <$> l1 -> a ∉ base_id <$> l2 ->
  base_flag_update a f (l1 ++ b :: l2) = l1 ++ set_base_flag (f (base_flag b)) b :: l2.
Proof.
  intros Hb H1 H2. rewrite base_flag_update_app.
  rewrite (base_flag_update_absent a f l1) by assumption.
  change (base_flag_update a f (b :: l2))
    with ((if bool_decide (base_id b = a) then set_base_flag (f (base_flag b)) b else b)
          :: base_flag_update a f l2).
  rewrite (base_flag_update_absent a f l2) by assumption.
  rewrite bool_decide_eq_true_2 by assumption. reflexivity.
Qed.

Lemma base_flag_update_object a f l :
  object <$> base_flag_update a f l = object <$> l.
Proof.
  unfold base_flag_update. rewrite <- list_fmap_compose. apply list_fmap_ext.
  intros i b _. cbn. destruct (bool_decide _); reflexivity.
Qed.

Lemma base_flag_update_id a f l :
  base_id <$> base_flag_update a f l = base_id <$> l.
Proof.
  unfold base_flag_update. rewrite <- list_fmap_compose. apply list_fmap_ext.
  intros i b _. cbn. destruct (bool_decide _); reflexivity.
Qed.

Lemma head_fmap_object (l : list Base) : head (object <$> l) = object <$> head l.
Proof. destruct l; reflexivity. Qed.

Lemma last_fmap_object (l : list Base) : last (object <$> l) = object <$> last l.
Proof.
  induction l as [| b [| b' l] IH]; try reflexivity.
  change (last (object <$> b' :: l) = object <$> last (b' :: l)). exact IH.
Qed.

Lemma base_is_first_or_last_true a l :
  base_is_first_or_last a l = true ->
  exists b, b ∈ l /\ base_id b = a /\ (head l = Some b \/ last l = Some b).
Proof.
  unfold base_is_first_or_last. intros H. apply orb_true_iff in H as [H | H];
    apply bool_decide_eq_true in H.
  - destruct (head l) as [b |] eqn:Hhead; [| discriminate]. injection H as Hid.
    exists b. split; [eapply head_Some_elem_of, Hhead | auto].
  - destruct (last l) as [b |] eqn:Hlast; [| discriminate]. injection H as Hid.
    exists b. split; [eapply last_Some_elem_of, Hlast | auto].
Qed.

Lemma base_is_first_or_last_false a l b :
  base_is_first_or_last a l = false -> base_id b = a ->
  head l <> Some b /\ last l <> Some b.
Proof.
  unfold base_is_first_or_last. intros H Hid. apply orb_false_iff in H as [H1 H2].
  apply bool_decide_eq_false in H1, H2.
  split; intros Heq; [apply H1 | apply H2]; rewrite Heq; cbn; congruence.
Qed.

Lemma set_base_flag_same b : set_base_flag (base_flag b) b = b.
Proof. destruct b. reflexivity. Qed.

(** Under the invariant, updating the flag of the base at address [a],
    which is the base of [ob], is what one visit of [ob] does to every base. *)
Lemma base_flag_update_granted s b restrict :
  sync_inv s -> b ∈ sync_bases s ->
  base_flag_update (base_id b) (base_restrict_flag restrict) (sync_bases s)
  = base_granted [(object b, restrict)] <$> sync_bases s.
Proof.
  intros (Hobs & Hids & _ & _) Hb. unfold base_flag_update.
  apply list_fmap_ext. intros i x Hx. apply list_elem_of_lookup_2 in Hx.
  unfold base_granted. cbn.
  destruct (bool_decide (base_id x = base_id b)) eqn:Hid.
  - apply bool_decide_eq_true in Hid.
    assert (x = b) as -> by (eapply (NoDup_addr_eq base_id); eassumption).
    rewrite decide_True by reflexivity.
    rewrite base_restrict_flag_lor, Z.lor_0_r. reflexivity.
  - apply bool_decide_eq_false in Hid.
    destruct (decide (object b = object x)) as [Heq | Hne].
    + exfalso. apply Hid. f_equal. eapply (NoDup_addr_eq object); eauto.
    + rewrite Z.lor_0_r. symmetry. apply set_base_flag_same.
Qed.

Lemma base_granted_object visits b : object (base_granted visits b) = object b.
Proof. reflexivity. Qed.

Lemma base_granted_id visits b : base_id (base_granted visits b) = base_id b.
Proof. reflexivity. Qed.

(** A step that keeps the allocator and the hash and updates the flag of
    the base of [ob], whatever it does to the order of the two lists, keeps
    the invariant and is a visit of [ob]. *)
Lemma visited_update s s' b restrict :
  sync_inv s -> b ∈ sync_bases s ->
  ss_heap s' = ss_heap s ->
  bases_hash (ss_view_layer s') = bases_hash (ss_view_layer s) ->
  sync_bases s' ≡ₚ base_flag_update (base_id b) (base_restrict_flag restrict) (sync_bases s) ->
  object <$> ss_new_object_bases s' = place (object <$> ss_new_object_bases s) (object b) ->
  sync_inv s' /\ visited [(object b, restrict)] s s'.
Proof.
  intros Hinv Hb Hheap Hhash Hperm Horder.
  rewrite (base_flag_update_granted s b restrict Hinv Hb) in Hperm.
  destruct Hinv as (Hobs & Hids & Hbound & Hcoh).
  assert (Hmem : forall x', x' ∈ sync_bases s' <->
            exists x, x ∈ sync_bases s /\ x' = base_granted [(object b, restrict)] x).
  { intros x'. rewrite Hperm, list_elem_of_fmap. split; intros (x & H1 & H2); eauto. }
  split; [split; [| split; [| split]] |].
  - rewrite Hperm, <- list_fmap_compose. exact Hobs.
  - rewrite Hperm, <- list_fmap_compose. exact Hids.
  - intros x' Hx'. apply Hmem in Hx' as (x & Hx & ->). rewrite Hheap. cbn. auto.
  - intros ob a. rewrite Hhash, Hcoh. split.
    + intros (x & Hx & Hob & Hid). exists (base_granted [(object b, restrict)] x).
      split; [apply Hmem; eauto | auto].
    + intros (x' & Hx' & Hob & Hid). apply Hmem in Hx' as (x & Hx & ->). eauto.
  - constructor.
    + exact Horder.
    + intros x Hx. apply Hmem. eauto.
    + intros x' Hx'. left. apply Hmem in Hx' as (x & Hx & ->). eauto.
    + lia.
Qed.

Lemma base_is_first_or_last_absent a l :
  a ∉ base_id <$> l -> base_is_first_or_last a l = false.
Proof.
  intros Ha. destruct (base_is_first_or_last a l) eqn:H; [| reflexivity].
  apply base_is_first_or_last_true in H as (b & Hb & Hid & _).
  exfalso. apply Ha. rewrite <- Hid. apply list_elem_of_fmap_2, Hb.
Qed.

Lemma place_absent obs ob : ob ∉ obs -> place obs ob = obs ++ [ob].
Proof. intros H. unfold place. rewrite bool_decide_eq_false_2 by assumption. reflexivity. Qed.

Lemma place_end obs ob :
  head obs = Some ob \/ last obs = Some ob -> place obs ob = obs.
Proof.
  intros H. unfold place.
  rewrite bool_decide_eq_true_2.
  - rewrite bool_decide_eq_true_2 by assumption. reflexivity.
  - destruct H as [H | H]; [eapply head_Some_elem_of | eapply last_Some_elem_of]; exact H.
Qed.

Lemma place_middle obs1 obs2 ob :
  ob ∉ obs1 -> head (obs1 ++ ob :: obs2) <> Some ob -> last (obs1 ++ ob :: obs2) <> Some ob ->
  place (obs1 ++ ob :: obs2) ob = obs1 ++ obs2 ++ [ob].
Proof.
  intros H1 Hhead Hlast. unfold place.
  rewrite bool_decide_eq_true_2
    by (apply elem_of_app; right; apply elem_of_cons; left; reflexivity).
  rewrite bool_decide_eq_false_2 by tauto.
  rewrite (BLI_remlink_at (fun o => o)); [symmetry; apply app_assoc | reflexivity |].
  rewrite list_fmap_id. exact H1.
Qed.

Lemma perm_move_tail {A : Type} (l1 l2 : list A) (x : A) :
  (l1 ++ l2) ++ [x] ≡ₚ l1 ++ x :: l2.
Proof. rewrite Permutation_app_comm. cbn. apply Permutation_middle. Qed.

Lemma perm_relocate {A : Type} (l1 l2 l3 : list A) (x : A) :
  l1 ++ l2 ++ l3 ++ [x] ≡ₚ l1 ++ x :: l2 ++ l3.
Proof.
  apply Permutation_app_head.
  rewrite app_assoc. symmetry. apply Permutation_cons_append.
Qed.

Lemma NoDup_fmap_app_disjoint {A B : Type} (f : A -> B) (l1 l2 : list A) (x : A) :
  NoDup (f <$> l1 ++ l2) -> x ∈ l1 -> f x ∉ f <$> l2.
Proof.
  rewrite fmap_app. intros Hnd Hx. apply NoDup_app in Hnd as (_ & Hdisj & _).
  apply Hdisj, list_elem_of_fmap_2, Hx.
Qed.

Lemma NoDup_fmap_app_disjoint_r {A B : Type} (f : A -> B) (l1 l2 : list A) (x : A) :
  NoDup (f <$> l1 ++ l2) -> x ∈ l2 -> f x ∉ f <$> l1.
Proof.
  rewrite fmap_app. intros Hnd Hx Hin. apply NoDup_app in Hnd as (_ & Hdisj & _).
  apply (Hdisj _ Hin), list_elem_of_fmap_2, Hx.
Qed.

Lemma NoDup_fmap_app_l {A B : Type} (f : A -> B) (l1 l2 : list A) :
  NoDup (f <$> l1 ++ l2) -> NoDup (f <$> l1).
Proof. rewrite fmap_app. intros Hnd. apply NoDup_app in Hnd. tauto. Qed.

Lemma NoDup_fmap_app_r {A B : Type} (f : A -> B) (l1 l2 : list A) :
  NoDup (f <$> l1 ++ l2) -> NoDup (f <$> l2).
Proof. rewrite fmap_app. intros Hnd. apply NoDup_app in Hnd. tauto. Qed.

(** One turn of the object loop keeps the invariant and is a visit. *)
Lemma layer_collection_sync_object_visited child_restrict s ob :
  sync_inv s ->
  sync_inv (layer_collection_sync_object child_restrict s ob) /\
  visited [(ob, child_restrict)] s (layer_collection_sync_object child_restrict s ob).
Proof.
  intros Hinv. pose proof Hinv as (Hobs & Hids & Hbound & Hcoh).
  destruct s as [heap view_layer new]. unfold sync_bases in *. cbn in *.
  unfold layer_collection_sync_object. cbn.
  destruct (bases_hash view_layer !! ob) as [a |] eqn:Hhash.
  - apply Hcoh in Hhash as (b & Hb & <- & <-).
    pose proof Hb as Hb'. apply elem_of_app in Hb' as [Hold | Hnew].
    + (* The base is still in the old list: it moves to the tail of the new one. *)
      pose proof (NoDup_fmap_app_disjoint _ _ _ _ Hids Hold) as Hid_new.
      pose proof (NoDup_fmap_app_disjoint _ _ _ _ Hobs Hold) as Hob_new.
      destruct (NoDup_addr_split base_id _ _ (NoDup_fmap_app_l _ _ _ Hids) Hold)
        as (o1 & o2 & Hsplit & Hid1 & Hid2).
      rewrite base_is_first_or_last_absent by assumption.
      rewrite (node_at_NoDup base_id _ _ Hids Hb).
      assert (Hrem : BLI_remlink base_id (object_bases view_layer) (base_id b) = o1 ++ o2).
      { rewrite Hsplit. apply BLI_remlink_at; [reflexivity | assumption]. }
      rewrite Hrem, (BLI_remlink_absent base_id new) by assumption. cbn.
      apply (visited_update (mkSyncState heap view_layer new) _ b child_restrict Hinv Hb).
      * reflexivity.
      * reflexivity.
      * unfold sync_bases. cbn. rewrite Hsplit.
        assert (Hupd : base_flag_update (base_id b) (base_restrict_flag child_restrict)
                         ((o1 ++ b :: o2) ++ new)
                       = o1 ++ set_base_flag
                                 (base_restrict_flag child_restrict (base_flag b)) b
                            :: o2 ++ new).
        { rewrite <- app_assoc. apply base_flag_update_at; [reflexivity | assumption |].
          rewrite fmap_app. intros Hin. apply elem_of_app in Hin as [Hin | Hin]; auto. }
        rewrite Hupd.
        rewrite (base_flag_update_at _ _ new b []);
          [| reflexivity | assumption | apply not_elem_of_nil].
        rewrite <- ?app_assoc. apply perm_relocate.
      * cbn. rewrite base_flag_update_object, fmap_app. symmetry. apply place_absent.
        assumption.
    + pose proof (NoDup_fmap_app_disjoint_r _ _ _ _ Hids Hnew) as Hid_old.
      pose proof (NoDup_fmap_app_disjoint_r _ _ _ _ Hobs Hnew) as Hob_old.
      destruct (base_is_first_or_last (base_id b) new) eqn:Hend.
      * (* The base is at an end of the new list: it stays. *)
        cbn.
        apply (visited_update (mkSyncState heap view_layer new) _ b child_restrict Hinv Hb).
        -- reflexivity.
        -- reflexivity.
        -- unfold sync_bases. cbn. rewrite base_flag_update_app.
           rewrite (base_flag_update_absent _ _ (object_bases view_layer)) by assumption.
           reflexivity.
        -- cbn. rewrite base_flag_update_object. symmetry. apply place_end.
           apply base_is_first_or_last_true in Hend as (b0 & Hb0 & Hid0 & Hend).
           assert (b0 = b) as ->.
           { eapply (NoDup_addr_eq base_id); [apply (NoDup_fmap_app_r _ _ _ Hids) | | |];
               assumption. }
           rewrite head_fmap_object, last_fmap_object.
           destruct Hend as [-> | ->]; [left | right]; reflexivity.
      * (* The base is inside the new list: it moves to the tail. *)
        destruct (NoDup_addr_split base_id _ _ (NoDup_fmap_app_r _ _ _ Hids) Hnew)
          as (n1 & n2 & Hsplit & Hid1 & Hid2).
        assert (Hob1 : object b ∉ object <$> n1).
        { pose proof (NoDup_fmap_app_r _ _ _ Hobs) as Hnd. rewrite Hsplit, fmap_app in Hnd.
          apply NoDup_app in Hnd as (_ & Hdisj & _). intros Hin. apply (Hdisj _ Hin).
          apply elem_of_cons. left. reflexivity. }
        pose proof (base_is_first_or_last_false _ _ b Hend eq_refl) as [Hhead Hlast].
        rewrite (node_at_NoDup base_id _ _ Hids Hb).
        rewrite (BLI_remlink_absent base_id _ _ Hid_old).
        assert (Hrem : BLI_remlink base_id new (base_id b) = n1 ++ n2).
        { rewrite Hsplit. apply BLI_remlink_at; [reflexivity | assumption]. }
        rewrite Hrem. cbn.
        apply (visited_update (mkSyncState heap view_layer new) _ b child_restrict Hinv Hb).
        -- reflexivity.
        -- reflexivity.
        -- unfold sync_bases. cbn. rewrite Hsplit.
           rewrite (base_flag_update_app _ _ (object_bases view_layer)).
           rewrite (base_flag_update_absent _ _ (object_bases view_layer)) by assumption.
           rewrite (base_flag_update_at _ _ n1 b n2) by (reflexivity || assumption).
           rewrite (base_flag_update_at _ _ (n1 ++ n2) b []);
             [| reflexivity | | apply not_elem_of_nil].
           2: { rewrite fmap_app. intros Hin. apply elem_of_app in Hin as [Hin | Hin]; auto. }
           rewrite <- ?app_assoc. apply Permutation_app_head.
           rewrite app_assoc. apply perm_move_tail.
        -- cbn. rewrite base_flag_update_object.
           assert (Hhead' : head (object <$> new) <> Some (object b)).
           { rewrite head_fmap_object. intros Heq.
             destruct (head new) as [x |] eqn:Hx; [| discriminate].
             cbn in Heq. injection Heq as Heq. apply Hhead. f_equal.
             eapply (NoDup_addr_eq object); [apply (NoDup_fmap_app_r _ _ _ Hobs) | | |];
               [eapply head_Some_elem_of, Hx | assumption | assumption]. }
           assert (Hlast' : last (object <$> new) <> Some (object b)).
           { rewrite last_fmap_object. intros Heq.
             destruct (last new) as [x |] eqn:Hx; [| discriminate].
             cbn in Heq. injection Heq as Heq. apply Hlast. f_equal.
             eapply (NoDup_addr_eq object); [apply (NoDup_fmap_app_r _ _ _ Hobs) | | |];
               [eapply last_Some_elem_of, Hx | assumption | assumption]. }
           rewrite Hsplit in Hhead', Hlast' |- *.
           rewrite !fmap_app, !fmap_cons in *. rewrite <- app_assoc. symmetry.
           apply place_middle; assumption.
  - (* Create new base. *)
    cbn.
    assert (Hfresh : ob ∉ object <$> object_bases view_layer ++ new).
    { intros Hin. apply list_elem_of_fmap in Hin as (b & -> & Hb).
      assert (Hsome : bases_hash view_layer !! object b = Some (base_id b))
        by (apply Hcoh; eauto).
      congruence. }
    assert (Hheap : heap ∉ base_id <$> object_bases view_layer ++ new).
    { intros Hin. apply list_elem_of_fmap in Hin as (b & Heq & Hb).
      apply Hbound in Hb. lia. }
    assert (Hheap_new : heap ∉ base_id <$> new).
    { intros Hin. apply Hheap. rewrite fmap_app. apply elem_of_app. right. exact Hin. }
    rewrite (base_flag_update_at _ _ new (mkBase heap ob 0) []);
      [| reflexivity | assumption | apply not_elem_of_nil].
    change (set_base_flag (base_restrict_flag child_restrict (base_flag (mkBase heap ob 0)))
              (mkBase heap ob 0))
      with (mkBase heap ob (base_restrict_flag child_restrict 0)).
    set (created := mkBase heap ob (base_restrict_flag child_restrict 0)).
    assert (Hgranted : forall x, x ∈ object_bases view_layer ++ new ->
              base_granted [(ob, child_restrict)] x = x).
    { intros x Hx. unfold base_granted. cbn.
      destruct (decide (ob = object x)) as [-> | Hne].
      - exfalso. apply Hfresh, list_elem_of_fmap_2, Hx.
      - rewrite Z.lor_0_r. apply set_base_flag_same. }
    split; [split; [| split; [| split]] |]; unfold sync_bases; cbn.
    + rewrite app_assoc, fmap_app. apply NoDup_app. split; [assumption |].
      split; [| apply NoDup_singleton].
      intros x Hx Hin. apply list_elem_of_singleton in Hin. subst x. contradiction.
    + rewrite app_assoc, fmap_app. apply NoDup_app. split; [assumption |].
      split; [| apply NoDup_singleton].
      intros x Hx Hin. apply list_elem_of_singleton in Hin. subst x. contradiction.
    + intros x Hx. rewrite app_assoc in Hx. apply elem_of_app in Hx as [Hx | Hx].
      * apply Hbound in Hx. lia.
      * apply list_elem_of_singleton in Hx. subst x. cbn. lia.
    + intros ob' a. unfold bases_hash at 1. cbn. rewrite lookup_insert.
      destruct (decide (ob = ob')) as [<- | Hne].
      * split.
        -- intros [= <-]. exists created. split; [| auto].
           rewrite app_assoc. apply elem_of_app. right. apply list_elem_of_singleton.
           reflexivity.
        -- intros (x & Hx & Hob & Hid). rewrite app_assoc in Hx.
           apply elem_of_app in Hx as [Hx | Hx].
           ++ exfalso. apply Hfresh. rewrite <- Hob. apply list_elem_of_fmap_2, Hx.
           ++ apply list_elem_of_singleton in Hx. subst x. cbn in Hid. congruence.
      * rewrite Hcoh. split.
        -- intros (x & Hx & Hob & Hid). exists x. split; [| auto].
           rewrite app_assoc. apply elem_of_app. left. exact Hx.
        -- intros (x & Hx & Hob & Hid). exists x. split; [| auto].
           rewrite app_assoc in Hx. apply elem_of_app in Hx as [Hx | Hx]; [exact Hx |].
           apply list_elem_of_singleton in Hx. subst x. cbn in Hob. congruence.
    + constructor; unfold sync_bases; cbn.
      * rewrite fmap_app. symmetry. apply place_absent.
        intros Hin. apply Hfresh. rewrite fmap_app. apply elem_of_app. right. exact Hin.
      * intros x Hx. rewrite (Hgranted x Hx). rewrite app_assoc. apply elem_of_app.
        left. exact Hx.
      * intros x Hx. rewrite app_assoc in Hx. apply elem_of_app in Hx as [Hx | Hx].
        -- left. exists x. split; [exact Hx | symmetry; apply Hgranted, Hx].
        -- right. apply list_elem_of_singleton in Hx. subst x. cbn.
           split; [apply elem_of_cons; left; reflexivity |].
           split; [exact Hfresh |]. split; [lia |].
           rewrite decide_True by reflexivity.
           rewrite base_restrict_flag_lor, Z.lor_0_l, Z.lor_0_r. reflexivity.
      * lia.
Qed.

Lemma elem_of_place obs ob x : x ∈ place obs ob <-> x ∈ obs \/ x = ob.
Proof.
  unfold place. destruct (bool_decide (ob ∈ obs)) eqn:Hin.
  - apply bool_decide_eq_true in Hin.
    destruct (bool_decide (head obs = Some ob \/ last obs = Some ob)).
    + split; [auto |]. intros [Hx | ->]; assumption.
    + rewrite elem_of_app, list_elem_of_singleton. split.
      * intros [Hx | ->]; [left; eapply (elem_of_BLI_remlink (fun o => o)), Hx | auto].
      * intros [Hx | ->]; [| auto].
        destruct (decide (x = ob)) as [-> | Hne]; [auto |].
        left. apply (elem_of_BLI_remlink_ne (fun o => o)); assumption.
  - rewrite elem_of_app, list_elem_of_singleton. reflexivity.
Qed.

Lemma elem_of_fold_place obs l x :
  x ∈ fold_left place obs l <-> x ∈ l \/ x ∈ obs.
Proof.
  revert l. induction obs as [| ob obs IH]; intros l; cbn.
  - rewrite elem_of_nil. tauto.
  - rewrite IH, elem_of_place, elem_of_cons. tauto.
Qed.

Lemma base_granted_app visits visits' base :
  base_granted (visits ++ visits') base = base_granted visits' (base_granted visits base).
Proof.
  unfold base_granted, set_base_flag. cbn. rewrite visits_grant_app, Z.lor_assoc.
  reflexivity.
Qed.

Lemma base_granted_nil base : base_granted [] base = base.
Proof. unfold base_granted. cbn. rewrite Z.lor_0_r. apply set_base_flag_same. Qed.

(** No visit: the bases and the new list are as they were, and the
    allocator may have handed out addresses. *)
Lemma visited_nil s s' :
  sync_bases s' = sync_bases s ->
  ss_new_object_bases s' = ss_new_object_bases s ->
  (ss_heap s <= ss_heap s')%nat ->
  visited [] s s'.
Proof.
  intros Hall Hnew Hheap. constructor.
  - cbn. rewrite Hnew. reflexivity.
  - intros base Hbase. rewrite base_granted_nil, Hall. exact Hbase.
  - intros base' Hbase'. left. exists base'. rewrite base_granted_nil, <- Hall. auto.
  - exact Hheap.
Qed.

(** Visits compose. *)
Lemma visited_trans visits visits' s s' s'' :
  visited visits s s' -> visited visits' s' s'' -> visited (visits ++ visits') s s''.
Proof.
  intros [Horder Hkept Horigin Hheap] [Horder' Hkept' Horigin' Hheap'].
  assert (Hvisited : forall ob, ob ∈ visits.*1 -> ob ∈ object <$> sync_bases s').
  { intros ob Hob. unfold sync_bases. rewrite fmap_app, elem_of_app. right.
    rewrite Horder. apply elem_of_fold_place. right. exact Hob. }
  assert (Hobjects : forall ob, ob ∈ object <$> sync_bases s ->
                                ob ∈ object <$> sync_bases s').
  { intros ob Hob. apply list_elem_of_fmap in Hob as (base & -> & Hbase).
    apply Hkept in Hbase. apply (list_elem_of_fmap_2 object) in Hbase. exact Hbase. }
  constructor.
  - rewrite Horder', Horder, fmap_app, fold_left_app. reflexivity.
  - intros base Hbase. rewrite base_granted_app. auto.
  - intros base'' Hbase''. destruct (Horigin' _ Hbase'') as
      [(base' & Hbase' & ->) | (Hin & Hfresh & Hid & Hflag)].
    + destruct (Horigin _ Hbase') as [(base & Hbase & ->) | (Hin & Hfresh & Hid & Hflag)].
      * left. exists base. rewrite base_granted_app. auto.
      * right. cbn. rewrite fmap_app, elem_of_app.
        split; [auto |]. split; [assumption |]. split; [lia |].
        rewrite Hflag, visits_grant_app. reflexivity.
    + right. rewrite fmap_app, elem_of_app.
      split; [auto |]. split; [auto |]. split; [lia |].
      rewrite Hflag, visits_grant_app, (visits_grant_absent visits); [reflexivity |].
      auto.
  - lia.
Qed.

(** The object loop over the objects of a collection. *)
Lemma layer_collection_sync_objects_visited lc_flag_ child_restrict obs s :
  sync_inv s ->
  let s' := layer_collection_sync_objects lc_flag_ child_restrict obs s in
  sync_inv s' /\
  visited (if flag_test lc_flag_ LAYER_COLLECTION_EXCLUDE then []
           else (fun ob => (ob, child_restrict)) <$> obs) s s'.
Proof.
  cbn zeta. unfold layer_collection_sync_objects.
  destruct (flag_test lc_flag_ LAYER_COLLECTION_EXCLUDE).
  - intros Hinv. split; [assumption |]. apply visited_nil; auto.
  - revert s. induction obs as [| ob obs IH]; intros s Hinv; cbn.
    + split; [assumption |]. apply visited_nil; auto.
    + destruct (layer_collection_sync_object_visited child_restrict s ob Hinv)
        as [Hinv' Hvisit].
      destruct (IH _ Hinv') as [Hinv'' Hvisits].
      split; [assumption |].
      apply (visited_trans [(ob, child_restrict)] _ _ _ _ Hvisit Hvisits).
Qed.

(** ** Steps on the layer collections leave the bases alone *)

Lemma tree_only_refl v : tree_only v v.
Proof. destruct v. reflexivity. Qed.

Lemma tree_only_trans v v' v'' : tree_only v v' -> tree_only v' v'' -> tree_only v v''.
Proof. unfold tree_only. intros -> ->. destruct v. reflexivity. Qed.

Lemma tree_only_set_active a v : tree_only v (set_active_collection a v).
Proof. destruct v. reflexivity. Qed.

Lemma tree_only_set_layer_collections l v : tree_only v (set_layer_collections l v).
Proof. destruct v. reflexivity. Qed.

Lemma tree_only_object_bases v v' : tree_only v v' -> object_bases v' = object_bases v.
Proof. intros ->. reflexivity. Qed.

Lemma tree_only_bases_hash v v' : tree_only v v' -> bases_hash v' = bases_hash v.
Proof. intros ->. reflexivity. Qed.

Lemma layer_collection_free_tree_only :
  forall lc view_layer, tree_only view_layer (layer_collection_free view_layer lc).
Proof.
  refine (proj1 (LayerCollection_tree_ind
    (fun lc => forall view_layer, tree_only view_layer (layer_collection_free view_layer lc))
    (fun l => forall view_layer,
       tree_only view_layer (fold_left layer_collection_free l view_layer)) _ _ _)).
  - intros lc IH view_layer. destruct lc as [id col fl cs]. cbn in *.
    eapply tree_only_trans; [| apply IH].
    destruct (decide _); [apply tree_only_set_active | apply tree_only_refl].
  - intros view_layer. apply tree_only_refl.
  - intros lc l Hlc Hl view_layer. cbn.
    eapply tree_only_trans; [apply Hlc | apply Hl].
Qed.

Lemma lb_set_tree_only view_layer lb_layer l :
  tree_only view_layer (lb_set view_layer lb_layer l).1.
Proof.
  destruct lb_layer; cbn; [apply tree_only_set_layer_collections | apply tree_only_refl].
Qed.

Lemma layer_collection_sync_prune_tree_only lb_scene view_layer lb_layer kept rest :
  tree_only view_layer
    (layer_collection_sync_prune lb_scene view_layer lb_layer kept rest).1.
Proof.
  revert view_layer lb_layer kept.
  induction rest as [| lc rest IH]; intros view_layer lb_layer kept; cbn.
  - apply tree_only_refl.
  - destruct (scene_child_find lb_scene (collection lc)); [apply IH |].
    pose proof (lb_set_tree_only (layer_collection_free view_layer lc) lb_layer
                  (kept ++ rest)) as Hset.
    destruct (lb_set _ _ _) as [view_layer' lb_layer']. cbn in Hset.
    eapply tree_only_trans; [| apply IH].
    eapply tree_only_trans; [apply layer_collection_free_tree_only | exact Hset].
Qed.

Lemma tree_step_refl s : tree_step s s.
Proof. split; [apply tree_only_refl | auto]. Qed.

Lemma tree_step_visited s s' :
  tree_step s s' -> sync_inv s -> sync_inv s' /\ visited [] s s'.
Proof.
  intros (Htree & Hnew & Hheap) (Hobs & Hids & Hbound & Hcoh).
  assert (Hall : sync_bases s' = sync_bases s).
  { unfold sync_bases. rewrite (tree_only_object_bases _ _ Htree), Hnew. reflexivity. }
  split; [| apply visited_nil; assumption].
  unfold sync_inv. rewrite Hall, (tree_only_bases_hash _ _ Htree).
  split; [assumption |]. split; [assumption |]. split; [| assumption].
  intros base Hbase. apply Hbound in Hbase. lia.
Qed.

Lemma layer_collection_sync_lookup_tree_step child s lb_layer parent_exclude :
  tree_step s (layer_collection_sync_lookup child s lb_layer parent_exclude).1.1.
Proof.
  unfold layer_collection_sync_lookup.
  destruct (layer_collection_take _ _) as [[lc rest] |].
  - pose proof (lb_set_tree_only (ss_view_layer s) lb_layer rest) as Hset.
    destruct (lb_set _ _ _) as [view_layer lb_layer']. cbn in *.
    split; [exact Hset |]. split; [reflexivity | cbn; lia].
  - split; [apply tree_only_refl |]. split; [reflexivity | cbn; lia].
Qed.

(** ** The recursive pass visits the objects of the non-excluded paths *)

Lemma layer_child_paths_eq child lc prefix :
  layer_child_paths child lc prefix
  = layer_paths (children child) (layer_collections lc) (prefix ++ [child]) ++
    (if flag_test (lc_flag lc) LAYER_COLLECTION_EXCLUDE then []
     else (fun ob => (ob, prefix ++ [child])) <$> gobject child).
Proof. destruct child. reflexivity. Qed.

Lemma path_restrict_snoc prefix child :
  path_restrict (prefix ++ [child]) = child_restrict_of (path_restrict prefix) child.
Proof. unfold path_restrict. rewrite fold_left_app. reflexivity. Qed.

Lemma path_visits_app paths paths' :
  path_visits (paths ++ paths') = path_visits paths ++ path_visits paths'.
Proof. apply fmap_app. Qed.

Lemma path_visits_objects_of lc_flag_ path obs :
  path_visits (if flag_test lc_flag_ LAYER_COLLECTION_EXCLUDE then []
               else (fun ob => (ob, path)) <$> obs)
  = if flag_test lc_flag_ LAYER_COLLECTION_EXCLUDE then []
    else (fun ob => (ob, path_restrict path)) <$> obs.
Proof.
  destruct (flag_test _ _); [reflexivity |].
  unfold path_visits. rewrite <- list_fmap_compose. reflexivity.
Qed.

(** From the second loop to the whole function: the first loop and the
    replacement of the list are steps on the layer collections. *)
Lemma layer_collection_sync_visited_from_loop lb_scene s lb_layer parent_exclude
  parent_restrict prefix :
  (forall s lb_layer new_lb_layer, sync_inv s ->
   let st := layer_collection_sync_loop layer_collection_sync_child lb_scene
               (s, lb_layer, new_lb_layer) parent_exclude parent_restrict in
   exists added,
     st.2 = new_lb_layer ++ added /\ sync_inv st.1.1 /\
     visited (path_visits (layer_paths lb_scene added prefix)) s st.1.1) ->
  sync_inv s ->
  let r := layer_collection_sync lb_scene s lb_layer parent_exclude parent_restrict in
  sync_inv r.1 /\ visited (path_visits (layer_paths lb_scene r.2 prefix)) s r.1.
Proof.
  intros Hloop Hinv. cbn zeta. rewrite layer_collection_sync_eq. cbn zeta.
  set (pruned := layer_collection_sync_prune _ _ _ _ _).
  set (s0 := mkSyncState (ss_heap s) pruned.1 (ss_new_object_bases s)).
  assert (Hstep0 : tree_step s s0).
  { split; [apply layer_collection_sync_prune_tree_only |]. split; [reflexivity | cbn; lia]. }
  destruct (tree_step_visited _ _ Hstep0 Hinv) as [Hinv0 Hvisit0].
  destruct (Hloop s0 pruned.2 [] Hinv0) as (added & Hadded & Hinv1 & Hvisit1).
  set (st := layer_collection_sync_loop _ _ _ _ _) in *.
  cbn [fst snd]. rewrite Hadded. cbn [app].
  set (s2 := mkSyncState _ _ _).
  assert (Hstep2 : tree_step st.1.1 s2).
  { split; [apply lb_set_tree_only |]. split; [reflexivity | cbn; lia]. }
  destruct (tree_step_visited _ _ Hstep2 Hinv1) as [Hinv2 Hvisit2].
  split; [exact Hinv2 |].
  pose proof (visited_trans _ _ _ _ _ Hvisit0 (visited_trans _ _ _ _ _ Hvisit1 Hvisit2))
    as Hvisit.
  cbn [app] in Hvisit. rewrite app_nil_r in Hvisit. exact Hvisit.
Qed.

Lemma layer_collection_sync_loop_visited :
  forall lb_scene parent_exclude parent_restrict prefix s lb_layer new_lb_layer,
  parent_restrict = path_restrict prefix ->
  sync_inv s ->
  let st := layer_collection_sync_loop layer_collection_sync_child lb_scene
              (s, lb_layer, new_lb_layer) parent_exclude parent_restrict in
  exists added,
    st.2 = new_lb_layer ++ added /\ sync_inv st.1.1 /\
    visited (path_visits (layer_paths lb_scene added prefix)) s st.1.1.
Proof.
  refine (proj2 (Collection_tree_ind
    (fun child => forall parent_exclude parent_restrict prefix s lb_layer new_lb_layer,
       parent_restrict = path_restrict prefix ->
       sync_inv s ->
       let st := layer_collection_sync_child child (s, lb_layer, new_lb_layer)
                   parent_exclude parent_restrict in
       exists lc,
         st.2 = new_lb_layer ++ [lc] /\ sync_inv st.1.1 /\
         visited (path_visits (layer_child_paths child lc prefix)) s st.1.1)
    (fun lb_scene => forall parent_exclude parent_restrict prefix s lb_layer new_lb_layer,
       parent_restrict = path_restrict prefix ->
       sync_inv s ->
       let st := layer_collection_sync_loop layer_collection_sync_child lb_scene
                   (s, lb_layer, new_lb_layer) parent_exclude parent_restrict in
       exists added,
         st.2 = new_lb_layer ++ added /\ sync_inv st.1.1 /\
         visited (path_visits (layer_paths lb_scene added prefix)) s st.1.1) _ _ _)).
  - intros child IH parent_exclude parent_restrict prefix s lb_layer new_lb_layer Hrestrict
      Hinv.
    cbn zeta. rewrite layer_collection_sync_child_eq. cbn zeta.
    set (found := layer_collection_sync_lookup child s lb_layer parent_exclude).
    destruct (tree_step_visited _ _
                (layer_collection_sync_lookup_tree_step child s lb_layer parent_exclude) Hinv)
      as [Hinv0 Hvisit0]. fold found in Hinv0, Hvisit0.
    set (child_restrict := child_restrict_of parent_restrict child).
    assert (Hchild_restrict : child_restrict = path_restrict (prefix ++ [child])).
    { rewrite path_restrict_snoc, <- Hrestrict. reflexivity. }
    destruct (layer_collection_sync_visited_from_loop (children child) found.1.1
                (lb_local (layer_collections found.2)) (lc_flag found.2) child_restrict
                (prefix ++ [child])) as [Hinv1 Hvisit1]; [| exact Hinv0 |].
    { intros s' lb' new' Hinv'. apply IH; assumption. }
    set (sub := layer_collection_sync _ _ _ _ _) in *.
    destruct (layer_collection_sync_objects_visited (lc_flag found.2) child_restrict
                (gobject child) sub.1 Hinv1) as [Hinv2 Hvisit2].
    eexists. split; [reflexivity |]. cbn [fst snd]. split; [exact Hinv2 |].
    rewrite layer_child_paths_eq. cbn [lc_flag layer_collections].
    rewrite path_visits_app, path_visits_objects_of, <- Hchild_restrict.
    pose proof (visited_trans _ _ _ _ _ Hvisit0 (visited_trans _ _ _ _ _ Hvisit1 Hvisit2))
      as Hvisit.
    exact Hvisit.
  - intros parent_exclude parent_restrict prefix s lb_layer new_lb_layer _ Hinv.
    exists []. cbn. rewrite app_nil_r. split; [reflexivity |]. split; [assumption |].
    apply visited_nil; auto.
  - intros child lb_scene Hchild Hrest parent_exclude parent_restrict prefix s lb_layer
      new_lb_layer Hrestrict Hinv.
    cbn zeta. cbn [layer_collection_sync_loop].
    destruct (Hchild parent_exclude parent_restrict prefix s lb_layer new_lb_layer
                Hrestrict Hinv) as (lc & Hlc & Hinv1 & Hvisit1).
    destruct (layer_collection_sync_child _ _ _ _) as [[s1 lb1] new1].
    cbn [fst snd] in *. subst new1.
    destruct (Hrest parent_exclude parent_restrict prefix s1 lb1 (new_lb_layer ++ [lc])
                Hrestrict Hinv1) as (added & Hadded & Hinv2 & Hvisit2).
    exists (lc :: added). rewrite Hadded, <- app_assoc. split; [reflexivity |].
    split; [exact Hinv2 |].
    change (layer_paths (child :: lb_scene) (lc :: added) prefix)
      with (layer_child_paths child lc prefix ++ layer_paths lb_scene added prefix).
    rewrite path_visits_app. eapply visited_trans; eassumption.
Qed.

(** The recursive pass keeps the invariant of the bases, and its effect on
    them is that of visiting, in order, the objects of the non-excluded
    paths of the rebuilt layer list. *)
Lemma layer_collection_sync_visited lb_scene s lb_layer parent_exclude parent_restrict
  prefix :
  parent_restrict = path_restrict prefix ->
  sync_inv s ->
  let r := layer_collection_sync lb_scene s lb_layer parent_exclude parent_restrict in
  sync_inv r.1 /\ visited (path_visits (layer_paths lb_scene r.2 prefix)) s r.1.
Proof.
  intros Hrestrict Hinv. apply layer_collection_sync_visited_from_loop; [| exact Hinv].
  intros s' lb' new' Hinv'. apply layer_collection_sync_loop_visited; assumption.
Qed.

(** ** The whole sync and the base registry *)

#[local] Arguments layer_paths : simpl never.
#[local] Arguments path_visits : simpl never.

Lemma bases_hash_fold_insert (l : list Base) (h : gmap nat nat) ob a :
  NoDup (object <$> l) ->
  fold_left (fun h base => <[object base := base_id base]> h) l h !! ob = Some a <->
  (exists base, base ∈ l /\ object base = ob /\ base_id base = a) \/
  ((ob ∉ object <$> l) /\ h !! ob = Some a).
Proof.
  revert h. induction l as [| b l IH]; intros h Hnd; cbn.
  - split.
    + intros Hh. right. split; [apply not_elem_of_nil | exact Hh].
    + intros [(base & Hbase & _) | [_ Hh]]; [| exact Hh].
      apply elem_of_nil in Hbase. contradiction.
  - apply NoDup_cons in Hnd as [Hb Hnd]. rewrite (IH _ Hnd). split.
    + intros [(base & Hbase & Hob & Hid) | [Hout Hh]].
      * left. exists base. split; [apply elem_of_cons; right; exact Hbase | auto].
      * rewrite lookup_insert in Hh. destruct (decide (object b = ob)) as [Heq | Hne].
        -- injection Hh as <-. left. exists b.
           split; [apply elem_of_cons; left; reflexivity | auto].
        -- right. split; [| exact Hh]. apply not_elem_of_cons. split; [congruence | exact Hout].
    + intros [(base & Hbase & Hob & Hid) | [Hout Hh]].
      * apply elem_of_cons in Hbase as [-> | Hbase].
        -- right. split; [rewrite <- Hob; exact Hb |].
           rewrite lookup_insert, decide_True by assumption. congruence.
        -- left. eauto.
      * apply not_elem_of_cons in Hout as [Hne Hout]. right. split; [exact Hout |].
        rewrite lookup_insert, decide_False by congruence. exact Hh.
Qed.

(** After [view_layer_bases_hash_create] the hash of a consistent registry
    maps exactly the objects of the base list. *)
Lemma view_layer_bases_hash_create_coherent heap view_layer ob a :
  bases_consistent heap view_layer ->
  bases_hash (view_layer_bases_hash_create view_layer) !! ob = Some a <->
  exists base, base ∈ object_bases view_layer /\ object base = ob /\ base_id base = a.
Proof.
  intros (Hobs & _ & _ & Hcoh). unfold view_layer_bases_hash_create, bases_hash.
  destruct (object_bases_hash view_layer) as [hash |] eqn:Hhash.
  - rewrite Hhash. cbn. apply Hcoh. reflexivity.
  - cbn. rewrite (bases_hash_fold_insert _ _ _ _ Hobs). split.
    + intros [Hbase | [_ Hempty]]; [exact Hbase |]. rewrite lookup_empty in Hempty.
      discriminate.
    + auto.
Qed.

Lemma view_layer_bases_hash_create_fields view_layer :
  object_bases (view_layer_bases_hash_create view_layer) = object_bases view_layer /\
  vl_layer_collections (view_layer_bases_hash_create view_layer)
  = vl_layer_collections view_layer /\
  active_collection (view_layer_bases_hash_create view_layer) = active_collection view_layer.
Proof.
  unfold view_layer_bases_hash_create. destruct (object_bases_hash view_layer); auto.
Qed.

(** The leftover bases leave the hash. *)
Lemma layer_collection_sync_remove_bases (l : list Base) (view_layer : ViewLayer) :
  let view_layer' := fold_left layer_collection_sync_remove_base l view_layer in
  vl_layer_collections view_layer' = vl_layer_collections view_layer /\
  active_collection view_layer' = active_collection view_layer /\
  forall ob a,
    bases_hash view_layer' !! ob = Some a <->
    (ob ∉ object <$> l) /\ bases_hash view_layer !! ob = Some a.
Proof.
  revert view_layer. induction l as [| b l IH]; intros view_layer; cbn.
  - split; [reflexivity |]. split; [reflexivity |]. intros ob a.
    split; [intros Hh; split; [apply not_elem_of_nil | exact Hh] | tauto].
  - destruct (IH (layer_collection_sync_remove_base view_layer b)) as (Hlc & Hactive & Hhash).
    rewrite Hlc, Hactive.
    split; [unfold layer_collection_sync_remove_base; destruct (decide _); reflexivity |].
    split; [unfold layer_collection_sync_remove_base; destruct (decide _); reflexivity |].
    intros ob a. rewrite Hhash, not_elem_of_cons.
    unfold layer_collection_sync_remove_base at 1. unfold bases_hash at 1. cbn.
    rewrite lookup_delete.
    assert (Hsame : bases_hash (if decide (basact view_layer = Some (base_id b))
                                then set_basact None view_layer else view_layer)
                    = bases_hash view_layer) by (destruct (decide _); reflexivity).
    rewrite Hsame.
    destruct (decide (object b = ob)) as [Heq | Hne].
    + split; [intros [_ Hnone]; discriminate | intros [[Hne _] _]; congruence].
    + split; [intros [Hout Hh]; split; [split; [congruence | exact Hout] | exact Hh] | tauto].
Qed.

(** The list reference of the top-level call stays the root list of the
    view layer. *)
Lemma layer_collection_sync_prune_view_layer lb_scene view_layer kept rest :
  (layer_collection_sync_prune lb_scene view_layer lb_view_layer kept rest).2 = lb_view_layer.
Proof.
  revert view_layer kept. induction rest as [| lc rest IH]; intros view_layer kept; cbn.
  - reflexivity.
  - destruct (scene_child_find lb_scene (collection lc)); apply IH.
Qed.

Lemma layer_collection_sync_lookup_view_layer child s parent_exclude :
  (layer_collection_sync_lookup child s lb_view_layer parent_exclude).1.2 = lb_view_layer.
Proof.
  unfold layer_collection_sync_lookup.
  destruct (layer_collection_take _ _) as [[lc rest] |]; reflexivity.
Qed.

Lemma layer_collection_sync_loop_view_layer lb_scene s new_lb_layer parent_exclude
  parent_restrict :
  (layer_collection_sync_loop layer_collection_sync_child lb_scene
     (s, lb_view_layer, new_lb_layer) parent_exclude parent_restrict).1.2 = lb_view_layer.
Proof.
  revert s new_lb_layer. induction lb_scene as [| child lb_scene IH]; intros s new_lb_layer.
  - reflexivity.
  - cbn [layer_collection_sync_loop]. rewrite layer_collection_sync_child_eq. cbn zeta.
    rewrite layer_collection_sync_lookup_view_layer. apply IH.
Qed.

(** The top-level call leaves its result in the root list of the view
    layer. *)
Lemma layer_collection_sync_view_layer lb_scene s parent_exclude parent_restrict :
  let r := layer_collection_sync lb_scene s lb_view_layer parent_exclude parent_restrict in
  vl_layer_collections (ss_view_layer r.1) = r.2.
Proof.
  cbn zeta. rewrite layer_collection_sync_eq. cbn zeta.
  rewrite layer_collection_sync_prune_view_layer, layer_collection_sync_loop_view_layer.
  reflexivity.
Qed.

(** What [BKE_layer_collection_sync] has built when it replaces the base
    list: the layer tree mirrors the collection tree; the base list holds,
    in the order the object loop left them, one base for each object of a
    non-excluded path; a base that existed keeps its address and its flag
    bits outside the four evaluated ones, a new base has a new address; the
    four bits of each are the union of what the paths to its object grant;
    and the registry is consistent again. *)
Lemma layer_collection_sync_rebuild_spec master heap view_layer :
  bases_consistent heap view_layer ->
  let r := layer_collection_sync_rebuild master heap view_layer in
  let paths := layer_paths [master] (vl_layer_collections r.2) [] in
  bases_consistent r.1 r.2 /\
  mirrors [master] (vl_layer_collections r.2) /\
  object <$> object_bases r.2 = fold_left place paths.*1 [] /\
  (forall base', base' ∈ object_bases r.2 ->
     (exists base, base ∈ object_bases view_layer /\
        base' = mkBase (base_id base) (object base)
                  (Z.lor (Z.land (base_flag base) (Z.lnot BASE_SYNC_FLAGS))
                     (paths_grant paths (object base)))) \/
     ((object base' ∉ object <$> object_bases view_layer) /\
      (heap <= base_id base' < r.1)%nat /\
      base_flag base' = paths_grant paths (object base'))) /\
  (heap <= r.1)%nat.
Proof.
  intros Hcons. pose proof Hcons as (Hobs & Hids & Hbound & _).
  cbn zeta. unfold layer_collection_sync_rebuild.
  set (cleared := fun base => set_base_flag (Z.land (base_flag base) (Z.lnot BASE_SYNC_FLAGS))
                                base).
  set (v1 := view_layer_bases_hash_create (set_object_bases_array None view_layer)).
  set (v2 := set_object_bases (cleared <$> object_bases v1) v1).
  assert (Hcons1 : bases_consistent heap (set_object_bases_array None view_layer))
    by exact Hcons.
  assert (Hbases1 : object_bases v1 = object_bases view_layer)
    by apply (view_layer_bases_hash_create_fields (set_object_bases_array None view_layer)).
  assert (Hinv0 : sync_inv (mkSyncState heap v2 [])).
  { unfold sync_inv, sync_bases. cbn. rewrite app_nil_r, Hbases1.
    rewrite <- !list_fmap_compose.
    split; [exact Hobs |]. split; [exact Hids |]. split.
    - intros base Hbase. apply list_elem_of_fmap in Hbase as (base0 & -> & Hbase0).
      exact (Hbound _ Hbase0).
    - intros ob a.
      change (bases_hash v2) with (bases_hash v1). unfold v1.
      rewrite (view_layer_bases_hash_create_coherent heap _ ob a Hcons1). cbn. split.
      + intros (base & Hbase & Hob & Hid). exists (cleared base).
        split; [apply list_elem_of_fmap_2, Hbase | auto].
      + intros (base & Hbase & Hob & Hid).
        apply list_elem_of_fmap in Hbase as (base0 & -> & Hbase0). eauto. }
  pose proof (layer_collection_sync_visited [master] (mkSyncState heap v2 []) lb_view_layer
                0 0 [] eq_refl Hinv0) as [HinvF Hvisit].
  pose proof (layer_collection_sync_view_layer [master] (mkSyncState heap v2 []) 0 0) as Hroots.
  pose proof (layer_collection_sync_mirrors [master] (mkSyncState heap v2 []) lb_view_layer
                0 0) as Hmirror.
  cbn zeta in *.
  destruct (layer_collection_sync [master] (mkSyncState heap v2 []) lb_view_layer 0 0)
    as [sF t]. cbn [fst snd] in *.
  destruct (layer_collection_sync_remove_bases (object_bases (ss_view_layer sF))
              (ss_view_layer sF)) as (Hlc & _ & Hhash).
  cbn zeta in *.
  set (vF := fold_left layer_collection_sync_remove_base _ _) in *.
  cbn [fst snd]. change (vl_layer_collections (set_object_bases _ vF))
    with (vl_layer_collections vF).
  rewrite Hlc, Hroots.
  destruct HinvF as (HobsF & HidsF & HboundF & HcohF). unfold sync_bases in *.
  destruct Hvisit as [Horder Hkept Horigin Hheap]. unfold sync_bases in *. cbn in *.
  split; [| split; [exact Hmirror | split; [| split; [| exact Hheap]]]].
  - split; [exact (NoDup_fmap_app_r _ _ _ HobsF) |].
    split; [exact (NoDup_fmap_app_r _ _ _ HidsF) |]. split.
    + intros base Hbase. apply HboundF. apply elem_of_app. right. exact Hbase.
    + intros hash Hsome ob a. cbn in Hsome.
      assert (Hbh : bases_hash vF = hash) by (unfold bases_hash; rewrite Hsome; reflexivity).
      rewrite <- Hbh, Hhash, HcohF. split.
      * intros (Hout & base & Hbase & Hob & Hid). exists base. split; [| auto].
        apply elem_of_app in Hbase as [Hbase | Hbase]; [| exact Hbase].
        exfalso. apply Hout. rewrite <- Hob. apply list_elem_of_fmap_2, Hbase.
      * intros (base & Hbase & Hob & Hid). split.
        -- rewrite <- Hob. eapply NoDup_fmap_app_disjoint_r; eassumption.
        -- exists base. split; [apply elem_of_app; right; exact Hbase | auto].
  - rewrite Horder, path_visits_objects. reflexivity.
  - intros base' Hbase'.
    destruct (Horigin base') as [(base & Hbase & ->) | (Hin & Hfresh & Hid & Hflag)].
    + apply elem_of_app. right. exact Hbase'.
    + left. rewrite app_nil_r, Hbases1 in Hbase.
      apply list_elem_of_fmap in Hbase as (base0 & -> & Hbase0).
      exists base0. split; [exact Hbase0 |].
      unfold base_granted, cleared, set_base_flag. cbn. rewrite paths_grant_visits.
      reflexivity.
    + right. rewrite app_nil_r, Hbases1, <- list_fmap_compose in Hfresh.
      split; [exact Hfresh |]. split; [exact Hid |].
      rewrite Hflag, paths_grant_visits. reflexivity.
Qed.

(** [BKE_layer_collection_activate_parent] writes the active collection
    and nothing else. *)
Lemma BKE_layer_collection_activate_parent_active view_layer lc_collection :
  let r := BKE_layer_collection_activate_parent view_layer lc_collection in
  r.1 = set_active_collection (lc_id <$> r.2) view_layer.
Proof.
  induction lc_collection as [c IH] using CollectionParent_tree_ind.
  destruct c as [id ps]. cbn in *.
  destruct ps as [| parent ps]; [reflexivity |].
  destruct (BKE_layer_collection_first_from_scene_collection _ _) as [lc |]; [| reflexivity].
  destruct (flag_test _ _); [| reflexivity].
  apply Forall_cons in IH as [IH _]. exact IH.
Qed.

#[local] Arguments BKE_layer_collection_activate_parent : simpl never.

Lemma layer_collection_sync_active_only master view_layer view_layer' :
  layer_collection_sync_active master view_layer = Some view_layer' ->
  view_layer' = set_active_collection (active_collection view_layer') view_layer.
Proof.
  unfold layer_collection_sync_active.
  destruct (active_collection view_layer) as [a |] eqn:Hactive.
  - destruct (layer_collection_at view_layer a) as [active |]; [| discriminate]. cbn.
    destruct (flag_test _ _).
    + destruct (collection active) as [c |]; [| discriminate]. cbn.
      destruct (collection_deref c master) as [lc_collection |]; [| discriminate]. cbn.
      intros [= <-]. rewrite BKE_layer_collection_activate_parent_active. reflexivity.
    + intros [= <-]. rewrite Hactive. destruct view_layer. cbn in *. subst.
      reflexivity.
  - intros [= <-]. reflexivity.
Qed.

(** A sync that returns has rebuilt the view layer and then written the
    active collection. *)
Lemma BKE_layer_collection_sync_rebuilt scene master heap view_layer heap' view_layer' :
  master_collection scene = Some master ->
  BKE_layer_collection_sync scene heap view_layer = Some (heap', view_layer') ->
  let r := layer_collection_sync_rebuild master heap view_layer in
  heap' = r.1 /\
  layer_collection_sync_active master r.2 = Some view_layer' /\
  view_layer' = set_active_collection (active_collection view_layer') r.2.
Proof.
  intros Hmaster. unfold BKE_layer_collection_sync. rewrite Hmaster. cbn zeta.
  destruct (layer_collection_sync_rebuild master heap view_layer) as [heap1 v1].
  destruct (layer_collection_sync_active master v1) as [v2 |] eqn:Hactive; [| discriminate].
  cbn. intros [= <- <-]. split; [reflexivity |]. split; [exact Hactive |].
  apply (layer_collection_sync_active_only master). exact Hactive.
Qed.

(** C1: after a sync of a view layer with a consistent base registry,
    every object that a non-excluded path reaches has exactly one base in
    the base list of the view layer, and the four evaluated bits of that base
    are the union, over all non-excluded paths to the object, of the bits
    each path grants by its accumulated restriction bits. *)
Theorem sync_one_base_with_union_of_grants (scene : Scene) (master : Collection)
  (heap heap' : nat) (view_layer view_layer' : ViewLayer) :
  master_collection scene = Some master ->
  bases_consistent heap view_layer ->
  BKE_layer_collection_sync scene heap view_layer = Some (heap', view_layer') ->
  let paths := layer_paths [master] (vl_layer_collections view_layer') [] in
  forall ob, ob ∈ paths.*1 ->
    exists before base after,
      object_bases view_layer' = before ++ base :: after /\
      object base = ob /\
      (ob ∉ object <$> before) /\ (ob ∉ object <$> after) /\
      Z.land (base_flag base) BASE_SYNC_FLAGS = paths_grant paths ob.
Proof.
  intros Hmaster Hcons Hsync paths ob Hob.
  destruct (BKE_layer_collection_sync_rebuilt _ _ _ _ _ _ Hmaster Hsync) as (_ & _ & Hv).
  pose proof (layer_collection_sync_rebuild_spec master heap view_layer Hcons)
    as (Hcons' & _ & Horder & Horigin & _).
  cbn zeta in *.
  set (r := layer_collection_sync_rebuild master heap view_layer) in *.
  assert (Hlc : vl_layer_collections view_layer' = vl_layer_collections r.2)
    by (rewrite Hv; reflexivity).
  assert (Hbases : object_bases view_layer' = object_bases r.2)
    by (rewrite Hv; reflexivity).
  subst paths. rewrite Hlc in *. rewrite Hbases.
  set (paths := layer_paths [master] (vl_layer_collections r.2) []) in *.
  assert (Hin : ob ∈ object <$> object_bases r.2).
  { rewrite Horder. apply elem_of_fold_place. right. exact Hob. }
  apply list_elem_of_fmap in Hin as (base & -> & Hbase).
  destruct Hcons' as (Hobs & _).
  destruct (NoDup_addr_split object _ _ Hobs Hbase) as (before & after & Hsplit & H1 & H2).
  exists before, base, after. split; [exact Hsplit |]. split; [reflexivity |].
  split; [exact H1 |]. split; [exact H2 |].
  destruct (Horigin base Hbase) as [(base0 & _ & ->) | (_ & _ & Hflag)]; cbn.
  - rewrite lor_land_distr_0 by apply land_lnot_cleared.
    rewrite paths_grant_visits. apply visits_grant_in_sync_flags.
  - rewrite Hflag, paths_grant_visits. apply visits_grant_in_sync_flags.
Qed.

(** After a sync the objects with a base are the objects of the
    non-excluded paths. *)
Lemma sync_bases_are_path_objects scene master heap view_layer heap' view_layer' :
  master_collection scene = Some master ->
  bases_consistent heap view_layer ->
  BKE_layer_collection_sync scene heap view_layer = Some (heap', view_layer') ->
  forall ob,
    ob ∈ object <$> object_bases view_layer' <->
    ob ∈ (layer_paths [master] (vl_layer_collections view_layer') []).*1.
Proof.
  intros Hmaster Hcons Hsync ob.
  destruct (BKE_layer_collection_sync_rebuilt _ _ _ _ _ _ Hmaster Hsync) as (_ & _ & Hv).
  pose proof (layer_collection_sync_rebuild_spec master heap view_layer Hcons)
    as (_ & _ & Horder & _).
  cbn zeta in *. rewrite Hv.
  change (object_bases (set_active_collection _ ?v)) with (object_bases v).
  change (vl_layer_collections (set_active_collection _ ?v)) with (vl_layer_collections v).
  rewrite Horder, elem_of_fold_place, elem_of_nil. tauto.
Qed.

(** ** Restriction bits along a path *)

Lemma child_restrict_of_includes parent_restrict child bit :
  Z.land parent_restrict bit <> 0 ->
  Z.land (child_restrict_of parent_restrict child) bit <> 0.
Proof.
  unfold child_restrict_of. destruct (flag_test _ _); [auto |].
  intros Hbit Hzero. apply Hbit.
  rewrite Z.land_lor_distr_l in Hzero. apply Z.lor_eq_0_iff in Hzero. tauto.
Qed.

Lemma fold_child_restrict_includes path restrict bit :
  Z.land restrict bit <> 0 -> Z.land (fold_left child_restrict_of path restrict) bit <> 0.
Proof.
  revert restrict. induction path as [| c path IH]; intros restrict Hbit; cbn; [exact Hbit |].
  apply IH, child_restrict_of_includes, Hbit.
Qed.

(** A restriction bit of a collection that is not a master collection is in
    the bits accumulated along every path through the collection. *)
Lemma path_restrict_inherits path c bit :
  c ∈ path ->
  Z.land (col_flag c) COLLECTION_IS_MASTER = 0 ->
  Z.land (col_flag c) bit <> 0 ->
  Z.land (path_restrict path) bit <> 0.
Proof.
  intros Hc Hmaster Hbit. apply list_elem_of_split in Hc as (before & after & ->).
  unfold path_restrict. rewrite fold_left_app. cbn.
  apply fold_child_restrict_includes.
  unfold child_restrict_of. apply flag_test_false in Hmaster. rewrite Hmaster.
  intros Hzero. apply Hbit.
  rewrite Z.land_lor_distr_l in Hzero. apply Z.lor_eq_0_iff in Hzero. tauto.
Qed.

Lemma land_lor_0 a b c : Z.land a c = 0 -> Z.land b c = 0 -> Z.land (Z.lor a b) c = 0.
Proof. intros Ha Hb. rewrite Z.land_lor_distr_l, Ha, Hb. reflexivity. Qed.

(** A path whose accumulated bits hold a restriction bit does not grant the
    bits of a base that the restriction withholds. *)
Lemma path_grant_withheld restrict restrict_bit base_bit :
  withheld_by restrict_bit base_bit ->
  Z.land restrict restrict_bit <> 0 ->
  Z.land (path_grant restrict) base_bit = 0.
Proof.
  intros Hwith Hbit. apply flag_test_true in Hbit. unfold path_grant.
  pose proof visibled_viewport_disjoint. pose proof visibled_selectabled_disjoint.
  pose proof visibled_render_disjoint. pose proof viewport_selectabled_disjoint.
  pose proof viewport_render_disjoint. pose proof selectabled_render_disjoint.
  destruct Hwith; rewrite ?Hbit;
    repeat match goal with
           | |- context [if ?b then _ else _] => destruct b
           end;
    repeat apply land_lor_0; rewrite ?Z.land_0_l; try reflexivity; try assumption;
    rewrite Z.land_comm; assumption.
Qed.

Lemma withheld_in_sync_flags restrict_bit base_bit flag :
  withheld_by restrict_bit base_bit ->
  Z.land (Z.land flag (Z.lnot BASE_SYNC_FLAGS)) base_bit = 0.
Proof. intros Hwith. unfold BASE_SYNC_FLAGS. destruct Hwith; bitwise. Qed.

Lemma paths_grant_withheld paths ob base_bit :
  (forall path, (ob, path) ∈ paths -> Z.land (path_grant (path_restrict path)) base_bit = 0) ->
  Z.land (paths_grant paths ob) base_bit = 0.
Proof.
  induction paths as [| [ob' path] paths IH]; intros Hall; cbn; [reflexivity |].
  apply land_lor_0.
  - destruct (decide (ob' = ob)) as [-> | Hne]; [| reflexivity].
    apply Hall. apply elem_of_cons. left. reflexivity.
  - apply IH. intros path' Hin. apply Hall. apply elem_of_cons. right. exact Hin.
Qed.

(** A restriction bit that no collection of a path carries, master
    collections apart, is not in the bits accumulated along the path. *)
Lemma fold_child_restrict_outside path restrict bit :
  Z.land restrict bit = 0 ->
  (forall c, c ∈ path -> Z.land (col_flag c) COLLECTION_IS_MASTER = 0 ->
     Z.land (col_flag c) bit = 0) ->
  Z.land (fold_left child_restrict_of path restrict) bit = 0.
Proof.
  revert restrict. induction path as [| c path IH]; intros restrict Hbit Hall; cbn;
    [exact Hbit |].
  apply IH.
  - unfold child_restrict_of. destruct (flag_test _ _) eqn:Hmaster; [exact Hbit |].
    apply flag_test_false in Hmaster. apply land_lor_0; [exact Hbit |].
    apply Hall; [apply elem_of_cons; left; reflexivity | exact Hmaster].
  - intros c' Hin. apply Hall. apply elem_of_cons. right. exact Hin.
Qed.

Lemma path_restrict_outside path bit :
  (forall c, c ∈ path -> Z.land (col_flag c) COLLECTION_IS_MASTER = 0 ->
     Z.land (col_flag c) bit = 0) ->
  Z.land (path_restrict path) bit = 0.
Proof. apply fold_child_restrict_outside. reflexivity. Qed.

Lemma land_lor_l a b c : Z.land a c = c -> Z.land (Z.lor a b) c = c.
Proof.
  intros Ha. apply Z.bits_inj'. intros n _.
  apply (f_equal (fun z => Z.testbit z n)) in Ha.
  rewrite Z.land_spec in Ha. rewrite Z.land_spec, Z.lor_spec.
  destruct (Z.testbit a n), (Z.testbit b n), (Z.testbit c n); auto.
Qed.

Lemma land_lor_r a b c : Z.land b c = c -> Z.land (Z.lor a b) c = c.
Proof. rewrite Z.lor_comm. apply land_lor_l. Qed.

(** A path whose accumulated bits hold no restriction that withholds a bit
    of a base grants that bit. *)
Lemma path_grant_granted restrict base_bit :
  (exists restrict_bit, withheld_by restrict_bit base_bit) ->
  (forall restrict_bit, withheld_by restrict_bit base_bit ->
     Z.land restrict restrict_bit = 0) ->
  Z.land (path_grant restrict) base_bit = base_bit.
Proof.
  intros [restrict_bit Hwith] Hfree. unfold path_grant.
  destruct Hwith.
  - rewrite (proj2 (flag_test_false _ _) (Hfree _ view_withholds_visibled)).
    apply land_lor_l, land_lor_l, land_lor_l, Z.land_diag.
  - rewrite (proj2 (flag_test_false _ _) (Hfree _ view_withholds_viewport)).
    apply land_lor_l, land_lor_l, land_lor_r, Z.land_diag.
  - rewrite (proj2 (flag_test_false _ _) (Hfree _ view_withholds_selectabled)).
    rewrite (proj2 (flag_test_false _ _) (Hfree _ select_withholds_selectabled)).
    apply land_lor_l, land_lor_r, Z.land_diag.
  - rewrite (proj2 (flag_test_false _ _) (Hfree _ view_withholds_selectabled)).
    rewrite (proj2 (flag_test_false _ _) (Hfree _ select_withholds_selectabled)).
    apply land_lor_l, land_lor_r, Z.land_diag.
  - rewrite (proj2 (flag_test_false _ _) (Hfree _ render_withholds_render)).
    apply land_lor_r, Z.land_diag.
Qed.

Lemma paths_grant_granted paths ob path base_bit :
  (ob, path) ∈ paths ->
  Z.land (path_grant (path_restrict path)) base_bit = base_bit ->
  Z.land (paths_grant paths ob) base_bit = base_bit.
Proof.
  induction paths as [| [ob' path'] paths IH]; intros Hin Hgrant; cbn.
  - apply elem_of_nil in Hin. contradiction.
  - apply elem_of_cons in Hin as [[= <- <-] | Hin].
    + rewrite decide_True by reflexivity. apply land_lor_l, Hgrant.
    + apply land_lor_r, IH; assumption.
Qed.

(** C5 (amended): restriction bits accumulate down the tree as a bitwise
    union in which a master collection's own bits are not counted; so a
    restriction bit of a collection that is not a master collection is in the
    accumulated bits of every path through that collection, at any depth and
    whatever the layer collections on the way are, and such a path does not
    grant the bits that the restriction withholds.  After a sync the base of
    an object lacks a bit when every non-excluded path to the object passes
    through a collection, not a master collection, whose restriction withholds
    that bit, and it has the bit when some non-excluded path to the object
    passes through no such collection. *)
Theorem restriction_inherited_along_paths :
  (forall parent_restrict c,
      (Z.land (col_flag c) COLLECTION_IS_MASTER <> 0 ->
       child_restrict_of parent_restrict c = parent_restrict) /\
      (Z.land (col_flag c) COLLECTION_IS_MASTER = 0 ->
       child_restrict_of parent_restrict c = Z.lor parent_restrict (col_flag c))) /\
  (forall prefix c,
      path_restrict (prefix ++ [c]) = child_restrict_of (path_restrict prefix) c) /\
  (forall path c bit,
      c ∈ path ->
      Z.land (col_flag c) COLLECTION_IS_MASTER = 0 ->
      Z.land (col_flag c) bit <> 0 ->
      Z.land (path_restrict path) bit <> 0) /\
  (forall path base_bit,
      path_withholds path base_bit ->
      Z.land (path_grant (path_restrict path)) base_bit = 0) /\
  (forall scene master heap view_layer heap' view_layer',
      master_collection scene = Some master ->
      bases_consistent heap view_layer ->
      BKE_layer_collection_sync scene heap view_layer = Some (heap', view_layer') ->
      let paths := layer_paths [master] (vl_layer_collections view_layer') [] in
      forall base_bit base,
        (exists restrict_bit, withheld_by restrict_bit base_bit) ->
        base ∈ object_bases view_layer' ->
        ((forall path, (object base, path) ∈ paths -> path_withholds path base_bit) ->
         Z.land (base_flag base) base_bit = 0) /\
        ((exists path, (object base, path) ∈ paths /\ ~ path_withholds path base_bit) ->
         Z.land (base_flag base) base_bit = base_bit)).
Proof.
  split; [| split; [| split; [| split]]].
  - intros parent_restrict c. unfold child_restrict_of. split.
    + intros Hm. apply flag_test_true in Hm. rewrite Hm. reflexivity.
    + intros Hm. apply flag_test_false in Hm. rewrite Hm. reflexivity.
  - apply path_restrict_snoc.
  - apply path_restrict_inherits.
  - intros path base_bit (c & restrict_bit & Hc & Hm & Hwith & Hflag).
    eapply path_grant_withheld; [exact Hwith |].
    eapply path_restrict_inherits; eassumption.
  - intros scene master heap view_layer heap' view_layer' Hmaster Hcons Hsync paths
      base_bit base Hbit Hbase.
    destruct (BKE_layer_collection_sync_rebuilt _ _ _ _ _ _ Hmaster Hsync) as (_ & _ & Hv).
    pose proof (layer_collection_sync_rebuild_spec master heap view_layer Hcons)
      as (_ & _ & _ & Horigin & _).
    cbn zeta in *.
    set (r := layer_collection_sync_rebuild master heap view_layer) in *.
    assert (Hlc : vl_layer_collections view_layer' = vl_layer_collections r.2)
      by (rewrite Hv; reflexivity).
    assert (Hbases : object_bases view_layer' = object_bases r.2)
      by (rewrite Hv; reflexivity).
    subst paths. rewrite Hlc. rewrite Hbases in Hbase.
    set (paths := layer_paths [master] (vl_layer_collections r.2) []) in *.
    split.
    + intros Hpaths.
      assert (Hgrant : Z.land (paths_grant paths (object base)) base_bit = 0).
      { apply paths_grant_withheld. intros path Hpath.
        destruct (Hpaths path Hpath) as (c & restrict_bit & Hc & Hm & Hwith & Hflag).
        eapply path_grant_withheld; [exact Hwith |].
        eapply path_restrict_inherits; eassumption. }
      destruct Hbit as [restrict_bit Hwith].
      destruct (Horigin base Hbase) as [(base0 & _ & Heq) | (_ & _ & Hflag)].
      * rewrite Heq in Hgrant |- *. cbn in *. apply land_lor_0; [| exact Hgrant].
        eapply withheld_in_sync_flags, Hwith.
      * rewrite Hflag. exact Hgrant.
    + intros (path & Hpath & Hfree).
      assert (Hgrant : Z.land (paths_grant paths (object base)) base_bit = base_bit).
      { eapply paths_grant_granted; [exact Hpath |].
        apply path_grant_granted; [exact Hbit |].
        intros restrict_bit Hwith. apply path_restrict_outside.
        intros c Hc Hm.
        destruct (Z.eq_dec (Z.land (col_flag c) restrict_bit) 0) as [Hzero | Hset];
          [exact Hzero |].
        exfalso. apply Hfree. exists c, restrict_bit. auto. }
      destruct (Horigin base Hbase) as [(base0 & _ & Heq) | (_ & _ & Hflag)].
      * rewrite Heq in Hgrant |- *. cbn in *. apply land_lor_r, Hgrant.
      * rewrite Hflag. exact Hgrant.
Qed.

(** ** A second sync *)

Lemma layer_collection_eta lc :
  mkLayerCollection (lc_id lc) (collection lc) (lc_flag lc) (layer_collections lc) = lc.
Proof. destruct lc. reflexivity. Qed.

Lemma layer_collection_sync_object_tree child_restrict s ob :
  let s' := layer_collection_sync_object child_restrict s ob in
  vl_layer_collections (ss_view_layer s') = vl_layer_collections (ss_view_layer s) /\
  active_collection (ss_view_layer s') = active_collection (ss_view_layer s).
Proof.
  cbn zeta. unfold layer_collection_sync_object.
  destruct (bases_hash _ !! ob) as [a |].
  - destruct (base_is_first_or_last _ _); [split; reflexivity |].
    destruct (node_at _ _ _); split; reflexivity.
  - split; reflexivity.
Qed.

(** The object loop leaves the layer collections and the active collection
    alone. *)
Lemma layer_collection_sync_objects_tree lc_flag_ child_restrict obs s :
  let s' := layer_collection_sync_objects lc_flag_ child_restrict obs s in
  vl_layer_collections (ss_view_layer s') = vl_layer_collections (ss_view_layer s) /\
  active_collection (ss_view_layer s') = active_collection (ss_view_layer s).
Proof.
  cbn zeta. unfold layer_collection_sync_objects.
  destruct (flag_test _ _); [split; reflexivity |].
  revert s. induction obs as [| ob obs IH]; intros s; cbn; [split; reflexivity |].
  destruct (IH (layer_collection_sync_object child_restrict s ob)) as [-> ->].
  apply layer_collection_sync_object_tree.
Qed.

Lemma layer_collection_take_first c lc rest :
  collection lc = Some c -> layer_collection_take c (lc :: rest) = Some (lc, rest).
Proof. intros Hc. cbn. rewrite decide_True by assumption. reflexivity. Qed.

Lemma layer_collection_sync_prune_found lb_scene view_layer lb_layer kept rest :
  (forall lc, lc ∈ rest -> scene_child_find lb_scene (collection lc) = true) ->
  layer_collection_sync_prune lb_scene view_layer lb_layer kept rest = (view_layer, lb_layer).
Proof.
  revert kept. induction rest as [| lc rest IH]; intros kept Hall; cbn; [reflexivity |].
  rewrite Hall by (apply elem_of_cons; left; reflexivity).
  apply IH. intros lc' Hin. apply Hall. apply elem_of_cons. right. exact Hin.
Qed.

Lemma mirrors_found lb_scene lb_layer lc :
  mirrors lb_scene lb_layer -> lc ∈ lb_layer ->
  scene_child_find lb_scene (collection lc) = true.
Proof.
  induction 1 as [| child lc0 lb_scene lb_layer Hcol _ _ _ IH]; intros Hin.
  - apply elem_of_nil in Hin. contradiction.
  - apply elem_of_cons in Hin as [-> | Hin].
    + rewrite Hcol. cbn. apply bool_decide_eq_true. apply elem_of_cons. left. reflexivity.
    + specialize (IH Hin). destruct (collection lc) as [c |]; [| discriminate]. cbn in *.
      apply bool_decide_eq_true in IH. apply bool_decide_eq_true.
      apply elem_of_cons. right. exact IH.
Qed.

(** What a list reference holds after the layer collections changed. *)
Lemma lb_get_set view_layer lb_layer l :
  lb_get (lb_set view_layer lb_layer l).1 (lb_set view_layer lb_layer l).2 = l.
Proof. destruct lb_layer; reflexivity. Qed.

Lemma lb_set_active view_layer lb_layer l :
  active_collection (lb_set view_layer lb_layer l).1 = active_collection view_layer.
Proof. destruct lb_layer; reflexivity. Qed.

(** A list reference whose content does not depend on anything but the
    root list of the view layer. *)
Lemma lb_get_roots view_layer view_layer' lb_layer :
  vl_layer_collections view_layer' = vl_layer_collections view_layer ->
  lb_get view_layer' lb_layer = lb_get view_layer lb_layer.
Proof. intros Hroots. destruct lb_layer; [exact Hroots | reflexivity]. Qed.

Lemma layer_collection_free_roots :
  forall lc view_layer,
    vl_layer_collections (layer_collection_free view_layer lc) = vl_layer_collections view_layer.
Proof.
  refine (proj1 (LayerCollection_tree_ind
    (fun lc => forall view_layer,
       vl_layer_collections (layer_collection_free view_layer lc)
       = vl_layer_collections view_layer)
    (fun l => forall view_layer,
       vl_layer_collections (fold_left layer_collection_free l view_layer)
       = vl_layer_collections view_layer) _ _ _)).
  - intros lc IH view_layer. destruct lc as [id col fl cs]. cbn in *.
    rewrite IH. destruct (decide _); reflexivity.
  - reflexivity.
  - intros lc l Hlc Hl view_layer. cbn. rewrite Hl. apply Hlc.
Qed.

Lemma layer_collection_sync_prune_local lb_scene view_layer l kept rest :
  let pruned := layer_collection_sync_prune lb_scene view_layer (lb_local l) kept rest in
  vl_layer_collections pruned.1 = vl_layer_collections view_layer /\ is_local pruned.2.
Proof.
  cbn zeta. revert view_layer l kept.
  induction rest as [| lc rest IH]; intros view_layer l kept; cbn.
  - split; [reflexivity | eexists; reflexivity].
  - destruct (scene_child_find lb_scene (collection lc)); [apply IH |].
    destruct (IH (layer_collection_free view_layer lc) (kept ++ rest) kept) as [-> Hlocal].
    split; [apply layer_collection_free_roots | exact Hlocal].
Qed.

Lemma layer_collection_sync_lookup_local child s l parent_exclude :
  let found := layer_collection_sync_lookup child s (lb_local l) parent_exclude in
  vl_layer_collections (ss_view_layer found.1.1) = vl_layer_collections (ss_view_layer s) /\
  is_local found.1.2.
Proof.
  cbn zeta. unfold layer_collection_sync_lookup. cbn [lb_get].
  destruct (layer_collection_take _ _) as [[lc rest] |]; cbn.
  - split; [reflexivity | eexists; reflexivity].
  - split; [reflexivity | eexists; reflexivity].
Qed.

(** A call on the child list of a node does not touch the root list of the
    view layer. *)
Lemma layer_collection_sync_local_from_loop lb_scene s l parent_exclude parent_restrict :
  (forall s l new_lb_layer,
     let st := layer_collection_sync_loop layer_collection_sync_child lb_scene
                 (s, lb_local l, new_lb_layer) parent_exclude parent_restrict in
     vl_layer_collections (ss_view_layer st.1.1) = vl_layer_collections (ss_view_layer s) /\
     is_local st.1.2) ->
  vl_layer_collections
    (ss_view_layer (layer_collection_sync lb_scene s (lb_local l) parent_exclude
                      parent_restrict).1)
  = vl_layer_collections (ss_view_layer s).
Proof.
  intros Hloop. rewrite layer_collection_sync_eq. cbn zeta.
  destruct (layer_collection_sync_prune_local lb_scene (ss_view_layer s) l [] l)
    as [Hroots [l0 Hlocal]].
  cbn [lb_get]. rewrite Hlocal.
  specialize (Hloop (mkSyncState (ss_heap s)
                       (layer_collection_sync_prune lb_scene (ss_view_layer s) (lb_local l) [] l).1
                       (ss_new_object_bases s)) l0 []).
  cbn zeta in Hloop. destruct Hloop as [Hroots1 [l1 Hlocal1]].
  cbn [fst snd ss_view_layer]. rewrite Hlocal1. cbn. rewrite Hroots1. exact Hroots.
Qed.

Lemma layer_collection_sync_loop_local :
  forall lb_scene parent_exclude parent_restrict s l new_lb_layer,
    let st := layer_collection_sync_loop layer_collection_sync_child lb_scene
                (s, lb_local l, new_lb_layer) parent_exclude parent_restrict in
    vl_layer_collections (ss_view_layer st.1.1) = vl_layer_collections (ss_view_layer s) /\
    is_local st.1.2.
Proof.
  refine (proj2 (Collection_tree_ind
    (fun child => forall parent_exclude parent_restrict s l new_lb_layer,
       let st := layer_collection_sync_child child (s, lb_local l, new_lb_layer)
                   parent_exclude parent_restrict in
       vl_layer_collections (ss_view_layer st.1.1) = vl_layer_collections (ss_view_layer s) /\
       is_local st.1.2)
    (fun lb_scene => forall parent_exclude parent_restrict s l new_lb_layer,
       let st := layer_collection_sync_loop layer_collection_sync_child lb_scene
                   (s, lb_local l, new_lb_layer) parent_exclude parent_restrict in
       vl_layer_collections (ss_view_layer st.1.1) = vl_layer_collections (ss_view_layer s) /\
       is_local st.1.2) _ _ _)).
  - intros child IH parent_exclude parent_restrict s l new_lb_layer. cbn zeta.
    rewrite layer_collection_sync_child_eq. cbn zeta. cbn [fst snd].
    destruct (layer_collection_sync_lookup_local child s l parent_exclude) as [Hroots Hlocal].
    split; [| exact Hlocal].
    destruct (layer_collection_sync_objects_tree
                (lc_flag (layer_collection_sync_lookup child s (lb_local l) parent_exclude).2)
                (child_restrict_of parent_restrict child) (gobject child)
                (layer_collection_sync (children child)
                   (layer_collection_sync_lookup child s (lb_local l) parent_exclude).1.1
                   (lb_local (layer_collections
                      (layer_collection_sync_lookup child s (lb_local l) parent_exclude).2))
                   (lc_flag (layer_collection_sync_lookup child s (lb_local l) parent_exclude).2)
                   (child_restrict_of parent_restrict child)).1) as [-> _].
    rewrite layer_collection_sync_local_from_loop; [exact Hroots |].
    intros s' l' new'. apply IH.
  - intros parent_exclude parent_restrict s l new_lb_layer. cbn.
    split; [reflexivity | eexists; reflexivity].
  - intros child lb_scene Hchild Hrest parent_exclude parent_restrict s l new_lb_layer.
    cbn zeta. cbn [layer_collection_sync_loop].
    destruct (Hchild parent_exclude parent_restrict s l new_lb_layer) as [Hroots [l1 Hlocal]].
    destruct (layer_collection_sync_child _ _ _ _) as [[s1 lb1] new1]. cbn [fst snd] in *.
    subst lb1. destruct (Hrest parent_exclude parent_restrict s1 l1 new1) as [Hroots1 Hlocal1].
    split; [rewrite Hroots1; exact Hroots | exact Hlocal1].
Qed.

Lemma layer_collection_sync_local lb_scene s l parent_exclude parent_restrict :
  vl_layer_collections
    (ss_view_layer (layer_collection_sync lb_scene s (lb_local l) parent_exclude
                      parent_restrict).1)
  = vl_layer_collections (ss_view_layer s).
Proof.
  apply layer_collection_sync_local_from_loop. intros s' l' new'.
  apply layer_collection_sync_loop_local.
Qed.

(** *** A layer list that mirrors the scene list already *)

Lemma layer_collection_sync_lookup_first child s lb_layer parent_exclude lc rest :
  lb_get (ss_view_layer s) lb_layer = lc :: rest ->
  collection lc = Some (col_id child) ->
  let found := layer_collection_sync_lookup child s lb_layer parent_exclude in
  found.2 = lc /\
  lb_get (ss_view_layer found.1.1) found.1.2 = rest /\
  active_collection (ss_view_layer found.1.1) = active_collection (ss_view_layer s) /\
  ss_heap found.1.1 = ss_heap s.
Proof.
  intros Hget Hcol. cbn zeta. unfold layer_collection_sync_lookup.
  rewrite Hget, (layer_collection_take_first _ _ _ Hcol).
  pose proof (lb_get_set (ss_view_layer s) lb_layer rest) as Hrest.
  pose proof (lb_set_active (ss_view_layer s) lb_layer rest) as Hactive.
  destruct (lb_set _ _ _) as [view_layer lb']. cbn in *. auto.
Qed.

(** From the second loop to the whole function, on a list that mirrors the
    scene list: nothing is pruned, and the list put in place is the one the
    loop has collected. *)
Lemma layer_collection_sync_again_from_loop lb_scene s lb_layer parent_exclude
  parent_restrict :
  (forall s' lb_layer' new_lb_layer rest,
     lb_get (ss_view_layer s') lb_layer' = lb_get (ss_view_layer s) lb_layer ++ rest ->
     let st := layer_collection_sync_loop layer_collection_sync_child lb_scene
                 (s', lb_layer', new_lb_layer) parent_exclude parent_restrict in
     st.2 = new_lb_layer ++ lb_get (ss_view_layer s) lb_layer /\
     lb_get (ss_view_layer st.1.1) st.1.2 = rest /\
     active_collection (ss_view_layer st.1.1) = active_collection (ss_view_layer s')) ->
  mirrors lb_scene (lb_get (ss_view_layer s) lb_layer) ->
  let r := layer_collection_sync lb_scene s lb_layer parent_exclude parent_restrict in
  r.2 = lb_get (ss_view_layer s) lb_layer /\
  active_collection (ss_view_layer r.1) = active_collection (ss_view_layer s).
Proof.
  intros Hloop Hmirror. cbn zeta. rewrite layer_collection_sync_eq. cbn zeta.
  rewrite layer_collection_sync_prune_found
    by (intros lc Hin; eapply mirrors_found; eassumption).
  cbn [fst snd].
  destruct (Hloop (mkSyncState (ss_heap s) (ss_view_layer s) (ss_new_object_bases s))
              lb_layer [] [])
    as (Hnew & _ & Hactive).
  { cbn. rewrite app_nil_r. reflexivity. }
  cbn [ss_view_layer] in *. rewrite Hnew. cbn [app]. split; [reflexivity |].
  rewrite lb_set_active. exact Hactive.
Qed.

Lemma layer_collection_sync_loop_again :
  forall lb_scene t, mirrors lb_scene t ->
  forall parent_exclude parent_restrict s lb_layer new_lb_layer rest,
    lb_get (ss_view_layer s) lb_layer = t ++ rest ->
    let st := layer_collection_sync_loop layer_collection_sync_child lb_scene
                (s, lb_layer, new_lb_layer) parent_exclude parent_restrict in
    st.2 = new_lb_layer ++ t /\
    lb_get (ss_view_layer st.1.1) st.1.2 = rest /\
    active_collection (ss_view_layer st.1.1) = active_collection (ss_view_layer s).
Proof.
  induction 1 as [| child lc lb_scene t Hcol Hsub IHsub Hrest IHrest];
    intros parent_exclude parent_restrict s lb_layer new_lb_layer rest Hget; cbn zeta.
  - cbn. rewrite app_nil_r. auto.
  - cbn [layer_collection_sync_loop]. rewrite layer_collection_sync_child_eq. cbn zeta.
    destruct (layer_collection_sync_lookup_first child s lb_layer parent_exclude lc
                (t ++ rest) Hget Hcol) as (Hlc & Hget1 & Hactive1 & _).
    set (found := layer_collection_sync_lookup child s lb_layer parent_exclude) in *.
    rewrite Hlc.
    set (child_restrict := child_restrict_of parent_restrict child).
    destruct (layer_collection_sync_again_from_loop (children child) found.1.1
                (lb_local (layer_collections lc)) (lc_flag lc) child_restrict)
      as [Hsame Hactive2].
    { intros s' lb' new' rest' Hget'. apply IHsub. exact Hget'. }
    { exact Hsub. }
    pose proof (layer_collection_sync_local (children child) found.1.1
                  (layer_collections lc) (lc_flag lc) child_restrict) as Hroots2.
    set (sub := layer_collection_sync _ _ _ _ _) in *. cbn [lb_get] in Hsame.
    rewrite Hsame, layer_collection_eta.
    destruct (layer_collection_sync_objects_tree (lc_flag lc) child_restrict (gobject child)
                sub.1) as [Hroots3 Hactive3].
    set (s3 := layer_collection_sync_objects _ _ _ _) in *.
    destruct (IHrest parent_exclude parent_restrict s3 found.1.2 (new_lb_layer ++ [lc]) rest)
      as (Hnew & Hget4 & Hactive4).
    { rewrite <- Hget1. apply lb_get_roots. rewrite Hroots3. exact Hroots2. }
    rewrite Hnew, <- app_assoc. split; [reflexivity |]. split; [exact Hget4 |].
    rewrite Hactive4, Hactive3, Hactive2. exact Hactive1.
Qed.

(** A call on a layer list that mirrors the scene list returns that list
    and keeps the active collection. *)
Lemma layer_collection_sync_again lb_scene s lb_layer parent_exclude parent_restrict :
  mirrors lb_scene (lb_get (ss_view_layer s) lb_layer) ->
  let r := layer_collection_sync lb_scene s lb_layer parent_exclude parent_restrict in
  r.2 = lb_get (ss_view_layer s) lb_layer /\
  active_collection (ss_view_layer r.1) = active_collection (ss_view_layer s).
Proof.
  intros Hmirror. apply layer_collection_sync_again_from_loop; [| exact Hmirror].
  intros s' lb' new' rest' Hget'.
  apply layer_collection_sync_loop_again; assumption.
Qed.

(** ** Searches in the layer tree *)

Lemma layer_tree_nodes_eq lc :
  layer_tree_nodes lc = lc :: layer_nodes (layer_collections lc).
Proof. destruct lc. reflexivity. Qed.

Lemma layer_nodes_cons lc l : layer_nodes (lc :: l) = layer_tree_nodes lc ++ layer_nodes l.
Proof. reflexivity. Qed.

Lemma layer_collection_deref_eq a lc :
  layer_collection_deref a lc
  = if decide (lc_id lc = a) then Some lc
    else first_found (layer_collection_deref a) (layer_collections lc).
Proof. destruct lc. reflexivity. Qed.

Lemma find_layer_collection_by_scene_collection_eq lc c :
  find_layer_collection_by_scene_collection lc c
  = if decide (collection lc = Some c) then Some lc
    else first_found (fun nlc => find_layer_collection_by_scene_collection nlc c)
           (layer_collections lc).
Proof. destruct lc. reflexivity. Qed.

Lemma collection_deref_eq c collection_ :
  collection_deref c collection_
  = if decide (col_id collection_ = c) then Some collection_
    else first_found (collection_deref c) (children collection_).
Proof. destruct collection_. reflexivity. Qed.

#[local] Arguments layer_tree_nodes : simpl never.
#[local] Arguments layer_collection_deref : simpl never.
#[local] Arguments find_layer_collection_by_scene_collection : simpl never.
#[local] Arguments collection_deref : simpl never.

(** A node found by its address is a node of the tree with that address. *)
Lemma layer_collection_deref_found a :
  forall l x, first_found (layer_collection_deref a) l = Some x ->
    x ∈ layer_nodes l /\ lc_id x = a.
Proof.
  refine (proj2 (LayerCollection_tree_ind
    (fun lc => forall x, layer_collection_deref a lc = Some x ->
       x ∈ layer_tree_nodes lc /\ lc_id x = a)
    (fun l => forall x, first_found (layer_collection_deref a) l = Some x ->
       x ∈ layer_nodes l /\ lc_id x = a) _ _ _)).
  - intros lc IH x. rewrite layer_collection_deref_eq, layer_tree_nodes_eq.
    destruct (decide (lc_id lc = a)) as [Heq | Hne].
    + intros [= <-]. split; [apply elem_of_cons; left; reflexivity | exact Heq].
    + intros Hfound. destruct (IH x Hfound) as [Hin Hid].
      split; [apply elem_of_cons; right; exact Hin | exact Hid].
  - intros x. cbn. discriminate.
  - intros lc l Hlc Hl x. cbn [first_found]. rewrite layer_nodes_cons.
    destruct (layer_collection_deref a lc) as [y |] eqn:Hderef.
    + intros [= <-]. destruct (Hlc y eq_refl) as [Hin Hid].
      split; [apply elem_of_app; left; exact Hin | exact Hid].
    + intros Hfound. destruct (Hl x Hfound) as [Hin Hid].
      split; [apply elem_of_app; right; exact Hin | exact Hid].
Qed.

(** The address of a node of the tree finds a node. *)
Lemma layer_collection_deref_node :
  forall l x, x ∈ layer_nodes l -> is_Some (first_found (layer_collection_deref (lc_id x)) l).
Proof.
  refine (proj2 (LayerCollection_tree_ind
    (fun lc => forall x, x ∈ layer_tree_nodes lc ->
       is_Some (layer_collection_deref (lc_id x) lc))
    (fun l => forall x, x ∈ layer_nodes l ->
       is_Some (first_found (layer_collection_deref (lc_id x)) l)) _ _ _)).
  - intros lc IH x. rewrite layer_collection_deref_eq, layer_tree_nodes_eq.
    intros Hin. destruct (decide (lc_id lc = lc_id x)) as [Heq | Hne]; [eexists; reflexivity |].
    apply elem_of_cons in Hin as [-> | Hin]; [congruence | apply IH, Hin].
  - intros x Hin. apply elem_of_nil in Hin. contradiction.
  - intros lc l Hlc Hl x. rewrite layer_nodes_cons. cbn [first_found]. intros Hin.
    destruct (layer_collection_deref (lc_id x) lc) as [y |] eqn:Hderef; [eexists; reflexivity |].
    apply elem_of_app in Hin as [Hin | Hin]; [| apply Hl, Hin].
    apply Hlc in Hin. rewrite Hderef in Hin. destruct Hin as [? [=]].
Qed.

(** A node found by its collection is a node of the tree that points to
    the collection. *)
Lemma find_layer_collection_by_scene_collection_found c :
  forall l x,
    first_found (fun lc => find_layer_collection_by_scene_collection lc c) l = Some x ->
    x ∈ layer_nodes l /\ collection x = Some c.
Proof.
  refine (proj2 (LayerCollection_tree_ind
    (fun lc => forall x, find_layer_collection_by_scene_collection lc c = Some x ->
       x ∈ layer_tree_nodes lc /\ collection x = Some c)
    (fun l => forall x,
       first_found (fun lc => find_layer_collection_by_scene_collection lc c) l = Some x ->
       x ∈ layer_nodes l /\ collection x = Some c) _ _ _)).
  - intros lc IH x.
    rewrite find_layer_collection_by_scene_collection_eq, layer_tree_nodes_eq.
    destruct (decide (collection lc = Some c)) as [Heq | Hne].
    + intros [= <-]. split; [apply elem_of_cons; left; reflexivity | exact Heq].
    + intros Hfound. destruct (IH x Hfound) as [Hin Hcol].
      split; [apply elem_of_cons; right; exact Hin | exact Hcol].
  - intros x. cbn. discriminate.
  - intros lc l Hlc Hl x. cbn [first_found]. rewrite layer_nodes_cons.
    destruct (find_layer_collection_by_scene_collection lc c) as [y |] eqn:Hfind.
    + intros [= <-]. destruct (Hlc y eq_refl) as [Hin Hcol].
      split; [apply elem_of_app; left; exact Hin | exact Hcol].
    + intros Hfound. destruct (Hl x Hfound) as [Hin Hcol].
      split; [apply elem_of_app; right; exact Hin | exact Hcol].
Qed.

(** In a layer tree that mirrors the scene tree every node points to a
    collection of the scene tree. *)
Lemma mirrors_collection_deref lb_scene lb_layer :
  mirrors lb_scene lb_layer ->
  forall x, x ∈ layer_nodes lb_layer ->
    exists c, collection x = Some c /\ is_Some (first_found (collection_deref c) lb_scene).
Proof.
  induction 1 as [| child lc lb_scene lb_layer Hcol Hsub IHsub Hrest IHrest]; intros x Hin.
  - apply elem_of_nil in Hin. contradiction.
  - rewrite layer_nodes_cons, layer_tree_nodes_eq in Hin. cbn [first_found].
    apply elem_of_app in Hin as [Hin | Hin]; [apply elem_of_cons in Hin as [-> | Hin] |].
    + exists (col_id child). split; [exact Hcol |].
      rewrite collection_deref_eq, decide_True by reflexivity. eexists; reflexivity.
    + destruct (IHsub x Hin) as (c & Hc & Hsome). exists c. split; [exact Hc |].
      rewrite collection_deref_eq. destruct (decide (col_id child = c)); [eexists; reflexivity |].
      destruct Hsome as [y ->]. eexists; reflexivity.
    + destruct (IHrest x Hin) as (c & Hc & Hsome). exists c. split; [exact Hc |].
      destruct (collection_deref c child); [eexists; reflexivity | exact Hsome].
Qed.

(** ** The active collection at the end of the sync *)

Lemma BKE_layer_collection_activate_parent_eq view_layer lc_collection :
  BKE_layer_collection_activate_parent view_layer lc_collection
  = let activate lc :=
      let lc := match lc with
                | Some lc => Some lc
                | None => head (vl_layer_collections view_layer)
                end in
      (set_active_collection (lc_id <$> lc) view_layer, lc) in
    match cp_parents lc_collection with
    | parent :: _ =>
        match BKE_layer_collection_first_from_scene_collection view_layer
                (cp_collection parent) with
        | Some lc =>
            if flag_test (lc_flag lc) LAYER_COLLECTION_EXCLUDE
            then BKE_layer_collection_activate_parent view_layer parent
            else activate (Some lc)
        | None => activate None
        end
    | [] => activate None
    end.
Proof. destruct lc_collection. reflexivity. Qed.

(** Where the layer tree is not empty, [BKE_layer_collection_activate_parent]
    returns a node of the tree. *)
Lemma BKE_layer_collection_activate_parent_node view_layer lc_collection :
  vl_layer_collections view_layer <> [] ->
  exists lc, (BKE_layer_collection_activate_parent view_layer lc_collection).2 = Some lc /\
             lc ∈ layer_nodes (vl_layer_collections view_layer).
Proof.
  intros Hroots.
  assert (Hfirst : exists lc, head (vl_layer_collections view_layer) = Some lc /\
                              lc ∈ layer_nodes (vl_layer_collections view_layer)).
  { destruct (vl_layer_collections view_layer) as [| lc l]; [congruence |].
    exists lc. split; [reflexivity |]. rewrite layer_nodes_cons, layer_tree_nodes_eq.
    apply elem_of_cons. left. reflexivity. }
  induction lc_collection as [c IH] using CollectionParent_tree_ind.
  rewrite BKE_layer_collection_activate_parent_eq. cbn zeta.
  destruct (cp_parents c) as [| parent ps]; [exact Hfirst |].
  destruct (BKE_layer_collection_first_from_scene_collection _ _) as [lc |] eqn:Hfind;
    [| exact Hfirst].
  destruct (flag_test _ _).
  - apply Forall_cons in IH as [IH _]. exact IH.
  - exists lc. split; [reflexivity |].
    eapply find_layer_collection_by_scene_collection_found. exact Hfind.
Qed.

(** When the end of the sync returns on a layer tree that is not empty,
    the active collection designates a node of the tree. *)
Lemma layer_collection_sync_active_in_tree master view_layer view_layer' :
  vl_layer_collections view_layer <> [] ->
  layer_collection_sync_active master view_layer = Some view_layer' ->
  vl_layer_collections view_layer' = vl_layer_collections view_layer /\
  active_in_tree view_layer'.
Proof.
  intros Hroots Hactive.
  assert (Hsame : vl_layer_collections view_layer' = vl_layer_collections view_layer).
  { rewrite (layer_collection_sync_active_only _ _ _ Hactive). reflexivity. }
  split; [exact Hsame |]. unfold active_in_tree. rewrite Hsame.
  revert Hactive. unfold layer_collection_sync_active.
  destruct (active_collection view_layer) as [a |] eqn:Ha.
  - destruct (layer_collection_at view_layer a) as [active |] eqn:Hat; [| discriminate]. cbn.
    apply layer_collection_deref_found in Hat as [Hin Hid].
    destruct (flag_test _ _).
    + destruct (collection active) as [c |]; [| discriminate]. cbn.
      destruct (collection_deref c master) as [lc_collection |]; [| discriminate]. cbn.
      intros [= <-].
      destruct (BKE_layer_collection_activate_parent_node view_layer
                  (collection_upward lc_collection) Hroots) as (lc & Hlc & Hnode).
      exists lc. split; [exact Hnode |].
      rewrite BKE_layer_collection_activate_parent_active, Hlc. reflexivity.
    + intros [= <-]. exists active. split; [exact Hin |]. rewrite Ha, Hid. reflexivity.
  - intros [= <-]. destruct (vl_layer_collections view_layer) as [| lc l]; [congruence |].
    exists lc. split; [| reflexivity]. rewrite layer_nodes_cons, layer_tree_nodes_eq.
    apply elem_of_cons. left. reflexivity.
Qed.

(** The end of the sync returns when the layer tree mirrors the collection
    tree and the active collection is null or designates a node of it. *)
Lemma layer_collection_sync_active_returns master view_layer :
  mirrors [master] (vl_layer_collections view_layer) ->
  (active_collection view_layer = None \/ active_in_tree view_layer) ->
  is_Some (layer_collection_sync_active master view_layer).
Proof.
  intros Hmirror Hactive. unfold layer_collection_sync_active.
  destruct Hactive as [-> | (lc & Hin & ->)]; [eexists; reflexivity |].
  destruct (layer_collection_deref_node _ _ Hin) as [active Hat].
  unfold layer_collection_at. rewrite Hat. cbn.
  destruct (flag_test _ _); [| eexists; reflexivity].
  apply layer_collection_deref_found in Hat as [Hnode _].
  destruct (mirrors_collection_deref _ _ Hmirror _ Hnode) as (c & -> & Hsome). cbn.
  cbn in Hsome. destruct (collection_deref c master); [eexists; reflexivity |].
  destruct Hsome as [? [=]].
Qed.

(** ** C2: a second sync *)

(** A rebuild of a view layer whose layer tree mirrors the collection tree
    returns the same layer tree and the same active collection. *)
Lemma layer_collection_sync_rebuild_again master heap view_layer :
  mirrors [master] (vl_layer_collections view_layer) ->
  let r := layer_collection_sync_rebuild master heap view_layer in
  vl_layer_collections r.2 = vl_layer_collections view_layer /\
  active_collection r.2 = active_collection view_layer.
Proof.
  intros Hmirror. cbn zeta. unfold layer_collection_sync_rebuild.
  set (v1 := view_layer_bases_hash_create (set_object_bases_array None view_layer)).
  destruct (view_layer_bases_hash_create_fields (set_object_bases_array None view_layer))
    as (_ & Hroots1 & Hactive1). fold v1 in Hroots1, Hactive1. cbn in Hroots1, Hactive1.
  set (v2 := set_object_bases _ v1).
  destruct (layer_collection_sync_again [master] (mkSyncState heap v2 []) lb_view_layer 0 0)
    as [Hsame Hactive].
  { cbn. rewrite Hroots1. exact Hmirror. }
  pose proof (layer_collection_sync_view_layer [master] (mkSyncState heap v2 []) 0 0) as Hroots.
  cbn zeta in *.
  destruct (layer_collection_sync [master] (mkSyncState heap v2 []) lb_view_layer 0 0)
    as [sF t]. cbn [fst snd] in *.
  destruct (layer_collection_sync_remove_bases (object_bases (ss_view_layer sF))
              (ss_view_layer sF)) as (Hlc & Hact & _).
  cbn zeta in *. cbn in *.
  rewrite Hlc, Hact, Hroots, Hsame, Hactive. auto.
Qed.

(** Two base lists with the same objects in the same order, without an
    object twice, are equal when each base of one is a base of the other. *)
Lemma bases_eq_by_objects (l1 l2 : list Base) :
  object <$> l2 = object <$> l1 ->
  NoDup (object <$> l1) ->
  (forall base, base ∈ l2 -> base ∈ l1) ->
  l2 = l1.
Proof.
  revert l2. induction l1 as [| x l1 IH]; intros l2 Hobs Hnd Hsub.
  - destruct l2; [reflexivity | discriminate].
  - destruct l2 as [| y l2]; [discriminate |].
    rewrite !fmap_cons in Hobs. injection Hobs as Hy Hobs.
    rewrite fmap_cons in Hnd. apply NoDup_cons in Hnd as [Hx Hnd].
    assert (Hyx : y = x).
    { specialize (Hsub y (ltac:(apply elem_of_cons; left; reflexivity))).
      apply elem_of_cons in Hsub as [Heq | Hin]; [exact Heq |].
      exfalso. apply Hx. rewrite <- Hy. apply list_elem_of_fmap_2, Hin. }
    subst y. f_equal. apply IH; [exact Hobs | exact Hnd |].
    intros base Hbase.
    specialize (Hsub base (ltac:(apply elem_of_cons; right; exact Hbase))).
    apply elem_of_cons in Hsub as [-> | Hin]; [| exact Hin].
    exfalso. apply Hx. rewrite <- Hobs. apply list_elem_of_fmap_2, Hbase.
Qed.

Lemma lor_land_same g m : Z.lor (Z.land g m) g = g.
Proof. bitwise. Qed.

Lemma mirrors_not_nil child lb_scene lb_layer :
  mirrors (child :: lb_scene) lb_layer -> lb_layer <> [].
Proof. inversion 1. discriminate. Qed.

(** C2: when a sync of a view layer with a consistent base registry has
    returned, a second sync of the same scene returns too, and it leaves the
    layer collections and the bases as the first sync left them: the same
    records, with the same addresses and the same flags, in the same
    order. *)
Theorem sync_twice_same_tree_and_bases (scene : Scene) (heap heap1 : nat)
  (view_layer view_layer1 : ViewLayer) :
  bases_consistent heap view_layer ->
  BKE_layer_collection_sync scene heap view_layer = Some (heap1, view_layer1) ->
  exists heap2 view_layer2,
    BKE_layer_collection_sync scene heap1 view_layer1 = Some (heap2, view_layer2) /\
    vl_layer_collections view_layer2 = vl_layer_collections view_layer1 /\
    object_bases view_layer2 = object_bases view_layer1.
Proof.
  intros Hcons Hsync.
  destruct (master_collection scene) as [master |] eqn:Hmaster.
  2: { unfold BKE_layer_collection_sync in *. rewrite Hmaster in *.
       injection Hsync as <- <-. eauto. }
  destruct (BKE_layer_collection_sync_rebuilt _ _ _ _ _ _ Hmaster Hsync)
    as (Hheap1 & Hactive1 & Hv1).
  pose proof (layer_collection_sync_rebuild_spec master heap view_layer Hcons)
    as (Hcons1 & Hmirror1 & Horder1 & Horigin1 & _).
  cbn zeta in *.
  set (r1 := layer_collection_sync_rebuild master heap view_layer) in *.
  destruct (layer_collection_sync_active_in_tree master r1.2 view_layer1
              (mirrors_not_nil _ _ _ Hmirror1) Hactive1) as [Hroots1 Hin1].
  assert (Hbases1 : object_bases view_layer1 = object_bases r1.2)
    by (rewrite Hv1; reflexivity).
  assert (Hcons1' : bases_consistent heap1 view_layer1).
  { rewrite Hheap1, Hv1. exact Hcons1. }
  destruct (layer_collection_sync_rebuild_again master heap1 view_layer1) as [Hroots2 Hactive2].
  { rewrite Hroots1. exact Hmirror1. }
  pose proof (layer_collection_sync_rebuild_spec master heap1 view_layer1 Hcons1')
    as (_ & _ & Horder2 & Horigin2 & _).
  cbn zeta in *.
  set (r2 := layer_collection_sync_rebuild master heap1 view_layer1) in *.
  destruct (layer_collection_sync_active_returns master r2.2) as [view_layer2 Hreturn].
  { rewrite Hroots2, Hroots1. exact Hmirror1. }
  { right. unfold active_in_tree. rewrite Hroots2, Hactive2. exact Hin1. }
  pose proof (layer_collection_sync_active_only _ _ _ Hreturn) as Hv2.
  exists r2.1, view_layer2. split; [| split].
  - unfold BKE_layer_collection_sync. rewrite Hmaster. fold r2.
    destruct r2 as [heap2 v2]. cbn in *. rewrite Hreturn. reflexivity.
  - rewrite Hv2. cbn. exact Hroots2.
  - rewrite Hv2, Hbases1. cbn.
    rewrite Hroots2, Hroots1 in Horder2, Horigin2.
    set (paths := layer_paths [master] (vl_layer_collections r1.2) []) in *.
    destruct Hcons1 as (Hnd1 & _).
    apply bases_eq_by_objects; [congruence | exact Hnd1 |].
    intros base' Hbase'.
    destruct (Horigin2 base' Hbase') as [(base & Hbase & ->) | (Hfresh & _)].
    + rewrite Hbases1 in Hbase.
      destruct (Horigin1 base Hbase) as [(base0 & _ & Hbase0) | (_ & _ & Hflag)].
      * rewrite Hbase0 in Hbase |- *. cbn.
        rewrite lor_cleared_again by apply land_lnot_cleared. exact Hbase.
      * rewrite Hflag, lor_land_same, <- Hflag. destruct base. exact Hbase.
    + exfalso. apply Hfresh. rewrite Hbases1, Horder1, <- Horder2.
      apply list_elem_of_fmap_2, Hbase'.
Qed.

(** ** C7: the renderable objects iterator *)

Lemma Scene_chain_ind (P : Scene -> Prop) :
  (forall scene, (forall set_, scene_set scene = Some set_ -> P set_) -> P scene) ->
  forall scene, P scene.
Proof.
  intros Hstep. fix IH 1. intros [master layers [set_ |]]; apply Hstep; cbn.
  - intros ? [= <-]. apply IH.
  - discriminate.
Qed.

Lemma scene_chain_eq scene :
  scene_chain scene = scene :: option_chain (scene_set scene).
Proof. destruct scene as [master layers [set_ |]]; reflexivity. Qed.

#[local] Arguments scene_chain : simpl never.

Lemma render_view_layers_next l :
  render_view_layers l
  = match next_render_view_layer l with
    | [] => []
    | view_layer :: after => view_layer :: render_view_layers after
    end.
Proof.
  induction l as [| view_layer l IH]; cbn; [reflexivity |].
  destruct (flag_test (vl_flag view_layer) VIEW_LAYER_RENDER); [reflexivity | exact IH].
Qed.

Lemma BKE_view_layer_default_render_some scene :
  view_layers scene <> [] ->
  exists view_layer, BKE_view_layer_default_render scene = Some view_layer /\
                     view_layer ∈ view_layers scene.
Proof.
  intros Hlayers. unfold BKE_view_layer_default_render.
  destruct (find _ (view_layers scene)) as [view_layer |] eqn:Hfind.
  - exists view_layer. split; [reflexivity |].
    apply find_some in Hfind as [Hin _]. apply list_elem_of_In. exact Hin.
  - destruct (view_layers scene) as [| view_layer l]; [congruence |].
    exists view_layer. split; [reflexivity | apply elem_of_cons; left; reflexivity].
Qed.

(** A step of the traversal from a valid iterator. *)
Lemma renderable_objects_from_valid fuel it :
  iter_valid it = true ->
  renderable_objects_from (S fuel) it
  = rest ← renderable_objects_next fuel it;
    Some ((if iter_skip it then [] else option_list (iter_current it)) ++ rest).
Proof.
  intros Hvalid. cbn. rewrite Hvalid. unfold renderable_objects_next.
  destruct (BKE_view_layer_renderable_objects_iterator_next it); reflexivity.
Qed.

Lemma renderable_objects_from_invalid fuel it :
  iter_valid it = false -> renderable_objects_from fuel it = Some [].
Proof. intros Hvalid. destruct fuel; cbn; rewrite Hvalid; reflexivity. Qed.

#[local] Arguments renderable_objects_from : simpl never.

Lemma renderable_objects_from_skip fuel it result :
  iter_valid it = true -> iter_skip it = true ->
  renderable_objects_next fuel it = Some result ->
  renderable_objects_from (S fuel) it = Some result.
Proof.
  intros Hvalid Hskip Hnext.
  rewrite renderable_objects_from_valid, Hnext, Hskip by assumption. reflexivity.
Qed.

Lemma renderable_objects_from_current fuel it ob result :
  iter_valid it = true -> iter_skip it = false -> iter_current it = Some ob ->
  renderable_objects_next fuel it = Some result ->
  renderable_objects_from (S fuel) it = Some (ob :: result).
Proof.
  intros Hvalid Hskip Hcurrent Hnext.
  rewrite renderable_objects_from_valid, Hnext, Hskip, Hcurrent by assumption. reflexivity.
Qed.

(** With enough steps the rest of a traversal ends, and it yields what
    the remaining bases yield from the tags. *)
Lemma renderable_objects_next_yields n :
  forall it fuel,
    (iter_steps it <= n)%nat -> (n <= fuel)%nat -> iter_wf it -> iter_valid it = true ->
    renderable_objects_next fuel it
    = Some (iter_yields (ob_id_flag it) (iter_remaining it)).
Proof.
  induction n as [| n IH]; intros it fuel Hsteps Hfuel Hwf Hvalid.
  { unfold iter_steps in Hsteps. destruct (iter_set it); lia. }
  destruct fuel as [| fuel]; [lia |].
  destruct it as [flags_ scene ivl bases iset cur valid skip]. cbn in Hvalid. subst valid.
  unfold renderable_objects_next, BKE_view_layer_renderable_objects_iterator_next.
  unfold iter_steps, iter_remaining, iter_wf in Hsteps, Hwf |- *.
  cbn [ob_id_flag data_scene iter_view_layer iter_base_next iter_set iter_current iter_valid
       iter_skip] in *.
  destruct bases as [| base next].
  - destruct iset as [[set_ |] |]; cbn [app option_chain] in *.
    + (* the default render view layer of the next set *)
      rewrite scene_chain_eq in Hsteps, Hwf |- *.
      destruct (BKE_view_layer_default_render_some set_) as (view_layer & Hdefault & _).
      { apply Hwf. apply elem_of_cons. left. reflexivity. }
      rewrite fmap_cons, concat_cons in Hsteps |- *.
      unfold default_render_bases at 1 in Hsteps. unfold default_render_bases at 1.
      rewrite Hdefault in Hsteps |- *. cbn [mbind option_bind].
      apply renderable_objects_from_skip; [reflexivity | reflexivity |].
      apply IH; [| lia | | reflexivity].
      * unfold iter_steps, iter_remaining. cbn in *. lia.
      * unfold iter_wf. cbn. intros scene' Hin. apply Hwf. apply elem_of_cons. right.
        exact Hin.
    + (* the end of the sets *)
      cbn. apply renderable_objects_from_invalid. reflexivity.
    + (* the next view layer of the scene *)
      destruct Hwf as [Hivl Hwf]. destruct ivl as [| view_layer0 after0]; [congruence |].
      cbn [tail] in *. rewrite (render_view_layers_next after0) in Hsteps |- *.
      destruct (next_render_view_layer after0) as [| view_layer after]; cbn [mbind option_bind].
      * apply renderable_objects_from_skip; [reflexivity | reflexivity |].
        rewrite IH; [reflexivity | | lia | | reflexivity].
        -- unfold iter_steps, iter_remaining. cbn in *. lia.
        -- exact Hwf.
      * apply renderable_objects_from_skip; [reflexivity | reflexivity |].
        rewrite IH; [| | lia | | reflexivity].
        -- unfold iter_remaining. cbn. rewrite <- ?app_assoc. reflexivity.
        -- unfold iter_steps, iter_remaining. cbn in *.
           rewrite ?length_app in *. unfold render_view_layers in *. lia.
        -- split; [discriminate | exact Hwf].
  - (* There is still a base in the current scene layer. *)
    cbn [app iter_yields] in *.
    assert (Hwf' : forall flags' cur' skip',
               iter_wf (mkRenderableIterator flags' scene ivl next iset cur' true skip')).
    { intros. exact Hwf. }
    assert (Hsteps' : forall flags' cur' skip',
               (iter_steps (mkRenderableIterator flags' scene ivl next iset cur' true skip')
                <= n)%nat).
    { intros. unfold iter_steps, iter_remaining. cbn in *. lia. }
    destruct (flag_test (flags_ (object base)) LIB_TAG_DOIT).
    + destruct (flag_test (base_flag base) BASE_VISIBLED); cbn [mbind option_bind app].
      * apply renderable_objects_from_current; [reflexivity | reflexivity | reflexivity |].
        rewrite IH; [reflexivity | apply Hsteps' | lia | apply Hwf' | reflexivity].
      * apply renderable_objects_from_skip; [reflexivity | reflexivity |].
        rewrite IH; [reflexivity | apply Hsteps' | lia | apply Hwf' | reflexivity].
    + cbn [mbind option_bind].
      apply renderable_objects_from_skip; [reflexivity | reflexivity |].
      rewrite IH; [reflexivity | apply Hsteps' | lia | apply Hwf' | reflexivity].
Qed.

Lemma flag_test_tagged f : flag_test (Z.lor f LIB_TAG_DOIT) LIB_TAG_DOIT = true.
Proof. apply flag_test_true. rewrite testbit_land_lor_same. apply tag_doit_nonzero. Qed.

Lemma flag_test_untagged f : flag_test (Z.land f (Z.lnot LIB_TAG_DOIT)) LIB_TAG_DOIT = false.
Proof. apply flag_test_false. apply land_lnot_cleared. Qed.

(** From tags that are set on the objects not seen yet, and only on
    them, the bases yield the objects whose first base is visible. *)
Lemma iter_yields_first_visible bases :
  forall flags_ seen,
    (forall base, base ∈ bases ->
       flag_test (flags_ (object base)) LIB_TAG_DOIT = negb (bool_decide (object base ∈ seen))) ->
    iter_yields flags_ bases = first_visible seen bases.
Proof.
  induction bases as [| base bases IH]; intros flags_ seen Htags; [reflexivity |].
  cbn [iter_yields first_visible].
  rewrite (Htags base) by (apply elem_of_cons; left; reflexivity).
  destruct (bool_decide (object base ∈ seen)) eqn:Hseen; cbn [negb].
  - apply IH. intros base' Hin. apply Htags. apply elem_of_cons. right. exact Hin.
  - f_equal. apply IH. intros base' Hin. unfold id_flag_update.
    destruct (decide (object base' = object base)) as [Heq | Hne].
    + rewrite flag_test_untagged, bool_decide_eq_true_2; [reflexivity |].
      apply elem_of_cons. left. exact Heq.
    + rewrite (Htags base') by (apply elem_of_cons; right; exact Hin). f_equal.
      apply bool_decide_ext. rewrite elem_of_cons. tauto.
Qed.

(** The tagging at the start of the traversal. *)
Lemma tag_bases_tagged bases :
  forall flags_ ob,
    ob ∈ object <$> bases \/ flag_test (flags_ ob) LIB_TAG_DOIT = true ->
    flag_test (tag_bases bases flags_ ob) LIB_TAG_DOIT = true.
Proof.
  unfold tag_bases.
  induction bases as [| base bases IH]; intros flags_ ob Hin; cbn.
  - destruct Hin as [Hin | Htag]; [apply elem_of_nil in Hin; contradiction | exact Htag].
  - apply IH. unfold id_flag_update.
    destruct (decide (ob = object base)) as [-> | Hne]; [right; apply flag_test_tagged |].
    destruct Hin as [Hin | Htag]; [| right; exact Htag].
    rewrite fmap_cons in Hin. apply elem_of_cons in Hin as [Heq | Hin]; [congruence |].
    left. exact Hin.
Qed.

Lemma tag_view_layers_tagged l :
  forall flags_ ob,
    (exists view_layer, view_layer ∈ l /\ ob ∈ object <$> object_bases view_layer) \/
    flag_test (flags_ ob) LIB_TAG_DOIT = true ->
    flag_test (tag_view_layers l flags_ ob) LIB_TAG_DOIT = true.
Proof.
  unfold tag_view_layers.
  induction l as [| view_layer l IH]; intros flags_ ob Hin; cbn.
  - destruct Hin as [(view_layer & Hin & _) | Htag]; [| exact Htag].
    apply elem_of_nil in Hin. contradiction.
  - apply IH. destruct Hin as [(view_layer' & Hin & Hob) | Htag].
    + apply elem_of_cons in Hin as [-> | Hin].
      * right. apply tag_bases_tagged. left. exact Hob.
      * left. exists view_layer'. split; assumption.
    + right. apply tag_bases_tagged. right. exact Htag.
Qed.

Lemma tag_scenes_eq scene flags_ :
  tag_scenes scene flags_
  = match scene_set scene with
    | Some set_ => tag_scenes set_ (tag_view_layers (view_layers scene) flags_)
    | None => tag_view_layers (view_layers scene) flags_
    end.
Proof. destruct scene as [master layers [set_ |]]; reflexivity. Qed.

Lemma tag_scenes_tagged :
  forall scene flags_ ob,
    (exists scene' view_layer,
        scene' ∈ scene_chain scene /\ view_layer ∈ view_layers scene' /\
        ob ∈ object <$> object_bases view_layer) \/
    flag_test (flags_ ob) LIB_TAG_DOIT = true ->
    flag_test (tag_scenes scene flags_ ob) LIB_TAG_DOIT = true.
Proof.
  induction scene as [scene IH] using Scene_chain_ind. intros flags_ ob Hin.
  rewrite tag_scenes_eq.
  assert (Hhere : (exists set_, scene_set scene = Some set_ /\
                     exists scene' view_layer,
                       scene' ∈ scene_chain set_ /\ view_layer ∈ view_layers scene' /\
                       ob ∈ object <$> object_bases view_layer) \/
                  flag_test (tag_view_layers (view_layers scene) flags_ ob) LIB_TAG_DOIT = true).
  { destruct Hin as [(scene' & view_layer & Hchain & Hlayer & Hob) | Htag].
    - rewrite scene_chain_eq in Hchain. apply elem_of_cons in Hchain as [-> | Hchain].
      + right. apply tag_view_layers_tagged. left. exists view_layer. split; assumption.
      + destruct (scene_set scene) as [set_ |]; [| apply elem_of_nil in Hchain; contradiction].
        left. exists set_. split; [reflexivity |]. exists scene', view_layer. auto.
    - right. apply tag_view_layers_tagged. right. exact Htag. }
  destruct Hhere as [(set_ & Hset & Hbelow) | Htag].
  - rewrite Hset. apply (IH set_ Hset). left. exact Hbelow.
  - destruct (scene_set scene) as [set_ |] eqn:Hset; [| exact Htag].
    apply (IH set_ eq_refl). right. exact Htag.
Qed.

Lemma elem_of_concat {A : Type} (x : A) (ls : list (list A)) :
  x ∈ concat ls <-> exists l, x ∈ l /\ l ∈ ls.
Proof.
  induction ls as [| l ls IH]; cbn.
  - split; [intros Hin; apply elem_of_nil in Hin; contradiction |].
    intros (l & _ & Hin). apply elem_of_nil in Hin. contradiction.
  - rewrite elem_of_app, IH. split.
    + intros [Hin | (l' & Hin & Hl')].
      * exists l. split; [exact Hin | apply elem_of_cons; left; reflexivity].
      * exists l'. split; [exact Hin | apply elem_of_cons; right; exact Hl'].
    + intros (l' & Hin & Hl'). apply elem_of_cons in Hl' as [-> | Hl']; [left; exact Hin |].
      right. exists l'. split; assumption.
Qed.

(** Every base of the traversal is a base of a view layer of the scene or
    of one of its sets. *)
Lemma renderable_bases_tagged scene base :
  base ∈ renderable_bases scene ->
  exists scene' view_layer,
    scene' ∈ scene_chain scene /\ view_layer ∈ view_layers scene' /\
    base ∈ object_bases view_layer.
Proof.
  unfold renderable_bases. intros Hin.
  assert (Hself : scene ∈ scene_chain scene).
  { rewrite scene_chain_eq. apply elem_of_cons. left. reflexivity. }
  apply elem_of_app in Hin as [Hin | Hin]; [| apply elem_of_app in Hin as [Hin | Hin]].
  - apply elem_of_concat in Hin as (bases & Hbase & Hbases).
    apply list_elem_of_fmap in Hbases as (view_layer & -> & Hlayer).
    exists scene, view_layer. split; [exact Hself |]. split; [| exact Hbase].
    destruct (view_layers scene) as [| view_layer0 l]; [exact Hlayer |].
    cbn in Hlayer. apply elem_of_cons in Hlayer as [-> | Hlayer].
    + apply elem_of_cons. left. reflexivity.
    + apply elem_of_nil in Hlayer. contradiction.
  - apply elem_of_concat in Hin as (bases & Hbase & Hbases).
    apply list_elem_of_fmap in Hbases as (view_layer & -> & Hlayer).
    exists scene, view_layer. split; [exact Hself |]. split; [| exact Hbase].
    unfold render_view_layers in Hlayer. apply list_elem_of_In, filter_In in Hlayer as [Hlayer _].
    apply list_elem_of_In in Hlayer.
    destruct (view_layers scene) as [| view_layer0 l]; [exact Hlayer |].
    apply elem_of_cons. right. exact Hlayer.
  - apply elem_of_concat in Hin as (bases & Hbase & Hbases).
    apply list_elem_of_fmap in Hbases as (scene' & -> & Hchain).
    unfold default_render_bases in Hbase.
    destruct (BKE_view_layer_default_render scene') as [view_layer |] eqn:Hdefault;
      [| apply elem_of_nil in Hbase; contradiction].
    exists scene', view_layer. split; [exact Hchain |]. split; [| exact Hbase].
    unfold BKE_view_layer_default_render in Hdefault.
    destruct (find _ (view_layers scene')) as [found |] eqn:Hfind.
    + injection Hdefault as <-. apply find_some in Hfind as [Hin _].
      apply list_elem_of_In. exact Hin.
    + destruct (view_layers scene') as [| view_layer0 l]; [discriminate |].
      injection Hdefault as <-. apply elem_of_cons. left. reflexivity.
Qed.

(** What [first_visible] yields: no object of [seen], no object twice, and
    each object for its first base, which has [BASE_VISIBLED]. *)
Lemma first_visible_spec bases :
  forall seen,
    NoDup (first_visible seen bases) /\
    forall ob, ob ∈ first_visible seen bases ->
      (ob ∉ seen) /\
      exists before base after,
        bases = before ++ base :: after /\ object base = ob /\
        (ob ∉ object <$> before) /\ Z.land (base_flag base) BASE_VISIBLED <> 0.
Proof.
  induction bases as [| base bases IH]; intros seen; cbn [first_visible].
  - split; [constructor |]. intros ob Hin. apply elem_of_nil in Hin. contradiction.
  - destruct (bool_decide (object base ∈ seen)) eqn:Hseen.
    + apply bool_decide_eq_true in Hseen. destruct (IH seen) as [Hnd Hspec].
      split; [exact Hnd |]. intros ob Hin.
      destruct (Hspec ob Hin) as (Hout & before & base' & after & -> & Hob & Hbefore & Hvis).
      split; [exact Hout |]. exists (base :: before), base', after.
      split; [reflexivity |]. split; [exact Hob |]. split; [| exact Hvis].
      rewrite fmap_cons. apply not_elem_of_cons. split; [congruence | exact Hbefore].
    + apply bool_decide_eq_false in Hseen.
      destruct (IH (object base :: seen)) as [Hnd Hspec].
      assert (Hrest : forall ob, ob ∈ first_visible (object base :: seen) bases ->
                (ob <> object base) /\ (ob ∉ seen) /\
                exists before base' after,
                  base :: bases = before ++ base' :: after /\ object base' = ob /\
                  (ob ∉ object <$> before) /\ Z.land (base_flag base') BASE_VISIBLED <> 0).
      { intros ob Hin.
        destruct (Hspec ob Hin) as (Hout & before & base' & after & -> & Hob & Hbefore & Hvis).
        apply not_elem_of_cons in Hout as [Hne Hout].
        split; [exact Hne |]. split; [exact Hout |].
        exists (base :: before), base', after.
        split; [reflexivity |]. split; [exact Hob |]. split; [| exact Hvis].
        rewrite fmap_cons. apply not_elem_of_cons. split; [exact Hne | exact Hbefore]. }
      destruct (flag_test (base_flag base) BASE_VISIBLED) eqn:Hvisible; cbn [app].
      * split.
        -- apply NoDup_cons. split; [| exact Hnd]. intros Hin. apply Hrest in Hin as [Hne _].
           congruence.
        -- intros ob Hin. apply elem_of_cons in Hin as [-> | Hin].
           ++ split; [exact Hseen |]. exists [], base, bases.
              split; [reflexivity |]. split; [reflexivity |].
              split; [apply not_elem_of_nil | apply flag_test_true, Hvisible].
           ++ apply Hrest in Hin as (_ & Hout & Hfirst). split; assumption.
      * split; [exact Hnd |]. intros ob Hin.
        apply Hrest in Hin as (_ & Hout & Hfirst). split; assumption.
Qed.

(** C7 (amended): on a scene whose own view layer list and those of its
    background sets are not empty, a full traversal of the renderable objects
    iterator ends within [renderable_steps] steps.  It goes over the bases of
    the first view layer of the scene, of the later view layers of the scene
    that are flagged [VIEW_LAYER_RENDER], then of the default render view layer
    of the scene and of each set; what it yields are the objects whose first
    base in that sequence has [BASE_VISIBLED], each once: the tag
    [LIB_TAG_DOIT] set on every object at begin is cleared at the first base
    of the object, visible or not. *)
Theorem renderable_objects_once_and_visible (flags_ : nat -> Z) (scene : Scene) (fuel : nat) :
  (forall scene', scene' ∈ scene_chain scene -> view_layers scene' <> []) ->
  (renderable_steps scene <= fuel)%nat ->
  exists obs,
    renderable_objects fuel flags_ scene = Some obs /\
    obs = first_visible [] (renderable_bases scene) /\
    NoDup obs /\
    forall ob, ob ∈ obs ->
      exists before base after,
        renderable_bases scene = before ++ base :: after /\ object base = ob /\
        (ob ∉ object <$> before) /\ Z.land (base_flag base) BASE_VISIBLED <> 0.
Proof.
  intros Hlayers Hfuel.
  exists (first_visible [] (renderable_bases scene)).
  destruct (first_visible_spec (renderable_bases scene) []) as [Hnd Hspec].
  split; [| split; [reflexivity | split; [exact Hnd |]]].
  2: { intros ob Hin. apply Hspec in Hin as [_ Hfirst]. exact Hfirst. }
  unfold renderable_objects, BKE_view_layer_renderable_objects_iterator_begin.
  destruct (view_layers scene) as [| view_layer l] eqn:Hvl.
  { exfalso. apply (Hlayers scene); [| exact Hvl]. rewrite scene_chain_eq.
    apply elem_of_cons. left. reflexivity. }
  cbn [head mbind option_bind].
  set (it := mkRenderableIterator _ _ _ _ _ _ _ _).
  assert (Hremaining : iter_remaining it = renderable_bases scene).
  { unfold iter_remaining, renderable_bases. rewrite Hvl. cbn. rewrite app_nil_r.
    reflexivity. }
  change (renderable_objects_next fuel it = Some (first_visible [] (renderable_bases scene))).
  rewrite (renderable_objects_next_yields (renderable_steps scene) it fuel).
  - rewrite Hremaining. f_equal. apply iter_yields_first_visible.
    intros base Hbase. cbn.
    rewrite bool_decide_eq_false_2 by apply not_elem_of_nil. cbn.
    apply tag_scenes_tagged. left.
    destruct (renderable_bases_tagged scene base Hbase) as (scene' & view_layer' & H1 & H2 & H3).
    exists scene', view_layer'. split; [exact H1 |]. split; [exact H2 |].
    apply list_elem_of_fmap_2, H3.
  - unfold iter_steps. rewrite Hremaining. unfold renderable_steps. cbn. rewrite Hvl. cbn. lia.
  - exact Hfuel.
  - split; [discriminate | exact Hlayers].
  - reflexivity.
Qed.

(** ** C6: the active collection through the sync *)

Lemma layer_nodes_app l1 l2 : layer_nodes (l1 ++ l2) = layer_nodes l1 ++ layer_nodes l2.
Proof. unfold layer_nodes. rewrite fmap_app. apply concat_app. Qed.

Lemma layer_ids_app l1 l2 : layer_ids (l1 ++ l2) = layer_ids l1 ++ layer_ids l2.
Proof. unfold layer_ids. rewrite layer_nodes_app. apply fmap_app. Qed.

Lemma layer_ids_cons lc l :
  layer_ids (lc :: l) = lc_id lc :: layer_ids (layer_collections lc) ++ layer_ids l.
Proof.
  unfold layer_ids. rewrite layer_nodes_cons, layer_tree_nodes_eq, fmap_app. reflexivity.
Qed.

Lemma layer_ids_nil : layer_ids [] = [].
Proof. reflexivity. Qed.

#[local] Arguments layer_ids : simpl never.

Lemma active_without_nil active : active_without [] active = active.
Proof. destruct active; reflexivity. Qed.

Lemma active_without_app freed freed' active :
  active_without freed' (active_without freed active) = active_without (freed ++ freed') active.
Proof.
  destruct active as [a |]; [| reflexivity]. cbn.
  destruct (bool_decide (a ∈ freed)) eqn:Hin.
  - apply bool_decide_eq_true in Hin.
    rewrite bool_decide_eq_true_2 by (apply elem_of_app; left; exact Hin). reflexivity.
  - apply bool_decide_eq_false in Hin. cbn.
    destruct (bool_decide (a ∈ freed')) eqn:Hin'.
    + apply bool_decide_eq_true in Hin'.
      rewrite bool_decide_eq_true_2 by (apply elem_of_app; right; exact Hin'). reflexivity.
    + apply bool_decide_eq_false in Hin'.
      rewrite bool_decide_eq_false_2; [reflexivity |].
      rewrite elem_of_app. tauto.
Qed.

(** While the root list is empty, freeing a node resets the active
    collection when it is the node or a node below it. *)
Lemma layer_collection_free_active :
  forall lc view_layer,
    vl_layer_collections view_layer = [] ->
    active_collection (layer_collection_free view_layer lc)
    = active_without (layer_ids [lc]) (active_collection view_layer).
Proof.
  refine (proj1 (LayerCollection_tree_ind
    (fun lc => forall view_layer,
       vl_layer_collections view_layer = [] ->
       active_collection (layer_collection_free view_layer lc)
       = active_without (layer_ids [lc]) (active_collection view_layer))
    (fun l => forall view_layer,
       vl_layer_collections view_layer = [] ->
       active_collection (fold_left layer_collection_free l view_layer)
       = active_without (layer_ids l) (active_collection view_layer)) _ _ _)).
  - intros lc IH view_layer Hroots. destruct lc as [id col fl cs]. cbn in *.
    rewrite layer_ids_cons, layer_ids_nil, app_nil_r. cbn [lc_id layer_collections].
    rewrite IH by (destruct (decide _); cbn; exact Hroots).
    change (id :: layer_ids cs) with ([id] ++ layer_ids cs).
    rewrite <- active_without_app. f_equal.
    destruct (decide (Some id = active_collection view_layer)) as [Heq | Hne].
    + rewrite <- Heq, Hroots. cbn.
      rewrite bool_decide_eq_true_2 by (apply elem_of_cons; left; reflexivity). reflexivity.
    + destruct (active_collection view_layer) as [a |]; [| reflexivity]. cbn.
      rewrite bool_decide_eq_false_2; [reflexivity |].
      intros Hin. apply list_elem_of_singleton in Hin. congruence.
  - intros view_layer _. cbn. rewrite layer_ids_nil, active_without_nil. reflexivity.
  - intros lc l Hlc Hl view_layer Hroots. cbn [fold_left].
    rewrite Hl by (rewrite layer_collection_free_roots; exact Hroots).
    rewrite Hlc by exact Hroots. rewrite active_without_app.
    change (lc :: l) with ([lc] ++ l). rewrite layer_ids_app. reflexivity.
Qed.

(** The first loop on the child list of a node, while the root list is
    empty: the nodes without a collection in [lb_scene] leave the list, and
    the active collection is reset when it is one of them or below one. *)
Lemma layer_collection_sync_prune_nested lb_scene :
  forall rest view_layer l kept,
    vl_layer_collections view_layer = [] ->
    let pruned := layer_collection_sync_prune lb_scene view_layer (lb_local l) kept rest in
    let found := fun lc => scene_child_find lb_scene (collection lc) in
    vl_layer_collections pruned.1 = [] /\
    (l = kept ++ rest -> pruned.2 = lb_local (kept ++ List.filter found rest)) /\
    active_collection pruned.1
    = active_without (layer_ids (List.filter (fun lc => negb (found lc)) rest))
        (active_collection view_layer).
Proof.
  induction rest as [| lc rest IH]; intros view_layer l kept Hroots; cbn zeta; cbn.
  - split; [exact Hroots |]. split; [intros ->; reflexivity |].
    rewrite layer_ids_nil, active_without_nil. reflexivity.
  - destruct (scene_child_find lb_scene (collection lc)) eqn:Hfound; cbn [negb].
    + destruct (IH view_layer l (kept ++ [lc]) Hroots) as (Hroots' & Hlist & Hactive).
      split; [exact Hroots' |]. split; [| exact Hactive].
      intros ->. rewrite Hlist by (rewrite <- app_assoc; reflexivity).
      rewrite <- app_assoc. reflexivity.
    + destruct (IH (layer_collection_free view_layer lc) (kept ++ rest) kept)
        as (Hroots' & Hlist & Hactive).
      { rewrite layer_collection_free_roots. exact Hroots. }
      split; [exact Hroots' |]. split; [intros _; apply Hlist; reflexivity |].
      rewrite Hactive, layer_collection_free_active by exact Hroots.
      rewrite active_without_app.
      change (lc :: List.filter ?f rest) with ([lc] ++ List.filter f rest).
      rewrite layer_ids_app. reflexivity.
Qed.

(** What [layer_collection_take] finds. *)
Lemma layer_collection_take_spec c l :
  match layer_collection_take c l with
  | Some (lc, rest) =>
      exists l1 l2, l = l1 ++ lc :: l2 /\ rest = l1 ++ l2 /\ collection lc = Some c /\
                    forall x, x ∈ l1 -> collection x <> Some c
  | None => forall x, x ∈ l -> collection x <> Some c
  end.
Proof.
  induction l as [| x l IH]; cbn.
  - intros x Hin. apply elem_of_nil in Hin. contradiction.
  - destruct (decide (collection x = Some c)) as [Heq | Hne].
    + exists [], l. split; [reflexivity |]. split; [reflexivity |]. split; [exact Heq |].
      intros y Hin. apply elem_of_nil in Hin. contradiction.
    + destruct (layer_collection_take c l) as [[lc rest] |].
      * destruct IH as (l1 & l2 & -> & -> & Hcol & Hbefore).
        exists (x :: l1), l2. split; [reflexivity |]. split; [reflexivity |].
        split; [exact Hcol |]. intros y Hin.
        apply elem_of_cons in Hin as [-> | Hin]; [exact Hne | apply Hbefore, Hin].
      * intros y Hin. apply elem_of_cons in Hin as [-> | Hin]; [exact Hne | apply IH, Hin].
Qed.

Lemma layer_ids_first lc l : layer_ids (lc :: l) = layer_ids [lc] ++ layer_ids l.
Proof. apply (layer_ids_app [lc] l). Qed.

Lemma layer_ids_filter (f : LayerCollection -> bool) l a :
  a ∈ layer_ids l <->
  a ∈ layer_ids (List.filter f l) \/ a ∈ layer_ids (List.filter (fun lc => negb (f lc)) l).
Proof.
  induction l as [| lc l IH]; cbn [List.filter].
  - rewrite layer_ids_nil, elem_of_nil. tauto.
  - rewrite (layer_ids_first lc l), elem_of_app, IH.
    destruct (f lc); cbn [negb]; rewrite (layer_ids_first lc (List.filter _ l)), elem_of_app;
      tauto.
Qed.

Lemma layer_ids_filter_NoDup (f : LayerCollection -> bool) l :
  NoDup (layer_ids l) ->
  NoDup (layer_ids (List.filter f l)) /\
  forall a, a ∈ layer_ids (List.filter f l) ->
    a ∉ layer_ids (List.filter (fun lc => negb (f lc)) l).
Proof.
  induction l as [| lc l IH]; cbn [List.filter].
  - intros _. rewrite layer_ids_nil. split; [constructor |].
    intros a Hin. apply elem_of_nil in Hin. contradiction.
  - rewrite (layer_ids_first lc l).
    intros (Hlc & Hdisjoint & Hl)%NoDup_app. destruct (IH Hl) as [Hnd Hsep].
    assert (Hsub : forall g a, a ∈ layer_ids (List.filter g l) -> a ∈ layer_ids l).
    { intros g a Hin. apply (layer_ids_filter g). left. exact Hin. }
    destruct (f lc); cbn [negb]; rewrite (layer_ids_first lc (List.filter _ l)).
    + split.
      * apply NoDup_app. split; [exact Hlc |]. split; [| exact Hnd].
        intros a Ha Hin. eapply Hdisjoint; [exact Ha | eapply Hsub, Hin].
      * intros a Hin Hout. apply elem_of_app in Hin as [Hin | Hin].
        -- eapply Hdisjoint; [exact Hin | eapply Hsub, Hout].
        -- eapply Hsep; eassumption.
    + split; [exact Hnd |]. intros a Hin Hout.
      apply elem_of_app in Hout as [Hout | Hout].
      * eapply Hdisjoint; [exact Hout | eapply Hsub, Hin].
      * eapply Hsep; eassumption.
Qed.

Lemma layer_collection_sync_object_heap child_restrict s ob :
  (ss_heap s <= ss_heap (layer_collection_sync_object child_restrict s ob))%nat.
Proof.
  unfold layer_collection_sync_object.
  destruct (bases_hash _ !! ob) as [a |].
  - destruct (base_is_first_or_last _ _); [cbn; lia |].
    destruct (node_at _ _ _); cbn; lia.
  - cbn. lia.
Qed.

Lemma layer_collection_sync_objects_heap lc_flag_ child_restrict obs s :
  (ss_heap s <= ss_heap (layer_collection_sync_objects lc_flag_ child_restrict obs s))%nat.
Proof.
  unfold layer_collection_sync_objects. destruct (flag_test _ _); [lia |].
  revert s. induction obs as [| ob obs IH]; intros s; cbn; [lia |].
  etransitivity; [apply (layer_collection_sync_object_heap child_restrict s ob) | apply IH].
Qed.

(** The lookup in the child list of a node. *)
Lemma layer_collection_sync_lookup_nested child s l parent_exclude :
  layer_collection_sync_lookup child s (lb_local l) parent_exclude
  = match layer_collection_take (col_id child) l with
    | Some (lc, rest) =>
        (mkSyncState (ss_heap s) (ss_view_layer s) (ss_new_object_bases s), lb_local rest, lc)
    | None =>
        (mkSyncState (S (ss_heap s)) (ss_view_layer s) (ss_new_object_bases s), lb_local l,
         mkLayerCollection (ss_heap s) (Some (col_id child)) parent_exclude [])
    end.
Proof.
  unfold layer_collection_sync_lookup. cbn [lb_get].
  destruct (layer_collection_take _ _) as [[lc rest] |]; reflexivity.
Qed.

Lemma elem_of_layer_nodes x l :
  x ∈ layer_nodes l <-> exists lc, lc ∈ l /\ x ∈ layer_tree_nodes lc.
Proof.
  unfold layer_nodes. rewrite elem_of_concat. split.
  - intros (nodes & Hx & Hnodes). apply list_elem_of_fmap in Hnodes as (lc & -> & Hlc). eauto.
  - intros (lc & Hlc & Hx). exists (layer_tree_nodes lc).
    split; [exact Hx | apply list_elem_of_fmap_2, Hlc].
Qed.

Lemma elem_of_filter {A : Type} (f : A -> bool) (l : list A) (x : A) :
  x ∈ List.filter f l <-> x ∈ l /\ f x = true.
Proof. rewrite !list_elem_of_In. apply filter_In. Qed.

Lemma NoDup_fmap_filter {A B : Type} (g : A -> B) (f : A -> bool) (l : list A) :
  NoDup (g <$> l) -> NoDup (g <$> List.filter f l).
Proof.
  induction l as [| x l IH]; cbn [List.filter]; [auto |].
  rewrite fmap_cons. intros [Hx Hl]%NoDup_cons. destruct (f x); [| auto].
  rewrite fmap_cons. apply NoDup_cons. split; [| auto].
  intros Hin. apply Hx. apply list_elem_of_fmap in Hin as (y & -> & Hy).
  apply elem_of_filter in Hy as [Hy _]. apply list_elem_of_fmap_2, Hy.
Qed.

Lemma distinct_siblings_filter f l :
  distinct_siblings l -> distinct_siblings (List.filter f l).
Proof.
  intros [Hnd Hbelow]. split; [apply NoDup_fmap_filter, Hnd |].
  intros lc Hlc. apply Hbelow. apply elem_of_layer_nodes in Hlc as (root & Hroot & Hlc).
  apply elem_of_layer_nodes. exists root. split; [| exact Hlc].
  apply elem_of_filter in Hroot as [Hroot _]. exact Hroot.
Qed.

(** The siblings of a node of a list with distinct siblings, and its
    children. *)
Lemma distinct_siblings_split l1 lc l2 :
  distinct_siblings (l1 ++ lc :: l2) ->
  distinct_siblings (l1 ++ l2) /\
  distinct_siblings (layer_collections lc) /\
  forall x, x ∈ l1 ++ l2 -> collection x <> collection lc.
Proof.
  intros [Hnd Hbelow]. rewrite fmap_app, fmap_cons in Hnd.
  apply NoDup_app in Hnd as (Hl1 & Hdisjoint & [Hlc Hl2]%NoDup_cons).
  split; [| split].
  - split.
    + rewrite fmap_app. apply NoDup_app. split; [exact Hl1 |]. split; [| exact Hl2].
      intros c Hc Hin. eapply Hdisjoint; [exact Hc | apply elem_of_cons; right; exact Hin].
    + intros x Hx. apply Hbelow. rewrite layer_nodes_app in Hx |- *.
      rewrite layer_nodes_cons. rewrite !elem_of_app in *. tauto.
  - split.
    + apply Hbelow. rewrite layer_nodes_app, layer_nodes_cons, layer_tree_nodes_eq.
      apply elem_of_app. right. apply elem_of_cons. left. reflexivity.
    + intros x Hx. apply Hbelow.
      rewrite layer_nodes_app, layer_nodes_cons, layer_tree_nodes_eq.
      apply elem_of_app. right. apply elem_of_cons. right. apply elem_of_app. left.
      exact Hx.
  - intros x Hx Heq. apply elem_of_app in Hx as [Hx | Hx].
    + eapply Hdisjoint; [apply list_elem_of_fmap_2, Hx |].
      rewrite Heq. apply elem_of_cons. left. reflexivity.
    + apply Hlc. rewrite <- Heq. apply list_elem_of_fmap_2, Hx.
Qed.

(** From the second loop to the whole call. *)
Lemma call_accounts_from_loop lb_scene : loop_accounts lb_scene -> call_accounts lb_scene.
Proof.
  intros Hloop parent_exclude parent_restrict s l Hroots. cbn zeta.
  rewrite layer_collection_sync_eq. cbn zeta. cbn [lb_get].
  destruct (layer_collection_sync_prune_nested lb_scene l (ss_view_layer s) l [] Hroots)
    as (Hroots0 & Hlist & Hactive0).
  specialize (Hlist eq_refl). cbn [app] in Hlist.
  set (pruned := layer_collection_sync_prune _ _ _ _ _) in *.
  set (found := fun lc => scene_child_find lb_scene (collection lc)) in *.
  rewrite Hlist.
  set (s0 := mkSyncState (ss_heap s) pruned.1 (ss_new_object_bases s)).
  destruct (Hloop parent_exclude parent_restrict s0 (List.filter found l) [] Hroots0)
    as (added & freed & Hadded & [Hroots1 Hactive1 Hheap1 Hfreed1 Hnew1 Hcomplete1]).
  destruct (layer_collection_sync_loop_local lb_scene parent_exclude parent_restrict s0
              (List.filter found l) []) as [_ [l1 Hlocal]].
  set (st := layer_collection_sync_loop _ _ _ _ _) in *.
  cbn [app] in Hadded. rewrite Hlocal, Hadded. cbn [lb_set fst snd ss_view_layer ss_heap].
  exists (layer_ids (List.filter (fun lc => negb (found lc)) l) ++ freed).
  constructor; cbn [ss_view_layer ss_heap].
  - exact Hroots1.
  - rewrite Hactive1, <- active_without_app. cbn. rewrite Hactive0. reflexivity.
  - exact Hheap1.
  - intros a Hin. apply elem_of_app in Hin as [Hin | Hin].
    + apply (layer_ids_filter found). right. exact Hin.
    + apply (layer_ids_filter found). left. apply Hfreed1, Hin.
  - intros a Hin. destruct (Hnew1 a Hin) as [[Hold Hkept] | Hfresh]; [left | right; exact Hfresh].
    split; [apply (layer_ids_filter found); left; exact Hold |].
    intros Hnd Hfreed. destruct (layer_ids_filter_NoDup found l Hnd) as [Hnd' Hsep].
    apply elem_of_app in Hfreed as [Hfreed | Hfreed].
    + exact (Hsep a Hold Hfreed).
    + exact (Hkept Hnd' Hfreed).
  - intros Hdistinct a Hin. apply (layer_ids_filter found) in Hin as [Hin | Hin].
    + destruct (Hcomplete1) with (a := a) as [Hfreed | Hnew]; [| exact Hin | | right; exact Hnew].
      * split; [apply distinct_siblings_filter, Hdistinct |].
        intros lc Hlc. apply elem_of_filter in Hlc as [_ Hfound]. exact Hfound.
      * left. apply elem_of_app. right. exact Hfreed.
    + left. apply elem_of_app. left. exact Hin.
Qed.

Lemma loop_accounts_nil : loop_accounts [].
Proof.
  intros parent_exclude parent_restrict s cur new_lb_layer Hroots. cbn.
  exists [], []. split; [rewrite app_nil_r; reflexivity |].
  constructor.
  - exact Hroots.
  - rewrite active_without_nil. reflexivity.
  - lia.
  - intros a Hin. apply elem_of_nil in Hin. contradiction.
  - intros a Hin. rewrite layer_ids_nil in Hin. apply elem_of_nil in Hin. contradiction.
  - intros [_ Hclaimed] a Hin. destruct cur as [| lc cur].
    + rewrite layer_ids_nil in Hin. apply elem_of_nil in Hin. contradiction.
    + specialize (Hclaimed lc ltac:(apply elem_of_cons; left; reflexivity)).
      unfold scene_child_find in Hclaimed. destruct (collection lc); [| discriminate].
      cbn in Hclaimed. apply bool_decide_eq_true in Hclaimed.
      apply elem_of_nil in Hclaimed. contradiction.
Qed.

Lemma NoDup_node_split {A : Type} (l1 : list A) (x : A) (m l2 : list A) :
  NoDup (l1 ++ x :: m ++ l2) ->
  NoDup m /\ NoDup (l1 ++ l2) /\ (x ∉ m) /\ (x ∉ l1 ++ l2) /\
  forall y, y ∈ m -> y ∉ l1 ++ l2.
Proof.
  intros (Hl1 & Hdisjoint & [Hx (Hm & Hsep & Hl2)%NoDup_app]%NoDup_cons)%NoDup_app.
  split; [exact Hm |]. split; [| split; [| split]].
  - apply NoDup_app. split; [exact Hl1 |]. split; [| exact Hl2].
    intros y Hy Hin. eapply Hdisjoint; [exact Hy |].
    apply elem_of_cons. right. apply elem_of_app. right. exact Hin.
  - intros Hin. apply Hx. apply elem_of_app. left. exact Hin.
  - intros Hin. apply elem_of_app in Hin as [Hin | Hin].
    + eapply Hdisjoint; [exact Hin | apply elem_of_cons; left; reflexivity].
    + apply Hx. apply elem_of_app. right. exact Hin.
  - intros y Hy Hin. apply elem_of_app in Hin as [Hin | Hin].
    + eapply Hdisjoint; [exact Hin |].
      apply elem_of_cons. right. apply elem_of_app. left. exact Hy.
    + eapply Hsep; eassumption.
Qed.

(** The body of the second loop for one child, then the rest of the
    loop. *)
Lemma loop_accounts_cons child lb_scene :
  call_accounts (children child) -> loop_accounts lb_scene ->
  loop_accounts (child :: lb_scene).
Proof.
  intros Hcall Hloop parent_exclude parent_restrict s cur new_lb_layer Hroots. cbn zeta.
  cbn [layer_collection_sync_loop]. rewrite layer_collection_sync_child_eq. cbn zeta.
  rewrite layer_collection_sync_lookup_nested.
  pose proof (layer_collection_take_spec (col_id child) cur) as Htake.
  set (child_restrict := child_restrict_of parent_restrict child).
  destruct (layer_collection_take (col_id child) cur) as [[k rest] |]; cbn [fst snd].
  - (* the node of the child is in the list *)
    destruct Htake as (l1 & l2 & -> & -> & Hcol & Hbefore).
    set (s1 := mkSyncState (ss_heap s) (ss_view_layer s) (ss_new_object_bases s)).
    destruct (Hcall (lc_flag k) child_restrict s1 (layer_collections k) Hroots)
      as (freed1 & [Hr1 Ha1 Hh1 Hf1 Hn1 Hc1]).
    change (ss_heap s1) with (ss_heap s) in Hh1, Hn1.
    change (ss_view_layer s1) with (ss_view_layer s) in Ha1.
    set (sub := layer_collection_sync _ _ _ _ _) in *.
    destruct (layer_collection_sync_objects_tree (lc_flag k) child_restrict (gobject child)
                sub.1) as [Hr2 Ha2].
    pose proof (layer_collection_sync_objects_heap (lc_flag k) child_restrict (gobject child)
                  sub.1) as Hh2.
    set (s2 := layer_collection_sync_objects _ _ _ _) in *.
    set (lc' := mkLayerCollection _ _ _ _).
    destruct (Hloop parent_exclude parent_restrict s2 (l1 ++ l2) (new_lb_layer ++ [lc']))
      as (added & freed' & Hadded & [Hr3 Ha3 Hh3 Hf3 Hn3 Hc3]).
    { rewrite Hr2. exact Hr1. }
    set (st := layer_collection_sync_loop _ _ _ _ _) in *.
    exists (lc' :: added), (freed1 ++ freed').
    split; [rewrite Hadded, <- app_assoc; reflexivity |].
    assert (Hids : layer_ids (l1 ++ k :: l2)
                   = layer_ids l1 ++ lc_id k :: layer_ids (layer_collections k) ++ layer_ids l2).
    { rewrite layer_ids_app, layer_ids_cons. reflexivity. }
    assert (Hmid : forall a, a ∈ layer_ids (l1 ++ l2) -> a ∈ layer_ids (l1 ++ k :: l2)).
    { intros a. rewrite Hids, layer_ids_app, !elem_of_app, elem_of_cons, elem_of_app. tauto. }
    assert (Hbelow : forall a, a ∈ layer_ids (layer_collections k) ->
                               a ∈ layer_ids (l1 ++ k :: l2)).
    { intros a. rewrite Hids, !elem_of_app, elem_of_cons, elem_of_app. tauto. }
    assert (Hres : layer_ids (lc' :: added) = lc_id k :: layer_ids sub.2 ++ layer_ids added).
    { rewrite layer_ids_cons. reflexivity. }
    cbn [ss_heap ss_view_layer] in *.
    constructor.
    + exact Hr3.
    + rewrite Ha3, Ha2, Ha1, active_without_app. reflexivity.
    + lia.
    + intros a Hin. apply elem_of_app in Hin as [Hin | Hin]; auto.
    + intros a Hin. rewrite Hres in Hin.
      apply elem_of_cons in Hin as [-> | Hin]; [| apply elem_of_app in Hin as [Hin | Hin]].
      * left. split.
        { rewrite Hids. apply elem_of_app. right. apply elem_of_cons. left. reflexivity. }
        rewrite Hids. intros Hnd Hfreed.
        apply NoDup_node_split in Hnd as (_ & _ & Hk1 & Hk2 & _).
        rewrite <- layer_ids_app in Hk2.
        apply elem_of_app in Hfreed as [Hfreed | Hfreed]; auto.
      * destruct (Hn1 a Hin) as [[Hold Hkept] | Hfresh]; [left | right; lia].
        split; [apply Hbelow, Hold |].
        rewrite Hids. intros Hnd Hfreed.
        apply NoDup_node_split in Hnd as (Hnd1 & _ & _ & _ & Hsep).
        rewrite <- layer_ids_app in Hsep.
        apply elem_of_app in Hfreed as [Hfreed | Hfreed]; [exact (Hkept Hnd1 Hfreed) |].
        exact (Hsep a Hold (Hf3 a Hfreed)).
      * destruct (Hn3 a Hin) as [[Hold Hkept] | Hfresh]; [left | right; lia].
        split; [apply Hmid, Hold |].
        rewrite Hids. intros Hnd Hfreed.
        apply NoDup_node_split in Hnd as (_ & Hnd3 & _ & _ & Hsep).
        rewrite <- layer_ids_app in Hsep, Hnd3.
        apply elem_of_app in Hfreed as [Hfreed | Hfreed]; [| exact (Hkept Hnd3 Hfreed)].
        exact (Hsep a (Hf1 a Hfreed) Hold).
    + intros [Hdistinct Hclaimed] a Hin.
      destruct (distinct_siblings_split _ _ _ Hdistinct) as (Hd3 & Hd1 & Hothers).
      rewrite Hres. rewrite Hids in Hin.
      assert (Hcases : a = lc_id k \/ a ∈ layer_ids (layer_collections k) \/
                       a ∈ layer_ids (l1 ++ l2)).
      { rewrite layer_ids_app. rewrite !elem_of_app, elem_of_cons, elem_of_app in Hin.
        rewrite elem_of_app. tauto. }
      destruct Hcases as [-> | [Hin1 | Hin3]].
      * right. apply elem_of_cons. left. reflexivity.
      * destruct (Hc1 Hd1 a Hin1) as [Hfreed | Hnew].
        -- left. apply elem_of_app. left. exact Hfreed.
        -- right. apply elem_of_cons. right. apply elem_of_app. left. exact Hnew.
      * destruct (Hc3) with (a := a) as [Hfreed | Hnew]; [| exact Hin3 | |].
        -- split; [exact Hd3 |]. intros lc Hlc.
           assert (Hin' : lc ∈ l1 ++ k :: l2).
           { rewrite elem_of_app, elem_of_cons. rewrite elem_of_app in Hlc. tauto. }
           specialize (Hclaimed lc Hin'). specialize (Hothers lc Hlc).
           rewrite Hcol in Hothers. unfold scene_child_find in *.
           destruct (collection lc) as [c |]; [| discriminate].
           apply bool_decide_eq_true in Hclaimed. apply bool_decide_eq_true.
           rewrite fmap_cons in Hclaimed.
           apply elem_of_cons in Hclaimed as [-> | Hclaimed]; [congruence | exact Hclaimed].
        -- left. apply elem_of_app. right. exact Hfreed.
        -- right. apply elem_of_cons. right. apply elem_of_app. right. exact Hnew.
  - (* a new node for the child *)
    cbn [lc_id collection lc_flag layer_collections].
    set (s1 := mkSyncState (S (ss_heap s)) (ss_view_layer s) (ss_new_object_bases s)).
    destruct (Hcall parent_exclude child_restrict s1 [] Hroots)
      as (freed1 & [Hr1 Ha1 Hh1 Hf1 Hn1 Hc1]).
    change (ss_heap s1) with (S (ss_heap s)) in Hh1, Hn1.
    change (ss_view_layer s1) with (ss_view_layer s) in Ha1.
    set (sub := layer_collection_sync _ _ _ _ _) in *.
    destruct (layer_collection_sync_objects_tree parent_exclude child_restrict (gobject child)
                sub.1) as [Hr2 Ha2].
    pose proof (layer_collection_sync_objects_heap parent_exclude child_restrict
                  (gobject child) sub.1) as Hh2.
    set (s2 := layer_collection_sync_objects _ _ _ _) in *.
    set (lc' := mkLayerCollection _ _ _ _).
    destruct (Hloop parent_exclude parent_restrict s2 cur (new_lb_layer ++ [lc']))
      as (added & freed' & Hadded & [Hr3 Ha3 Hh3 Hf3 Hn3 Hc3]).
    { rewrite Hr2. exact Hr1. }
    set (st := layer_collection_sync_loop _ _ _ _ _) in *.
    exists (lc' :: added), (freed1 ++ freed').
    split; [rewrite Hadded, <- app_assoc; reflexivity |].
    assert (Hnone : forall a, a ∉ freed1).
    { intros a Hin. apply Hf1 in Hin. rewrite layer_ids_nil in Hin.
      apply elem_of_nil in Hin. exact Hin. }
    assert (Hres : layer_ids (lc' :: added)
                   = ss_heap s :: layer_ids sub.2 ++ layer_ids added).
    { rewrite layer_ids_cons. reflexivity. }
    cbn [ss_heap ss_view_layer] in *.
    constructor.
    + exact Hr3.
    + rewrite Ha3, Ha2, Ha1, active_without_app. reflexivity.
    + lia.
    + intros a Hin. apply elem_of_app in Hin as [Hin | Hin]; [| auto].
      exfalso. exact (Hnone a Hin).
    + intros a Hin. rewrite Hres in Hin.
      apply elem_of_cons in Hin as [-> | Hin]; [| apply elem_of_app in Hin as [Hin | Hin]].
      * right. lia.
      * destruct (Hn1 a Hin) as [[Hold _] | Hfresh]; [| right; lia].
        rewrite layer_ids_nil in Hold. apply elem_of_nil in Hold. contradiction.
      * destruct (Hn3 a Hin) as [[Hold Hkept] | Hfresh]; [left | right; lia].
        split; [exact Hold |]. intros Hnd Hfreed.
        apply elem_of_app in Hfreed as [Hfreed | Hfreed]; [exact (Hnone a Hfreed) |].
        exact (Hkept Hnd Hfreed).
    + intros [Hdistinct Hclaimed] a Hin. rewrite Hres.
      destruct (Hc3) with (a := a) as [Hfreed | Hnew]; [| exact Hin | |].
      * split; [exact Hdistinct |]. intros lc Hlc.
        specialize (Hclaimed lc Hlc). specialize (Htake lc Hlc).
        unfold scene_child_find in *.
        destruct (collection lc) as [c |]; [| discriminate].
        apply bool_decide_eq_true in Hclaimed. apply bool_decide_eq_true.
        rewrite fmap_cons in Hclaimed.
        apply elem_of_cons in Hclaimed as [-> | Hclaimed]; [congruence | exact Hclaimed].
      * left. apply elem_of_app. right. exact Hfreed.
      * right. apply elem_of_cons. right. apply elem_of_app. right. exact Hnew.
Qed.

(** Every call on the child list of a node accounts for the nodes. *)
Lemma layer_collection_sync_loop_accounts : forall lb_scene, loop_accounts lb_scene.
Proof.
  refine (proj2 (Collection_tree_ind
    (fun child => loop_accounts (children child)) loop_accounts _ _ _)).
  - intros child Hchildren. exact Hchildren.
  - exact loop_accounts_nil.
  - intros child lb_scene Hchild Hrest.
    apply loop_accounts_cons; [apply call_accounts_from_loop, Hchild | exact Hrest].
Qed.

Lemma layer_collection_sync_accounts lb_scene : call_accounts lb_scene.
Proof. apply call_accounts_from_loop, layer_collection_sync_loop_accounts. Qed.

(** *** No address twice in the rebuilt tree *)

Lemma call_distinct_from_loop lb_scene : loop_distinct lb_scene -> call_distinct lb_scene.
Proof.
  intros Hloop parent_exclude parent_restrict s l Hroots Hnd Hbound.
  rewrite layer_collection_sync_eq. cbn zeta. cbn [lb_get snd].
  destruct (layer_collection_sync_prune_nested lb_scene l (ss_view_layer s) l [] Hroots)
    as (Hroots0 & Hlist & _).
  specialize (Hlist eq_refl). cbn [app] in Hlist. rewrite Hlist.
  set (found := fun lc => scene_child_find lb_scene (collection lc)) in *.
  eapply (Hloop parent_exclude parent_restrict
            (mkSyncState (ss_heap s)
               (layer_collection_sync_prune lb_scene (ss_view_layer s) (lb_local l) [] l).1
               (ss_new_object_bases s))
            (List.filter found l) []).
  - exact Hroots0.
  - apply layer_ids_filter_NoDup, Hnd.
  - intros a Hin. cbn. apply Hbound. apply (layer_ids_filter found). left. exact Hin.
  - reflexivity.
Qed.

Lemma loop_distinct_nil : loop_distinct [].
Proof.
  intros parent_exclude parent_restrict s cur new_lb_layer _ _ _. cbn.
  intros added Hadded.
  rewrite <- (app_nil_r new_lb_layer) in Hadded at 1. apply app_inv_head in Hadded as <-.
  rewrite layer_ids_nil. constructor.
Qed.

Lemma loop_distinct_cons child lb_scene :
  call_distinct (children child) -> loop_distinct lb_scene ->
  loop_distinct (child :: lb_scene).
Proof.
  intros Hcall Hloop parent_exclude parent_restrict s cur new_lb_layer Hroots Hnd Hbound.
  cbn zeta. cbn [layer_collection_sync_loop]. rewrite layer_collection_sync_child_eq.
  cbn zeta. rewrite layer_collection_sync_lookup_nested.
  pose proof (layer_collection_take_spec (col_id child) cur) as Htake.
  set (child_restrict := child_restrict_of parent_restrict child).
  destruct (layer_collection_take (col_id child) cur) as [[k rest] |]; cbn [fst snd].
  - (* the node of the child is in the list *)
    destruct Htake as (l1 & l2 & -> & -> & _ & _).
    rewrite layer_ids_app, layer_ids_cons in Hnd, Hbound.
    destruct (NoDup_node_split _ _ _ _ Hnd) as (Hnd1 & Hnd3 & Hk1 & Hk3 & Hsep).
    rewrite <- layer_ids_app in Hnd3, Hk3, Hsep.
    set (s1 := mkSyncState (ss_heap s) (ss_view_layer s) (ss_new_object_bases s)).
    destruct (layer_collection_sync_accounts (children child) (lc_flag k) child_restrict s1
                (layer_collections k) Hroots) as (freed1 & [Hr1 _ Hh1 _ Hn1 _]).
    specialize (Hcall (lc_flag k) child_restrict s1 (layer_collections k) Hroots Hnd1).
    change (ss_heap s1) with (ss_heap s) in Hh1, Hn1, Hcall.
    set (sub := layer_collection_sync _ _ _ _ _) in *.
    destruct (layer_collection_sync_objects_tree (lc_flag k) child_restrict (gobject child)
                sub.1) as [Hr2 _].
    pose proof (layer_collection_sync_objects_heap (lc_flag k) child_restrict (gobject child)
                  sub.1) as Hh2.
    set (s2 := layer_collection_sync_objects _ _ _ _) in *.
    set (lc' := mkLayerCollection _ _ _ _).
    assert (Hroots2 : vl_layer_collections (ss_view_layer s2) = [])
      by (rewrite Hr2; exact Hr1).
    destruct (layer_collection_sync_loop_accounts lb_scene parent_exclude parent_restrict s2
                (l1 ++ l2) (new_lb_layer ++ [lc']) Hroots2)
      as (added' & freed' & Hadded' & [_ _ Hh3 _ Hn3 _]).
    specialize (Hloop parent_exclude parent_restrict s2 (l1 ++ l2) (new_lb_layer ++ [lc'])
                  Hroots2 Hnd3).
    cbn zeta in Hloop.
    set (st := layer_collection_sync_loop _ _ _ _ _) in *.
    intros added Hadded. rewrite Hadded', <- app_assoc in Hadded.
    apply app_inv_head in Hadded as <-. cbn [app].
    assert (Hbelow : forall a, a ∈ layer_ids (layer_collections k) -> (a < ss_heap s)%nat).
    { intros a Hin. apply Hbound. rewrite elem_of_app, elem_of_cons, elem_of_app. tauto. }
    assert (Hbeside : forall a, a ∈ layer_ids (l1 ++ l2) -> (a < ss_heap s)%nat).
    { intros a Hin. apply Hbound. rewrite layer_ids_app in Hin.
      rewrite elem_of_app, elem_of_cons, !elem_of_app in *. tauto. }
    assert (Hself : (lc_id k < ss_heap s)%nat).
    { apply Hbound. rewrite elem_of_app, elem_of_cons. tauto. }
    assert (HA : forall a, a ∈ layer_ids sub.2 ->
                   a ∈ layer_ids (layer_collections k) \/ (ss_heap s <= a)%nat).
    { intros a Hin. destruct (Hn1 a Hin) as [[Hold _] | Hfresh]; [left; exact Hold | right; lia]. }
    assert (HB : forall a, a ∈ layer_ids added' ->
                   a ∈ layer_ids (l1 ++ l2) \/ (ss_heap s2 <= a)%nat).
    { intros a Hin. destruct (Hn3 a Hin) as [[Hold _] | Hfresh]; [left; exact Hold | right; lia]. }
    rewrite layer_ids_cons. cbn [lc' lc_id layer_collections].
    apply NoDup_cons. split.
    + intros Hin. apply elem_of_app in Hin as [Hin | Hin].
      * destruct (HA _ Hin) as [Hold | Hfresh]; [exact (Hk1 Hold) | lia].
      * destruct (HB _ Hin) as [Hold | Hfresh]; [exact (Hk3 Hold) | lia].
    + apply NoDup_app. split; [apply Hcall, Hbelow |]. split.
      * intros a Hin1 Hin3.
        destruct (HA _ Hin1) as [Hold1 | Hfresh1], (HB _ Hin3) as [Hold3 | Hfresh3].
        -- exact (Hsep a Hold1 Hold3).
        -- apply Hbelow in Hold1. lia.
        -- apply Hbeside in Hold3. lia.
        -- destruct (Hn1 a Hin1) as [[Hold _] | Hfresh]; [apply Hbelow in Hold; lia | lia].
      * apply Hloop; [| exact Hadded'].
        intros a Hin. apply Hbeside in Hin. cbn in *. lia.
  - (* a new node for the child *)
    cbn [lc_id collection lc_flag layer_collections].
    set (s1 := mkSyncState (S (ss_heap s)) (ss_view_layer s) (ss_new_object_bases s)).
    destruct (layer_collection_sync_accounts (children child) parent_exclude child_restrict s1
                [] Hroots) as (freed1 & [Hr1 _ Hh1 _ Hn1 _]).
    specialize (Hcall parent_exclude child_restrict s1 [] Hroots).
    change (ss_heap s1) with (S (ss_heap s)) in Hh1, Hn1, Hcall.
    set (sub := layer_collection_sync _ _ _ _ _) in *.
    destruct (layer_collection_sync_objects_tree parent_exclude child_restrict (gobject child)
                sub.1) as [Hr2 _].
    pose proof (layer_collection_sync_objects_heap parent_exclude child_restrict
                  (gobject child) sub.1) as Hh2.
    set (s2 := layer_collection_sync_objects _ _ _ _) in *.
    set (lc' := mkLayerCollection _ _ _ _).
    assert (Hroots2 : vl_layer_collections (ss_view_layer s2) = [])
      by (rewrite Hr2; exact Hr1).
    destruct (layer_collection_sync_loop_accounts lb_scene parent_exclude parent_restrict s2
                cur (new_lb_layer ++ [lc']) Hroots2)
      as (added' & freed' & Hadded' & [_ _ Hh3 _ Hn3 _]).
    specialize (Hloop parent_exclude parent_restrict s2 cur (new_lb_layer ++ [lc'])
                  Hroots2 Hnd).
    cbn zeta in Hloop.
    set (st := layer_collection_sync_loop _ _ _ _ _) in *.
    intros added Hadded. rewrite Hadded', <- app_assoc in Hadded.
    apply app_inv_head in Hadded as <-. cbn [app].
    assert (HA : forall a, a ∈ layer_ids sub.2 -> (S (ss_heap s) <= a < ss_heap sub.1)%nat).
    { intros a Hin. destruct (Hn1 a Hin) as [[Hold _] | Hfresh]; [| exact Hfresh].
      rewrite layer_ids_nil in Hold. apply elem_of_nil in Hold. contradiction. }
    assert (HB : forall a, a ∈ layer_ids added' ->
                   a ∈ layer_ids cur \/ (ss_heap s2 <= a)%nat).
    { intros a Hin. destruct (Hn3 a Hin) as [[Hold _] | Hfresh]; [left; exact Hold | right; lia]. }
    rewrite layer_ids_cons. cbn [lc' lc_id layer_collections].
    apply NoDup_cons. split.
    + intros Hin. apply elem_of_app in Hin as [Hin | Hin].
      * apply HA in Hin. lia.
      * destruct (HB _ Hin) as [Hold | Hfresh]; [apply Hbound in Hold; lia | lia].
    + apply NoDup_app. split; [| split].
      * apply Hcall; [rewrite layer_ids_nil; constructor |].
        intros a Hin. rewrite layer_ids_nil in Hin. apply elem_of_nil in Hin. contradiction.
      * intros a Hin1 Hin3. apply HA in Hin1.
        destruct (HB _ Hin3) as [Hold | Hfresh]; [apply Hbound in Hold; lia | lia].
      * apply Hloop; [| exact Hadded'].
        intros a Hin. apply Hbound in Hin. cbn in *. lia.
Qed.

Lemma layer_collection_sync_distinct lb_scene : call_distinct lb_scene.
Proof.
  apply call_distinct_from_loop. revert lb_scene.
  refine (proj2 (Collection_tree_ind
    (fun child => loop_distinct (children child)) loop_distinct _ _ _)).
  - intros child Hchildren. exact Hchildren.
  - exact loop_distinct_nil.
  - intros child lb_scene Hchild Hrest.
    apply loop_distinct_cons; [apply call_distinct_from_loop, Hchild | exact Hrest].
Qed.

(** The top-level call on a root list that is empty or holds the layer
    collection of the master collection only. *)
Lemma layer_collection_sync_top master s :
  (vl_layer_collections (ss_view_layer s) = [] \/
   exists lc, vl_layer_collections (ss_view_layer s) = [lc] /\
              collection lc = Some (col_id master)) ->
  let old := vl_layer_collections (ss_view_layer s) in
  let r := layer_collection_sync [master] s lb_view_layer 0 0 in
  exists freed,
    active_collection (ss_view_layer r.1)
    = active_without freed (active_collection (ss_view_layer s)) /\
    (ss_heap s <= ss_heap r.1)%nat /\
    (forall a, a ∈ freed -> a ∈ layer_ids old) /\
    (forall a, a ∈ layer_ids r.2 ->
       (a ∈ layer_ids old /\ (NoDup (layer_ids old) -> a ∉ freed)) \/
       (ss_heap s <= a < ss_heap r.1)%nat) /\
    (distinct_siblings old -> forall a, a ∈ layer_ids old -> a ∈ freed \/ a ∈ layer_ids r.2) /\
    (NoDup (layer_ids old) -> (forall a, a ∈ layer_ids old -> (a < ss_heap s)%nat) ->
     NoDup (layer_ids r.2)).
Proof.
  intros Hroot. cbn zeta. rewrite layer_collection_sync_eq. cbn zeta.
  rewrite layer_collection_sync_prune_found.
  2: { intros lc Hin. destruct Hroot as [Hnil | (lcM & Hone & Hcol)].
       - cbn in Hin. rewrite Hnil in Hin. apply elem_of_nil in Hin. contradiction.
       - cbn in Hin. rewrite Hone in Hin. apply list_elem_of_singleton in Hin as ->.
         rewrite Hcol. cbn. apply bool_decide_eq_true.
         apply elem_of_cons. left. reflexivity. }
  cbn [fst snd layer_collection_sync_loop]. rewrite layer_collection_sync_child_eq. cbn zeta.
  unfold layer_collection_sync_lookup. cbn [lb_get ss_view_layer ss_heap ss_new_object_bases].
  set (child_restrict := child_restrict_of 0 master).
  destruct Hroot as [Hnil | (lcM & Hone & Hcol)].
  - rewrite Hnil. cbn [layer_collection_take layer_collection_add fst snd lc_id collection
                       lc_flag layer_collections lb_set].
    set (s1 := mkSyncState (S (ss_heap s)) (ss_view_layer s) (ss_new_object_bases s)).
    destruct (layer_collection_sync_accounts (children master) 0 child_restrict s1 [] Hnil)
      as (freed & [Hr1 Ha1 Hh1 Hf1 Hn1 Hc1]).
    change (ss_heap s1) with (S (ss_heap s)) in Hh1, Hn1.
    change (ss_view_layer s1) with (ss_view_layer s) in Ha1.
    set (sub := layer_collection_sync _ _ _ _ _) in *.
    destruct (layer_collection_sync_objects_tree 0 child_restrict (gobject master) sub.1)
      as [Hr2 Ha2].
    pose proof (layer_collection_sync_objects_heap 0 child_restrict (gobject master) sub.1)
      as Hh2.
    set (s2 := layer_collection_sync_objects _ _ _ _) in *.
    cbn [app ss_view_layer ss_heap active_collection set_layer_collections].
    exists freed. split; [| split; [| split; [| split; [| split]]]].
    + change (active_collection (set_layer_collections _ ?v)) with (active_collection v).
      rewrite Ha2. exact Ha1.
    + lia.
    + exact Hf1.
    + intros a Hin. rewrite layer_ids_cons, layer_ids_nil, app_nil_r in Hin.
      cbn [lc_id layer_collections] in Hin. right.
      apply elem_of_cons in Hin as [-> | Hin]; [lia |].
      destruct (Hn1 a Hin) as [[Hold _] | Hfresh]; [| lia].
      rewrite layer_ids_nil in Hold. apply elem_of_nil in Hold. contradiction.
    + intros _ a Hin. rewrite layer_ids_nil in Hin. apply elem_of_nil in Hin. contradiction.
    + intros _ _. rewrite layer_ids_cons, layer_ids_nil, app_nil_r.
      cbn [lc_id layer_collections]. apply NoDup_cons. split.
      * intros Hin. destruct (Hn1 _ Hin) as [[Hold _] | Hfresh]; [| lia].
        rewrite layer_ids_nil in Hold. apply elem_of_nil in Hold. contradiction.
      * apply (layer_collection_sync_distinct (children master) 0 child_restrict s1 [] Hnil).
        -- rewrite layer_ids_nil. constructor.
        -- intros a Hin. rewrite layer_ids_nil in Hin. apply elem_of_nil in Hin.
           contradiction.
  - rewrite Hone, (layer_collection_take_first _ _ _ Hcol).
    cbn [lb_set fst snd ss_view_layer ss_heap ss_new_object_bases].
    set (s1 := mkSyncState (ss_heap s) (set_layer_collections [] (ss_view_layer s))
                 (ss_new_object_bases s)).
    destruct (layer_collection_sync_accounts (children master) (lc_flag lcM) child_restrict s1
                (layer_collections lcM) eq_refl) as (freed & [Hr1 Ha1 Hh1 Hf1 Hn1 Hc1]).
    change (ss_heap s1) with (ss_heap s) in Hh1, Hn1.
    change (active_collection (ss_view_layer s1))
      with (active_collection (ss_view_layer s)) in Ha1.
    set (sub := layer_collection_sync _ _ _ _ _) in *.
    destruct (layer_collection_sync_objects_tree (lc_flag lcM) child_restrict (gobject master)
                sub.1) as [Hr2 Ha2].
    pose proof (layer_collection_sync_objects_heap (lc_flag lcM) child_restrict
                  (gobject master) sub.1) as Hh2.
    set (s2 := layer_collection_sync_objects _ _ _ _) in *.
    cbn [app ss_view_layer ss_heap].
    assert (Hold : layer_ids [lcM] = lc_id lcM :: layer_ids (layer_collections lcM)).
    { rewrite layer_ids_cons, layer_ids_nil, app_nil_r. reflexivity. }
    exists freed. split; [| split; [| split; [| split; [| split]]]].
    + change (active_collection (set_layer_collections _ ?v)) with (active_collection v).
      rewrite Ha2. exact Ha1.
    + lia.
    + intros a Hin. rewrite Hold. apply elem_of_cons. right. apply Hf1, Hin.
    + intros a Hin. rewrite layer_ids_cons, layer_ids_nil, app_nil_r in Hin.
      cbn [lc_id layer_collections] in Hin. rewrite Hold.
      apply elem_of_cons in Hin as [-> | Hin].
      * left. split; [apply elem_of_cons; left; reflexivity |].
        intros [Hid _]%NoDup_cons Hfreed. apply Hid, Hf1, Hfreed.
      * destruct (Hn1 a Hin) as [[Hin' Hkept] | Hfresh]; [left | right; lia].
        split; [apply elem_of_cons; right; exact Hin' |].
        intros [_ Hnd]%NoDup_cons. exact (Hkept Hnd).
    + intros Hdistinct a Hin. rewrite Hold in Hin.
      rewrite layer_ids_cons, layer_ids_nil, app_nil_r. cbn [lc_id layer_collections].
      destruct (distinct_siblings_split [] lcM [] Hdistinct) as (_ & Hd1 & _).
      apply elem_of_cons in Hin as [-> | Hin]; [right; apply elem_of_cons; left; reflexivity |].
      destruct (Hc1 Hd1 a Hin) as [Hfreed | Hnew]; [left; exact Hfreed |].
      right. apply elem_of_cons. right. exact Hnew.
    + rewrite Hold. intros [Hid Hnd]%NoDup_cons Hbound.
      rewrite layer_ids_cons, layer_ids_nil, app_nil_r. cbn [lc_id layer_collections].
      apply NoDup_cons. split.
      * intros Hin. destruct (Hn1 _ Hin) as [[Hin' _] | Hfresh]; [exact (Hid Hin') |].
        specialize (Hbound (lc_id lcM) ltac:(apply elem_of_cons; left; reflexivity)). lia.
      * apply (layer_collection_sync_distinct (children master) (lc_flag lcM) child_restrict
                 s1 (layer_collections lcM) eq_refl Hnd).
        intros a Hin. apply Hbound. apply elem_of_cons. right. exact Hin.
Qed.

(** The layer tree and the active collection of the rebuilt view layer are
    those the top-level call leaves. *)
Lemma layer_collection_sync_rebuild_tree master heap view_layer :
  let cleared :=
    set_object_bases
      (fmap (fun base => set_base_flag (Z.land (base_flag base) (Z.lnot BASE_SYNC_FLAGS)) base)
         (object_bases
            (view_layer_bases_hash_create (set_object_bases_array None view_layer))))
      (view_layer_bases_hash_create (set_object_bases_array None view_layer)) in
  let top := layer_collection_sync [master] (mkSyncState heap cleared []) lb_view_layer 0 0 in
  let r := layer_collection_sync_rebuild master heap view_layer in
  vl_layer_collections cleared = vl_layer_collections view_layer /\
  active_collection cleared = active_collection view_layer /\
  vl_layer_collections r.2 = top.2 /\
  active_collection r.2 = active_collection (ss_view_layer top.1) /\
  r.1 = ss_heap top.1.
Proof.
  cbn zeta. unfold layer_collection_sync_rebuild.
  destruct (view_layer_bases_hash_create_fields (set_object_bases_array None view_layer))
    as (_ & Hroots1 & Hactive1).
  set (v1 := view_layer_bases_hash_create (set_object_bases_array None view_layer)) in *.
  set (v2 := set_object_bases _ v1).
  pose proof (layer_collection_sync_view_layer [master] (mkSyncState heap v2 []) 0 0) as Hroots.
  cbn zeta in Hroots.
  destruct (layer_collection_sync [master] (mkSyncState heap v2 []) lb_view_layer 0 0)
    as [sF t]. cbn [fst snd] in *.
  destruct (layer_collection_sync_remove_bases (object_bases (ss_view_layer sF))
              (ss_view_layer sF)) as (Hlc & Hact & _).
  cbn zeta in *. cbn in *.
  rewrite Hlc, Hact. auto.
Qed.

Lemma layer_collection_sync_rebuild_mirrors master heap view_layer :
  mirrors [master]
    (vl_layer_collections (layer_collection_sync_rebuild master heap view_layer).2).
Proof.
  destruct (layer_collection_sync_rebuild_tree master heap view_layer)
    as (_ & _ & -> & _ & _).
  apply layer_collection_sync_mirrors.
Qed.





(** *** The rebuilt tree is well formed again *)

Lemma collection_tree_nodes_eq c :
  collection_tree_nodes c = c :: collection_nodes (children c).
Proof. destruct c. reflexivity. Qed.

#[local] Arguments collection_tree_nodes : simpl never.






(** ** The layer collections a sync keeps and adds *)

Lemma layer_collection_take_filter (found : LayerCollection -> bool) c l :
  (forall lc, collection lc = Some c -> found lc = true) ->
  layer_collection_take c (List.filter found l)
  = match layer_collection_take c l with
    | Some (lc, rest) => Some (lc, List.filter found rest)
    | None => None
    end.
Proof.
  intros Hfound. induction l as [| x l IH]; cbn; [reflexivity |].
  destruct (decide (collection x = Some c)) as [Heq | Hne].
  - rewrite (Hfound x Heq). cbn. rewrite decide_True by exact Heq. reflexivity.
  - destruct (found x) eqn:Hx; cbn.
    + rewrite decide_False by exact Hne. rewrite IH.
      destruct (layer_collection_take c l) as [[lc rest] |]; [| reflexivity].
      cbn. rewrite Hx. reflexivity.
    + rewrite IH. destruct (layer_collection_take c l) as [[lc rest] |]; [| reflexivity].
      cbn. rewrite Hx. reflexivity.
Qed.

(** The first loop leaves the nodes that point to a child of
    [lb_scene], in their order. *)
Lemma layer_collection_sync_prune_get lb_scene :
  forall rest view_layer lb_layer kept,
    lb_get view_layer lb_layer = kept ++ rest ->
    let pruned := layer_collection_sync_prune lb_scene view_layer lb_layer kept rest in
    lb_get pruned.1 pruned.2
    = kept ++ List.filter (fun lc => scene_child_find lb_scene (collection lc)) rest.
Proof.
  induction rest as [| lc rest IH]; intros view_layer lb_layer kept Hget; cbn zeta; cbn.
  - rewrite app_nil_r in *. exact Hget.
  - destruct (scene_child_find lb_scene (collection lc)) eqn:Hfound.
    + rewrite (IH view_layer lb_layer (kept ++ [lc])) by (rewrite <- app_assoc; exact Hget).
      rewrite <- app_assoc. reflexivity.
    + pose proof (lb_get_set (layer_collection_free view_layer lc) lb_layer (kept ++ rest))
        as Hset.
      destruct (lb_set (layer_collection_free view_layer lc) lb_layer (kept ++ rest))
        as [view_layer1 lb_layer1].
      apply IH. exact Hset.
Qed.

(** The lookup answers the first node of the list that points to the
    collection of [child], which leaves the list, or a new node with the
    flag word [parent_exclude]. *)
Lemma layer_collection_sync_lookup_get child s lb_layer parent_exclude :
  let found := layer_collection_sync_lookup child s lb_layer parent_exclude in
  match layer_collection_take (col_id child) (lb_get (ss_view_layer s) lb_layer) with
  | Some (lc, rest) => found.2 = lc /\ lb_get (ss_view_layer found.1.1) found.1.2 = rest
  | None =>
      found.2 = mkLayerCollection (ss_heap s) (Some (col_id child)) parent_exclude [] /\
      lb_get (ss_view_layer found.1.1) found.1.2 = lb_get (ss_view_layer s) lb_layer
  end.
Proof.
  cbn zeta. unfold layer_collection_sync_lookup.
  destruct (layer_collection_take _ _) as [[lc rest] |].
  - pose proof (lb_get_set (ss_view_layer s) lb_layer rest) as Hset.
    destruct (lb_set _ _ _) as [view_layer lb']. cbn in *. auto.
  - cbn. auto.
Qed.

(** From the second loop to the whole function. *)
Lemma layer_collection_sync_synced_from_loop lb_scene :
  (forall found parent_exclude parent_restrict s lb_layer new_lb_layer old,
     (forall child lc, child ∈ lb_scene -> collection lc = Some (col_id child) ->
        found lc = true) ->
     lb_get (ss_view_layer s) lb_layer = List.filter found old ->
     exists added,
       (layer_collection_sync_loop layer_collection_sync_child lb_scene
          (s, lb_layer, new_lb_layer) parent_exclude parent_restrict).2
       = new_lb_layer ++ added /\
       synced_nodes parent_exclude lb_scene old added) ->
  forall s lb_layer parent_exclude parent_restrict,
    synced_nodes parent_exclude lb_scene (lb_get (ss_view_layer s) lb_layer)
      (layer_collection_sync lb_scene s lb_layer parent_exclude parent_restrict).2.
Proof.
  intros Hloop s lb_layer parent_exclude parent_restrict.
  rewrite layer_collection_sync_eq. cbn zeta. cbn [snd].
  pose proof (layer_collection_sync_prune_get lb_scene (lb_get (ss_view_layer s) lb_layer)
                (ss_view_layer s) lb_layer [] eq_refl) as Hpruned.
  cbn zeta in Hpruned. cbn [app] in Hpruned.
  edestruct (Hloop (fun lc => scene_child_find lb_scene (collection lc)) parent_exclude
               parent_restrict
               (mkSyncState (ss_heap s)
                  (layer_collection_sync_prune lb_scene (ss_view_layer s) lb_layer []
                     (lb_get (ss_view_layer s) lb_layer)).1 (ss_new_object_bases s))
               (layer_collection_sync_prune lb_scene (ss_view_layer s) lb_layer []
                  (lb_get (ss_view_layer s) lb_layer)).2 [] (lb_get (ss_view_layer s) lb_layer))
    as (added & -> & Hsynced).
  - intros child lc Hchild Hcol. rewrite Hcol. cbn. apply bool_decide_eq_true.
    apply list_elem_of_fmap_2, Hchild.
  - exact Hpruned.
  - exact Hsynced.
Qed.

Lemma layer_collection_sync_loop_synced :
  forall lb_scene found parent_exclude parent_restrict s lb_layer new_lb_layer old,
    (forall child lc, child ∈ lb_scene -> collection lc = Some (col_id child) ->
       found lc = true) ->
    lb_get (ss_view_layer s) lb_layer = List.filter found old ->
    exists added,
      (layer_collection_sync_loop layer_collection_sync_child lb_scene
         (s, lb_layer, new_lb_layer) parent_exclude parent_restrict).2
      = new_lb_layer ++ added /\
      synced_nodes parent_exclude lb_scene old added.
Proof.
  refine (proj2 (Collection_tree_ind
    (fun child =>
       forall (found : LayerCollection -> bool) parent_exclude parent_restrict s lb_layer
              new_lb_layer old,
         (forall lc, collection lc = Some (col_id child) -> found lc = true) ->
         lb_get (ss_view_layer s) lb_layer = List.filter found old ->
         let st := layer_collection_sync_child child (s, lb_layer, new_lb_layer)
                     parent_exclude parent_restrict in
         exists lc',
           st.2 = new_lb_layer ++ [lc'] /\ collection lc' = Some (col_id child) /\
           match layer_collection_take (col_id child) old with
           | Some (lc, rest) =>
               lc_id lc' = lc_id lc /\ lc_flag lc' = lc_flag lc /\
               synced_nodes (lc_flag lc) (children child) (layer_collections lc)
                 (layer_collections lc') /\
               lb_get (ss_view_layer st.1.1) st.1.2 = List.filter found rest
           | None =>
               lc_flag lc' = parent_exclude /\
               synced_nodes parent_exclude (children child) [] (layer_collections lc') /\
               lb_get (ss_view_layer st.1.1) st.1.2 = List.filter found old
           end)
    (fun lb_scene =>
       forall (found : LayerCollection -> bool) parent_exclude parent_restrict s lb_layer
              new_lb_layer old,
         (forall child lc, child ∈ lb_scene -> collection lc = Some (col_id child) ->
            found lc = true) ->
         lb_get (ss_view_layer s) lb_layer = List.filter found old ->
         exists added,
           (layer_collection_sync_loop layer_collection_sync_child lb_scene
              (s, lb_layer, new_lb_layer) parent_exclude parent_restrict).2
           = new_lb_layer ++ added /\
           synced_nodes parent_exclude lb_scene old added) _ _ _)).
  - intros child IH found parent_exclude parent_restrict s lb_layer new_lb_layer old
      Hfound Hget. cbn zeta.
    rewrite layer_collection_sync_child_eq. cbn zeta. cbn [fst snd].
    pose proof (layer_collection_sync_lookup_get child s lb_layer parent_exclude) as Hlookup.
    cbn zeta in Hlookup.
    rewrite Hget, (layer_collection_take_filter found _ _ Hfound) in Hlookup.
    set (looked := layer_collection_sync_lookup child s lb_layer parent_exclude) in *.
    set (child_restrict := child_restrict_of parent_restrict child).
    pose proof (layer_collection_sync_synced_from_loop (children child) IH looked.1.1
                  (lb_local (layer_collections looked.2)) (lc_flag looked.2) child_restrict)
      as Hsub.
    pose proof (layer_collection_sync_local (children child) looked.1.1
                  (layer_collections looked.2) (lc_flag looked.2) child_restrict) as Hroots.
    set (sub := layer_collection_sync _ _ _ _ _) in *.
    destruct (layer_collection_sync_objects_tree (lc_flag looked.2) child_restrict
                (gobject child) sub.1) as [Hroots' _].
    assert (Hkept : lb_get (ss_view_layer
                              (layer_collection_sync_objects (lc_flag looked.2) child_restrict
                                 (gobject child) sub.1)) looked.1.2
                    = lb_get (ss_view_layer looked.1.1) looked.1.2).
    { apply lb_get_roots. rewrite Hroots'. exact Hroots. }
    eexists. split; [reflexivity |]. cbn [collection lc_id lc_flag layer_collections].
    split; [apply layer_collection_sync_lookup_collection |].
    cbn [lb_get] in Hsub.
    destruct (layer_collection_take (col_id child) old) as [[lc rest] |].
    + destruct Hlookup as [Hlc Hrest]. rewrite Hkept, Hrest.
      rewrite Hlc in Hsub |- *. auto.
    + destruct Hlookup as [Hlc Hrest]. rewrite Hkept, Hrest.
      rewrite Hlc in Hsub |- *. cbn in Hsub |- *. auto.
  - intros found parent_exclude parent_restrict s lb_layer new_lb_layer old _ _.
    exists []. cbn. rewrite app_nil_r. split; [reflexivity | constructor].
  - intros child lb_scene Hchild Hrest found parent_exclude parent_restrict s lb_layer
      new_lb_layer old Hfound Hget.
    cbn [layer_collection_sync_loop].
    destruct (Hchild found parent_exclude parent_restrict s lb_layer new_lb_layer old)
      as (lc' & Hnew & Hcol & Hnode).
    { intros lc. apply Hfound. apply elem_of_cons. left. reflexivity. }
    { exact Hget. }
    cbn zeta in *.
    destruct (layer_collection_sync_child _ _ _ _) as [[s1 lb1] new1]. cbn [fst snd] in *.
    subst new1.
    assert (Hfound' : forall child' lc, child' ∈ lb_scene ->
                        collection lc = Some (col_id child') -> found lc = true).
    { intros child' lc Hin. apply Hfound. apply elem_of_cons. right. exact Hin. }
    pose proof (layer_collection_take_spec (col_id child) old) as Htake.
    destruct (layer_collection_take (col_id child) old) as [[lc rest] |].
    + destruct Hnode as (Hid & Hflag & Hsub & Hget1).
      destruct Htake as (before & after & Hold & -> & Hlc & Hbefore).
      destruct (Hrest found parent_exclude parent_restrict s1 lb1 (new_lb_layer ++ [lc'])
                  (before ++ after) Hfound' Hget1) as (added & Hadded & Hsynced).
      exists (lc' :: added). rewrite Hadded, <- app_assoc. split; [reflexivity |].
      eapply synced_nodes_kept; eassumption.
    + destruct Hnode as (Hflag & Hsub & Hget1).
      destruct (Hrest found parent_exclude parent_restrict s1 lb1 (new_lb_layer ++ [lc'])
                  old Hfound' Hget1) as (added & Hadded & Hsynced).
      exists (lc' :: added). rewrite Hadded, <- app_assoc. split; [reflexivity |].
      apply synced_nodes_added; assumption.
Qed.

(** Whatever the old layer list was, the nodes of the list
    [layer_collection_sync] returns are the old nodes of the collections,
    with their flag words, and new nodes with the flag word of the node
    above. *)
Lemma layer_collection_sync_synced lb_scene s lb_layer parent_exclude parent_restrict :
  synced_nodes parent_exclude lb_scene (lb_get (ss_view_layer s) lb_layer)
    (layer_collection_sync lb_scene s lb_layer parent_exclude parent_restrict).2.
Proof.
  apply layer_collection_sync_synced_from_loop.
  apply layer_collection_sync_loop_synced.
Qed.

(** C4 (amended): after a sync, a layer collection of the view layer is
    the layer collection its collection had at that place before the sync,
    with the flag word it had, whatever the flag words of the nodes above it
    are, or, when the collection had none there, a new layer collection that
    starts with the flag word of the node above it (zero at the root): it
    carries [LAYER_COLLECTION_EXCLUDE] exactly when the node above does.  An
    object has a base after the sync exactly when a path ends in a layer
    collection that is not excluded, the paths going on below every node,
    excluded or not; so the objects of an excluded node get no base through
    that node, and the objects below it are synced by the flag words of their
    own nodes.  In particular, when every collection has its layer
    collection already, the sync leaves the layer tree as it is, flag words
    included.  The four evaluated bits of every base are the union of what
    these paths grant: no bit is written for a visit through an excluded
    node. *)
Theorem excluded_collection_skips_own_objects_only (scene : Scene) (master : Collection)
  (heap heap' : nat) (view_layer view_layer' : ViewLayer) :
  master_collection scene = Some master ->
  bases_consistent heap view_layer ->
  BKE_layer_collection_sync scene heap view_layer = Some (heap', view_layer') ->
  let paths := layer_paths [master] (vl_layer_collections view_layer') [] in
  synced_nodes 0 [master] (vl_layer_collections view_layer)
    (vl_layer_collections view_layer') /\
  (mirrors [master] (vl_layer_collections view_layer) ->
   vl_layer_collections view_layer' = vl_layer_collections view_layer) /\
  (forall ob, ob ∈ object <$> object_bases view_layer' <-> ob ∈ paths.*1) /\
  (forall base, base ∈ object_bases view_layer' ->
     Z.land (base_flag base) BASE_SYNC_FLAGS = paths_grant paths (object base)).
Proof.
  intros Hmaster Hcons Hsync paths.
  destruct (BKE_layer_collection_sync_rebuilt _ _ _ _ _ _ Hmaster Hsync) as (_ & _ & Hv).
  pose proof (layer_collection_sync_rebuild_spec master heap view_layer Hcons)
    as (_ & _ & _ & Horigin & _).
  pose proof (layer_collection_sync_rebuild_tree master heap view_layer)
    as (Hold & _ & Hnew & _).
  cbn zeta in *.
  set (r := layer_collection_sync_rebuild master heap view_layer) in *.
  assert (Hlc : vl_layer_collections view_layer' = vl_layer_collections r.2)
    by (rewrite Hv; reflexivity).
  assert (Hbases : object_bases view_layer' = object_bases r.2)
    by (rewrite Hv; reflexivity).
  split; [| split; [| split]].
  - rewrite Hlc, Hnew, <- Hold.
    match goal with
    | |- synced_nodes _ _ _ (layer_collection_sync _ ?s _ _ _).2 =>
        exact (layer_collection_sync_synced [master] s lb_view_layer 0 0)
    end.
  - intros Hmirror. rewrite Hlc, Hnew, <- Hold.
    match goal with
    | |- (layer_collection_sync _ ?s _ _ _).2 = _ =>
        apply (layer_collection_sync_again [master] s lb_view_layer 0 0)
    end.
    cbn [lb_get ss_view_layer]. rewrite Hold. exact Hmirror.
  - apply (sync_bases_are_path_objects scene master heap view_layer heap' view_layer');
      assumption.
  - intros base Hbase. subst paths. rewrite Hlc. rewrite Hbases in Hbase.
    destruct (Horigin base Hbase) as [(base0 & _ & ->) | (_ & _ & Hflag)]; cbn.
    + rewrite lor_land_distr_0 by apply land_lnot_cleared.
      rewrite paths_grant_visits. apply visits_grant_in_sync_flags.
    + rewrite Hflag, paths_grant_visits. apply visits_grant_in_sync_flags.
Qed.

End LayerProperties.

(** * Properties of the lookups, the selection, the traversals and the evaluation *)

Section LayerQueriesProperties.
Context {flags : DNA_flags}.

(** ** Layer collections by index *)

Lemma collection_from_index_nested_eq lc number i :
  collection_from_index_nested lc number i
  = collection_from_index (layer_collections lc) number i.
Proof. destruct lc. reflexivity. Qed.

Lemma index_from_collection_nested_eq lcol lc i :
  index_from_collection_nested lcol lc i
  = index_from_collection (layer_collections lcol) lc i.
Proof. destruct lcol. reflexivity. Qed.

Lemma collection_count_nested_eq lc :
  collection_count_nested lc = collection_count (layer_collections lc).
Proof. destruct lc. reflexivity. Qed.

Lemma find_scene_collection_nested_eq lcn lc :
  find_scene_collection_nested lcn lc
  = find_scene_collection_in_scene_collections (layer_collections lcn) lc.
Proof. destruct lcn. reflexivity. Qed.

Lemma layer_nodes_first lc l :
  layer_nodes (lc :: l) = lc :: layer_nodes (layer_collections lc) ++ layer_nodes l.
Proof. rewrite layer_nodes_cons, layer_tree_nodes_eq. reflexivity. Qed.

#[local] Arguments collection_from_index_nested : simpl never.
#[local] Arguments index_from_collection_nested : simpl never.
#[local] Arguments collection_count_nested : simpl never.
#[local] Arguments find_scene_collection_nested : simpl never.
#[local] Arguments layer_tree_nodes : simpl never.

(** The count is the number of nodes of the trees. *)
Lemma collection_count_nodes lb :
  collection_count lb = Z.of_nat (length (layer_nodes lb)).
Proof.
  assert (Hacc : forall acc,
    fold_left (fun i lc => i + (collection_count_nested lc + 1)) lb acc
    = acc + Z.of_nat (length (layer_nodes lb))); [| apply (Hacc 0)].
  revert lb. refine (proj2 (LayerCollection_tree_ind
    (fun lc => collection_count_nested lc
               = Z.of_nat (length (layer_nodes (layer_collections lc))))
    (fun lb => forall acc,
       fold_left (fun i lc => i + (collection_count_nested lc + 1)) lb acc
       = acc + Z.of_nat (length (layer_nodes lb))) _ _ _)).
  - intros lc IH. rewrite collection_count_nested_eq. apply (IH 0).
  - intros acc. cbn. lia.
  - intros lc l Hlc Hl acc. cbn [fold_left]. rewrite Hl, Hlc, layer_nodes_first.
    cbn [length]. rewrite length_app. lia.
Qed.

(** Before the counter reaches [number] the search walks the nodes parents
    first and stops at the node whose position is the distance left. *)
Lemma collection_from_index_at lb (k : nat) i :
  collection_from_index lb (i + Z.of_nat k) i
  = match layer_nodes lb !! k with
    | Some lc => (i + Z.of_nat k, Some lc)
    | None => (i + Z.of_nat (length (layer_nodes lb)), None)
    end.
Proof.
  revert lb k i. refine (proj2 (LayerCollection_tree_ind
    (fun lc => forall (k : nat) i,
       collection_from_index_nested lc (i + Z.of_nat k) i
       = match layer_nodes (layer_collections lc) !! k with
         | Some lc => (i + Z.of_nat k, Some lc)
         | None => (i + Z.of_nat (length (layer_nodes (layer_collections lc))), None)
         end)
    (fun lb => forall (k : nat) i,
       collection_from_index lb (i + Z.of_nat k) i
       = match layer_nodes lb !! k with
         | Some lc => (i + Z.of_nat k, Some lc)
         | None => (i + Z.of_nat (length (layer_nodes lb)), None)
         end) _ _ _)).
  - intros lc IH k i. rewrite collection_from_index_nested_eq. apply IH.
  - intros k i. cbn. f_equal. lia.
  - intros lc l Hlc Hl k i. unfold collection_from_index in *.
    cbn [collection_from_index_loop]. rewrite layer_nodes_first.
    destruct k as [| k].
    + rewrite Z.add_0_r, Z.eqb_refl. reflexivity.
    + destruct (Z.eqb_spec i (i + Z.of_nat (S k))) as [Heq | _]; [lia |].
      change ((lc :: ?x) !! S k) with (x !! k). cbn zeta.
      replace (i + Z.of_nat (S k)) with (i + 1 + Z.of_nat k) by lia.
      rewrite Hlc.
      destruct (layer_nodes (layer_collections lc) !! k) as [found |] eqn:Hk.
      * rewrite (lookup_app_l_Some _ _ _ _ Hk). reflexivity.
      * apply lookup_ge_None in Hk.
        rewrite lookup_app_r by exact Hk.
        set (n := length (layer_nodes (layer_collections lc))) in *.
        replace (i + 1 + Z.of_nat k)
          with (i + 1 + Z.of_nat n + Z.of_nat (k - n)) by lia.
        rewrite Hl. cbn [length]. rewrite length_app. fold n.
        destruct (layer_nodes l !! (k - n)%nat); f_equal; lia.
Qed.

(** Once the counter is past [number] the search finds nothing. *)
Lemma collection_from_index_past lb number i :
  number < i ->
  collection_from_index lb number i = (i + Z.of_nat (length (layer_nodes lb)), None).
Proof.
  revert lb i. refine (proj2 (LayerCollection_tree_ind
    (fun lc => forall i, number < i ->
       collection_from_index_nested lc number i
       = (i + Z.of_nat (length (layer_nodes (layer_collections lc))), None))
    (fun lb => forall i, number < i ->
       collection_from_index lb number i
       = (i + Z.of_nat (length (layer_nodes lb)), None)) _ _ _)).
  - intros lc IH i Hi. rewrite collection_from_index_nested_eq. apply IH, Hi.
  - intros i _. cbn. f_equal. lia.
  - intros lc l Hlc Hl i Hi. unfold collection_from_index in *.
    cbn [collection_from_index_loop]. rewrite layer_nodes_first.
    destruct (Z.eqb_spec i number) as [Heq | _]; [lia |]. cbn zeta.
    rewrite Hlc by lia. rewrite Hl by lia. cbn [length]. rewrite length_app.
    f_equal. lia.
Qed.

Lemma BKE_layer_collection_from_index_nodes view_layer index :
  BKE_layer_collection_from_index view_layer index
  = if decide (0 <= index)
    then layer_nodes (vl_layer_collections view_layer) !! Z.to_nat index
    else None.
Proof.
  unfold BKE_layer_collection_from_index. cbn zeta.
  destruct (decide (0 <= index)) as [Hpos | Hneg].
  - replace index with (0 + Z.of_nat (Z.to_nat index)) at 1 by lia.
    rewrite collection_from_index_at.
    destruct (_ !! _); reflexivity.
  - rewrite collection_from_index_past by lia. reflexivity.
Qed.

(** [BKE_layer_collection_from_index] numbers the nodes of the layer tree
    from zero, parents before their children and siblings in list order:
    the index designates the node at that position of the depth-first walk.
    It answers a node exactly for the indices from zero up to, and not
    including, [BKE_layer_collection_count]; a negative or too large index
    gives [NULL]. *)
Theorem layer_collection_from_index_in_range (view_layer : ViewLayer) (index : Z) :
  BKE_layer_collection_from_index view_layer index
  = (if decide (0 <= index)
     then layer_nodes (vl_layer_collections view_layer) !! Z.to_nat index
     else None) /\
  (is_Some (BKE_layer_collection_from_index view_layer index) <->
   0 <= index < BKE_layer_collection_count view_layer).
Proof.
  split; [apply BKE_layer_collection_from_index_nodes |].
  rewrite BKE_layer_collection_from_index_nodes.
  unfold BKE_layer_collection_count. rewrite collection_count_nodes.
  destruct (decide (0 <= index)) as [Hpos | Hneg].
  - rewrite lookup_lt_is_Some. lia.
  - split; [intros [x Hx]; discriminate | lia].
Qed.

(** A position found from a counter that is not negative lies in the
    range of the list. *)
Lemma BLI_findindex_from_range {A : Type} (addr : A -> nat) (l : list A) (p : nat)
  (number : Z) :
  BLI_findindex_from addr number l p = -1 /\ (p ∉ addr <$> l) \/
  number <= BLI_findindex_from addr number l p < number + Z.of_nat (length l) /\
  (p ∈ addr <$> l).
Proof.
  destruct (decide (p ∈ addr <$> l)) as [Hin | Hout].
  - right. split; [| exact Hin].
    destruct (BLI_findindex_from_present addr l p number Hin)
      as (l1 & x & l2 & -> & _ & _ & -> & _).
    rewrite length_app. cbn. lia.
  - left. split; [| exact Hout]. apply BLI_findindex_from_absent, Hout.
Qed.

Lemma BLI_findindex_from_app {A : Type} (addr : A -> nat) (l1 l2 : list A) (p : nat)
  (number : Z) :
  BLI_findindex_from addr number (l1 ++ l2) p
  = if bool_decide (p ∈ addr <$> l1) then BLI_findindex_from addr number l1 p
    else BLI_findindex_from addr (number + Z.of_nat (length l1)) l2 p.
Proof.
  revert number. induction l1 as [| x l1 IH]; intros number.
  - cbn. rewrite bool_decide_false by apply not_elem_of_nil. f_equal. lia.
  - cbn. destruct (decide (addr x = p)) as [Heq | Hne].
    + rewrite bool_decide_true by (apply elem_of_cons; left; congruence). reflexivity.
    + rewrite IH. destruct (decide (p ∈ addr <$> l1)) as [Hin | Hout].
      * rewrite !bool_decide_true; [reflexivity | | exact Hin].
        apply elem_of_cons. right. exact Hin.
      * rewrite !bool_decide_false; [f_equal; lia | | exact Hout].
        intros Hin. apply elem_of_cons in Hin as [Hin | Hin]; [congruence | auto].
Qed.

(** The index of a node is its first position in the depth-first walk,
    counted from the counter the search starts with. *)
Lemma index_from_collection_nodes lb a i :
  0 <= i ->
  index_from_collection lb a i
  = (if bool_decide (a ∈ layer_ids lb) then BLI_findindex_from lc_id i (layer_nodes lb) a
     else i + Z.of_nat (length (layer_nodes lb)),
     BLI_findindex_from lc_id i (layer_nodes lb) a).
Proof.
  revert lb i. refine (proj2 (LayerCollection_tree_ind
    (fun lc => forall i, 0 <= i ->
       index_from_collection_nested lc a i
       = (if bool_decide (a ∈ layer_ids (layer_collections lc))
          then BLI_findindex_from lc_id i (layer_nodes (layer_collections lc)) a
          else i + Z.of_nat (length (layer_nodes (layer_collections lc))),
          BLI_findindex_from lc_id i (layer_nodes (layer_collections lc)) a))
    (fun lb => forall i, 0 <= i ->
       index_from_collection lb a i
       = (if bool_decide (a ∈ layer_ids lb)
          then BLI_findindex_from lc_id i (layer_nodes lb) a
          else i + Z.of_nat (length (layer_nodes lb)),
          BLI_findindex_from lc_id i (layer_nodes lb) a)) _ _ _)).
  - intros lc IH i Hi. rewrite index_from_collection_nested_eq. apply IH, Hi.
  - intros i _. cbn. rewrite bool_decide_false by apply not_elem_of_nil.
    f_equal. lia.
  - intros lc l Hlc Hl i Hi. unfold index_from_collection in *.
    cbn [index_from_collection_loop]. unfold layer_ids in *. rewrite layer_nodes_first.
    cbn [BLI_findindex_from]. rewrite fmap_cons.
    destruct (decide (lc_id lc = a)) as [Heq | Hne].
    + rewrite bool_decide_true by (apply elem_of_cons; left; congruence). reflexivity.
    + cbn zeta. rewrite Hlc by lia. rewrite BLI_findindex_from_app, fmap_app.
      set (nc := layer_nodes (layer_collections lc)) in *.
      destruct (BLI_findindex_from_range lc_id nc a (i + 1)) as [[Hidx Hout] | [Hidx Hin]].
      * rewrite !(bool_decide_false _ Hout). rewrite Hidx. cbn [negb Z.eqb].
        rewrite Hl by lia. cbn [length]. rewrite length_app.
        destruct (decide (a ∈ lc_id <$> layer_nodes l)) as [Hin2 | Hout2].
        -- rewrite !bool_decide_true; [reflexivity | | exact Hin2].
           apply elem_of_cons. right. apply elem_of_app. right. exact Hin2.
        -- rewrite !bool_decide_false; [f_equal; lia | | exact Hout2].
           intros Hin. apply elem_of_cons in Hin as [Hin | Hin]; [congruence |].
           apply elem_of_app in Hin as [Hin | Hin]; contradiction.
      * rewrite !(bool_decide_true _ Hin).
        destruct (Z.eqb_spec (BLI_findindex_from lc_id (i + 1) nc a) (-1)) as [Hm | _];
          [lia |].
        cbn [negb]. rewrite bool_decide_true; [reflexivity |].
        apply elem_of_cons. right. apply elem_of_app. left. exact Hin.
Qed.

Lemma BKE_layer_collection_findindex_nodes view_layer a :
  BKE_layer_collection_findindex view_layer a
  = BLI_findindex lc_id (layer_nodes (vl_layer_collections view_layer)) a.
Proof.
  unfold BKE_layer_collection_findindex. cbn zeta.
  rewrite index_from_collection_nodes by lia. reflexivity.
Qed.

(** [BKE_layer_collection_findindex] answers [-1] exactly for an address
    that no node of the layer tree of the view layer has. *)
Theorem layer_collection_findindex_absent (view_layer : ViewLayer) (lc : nat) :
  BKE_layer_collection_findindex view_layer lc = -1 <->
  lc ∉ layer_ids (vl_layer_collections view_layer).
Proof.
  rewrite BKE_layer_collection_findindex_nodes. unfold BLI_findindex, layer_ids.
  destruct (BLI_findindex_from_range lc_id (layer_nodes (vl_layer_collections view_layer))
              lc 0) as [[Hidx Hout] | [Hidx Hin]].
  - tauto.
  - split; [lia | contradiction].
Qed.

(** The index [BKE_layer_collection_findindex] gives for the address of a
    node of the layer tree is in the range of
    [BKE_layer_collection_count], and [BKE_layer_collection_from_index]
    gives a node at that address back for it. *)
Theorem layer_collection_findindex_from_index (view_layer : ViewLayer) (lc : nat) :
  lc ∈ layer_ids (vl_layer_collections view_layer) ->
  let index := BKE_layer_collection_findindex view_layer lc in
  0 <= index < BKE_layer_collection_count view_layer /\
  exists node,
    BKE_layer_collection_from_index view_layer index = Some node /\ lc_id node = lc.
Proof.
  intros Hin. cbn zeta.
  rewrite BKE_layer_collection_findindex_nodes, BKE_layer_collection_from_index_nodes.
  unfold BKE_layer_collection_count. rewrite collection_count_nodes.
  unfold BLI_findindex, layer_ids in *.
  destruct (BLI_findindex_from_present lc_id _ lc 0 Hin)
    as (l1 & node & l2 & Hsplit & Hnode & _ & Hidx & _).
  rewrite Hidx, Hsplit, length_app. cbn [length]. split; [lia |].
  exists node. split; [| exact Hnode].
  rewrite decide_True by lia.
  replace (Z.to_nat (0 + Z.of_nat (length l1))) with (length l1 + 0)%nat by lia.
  rewrite lookup_app_r by lia. replace (length l1 + 0 - length l1)%nat with 0%nat by lia.
  reflexivity.
Qed.

(** In a layer tree whose nodes have distinct addresses,
    [BKE_layer_collection_findindex] gives the index back for the node
    that [BKE_layer_collection_from_index] answers for it. *)
Theorem layer_collection_from_index_findindex (view_layer : ViewLayer) (index : Z)
  (node : LayerCollection) :
  NoDup (layer_ids (vl_layer_collections view_layer)) ->
  BKE_layer_collection_from_index view_layer index = Some node ->
  BKE_layer_collection_findindex view_layer (lc_id node) = index.
Proof.
  intros Hnd. rewrite BKE_layer_collection_findindex_nodes,
    BKE_layer_collection_from_index_nodes.
  destruct (decide (0 <= index)) as [Hpos | Hneg]; [| discriminate].
  intros Hnode. unfold layer_ids in Hnd.
  set (nodes := layer_nodes (vl_layer_collections view_layer)) in *.
  pose proof (take_drop_middle _ _ _ Hnode) as Hsplit. rewrite <- Hsplit in Hnd.
  rewrite <- Hsplit at 1. clear Hsplit.
  unfold BLI_findindex. rewrite BLI_findindex_from_at; [| reflexivity |].
  - rewrite length_take. apply lookup_lt_Some in Hnode. lia.
  - rewrite fmap_app, fmap_cons in Hnd. apply NoDup_app in Hnd as (_ & Hdisj & _).
    intros Hin. apply (Hdisj _ Hin). apply elem_of_cons. left. reflexivity.
Qed.

(** ** The layer tree after a sync *)

Lemma collection_nodes_first c l :
  collection_nodes (c :: l) = c :: collection_nodes (children c) ++ collection_nodes l.
Proof.
  unfold collection_nodes at 1.
  rewrite (fmap_cons collection_tree_nodes), concat_cons, collection_tree_nodes_eq.
  reflexivity.
Qed.

(** The depth-first walks of a layer list and of the scene list it
    mirrors go over corresponding nodes. *)
Lemma mirrors_preorder lb_scene lb_layer :
  mirrors lb_scene lb_layer ->
  collection <$> layer_nodes lb_layer = Some <$> (col_id <$> collection_nodes lb_scene).
Proof.
  induction 1 as [| child lc lb_scene lb_layer Hcol Hsub IHsub Hrest IHrest]; [reflexivity |].
  rewrite layer_nodes_first, collection_nodes_first.
  rewrite !fmap_cons, !fmap_app, Hcol, IHsub, IHrest. reflexivity.
Qed.

(** After a sync [BKE_layer_collection_count] is the number of
    collections of the tree below the master collection of the scene, a
    collection linked under several parents counted once under each. *)
Theorem sync_layer_collection_count (scene : Scene) (master : Collection)
  (heap heap' : nat) (view_layer view_layer' : ViewLayer) :
  master_collection scene = Some master ->
  BKE_layer_collection_sync scene heap view_layer = Some (heap', view_layer') ->
  BKE_layer_collection_count view_layer'
  = Z.of_nat (length (collection_nodes [master])).
Proof.
  intros Hmaster Hsync.
  destruct (BKE_layer_collection_sync_rebuilt _ _ _ _ _ _ Hmaster Hsync) as (_ & _ & Hv).
  pose proof (layer_collection_sync_rebuild_mirrors master heap view_layer) as Hmirror.
  unfold BKE_layer_collection_count. rewrite collection_count_nodes, Hv.
  change (vl_layer_collections (set_active_collection _ ?v)) with (vl_layer_collections v).
  apply mirrors_preorder in Hmirror.
  apply (f_equal length) in Hmirror. rewrite !length_fmap in Hmirror.
  rewrite Hmirror. reflexivity.
Qed.

(** A collection that no node points to is not found. *)
Lemma find_layer_collection_by_scene_collection_none c :
  forall l,
    first_found (fun lc => find_layer_collection_by_scene_collection lc c) l = None ->
    Some c ∉ collection <$> layer_nodes l.
Proof.
  refine (proj2 (LayerCollection_tree_ind
    (fun lc => find_layer_collection_by_scene_collection lc c = None ->
       Some c ∉ collection <$> layer_tree_nodes lc)
    (fun l =>
       first_found (fun lc => find_layer_collection_by_scene_collection lc c) l = None ->
       Some c ∉ collection <$> layer_nodes l) _ _ _)).
  - intros lc IH.
    rewrite find_layer_collection_by_scene_collection_eq, layer_tree_nodes_eq, fmap_cons.
    destruct (decide (collection lc = Some c)) as [Heq | Hne]; [discriminate |].
    intros Hnone Hin. apply elem_of_cons in Hin as [Hin | Hin]; [congruence |].
    exact (IH Hnone Hin).
  - intros _. apply not_elem_of_nil.
  - intros lc l Hlc Hl. cbn [first_found]. rewrite layer_nodes_cons, fmap_app.
    destruct (find_layer_collection_by_scene_collection lc c) as [y |] eqn:Hfind;
      [discriminate |].
    intros Hnone Hin. apply elem_of_app in Hin as [Hin | Hin]; [exact (Hlc eq_refl Hin) |].
    exact (Hl Hnone Hin).
Qed.

Lemma BKE_view_layer_has_collection_nodes view_layer c :
  BKE_view_layer_has_collection view_layer c = true <->
  Some c ∈ collection <$> layer_nodes (vl_layer_collections view_layer).
Proof.
  unfold BKE_view_layer_has_collection, BKE_layer_collection_first_from_scene_collection.
  destruct (first_found _ _) as [x |] eqn:Hfound.
  - apply find_layer_collection_by_scene_collection_found in Hfound as [Hin Hcol].
    split; [intros _ | reflexivity]. rewrite <- Hcol. apply list_elem_of_fmap_2, Hin.
  - apply find_layer_collection_by_scene_collection_none in Hfound.
    split; [discriminate | contradiction].
Qed.

(** After a sync [BKE_view_layer_has_collection] answers true exactly for
    the collections of the tree below the master collection of the scene:
    every collection of the scene has a layer collection in the view layer,
    and no layer collection is left for any other collection. *)
Theorem sync_has_every_collection (scene : Scene) (master : Collection)
  (heap heap' : nat) (view_layer view_layer' : ViewLayer) (collection_ : nat) :
  master_collection scene = Some master ->
  BKE_layer_collection_sync scene heap view_layer = Some (heap', view_layer') ->
  BKE_view_layer_has_collection view_layer' collection_ = true <->
  collection_ ∈ col_id <$> collection_nodes [master].
Proof.
  intros Hmaster Hsync.
  destruct (BKE_layer_collection_sync_rebuilt _ _ _ _ _ _ Hmaster Hsync) as (_ & _ & Hv).
  pose proof (layer_collection_sync_rebuild_mirrors master heap view_layer) as Hmirror.
  rewrite BKE_view_layer_has_collection_nodes, Hv.
  change (vl_layer_collections (set_active_collection _ ?v)) with (vl_layer_collections v).
  rewrite (mirrors_preorder _ _ Hmirror). split.
  - intros Hin. apply list_elem_of_fmap in Hin as (c & [= ->] & Hc). exact Hc.
  - intros Hin. apply list_elem_of_fmap_2. exact Hin.
Qed.

(** ** The view layer of a node, of an override set and of a property *)

Lemma find_scene_collection_in_scene_collections_ids a :
  forall lb, find_scene_collection_in_scene_collections lb a = bool_decide (a ∈ layer_ids lb).
Proof.
  refine (proj2 (LayerCollection_tree_ind
    (fun lcn => find_scene_collection_nested lcn a
                = bool_decide (a ∈ layer_ids (layer_collections lcn)))
    (fun lb => find_scene_collection_in_scene_collections lb a
               = bool_decide (a ∈ layer_ids lb)) _ _ _)).
  - intros lcn IH. rewrite find_scene_collection_nested_eq. exact IH.
  - cbn. rewrite bool_decide_false by apply not_elem_of_nil. reflexivity.
  - intros lcn l Hlcn Hl. unfold find_scene_collection_in_scene_collections in *.
    cbn [find_scene_collection_loop]. rewrite layer_ids_cons.
    destruct (decide (lc_id lcn = a)) as [Heq | Hne].
    + rewrite bool_decide_true by (apply elem_of_cons; left; congruence). reflexivity.
    + rewrite Hlcn, Hl.
      destruct (decide (a ∈ layer_ids (layer_collections lcn))) as [Hin | Hout].
      * rewrite !bool_decide_true; [reflexivity | | exact Hin].
        apply elem_of_cons. right. apply elem_of_app. left. exact Hin.
      * rewrite (bool_decide_false _ Hout).
        destruct (decide (a ∈ layer_ids l)) as [Hin2 | Hout2].
        -- rewrite !bool_decide_true; [reflexivity | | exact Hin2].
           apply elem_of_cons. right. apply elem_of_app. right. exact Hin2.
        -- rewrite !bool_decide_false; [reflexivity | | exact Hout2].
           intros Hin. apply elem_of_cons in Hin as [Hin | Hin]; [congruence |].
           apply elem_of_app in Hin as [Hin | Hin]; contradiction.
Qed.

(** The early return of a search loop: the first element that passes the
    test, or none when no element passes. *)
Lemma find_first {A : Type} (f : A -> bool) (l : list A) :
  match List.find f l with
  | Some x =>
      exists before after,
        l = before ++ x :: after /\ f x = true /\ (forall y, y ∈ before -> f y = false)
  | None => forall y, y ∈ l -> f y = false
  end.
Proof.
  induction l as [| x l IH]; cbn.
  - intros y Hy. apply elem_of_nil in Hy. contradiction.
  - destruct (f x) eqn:Hx.
    + exists [], l. split; [reflexivity |]. split; [exact Hx |].
      intros y Hy. apply elem_of_nil in Hy. contradiction.
    + destruct (List.find f l) as [z |].
      * destruct IH as (before & after & -> & Hz & Hbefore).
        exists (x :: before), after. split; [reflexivity |]. split; [exact Hz |].
        intros y Hy. apply elem_of_cons in Hy as [-> | Hy]; auto.
      * intros y Hy. apply elem_of_cons in Hy as [-> | Hy]; auto.
Qed.

Lemma BLI_findindex_found {A : Type} (addr : A -> nat) (l : list A) (p : nat) :
  negb (BLI_findindex addr l p =? -1) = bool_decide (p ∈ addr <$> l).
Proof.
  unfold BLI_findindex.
  destruct (BLI_findindex_from_range addr l p 0) as [[Hidx Hout] | [Hidx Hin]].
  - rewrite Hidx, (bool_decide_false _ Hout). reflexivity.
  - rewrite (bool_decide_true _ Hin).
    destruct (Z.eqb_spec (BLI_findindex_from addr 0 l p) (-1)); [lia | reflexivity].
Qed.

(** [BKE_view_layer_find_from_collection] answers the first view layer of
    the scene whose layer tree has a node at the address [lc], at any depth,
    and [NULL] exactly when no view layer of the scene has one. *)
Theorem view_layer_find_from_collection_owner (scene : Scene) (lc : nat) :
  match BKE_view_layer_find_from_collection scene lc with
  | Some view_layer =>
      exists before after,
        view_layers scene = before ++ view_layer :: after /\
        lc ∈ layer_ids (vl_layer_collections view_layer) /\
        forall other, other ∈ before -> lc ∉ layer_ids (vl_layer_collections other)
  | None =>
      forall other, other ∈ view_layers scene ->
        lc ∉ layer_ids (vl_layer_collections other)
  end.
Proof.
  unfold BKE_view_layer_find_from_collection.
  pose proof (find_first
    (fun view_layer =>
       find_scene_collection_in_scene_collections (vl_layer_collections view_layer) lc)
    (view_layers scene)) as Hfind.
  destruct (List.find _ _) as [view_layer |].
  - destruct Hfind as (before & after & Hsplit & Hfound & Hbefore).
    exists before, after. split; [exact Hsplit |].
    rewrite find_scene_collection_in_scene_collections_ids in Hfound.
    split; [exact (bool_decide_eq_true_1 _ Hfound) |].
    intros other Hother. specialize (Hbefore other Hother).
    rewrite find_scene_collection_in_scene_collections_ids in Hbefore.
    exact (bool_decide_eq_false_1 _ Hbefore).
  - intros other Hother. specialize (Hfind other Hother).
    rewrite find_scene_collection_in_scene_collections_ids in Hfind.
    exact (bool_decide_eq_false_1 _ Hfind).
Qed.

(** [BKE_view_layer_find_from_override_set] answers the first view layer
    of the scene that has the override set in its list, and
    [BKE_view_layer_find_from_dynamic_override_property] the first view layer
    one of whose override sets has the property among its scene or its
    collection properties; each answers [NULL] exactly when no view layer of
    the scene has it. *)
Theorem view_layer_find_from_override_owner (scene : Scene) (p : nat) :
  match BKE_view_layer_find_from_override_set scene p with
  | Some view_layer =>
      exists before after,
        view_layers scene = before ++ view_layer :: after /\
        p ∈ override_set_id <$> override_sets view_layer /\
        forall other, other ∈ before -> p ∉ override_set_id <$> override_sets other
  | None =>
      forall other, other ∈ view_layers scene ->
        p ∉ override_set_id <$> override_sets other
  end /\
  match BKE_view_layer_find_from_dynamic_override_property scene p with
  | Some view_layer =>
      exists before after,
        view_layers scene = before ++ view_layer :: after /\
        p ∈ dyn_prop_id <$> view_layer_properties view_layer /\
        forall other, other ∈ before -> p ∉ dyn_prop_id <$> view_layer_properties other
  | None =>
      forall other, other ∈ view_layers scene ->
        p ∉ dyn_prop_id <$> view_layer_properties other
  end.
Proof.
  assert (Hprops : forall view_layer,
    existsb
      (fun override_set =>
         if negb (BLI_findindex dyn_prop_id (scene_properties override_set) p =? -1)
         then true
         else negb (BLI_findindex dyn_prop_id (collection_properties override_set) p =? -1))
      (override_sets view_layer)
    = bool_decide (p ∈ dyn_prop_id <$> view_layer_properties view_layer)).
  { intros view_layer. unfold view_layer_properties.
    induction (override_sets view_layer) as [| override_set sets IH]; cbn [existsb].
    - rewrite bool_decide_false by apply not_elem_of_nil. reflexivity.
    - rewrite IH, !BLI_findindex_found, fmap_cons, concat_cons, !fmap_app.
      repeat case_bool_decide; try reflexivity; exfalso;
        rewrite !elem_of_app in *; tauto. }
  split.
  - unfold BKE_view_layer_find_from_override_set.
    pose proof (find_first
      (fun view_layer =>
         negb (BLI_findindex override_set_id (override_sets view_layer) p =? -1))
      (view_layers scene)) as Hfind.
    destruct (List.find _ _) as [view_layer |].
    + destruct Hfind as (before & after & Hsplit & Hfound & Hbefore).
      exists before, after. split; [exact Hsplit |].
      rewrite BLI_findindex_found in Hfound.
      split; [exact (bool_decide_eq_true_1 _ Hfound) |].
      intros other Hother. specialize (Hbefore other Hother).
      rewrite BLI_findindex_found in Hbefore. exact (bool_decide_eq_false_1 _ Hbefore).
    + intros other Hother. specialize (Hfind other Hother).
      rewrite BLI_findindex_found in Hfind. exact (bool_decide_eq_false_1 _ Hfind).
  - unfold BKE_view_layer_find_from_dynamic_override_property.
    pose proof (find_first
      (fun view_layer =>
         existsb
           (fun override_set =>
              if negb (BLI_findindex dyn_prop_id (scene_properties override_set) p =? -1)
              then true
              else negb (BLI_findindex dyn_prop_id (collection_properties override_set) p
                         =? -1))
           (override_sets view_layer))
      (view_layers scene)) as Hfind.
    destruct (List.find _ _) as [view_layer |].
    + destruct Hfind as (before & after & Hsplit & Hfound & Hbefore).
      exists before, after. split; [exact Hsplit |].
      rewrite Hprops in Hfound. split; [exact (bool_decide_eq_true_1 _ Hfound) |].
      intros other Hother. specialize (Hbefore other Hother).
      rewrite Hprops in Hbefore. exact (bool_decide_eq_false_1 _ Hbefore).
    + intros other Hother. specialize (Hfind other Hother).
      rewrite Hprops in Hfind. exact (bool_decide_eq_false_1 _ Hfind).
Qed.

(** ** Finding the base of an object *)

(** The lookup creates the hash when there is none, which leaves a
    consistent registry consistent, and answers the base of the object. *)
Lemma BKE_view_layer_base_find_spec heap view_layer ob :
  bases_consistent heap view_layer ->
  let r := BKE_view_layer_base_find view_layer ob in
  r.1 = set_object_bases_hash (object_bases_hash r.1) view_layer /\
  is_Some (object_bases_hash r.1) /\
  bases_consistent heap r.1 /\
  forall a, r.2 = Some a <->
    exists base, base ∈ object_bases view_layer /\ object base = ob /\ base_id base = a.
Proof.
  intros Hcons. pose proof Hcons as (Hobs & Hids & Hbound & Hcoh).
  unfold BKE_view_layer_base_find. cbn zeta.
  destruct (object_bases_hash view_layer) as [hash |] eqn:Hhash.
  - cbn [fst snd]. split; [destruct view_layer; cbn in *; subst; reflexivity |].
    split; [rewrite Hhash; eauto |]. split; [exact Hcons |].
    intros a. unfold bases_hash. rewrite Hhash. cbn. apply Hcoh. reflexivity.
  - cbn [fst snd].
    assert (Hv : view_layer_bases_hash_create view_layer
                 = set_object_bases_hash
                     (Some (fold_left (fun h base => <[object base := base_id base]> h)
                              (object_bases view_layer) ∅)) view_layer).
    { unfold view_layer_bases_hash_create. rewrite Hhash. reflexivity. }
    assert (Hlookup : forall o a,
      bases_hash (view_layer_bases_hash_create view_layer) !! o = Some a <->
      exists base, base ∈ object_bases view_layer /\ object base = o /\ base_id base = a).
    { intros o a. apply (view_layer_bases_hash_create_coherent heap). exact Hcons. }
    split; [rewrite Hv; reflexivity |].
    split; [rewrite Hv; cbn; eauto |].
    split; [| intros a; apply Hlookup].
    rewrite Hv at 1. split; [exact Hobs |]. split; [exact Hids |].
    split; [exact Hbound |].
    intros hash' Hhash' o a. cbn in Hhash'. rewrite <- (Hlookup o a).
    rewrite Hv. unfold bases_hash. cbn. injection Hhash' as <-. reflexivity.
Qed.

(** In a view layer with a consistent base registry
    [BKE_view_layer_base_find] answers the address of the one base of the
    object, and [NULL] exactly for an object that has no base.  It changes
    nothing of the view layer but the hash, which exists afterwards, and the
    registry stays consistent. *)
Theorem view_layer_base_find_registry (heap : nat) (view_layer : ViewLayer) (ob : nat) :
  bases_consistent heap view_layer ->
  let r := BKE_view_layer_base_find view_layer ob in
  r.1 = set_object_bases_hash (object_bases_hash r.1) view_layer /\
  is_Some (object_bases_hash r.1) /\
  bases_consistent heap r.1 /\
  (forall a, r.2 = Some a <->
     exists base,
       base ∈ object_bases view_layer /\ object base = ob /\ base_id base = a) /\
  (r.2 = None <-> ob ∉ object <$> object_bases view_layer).
Proof.
  intros Hcons.
  destruct (BKE_view_layer_base_find_spec heap view_layer ob Hcons)
    as (Hv & Hhash & Hcons' & Hfind).
  cbn zeta. split; [exact Hv |]. split; [exact Hhash |]. split; [exact Hcons' |].
  split; [exact Hfind |].
  destruct (BKE_view_layer_base_find view_layer ob).2 as [a |] eqn:Hr.
  - split; [discriminate |]. intros Hout. exfalso. apply Hout.
    destruct (proj1 (Hfind a) eq_refl) as (base & Hbase & <- & _).
    apply list_elem_of_fmap_2, Hbase.
  - split; [| reflexivity]. intros _ Hin.
    apply list_elem_of_fmap in Hin as (base & -> & Hbase).
    assert (Hsome : (None : option nat) = Some (base_id base)) by (apply Hfind; eauto).
    discriminate.
Qed.

(** After a sync of a view layer with a consistent base registry
    [BKE_view_layer_base_find] finds a base exactly for the objects that a
    path through the scene's collections reaches whose last collection has a
    layer collection that is not excluded. *)
Theorem sync_base_find_path_objects (scene : Scene) (master : Collection)
  (heap heap' : nat) (view_layer view_layer' : ViewLayer) (ob : nat) :
  master_collection scene = Some master ->
  bases_consistent heap view_layer ->
  BKE_layer_collection_sync scene heap view_layer = Some (heap', view_layer') ->
  is_Some (BKE_view_layer_base_find view_layer' ob).2 <->
  ob ∈ (layer_paths [master] (vl_layer_collections view_layer') []).*1.
Proof.
  intros Hmaster Hcons Hsync.
  rewrite <- (sync_bases_are_path_objects _ _ _ _ _ _ Hmaster Hcons Hsync).
  destruct (BKE_layer_collection_sync_rebuilt _ _ _ _ _ _ Hmaster Hsync) as (-> & _ & Hv).
  pose proof (layer_collection_sync_rebuild_spec master heap view_layer Hcons)
    as (Hcons' & _).
  assert (Hcons2 : bases_consistent (layer_collection_sync_rebuild master heap view_layer).1
                     view_layer') by (rewrite Hv; exact Hcons').
  destruct (BKE_view_layer_base_find_spec _ view_layer' ob Hcons2) as (_ & _ & _ & Hfind).
  cbn zeta in Hfind. split.
  - intros [a Ha]. apply Hfind in Ha as (base & Hbase & <- & _).
    apply list_elem_of_fmap_2, Hbase.
  - intros Hin. apply list_elem_of_fmap in Hin as (base & -> & Hbase).
    exists (base_id base). apply Hfind. eauto.
Qed.

(** [BKE_scene_has_object] answers true exactly when a view layer of the
    scene has a base of the object, given that the base registries of the
    view layers are consistent; it leaves the base lists as they are. *)
Theorem scene_has_object_some_view_layer (heap : nat) (scene : Scene) (ob : nat) :
  (forall view_layer, view_layer ∈ view_layers scene -> bases_consistent heap view_layer) ->
  let r := BKE_scene_has_object scene ob in
  (r.2 = true <->
   exists view_layer,
     view_layer ∈ view_layers scene /\ ob ∈ object <$> object_bases view_layer) /\
  object_bases <$> view_layers r.1 = object_bases <$> view_layers scene /\
  master_collection r.1 = master_collection scene /\
  scene_set r.1 = scene_set scene.
Proof.
  intros Hcons. unfold BKE_scene_has_object.
  assert (Hloop : forall l,
    (forall view_layer, view_layer ∈ l -> bases_consistent heap view_layer) ->
    ((scene_has_object_loop l ob).2 = true <->
     exists view_layer, view_layer ∈ l /\ ob ∈ object <$> object_bases view_layer) /\
    object_bases <$> (scene_has_object_loop l ob).1 = object_bases <$> l).
  { induction l as [| view_layer l IH]; intros Hl; cbn [scene_has_object_loop].
    - cbn. split; [| reflexivity]. split; [discriminate |].
      intros (v & Hv & _). apply elem_of_nil in Hv. contradiction.
    - assert (Hhead : bases_consistent heap view_layer)
        by (apply Hl, elem_of_cons; left; reflexivity).
      destruct (BKE_view_layer_base_find_spec heap view_layer ob Hhead)
        as (Hv & _ & _ & Hfind).
      cbn zeta in *.
      destruct (BKE_view_layer_base_find view_layer ob) as [v1 base]. cbn [fst snd] in *.
      assert (Hbases : object_bases v1 = object_bases view_layer) by (rewrite Hv; reflexivity).
      destruct base as [a |].
      + cbn. split; [| rewrite Hbases; reflexivity]. split; [intros _ | reflexivity].
        destruct (proj1 (Hfind a) eq_refl) as (base & Hbase & <- & _).
        exists view_layer. split; [apply elem_of_cons; left; reflexivity |].
        apply list_elem_of_fmap_2, Hbase.
      + destruct IH as [IHfound IHbases].
        { intros v Hin. apply Hl, elem_of_cons. right. exact Hin. }
        destruct (scene_has_object_loop l ob) as [next found]. cbn [fst snd] in *.
        split; [| rewrite !fmap_cons, Hbases, IHbases; reflexivity].
        rewrite IHfound. split.
        * intros (v & Hin & Hob). exists v. split; [apply elem_of_cons; right |]; assumption.
        * intros (v & Hin & Hob). apply elem_of_cons in Hin as [-> | Hin]; [| eauto].
          apply list_elem_of_fmap in Hob as (base & -> & Hbase).
          assert (Hsome : (None : option nat) = Some (base_id base)) by (apply Hfind; eauto).
          discriminate. }
  destruct (Hloop (view_layers scene) Hcons) as [Hfound Hbases].
  destruct (scene_has_object_loop (view_layers scene) ob) as [l found]. cbn in *.
  auto.
Qed.

(** ** The flag-filtered traversals *)

Lemma flag_test_land word bit : negb (Z.land word bit =? 0) = flag_test word bit.
Proof. reflexivity. Qed.

Lemma object_bases_iterator_next_cons b l current valid flag :
  object_bases_iterator_next (mkBasesIterator (b :: l) current valid) flag
  = Some (object_bases_iterator_search (mkBasesIterator (b :: l) current valid) flag l).
Proof. reflexivity. Qed.

Lemma objects_iterator_next_cons b l current valid flag :
  objects_iterator_next (mkBasesIterator (b :: l) current valid) flag
  = objects_iterator_current
      (object_bases_iterator_search (mkBasesIterator (b :: l) current valid) flag l).
Proof. reflexivity. Qed.

(** From the search of [object_bases_iterator_next] on, the traversal
    collects the bases of the chain that have a bit of the flag. *)
Lemma bases_iterator_from_search flag :
  forall l it fuel,
    bi_valid it = true -> (length l <= fuel)%nat ->
    bases_iterator_from (fun it => object_bases_iterator_next it flag) fuel
      (object_bases_iterator_search it flag l)
    = Some (current_base <$> List.filter (fun base => flag_test (base_flag base) flag) l).
Proof.
  induction l as [| b l IH]; intros it fuel Hvalid Hfuel; cbn [object_bases_iterator_search].
  - destruct fuel; reflexivity.
  - cbn [List.filter]. rewrite flag_test_land.
    destruct (flag_test (base_flag b) flag) eqn:Hb.
    + cbn [length] in Hfuel. destruct fuel as [| fuel]; [lia |].
      cbn [bases_iterator_from bi_valid]. rewrite Hvalid.
      rewrite object_bases_iterator_next_cons. cbn [mbind option_bind].
      rewrite IH by (cbn; auto with lia). reflexivity.
    + apply IH; [exact Hvalid | cbn in Hfuel; lia].
Qed.

Lemma object_bases_traversal view_layer flag fuel :
  (length (object_bases view_layer) <= fuel)%nat ->
  bases_traversal (object_bases_iterator_begin view_layer flag)
    (fun it => object_bases_iterator_next it flag) fuel
  = Some (current_base <$> flagged_bases flag view_layer).
Proof.
  unfold bases_traversal, object_bases_iterator_begin, flagged_bases.
  destruct (object_bases view_layer) as [| base l]; intros Hfuel.
  - cbn. destruct fuel; reflexivity.
  - cbn [List.filter bi_data bi_current bi_valid]. unfold flag_test.
    destruct (Z.land (base_flag base) flag =? 0) eqn:Hb; cbn [negb].
    + rewrite object_bases_iterator_next_cons. cbn [mbind option_bind].
      apply bases_iterator_from_search; [reflexivity | cbn in Hfuel; lia].
    + cbn [mbind option_bind]. cbn [length] in Hfuel. destruct fuel as [| fuel]; [lia |].
      cbn [bases_iterator_from bi_valid bi_current].
      rewrite object_bases_iterator_next_cons. cbn [mbind option_bind].
      rewrite bases_iterator_from_search by (cbn; auto with lia). reflexivity.
Qed.

(** A full traversal with the iterator over the selected bases of a view
    layer gives the bases of the base list that have a [BASE_SELECTED] bit,
    each once and in the order of the list, and a traversal with the iterator
    over the visible bases gives those that have a [BASE_VISIBLED] bit; as
    many steps as the list has bases reach the end. *)
Theorem flagged_bases_traversal (view_layer : ViewLayer) (fuel : nat) :
  (length (object_bases view_layer) <= fuel)%nat ->
  bases_traversal (BKE_view_layer_selected_bases_iterator_begin view_layer)
    BKE_view_layer_selected_bases_iterator_next fuel
  = Some (current_base <$> flagged_bases BASE_SELECTED view_layer) /\
  bases_traversal (BKE_view_layer_visible_bases_iterator_begin view_layer)
    BKE_view_layer_visible_bases_iterator_next fuel
  = Some (current_base <$> flagged_bases BASE_VISIBLED view_layer).
Proof.
  intros Hfuel. split; apply object_bases_traversal, Hfuel.
Qed.

Lemma objects_iterator_from_search flag :
  forall l it fuel,
    bi_valid it = true -> (length l <= fuel)%nat ->
    (it' ← objects_iterator_current (object_bases_iterator_search it flag l);
     bases_iterator_from (fun it => objects_iterator_next it flag) fuel it')
    = Some ((fun base => current_object (object base))
              <$> List.filter (fun base => flag_test (base_flag base) flag) l).
Proof.
  induction l as [| b l IH]; intros it fuel Hvalid Hfuel; cbn [object_bases_iterator_search].
  - unfold objects_iterator_current. cbn. destruct fuel; reflexivity.
  - cbn [List.filter]. rewrite flag_test_land.
    destruct (flag_test (base_flag b) flag) eqn:Hb.
    + cbn [length] in Hfuel. destruct fuel as [| fuel]; [lia |].
      unfold objects_iterator_current at 1. cbn [bi_valid bi_current bi_data].
      rewrite Hvalid. cbn [mbind option_bind bases_iterator_from bi_valid bi_current].
      rewrite objects_iterator_next_cons.
      pose proof (IH (mkBasesIterator (b :: l) (current_object (object b)) true) fuel
                    eq_refl ltac:(lia)) as Hrest.
      destruct (objects_iterator_current _) as [it' |]; [| discriminate].
      cbn [mbind option_bind] in Hrest |- *. rewrite Hrest. reflexivity.
    + apply IH; [exact Hvalid | cbn in Hfuel; lia].
Qed.

Lemma objects_traversal view_layer flag fuel :
  (length (object_bases view_layer) <= fuel)%nat ->
  bases_traversal (objects_iterator_begin view_layer flag)
    (fun it => objects_iterator_next it flag) fuel
  = Some ((fun base => current_object (object base)) <$> flagged_bases flag view_layer).
Proof.
  unfold bases_traversal, objects_iterator_begin, object_bases_iterator_begin, flagged_bases.
  destruct (object_bases view_layer) as [| base l]; intros Hfuel.
  - cbn. destruct fuel; reflexivity.
  - cbn [List.filter bi_data bi_current bi_valid]. unfold flag_test.
    destruct (Z.land (base_flag base) flag =? 0) eqn:Hb; cbn [negb].
    + rewrite object_bases_iterator_next_cons. cbn [mbind option_bind].
      apply objects_iterator_from_search; [reflexivity | cbn in Hfuel; lia].
    + cbn [mbind option_bind]. cbn [length] in Hfuel. destruct fuel as [| fuel]; [lia |].
      unfold objects_iterator_current at 1.
      cbn [bases_iterator_from bi_valid bi_current bi_data mbind option_bind].
      rewrite objects_iterator_next_cons.
      pose proof (objects_iterator_from_search flag l
                    (mkBasesIterator (base :: l) (current_object (object base)) true) fuel
                    eq_refl ltac:(lia)) as Hrest.
      destruct (objects_iterator_current _) as [it' |]; [| discriminate].
      cbn [mbind option_bind] in Hrest |- *. rewrite Hrest. reflexivity.
Qed.

(** A full traversal with the iterator over the selected objects of a view
    layer gives the objects of the bases that have a [BASE_SELECTED] bit, in
    the order of the base list, and a traversal with the iterator over the
    visible objects gives the objects of the bases that have a
    [BASE_VISIBLED] bit. *)
Theorem flagged_objects_traversal (view_layer : ViewLayer) (fuel : nat) :
  (length (object_bases view_layer) <= fuel)%nat ->
  bases_traversal (BKE_view_layer_selected_objects_iterator_begin view_layer)
    BKE_view_layer_selected_objects_iterator_next fuel
  = Some ((fun base => current_object (object base))
            <$> flagged_bases BASE_SELECTED view_layer) /\
  bases_traversal (BKE_view_layer_visible_objects_iterator_begin view_layer)
    BKE_view_layer_visible_objects_iterator_next fuel
  = Some ((fun base => current_object (object base))
            <$> flagged_bases BASE_VISIBLED view_layer).
Proof.
  intros Hfuel. split; apply objects_traversal, Hfuel.
Qed.

(** The search stops at the first base of the chain that has a bit of the
    flag, or leaves the iterator invalid. *)
Lemma object_bases_iterator_search_cases flag l it :
  bi_valid it = true ->
  (bi_valid (object_bases_iterator_search it flag l) = false /\
   Forall (fun base => flag_test (base_flag base) flag = false) l) \/
  (exists pre b rest,
     l = pre ++ b :: rest /\ flag_test (base_flag b) flag = true /\
     Forall (fun base => flag_test (base_flag base) flag = false) pre /\
     object_bases_iterator_search it flag l
     = mkBasesIterator (b :: rest) (current_base b) true).
Proof.
  intros Hvalid. induction l as [| b l IH]; cbn [object_bases_iterator_search].
  - left. split; [reflexivity | constructor].
  - rewrite flag_test_land. destruct (flag_test (base_flag b) flag) eqn:Hb.
    + right. exists [], b, l. rewrite Hvalid. repeat split; auto.
    + destruct IH as [[Hinvalid Hall] | (pre & x & rest & -> & Hx & Hpre & Hsearch)].
      * left. split; [exact Hinvalid | constructor; assumption].
      * right. exists (b :: pre), x, rest. repeat split; auto.
Qed.

Lemma filter_none {A : Type} (f g : A -> bool) (l : list A) :
  Forall (fun x => f x = false) l -> List.filter (fun x => f x && g x) l = [].
Proof.
  induction 1 as [| x l Hx _ IH]; cbn; [reflexivity |]. rewrite Hx. exact IH.
Qed.

Lemma bases_iterator_from_invalid next fuel it :
  bi_valid it = false -> bases_iterator_from next fuel it = Some [].
Proof. intros Hinvalid. destruct fuel; cbn; rewrite Hinvalid; reflexivity. Qed.

Lemma selected_editable_objects_loop_eq lib n it :
  selected_editable_objects_loop lib n it
  = it1 ← objects_iterator_next it BASE_SELECTED;
    if bi_valid it1 && current_is_libdata lib it1 then
      match n with
      | O => None
      | S n => selected_editable_objects_loop lib n it1
      end
    else Some it1.
Proof. destruct n; reflexivity. Qed.

Lemma selected_editable_objects_next_cons lib b rest current valid :
  BKE_view_layer_selected_editable_objects_iterator_next lib
    (mkBasesIterator (b :: rest) current valid)
  = selected_editable_objects_loop lib (S (length rest))
      (mkBasesIterator (b :: rest) current valid).
Proof. reflexivity. Qed.

#[local] Arguments selected_editable_objects_loop : simpl never.

(** From a base of the chain on, the loop and the steps after it collect
    the objects of the selected bases that are not library data. *)
Lemma selected_editable_objects_from_loop lib :
  forall m l d current n fuel,
    (length l <= m)%nat -> (length l <= n)%nat -> (length l <= fuel)%nat ->
    (it' ← selected_editable_objects_loop lib n (mkBasesIterator (d :: l) current true);
     bases_iterator_from (BKE_view_layer_selected_editable_objects_iterator_next lib)
       fuel it')
    = Some ((fun base => current_object (object base))
              <$> List.filter
                    (fun base => flag_test (base_flag base) BASE_SELECTED
                                 && negb (lib (object base))) l).
Proof.
  induction m as [| m IH]; intros l d current n fuel Hm Hn Hfuel.
  - destruct l; [| cbn in Hm; lia].
    rewrite selected_editable_objects_loop_eq. cbn. destruct fuel; reflexivity.
  - rewrite selected_editable_objects_loop_eq, objects_iterator_next_cons.
    destruct (object_bases_iterator_search_cases BASE_SELECTED l
                (mkBasesIterator (d :: l) current true) eq_refl)
      as [[Hinvalid Hall] | (pre & b & rest & -> & Hb & Hpre & ->)].
    + rewrite (filter_none _ _ _ Hall). unfold objects_iterator_current.
      rewrite Hinvalid. cbn [mbind option_bind]. rewrite Hinvalid. cbn [andb].
      cbn [mbind option_bind]. apply bases_iterator_from_invalid, Hinvalid.
    + rewrite List.filter_app, (filter_none _ _ _ Hpre). cbn [app List.filter].
      rewrite Hb. cbn [andb]. rewrite length_app in Hm, Hn, Hfuel. cbn [length] in *.
      unfold objects_iterator_current.
      cbn [bi_valid bi_current bi_data mbind option_bind current_is_libdata andb].
      destruct (lib (object b)) eqn:Hlib; cbn [negb].
      * destruct n as [| n]; [lia |].
        apply IH; lia.
      * cbn [mbind option_bind]. destruct fuel as [| fuel]; [lia |].
        cbn [bases_iterator_from bi_valid bi_current].
        rewrite selected_editable_objects_next_cons.
        pose proof (IH rest b (current_object (object b)) (S (length rest)) fuel
                      ltac:(lia) ltac:(lia) ltac:(lia)) as Hrest.
        destruct (selected_editable_objects_loop lib _ _) as [it' |]; [| discriminate].
        cbn [mbind option_bind] in Hrest |- *. rewrite Hrest. reflexivity.
Qed.

(** A full traversal with the iterator over the selected editable objects
    of a view layer gives the objects of the bases that have a
    [BASE_SELECTED] bit and whose object is not library data, each base once
    and in the order of the base list; the first base is treated like every
    other one. *)
Theorem selected_editable_objects_traversal (BKE_object_is_libdata : nat -> bool)
  (view_layer : ViewLayer) (fuel : nat) :
  (length (object_bases view_layer) <= fuel)%nat ->
  bases_traversal
    (BKE_view_layer_selected_editable_objects_iterator_begin BKE_object_is_libdata
       view_layer)
    (BKE_view_layer_selected_editable_objects_iterator_next BKE_object_is_libdata) fuel
  = Some ((fun base => current_object (object base))
            <$> List.filter
                  (fun base => flag_test (base_flag base) BASE_SELECTED
                               && negb (BKE_object_is_libdata (object base)))
                  (object_bases view_layer)).
Proof.
  set (lib := BKE_object_is_libdata).
  assert (Hfrom : forall b rest fuel,
    (length (b :: rest) <= fuel)%nat ->
    flag_test (base_flag b) BASE_SELECTED = true ->
    (it' ← (let it := mkBasesIterator (b :: rest) (current_object (object b)) true in
            if bi_valid it then
              if negb (current_is_libdata lib it) then Some it
              else BKE_view_layer_selected_editable_objects_iterator_next lib it
            else Some it);
     bases_iterator_from (BKE_view_layer_selected_editable_objects_iterator_next lib)
       fuel it')
    = Some ((fun base => current_object (object base))
              <$> List.filter
                    (fun base => flag_test (base_flag base) BASE_SELECTED
                                 && negb (lib (object base))) (b :: rest))).
  { intros b rest fuel' Hfuel Hb. cbn zeta. cbn [bi_valid current_is_libdata bi_current].
    cbn [List.filter]. rewrite Hb. cbn [andb length] in *.
    destruct (lib (object b)) eqn:Hlib; cbn [negb].
    - rewrite selected_editable_objects_next_cons.
      apply (selected_editable_objects_from_loop lib (length rest)); cbn; lia.
    - cbn [mbind option_bind]. destruct fuel' as [| fuel']; [lia |].
      cbn [bases_iterator_from bi_valid bi_current].
      rewrite selected_editable_objects_next_cons.
      pose proof (selected_editable_objects_from_loop lib (length rest) rest b
                    (current_object (object b)) (S (length rest)) fuel'
                    ltac:(lia) ltac:(lia) ltac:(lia)) as Hrest.
      destruct (selected_editable_objects_loop lib _ _) as [it' |]; [| discriminate].
      cbn [mbind option_bind] in Hrest |- *. rewrite Hrest. reflexivity. }
  unfold bases_traversal, BKE_view_layer_selected_editable_objects_iterator_begin,
    objects_iterator_begin, object_bases_iterator_begin.
  destruct (object_bases view_layer) as [| base l]; intros Hfuel.
  - cbn. destruct fuel; reflexivity.
  - cbn [bi_data bi_current bi_valid]. fold (flag_test (base_flag base) BASE_SELECTED).
    pose proof (flag_test_land (base_flag base) BASE_SELECTED) as Hland.
    destruct (flag_test (base_flag base) BASE_SELECTED) eqn:Hb.
    + apply negb_true_iff in Hland. rewrite Hland.
      unfold objects_iterator_current at 1.
      cbn [bi_valid bi_current bi_data mbind option_bind].
      apply (Hfrom base l fuel Hfuel Hb).
    + apply negb_false_iff in Hland. rewrite Hland.
      rewrite object_bases_iterator_next_cons. cbn [mbind option_bind List.filter].
      rewrite Hb. cbn [andb].
      destruct (object_bases_iterator_search_cases BASE_SELECTED l
                  (mkBasesIterator (base :: l) current_null true) eq_refl)
        as [[Hinvalid Hall] | (pre & b & rest & -> & Hb' & Hpre & ->)].
      * rewrite (filter_none _ _ _ Hall). unfold objects_iterator_current.
        rewrite Hinvalid. cbn [mbind option_bind]. rewrite Hinvalid.
        cbn [mbind option_bind]. apply bases_iterator_from_invalid, Hinvalid.
      * rewrite List.filter_app, (filter_none _ _ _ Hpre). cbn [app].
        unfold objects_iterator_current at 1.
        cbn [bi_valid bi_current bi_data mbind option_bind].
        apply (Hfrom b rest fuel); [| exact Hb'].
        cbn [length] in *. rewrite length_app in Hfuel. cbn [length] in Hfuel. lia.
Qed.

(** ** The bases in the mode of the active base *)

Lemma bases_in_mode_from_search ob_type ob_mode active :
  forall l it fuel,
    mode_valid it = true -> mode_base_active it = Some active ->
    (length l <= fuel)%nat ->
    bases_in_mode_from ob_type ob_mode fuel (bases_in_mode_search ob_type ob_mode it active l)
    = Some (List.filter (in_mode_of ob_type ob_mode (mode_object_mode it) active) l).
Proof.
  induction l as [| b l IH]; intros it fuel Hvalid Hactive Hfuel;
    cbn [bases_in_mode_search].
  - destruct fuel; reflexivity.
  - cbn [List.filter].
    change (negb (Z.land (base_flag b) BASE_SELECTED =? 0)
            && (ob_type (object b) =? ob_type (object active))
            && negb (bool_decide (base_id b = base_id active))
            && negb (Z.land (ob_mode (object b)) (mode_object_mode it) =? 0))
      with (in_mode_of ob_type ob_mode (mode_object_mode it) active b).
    destruct (in_mode_of ob_type ob_mode (mode_object_mode it) active b) eqn:Hb.
    + cbn [length] in Hfuel. destruct fuel as [| fuel]; [lia |].
      cbn [bases_in_mode_from mode_valid mode_current]. rewrite Hvalid.
      unfold BKE_view_layer_bases_in_mode_iterator_next.
      cbn [mode_current mode_base_active mode_next mbind option_bind].
      rewrite Hactive. cbn [mbind option_bind].
      assert (Hne : bool_decide (base_id b = base_id active) = false).
      { unfold in_mode_of in Hb. apply andb_true_iff in Hb as [Hb _].
        apply andb_true_iff in Hb as [_ Hb]. apply negb_true_iff in Hb. exact Hb. }
      rewrite Hne.
      rewrite (IH _ fuel) by (cbn; auto with lia). reflexivity.
    + apply IH; [exact Hvalid | exact Hactive | cbn in Hfuel; lia].
Qed.

(** A full traversal with the iterator over the bases in a mode gives the
    active base first, whatever its flags are, and then the other bases of
    the view layer that are selected and whose object has the type of the
    object of the active base and a bit of the mode, in the order of the base
    list; without an active base it gives nothing.  One step more than the
    list has bases reaches the end. *)
Theorem bases_in_mode_traversal (ob_type ob_mode : nat -> Z) (object_mode : Z)
  (view_layer : ViewLayer) (base_active : option Base) (fuel : nat) :
  (length (object_bases view_layer) < fuel)%nat ->
  bases_in_mode_from ob_type ob_mode fuel
    (BKE_view_layer_bases_in_mode_iterator_begin object_mode view_layer base_active)
  = Some match base_active with
         | Some active =>
             active :: List.filter (in_mode_of ob_type ob_mode object_mode active)
                         (object_bases view_layer)
         | None => []
         end.
Proof.
  intros Hfuel. destruct base_active as [active |]; cbn.
  - destruct fuel as [| fuel]; [lia |].
    cbn [bases_in_mode_from mode_valid mode_current].
    unfold BKE_view_layer_bases_in_mode_iterator_next.
    cbn [mode_current mode_base_active mode_next mode_view_layer mbind option_bind].
    rewrite bool_decide_true by reflexivity.
    set (it := mkObjectsInModeIterator object_mode view_layer (Some active) (Some active)
                 [] true).
    destruct (object_bases view_layer) as [| first next] eqn:Hbases.
    + cbn. destruct fuel; reflexivity.
    + cbn [length] in Hfuel.
      destruct (bool_decide (base_id first = base_id active)) eqn:Hfirst.
      * rewrite (bases_in_mode_from_search ob_type ob_mode active next it fuel)
          by (cbn; auto with lia).
        cbn [List.filter mode_object_mode it]. unfold in_mode_of at 2.
        rewrite Hfirst. rewrite !andb_false_r. cbn [negb andb]. reflexivity.
      * rewrite (bases_in_mode_from_search ob_type ob_mode active (first :: next) it fuel)
          by (cbn; auto with lia).
        reflexivity.
  - destruct fuel; reflexivity.
Qed.

(** ** Deselecting and selecting *)

Lemma selected_objects_traversal view_layer fuel :
  (length (object_bases view_layer) <= fuel)%nat ->
  bases_traversal (BKE_view_layer_selected_objects_iterator_begin view_layer)
    BKE_view_layer_selected_objects_iterator_next fuel
  = Some ((fun base => current_object (object base))
            <$> flagged_bases BASE_SELECTED view_layer).
Proof. apply objects_traversal. Qed.

(** Clearing the bits of [m] leaves the bits of a mask [t] that shares no
    bit with [m]. *)
Lemma land_lnot_disjoint f m t :
  Z.land t m = 0 -> Z.land (Z.land f (Z.lnot m)) t = Z.land f t.
Proof.
  intros Hdisjoint. apply Z.bits_inj'. intros n Hn.
  apply (f_equal (fun z => Z.testbit z n)) in Hdisjoint.
  rewrite Z.land_spec, Z.bits_0 in Hdisjoint.
  repeat rewrite ?Z.land_spec, ?Z.lnot_spec by assumption.
  destruct (Z.testbit f n), (Z.testbit m n), (Z.testbit t n); cbn in *; congruence.
Qed.

Lemma flag_test_cleared f m : flag_test (Z.land f (Z.lnot m)) m = false.
Proof. apply flag_test_false, land_lnot_cleared. Qed.

Lemma flag_test_set f m : m <> 0 -> flag_test (Z.lor f m) m = true.
Proof. intros Hm. apply flag_test_true. rewrite testbit_land_lor_same. exact Hm. Qed.

(** After [BKE_view_layer_base_deselect_all] a traversal of the selected
    objects of the view layer gives nothing.  After
    [BKE_view_layer_base_select] of a base on top of it, the traversal gives
    the object of that base when the base is selectable, and nothing
    otherwise: a base that is not selectable becomes the active base without
    being selected. *)
Theorem deselect_all_then_select (view_layer : ViewLayer) (selbase : nat) (fuel : nat) :
  Z.land BASE_SELECTABLED BASE_SELECTED = 0 ->
  BASE_SELECTED <> 0 ->
  (length (object_bases view_layer) <= fuel)%nat ->
  let deselected := BKE_view_layer_base_deselect_all view_layer in
  let selected := BKE_view_layer_base_select deselected selbase in
  bases_traversal (BKE_view_layer_selected_objects_iterator_begin deselected)
    BKE_view_layer_selected_objects_iterator_next fuel = Some [] /\
  basact selected = Some selbase /\
  bases_traversal (BKE_view_layer_selected_objects_iterator_begin selected)
    BKE_view_layer_selected_objects_iterator_next fuel
  = Some ((fun base => current_object (object base))
            <$> List.filter
                  (fun base => bool_decide (base_id base = selbase)
                               && flag_test (base_flag base) BASE_SELECTABLED)
                  (object_bases view_layer)).
Proof.
  intros Hdisjoint Hnonzero Hfuel. cbn zeta.
  split; [| split; [reflexivity |]].
  - rewrite selected_objects_traversal.
    + unfold flagged_bases, BKE_view_layer_base_deselect_all.
      cbn [object_bases set_object_bases]. clear Hfuel.
      induction (object_bases view_layer) as [| b l IH]; [reflexivity |].
      rewrite fmap_cons. cbn [List.filter base_flag set_base_flag].
      rewrite flag_test_cleared. exact IH.
    + unfold BKE_view_layer_base_deselect_all. cbn. rewrite length_fmap. exact Hfuel.
  - rewrite selected_objects_traversal.
    + f_equal. unfold flagged_bases, BKE_view_layer_base_select,
        BKE_view_layer_base_deselect_all.
      cbn [object_bases set_object_bases set_basact]. clear Hfuel.
      set (clear := fun base =>
             set_base_flag (Z.land (base_flag base) (Z.lnot BASE_SELECTED)) base).
      set (select := fun b =>
             if decide (base_id b = selbase)
             then set_base_flag (base_select_flag (base_flag b)) b else b).
      assert (Hpoint : forall b,
        flag_test (base_flag (select (clear b))) BASE_SELECTED
        = bool_decide (base_id b = selbase) && flag_test (base_flag b) BASE_SELECTABLED /\
        object (select (clear b)) = object b).
      { intros b. unfold select, clear. cbn [base_id set_base_flag base_flag].
        destruct (decide (base_id b = selbase)) as [Heq | Hne].
        - rewrite (bool_decide_true _ Heq). cbn [andb base_flag object set_base_flag].
          split; [| reflexivity]. unfold base_select_flag.
          assert (Hkept : flag_test (Z.land (base_flag b) (Z.lnot BASE_SELECTED))
                            BASE_SELECTABLED
                          = flag_test (base_flag b) BASE_SELECTABLED).
          { unfold flag_test. rewrite land_lnot_disjoint by exact Hdisjoint. reflexivity. }
          rewrite Hkept. destruct (flag_test (base_flag b) BASE_SELECTABLED).
          + apply flag_test_set, Hnonzero.
          + apply flag_test_cleared.
        - rewrite (bool_decide_false _ Hne). cbn [andb base_flag object set_base_flag].
          split; [apply flag_test_cleared | reflexivity]. }
      induction (object_bases view_layer) as [| b l IH]; [reflexivity |].
      rewrite !fmap_cons. cbn [List.filter].
      destruct (Hpoint b) as [Hflag Hobject]. rewrite Hflag.
      destruct (bool_decide (base_id b = selbase)
                && flag_test (base_flag b) BASE_SELECTABLED).
      * rewrite !fmap_cons, Hobject, IH. reflexivity.
      * exact IH.
    + unfold BKE_view_layer_base_select, BKE_view_layer_base_deselect_all. cbn.
      rewrite !length_fmap. exact Hfuel.
Qed.

(** ** Evaluation of a view layer *)

(** The two loops of [BKE_layer_eval_view_layer] on the flag word of one
    base. *)
Lemma BKE_layer_eval_view_layer_bases dirty mode view_layer :
  object_bases (BKE_layer_eval_view_layer dirty mode view_layer)
  = (fun base =>
       let mode_bit := match mode with
                       | DAG_EVAL_VIEWPORT => BASE_VISIBLE_VIEWPORT
                       | DAG_EVAL_RENDER => BASE_VISIBLE_RENDER
                       end in
       let f1 := if flag_test (base_flag base) mode_bit
                 then Z.lor (base_flag base) BASE_VISIBLED
                 else Z.land (base_flag base) (Z.lnot BASE_VISIBLED) in
       set_base_flag
         (if Z.land f1 BASE_SELECTABLED =? 0 then Z.land f1 (Z.lnot BASE_SELECTED) else f1)
         base) <$> object_bases view_layer.
Proof.
  unfold BKE_layer_eval_view_layer. cbn [object_bases set_object_bases set_object_bases_array
    set_vl_flag]. rewrite <- list_fmap_compose. apply list_fmap_ext.
  intros i base _. cbn. destruct mode; destruct (flag_test _ _); cbn;
    destruct (Z.land _ BASE_SELECTABLED =? 0); reflexivity.
Qed.

(** After [BKE_layer_eval_view_layer] every base has all of
    [BASE_VISIBLED] when it had a bit of the visibility of the mode
    ([BASE_VISIBLE_VIEWPORT] in viewport mode, [BASE_VISIBLE_RENDER]
    otherwise) and none of it when it had not; no base is selected without
    being selectable; and the bases are the ones before, in the same order,
    with every bit outside [BASE_VISIBLED] and [BASE_SELECTED] as it was. *)
Theorem eval_view_layer_visibility (VIEW_LAYER_ENGINE_DIRTY : Z) (mode : eEvaluationMode)
  (view_layer : ViewLayer) :
  Z.land BASE_VISIBLED BASE_SELECTED = 0 ->
  let mode_bit := match mode with
                  | DAG_EVAL_VIEWPORT => BASE_VISIBLE_VIEWPORT
                  | DAG_EVAL_RENDER => BASE_VISIBLE_RENDER
                  end in
  Forall2
    (fun base base' =>
       base_id base' = base_id base /\ object base' = object base /\
       Z.land (base_flag base') BASE_VISIBLED
       = (if flag_test (base_flag base) mode_bit then BASE_VISIBLED else 0) /\
       (flag_test (base_flag base') BASE_SELECTED = true ->
        flag_test (base_flag base') BASE_SELECTABLED = true) /\
       Z.land (base_flag base') (Z.lnot (Z.lor BASE_VISIBLED BASE_SELECTED))
       = Z.land (base_flag base) (Z.lnot (Z.lor BASE_VISIBLED BASE_SELECTED)))
    (object_bases view_layer)
    (object_bases (BKE_layer_eval_view_layer VIEW_LAYER_ENGINE_DIRTY mode view_layer)).
Proof.
  intros Hdisjoint mode_bit. rewrite BKE_layer_eval_view_layer_bases.
  apply Forall2_fmap_r, Forall_Forall2_diag, Forall_forall. intros base _.
  cbn zeta. fold mode_bit. cbn [base_id object base_flag set_base_flag].
  split; [reflexivity |]. split; [reflexivity |].
  set (f := base_flag base).
  set (f1 := if flag_test f mode_bit then Z.lor f BASE_VISIBLED
             else Z.land f (Z.lnot BASE_VISIBLED)).
  assert (Hvisible : Z.land f1 BASE_VISIBLED
                     = if flag_test f mode_bit then BASE_VISIBLED else 0).
  { unfold f1. destruct (flag_test f mode_bit).
    - apply testbit_land_lor_same.
    - apply land_lnot_cleared. }
  assert (Hrest : Z.land f1 (Z.lnot (Z.lor BASE_VISIBLED BASE_SELECTED))
                  = Z.land f (Z.lnot (Z.lor BASE_VISIBLED BASE_SELECTED))).
  { unfold f1. destruct (flag_test f mode_bit); apply Z.bits_inj'; intros n Hn;
      repeat rewrite ?Z.land_spec, ?Z.lor_spec, ?Z.lnot_spec by assumption;
      destruct (Z.testbit f n), (Z.testbit BASE_VISIBLED n), (Z.testbit BASE_SELECTED n);
      reflexivity. }
  destruct (Z.eqb_spec (Z.land f1 BASE_SELECTABLED) 0) as [Hzero | Hsome];
    cbn [base_flag set_base_flag].
  - split; [rewrite land_lnot_disjoint by exact Hdisjoint; exact Hvisible |].
    split; [rewrite flag_test_cleared; discriminate |].
    rewrite <- Hrest. apply Z.bits_inj'. intros n Hn.
    repeat rewrite ?Z.land_spec, ?Z.lor_spec, ?Z.lnot_spec by assumption.
    destruct (Z.testbit f1 n), (Z.testbit BASE_VISIBLED n), (Z.testbit BASE_SELECTED n);
      reflexivity.
  - split; [exact Hvisible |]. split; [| exact Hrest].
    intros _. apply flag_test_true. exact Hsome.
Qed.

(** [BKE_layer_eval_view_layer] leaves the array cache as a copy of the
    base list, address by address in the order of the list and of its
    length, whatever the cache held before; it keeps a consistent base
    registry consistent, and of the rest of the view layer it changes only
    the flag word, to which it adds [VIEW_LAYER_ENGINE_DIRTY]. *)
Theorem eval_view_layer_array_cache (VIEW_LAYER_ENGINE_DIRTY : Z) (mode : eEvaluationMode)
  (heap : nat) (view_layer : ViewLayer) :
  bases_consistent heap view_layer ->
  let view_layer' := BKE_layer_eval_view_layer VIEW_LAYER_ENGINE_DIRTY mode view_layer in
  bases_consistent heap view_layer' /\
  object_bases_array view_layer' = Some (base_id <$> object_bases view_layer') /\
  (forall array, object_bases_array view_layer' = Some array ->
     Z.of_nat (length array) = BLI_listbase_count (object_bases view_layer)) /\
  vl_flag view_layer' = Z.lor (vl_flag view_layer) VIEW_LAYER_ENGINE_DIRTY /\
  view_layer'
  = set_object_bases_array (object_bases_array view_layer')
      (set_object_bases (object_bases view_layer')
         (set_vl_flag (vl_flag view_layer') view_layer)).
Proof.
  intros (Hobs & Hids & Hbound & Hcoh). cbn zeta.
  pose proof (BKE_layer_eval_view_layer_bases VIEW_LAYER_ENGINE_DIRTY mode view_layer)
    as Hbases.
  set (view_layer' := BKE_layer_eval_view_layer VIEW_LAYER_ENGINE_DIRTY mode view_layer)
    in *.
  assert (Hobjects : object <$> object_bases view_layer' = object <$> object_bases view_layer).
  { rewrite Hbases, <- list_fmap_compose. reflexivity. }
  assert (Haddrs : base_id <$> object_bases view_layer'
                   = base_id <$> object_bases view_layer).
  { rewrite Hbases, <- list_fmap_compose. reflexivity. }
  assert (Hmember : forall ob a,
    (exists base, base ∈ object_bases view_layer' /\ object base = ob /\ base_id base = a) <->
    (exists base, base ∈ object_bases view_layer /\ object base = ob /\ base_id base = a)).
  { intros ob a. rewrite Hbases. split.
    - intros (base' & Hin & Hob & Ha). apply list_elem_of_fmap in Hin as (base & -> & Hin).
      exists base. auto.
    - intros (base & Hin & Hob & Ha). eexists. split; [apply list_elem_of_fmap_2, Hin |].
      auto. }
  split; [| split; [reflexivity | split; [| split; reflexivity]]].
  - split; [rewrite Hobjects; exact Hobs |]. split; [rewrite Haddrs; exact Hids |]. split.
    + intros base' Hin. rewrite Hbases in Hin.
      apply list_elem_of_fmap in Hin as (base & -> & Hin). apply (Hbound base Hin).
    + intros hash Hhash ob a. rewrite Hmember. apply Hcoh. exact Hhash.
  - intros array [= <-]. unfold BLI_listbase_count.
    rewrite !length_fmap. reflexivity.
Qed.

(** ** Override sets *)

Lemma fresh_address {A : Type} (addr : A -> nat) (l : list A) (heap : nat) :
  (forall x, x ∈ l -> (addr x < heap)%nat) -> heap ∉ addr <$> l.
Proof.
  intros Hbound Hin. apply list_elem_of_fmap in Hin as (x & Heq & Hx).
  specialize (Hbound x Hx). lia.
Qed.

(** [BKE_view_layer_override_set_add] appends the new set and makes it the
    active one; [BKE_view_layer_override_set_remove] of that set gives the
    list of sets back as it was, with the last of them as the active set (the
    index zero when none is left). *)
Theorem override_set_add_then_remove (heap : nat) (view_layer : ViewLayer) :
  (forall override_set,
      override_set ∈ override_sets view_layer ->
      (override_set_id override_set < heap)%nat) ->
  let added := BKE_view_layer_override_set_add heap view_layer in
  let count := BLI_listbase_count (override_sets view_layer) in
  override_sets added.1.2 = override_sets view_layer ++ [added.2] /\
  active_override_set added.1.2 = count /\
  BLI_findindex override_set_id (override_sets added.1.2) (override_set_id added.2) = count /\
  BKE_view_layer_override_set_remove added.1.2 (override_set_id added.2)
  = (true, set_override_sets (override_sets view_layer) (Z.max 0 (count - 1)) view_layer).
Proof.
  intros Hbound. cbn zeta. unfold BKE_view_layer_override_set_add. cbn [fst snd].
  set (override_set := mkOverrideSet heap DYN_OVERRIDE_SET_USE [] 0 [] []).
  pose proof (fresh_address override_set_id _ heap Hbound) as Hfresh.
  assert (Hindex : BLI_findindex override_set_id (override_sets view_layer ++ [override_set])
                     heap
                   = BLI_listbase_count (override_sets view_layer)).
  { unfold BLI_findindex. rewrite BLI_findindex_from_at; [| reflexivity | exact Hfresh].
    reflexivity. }
  split; [reflexivity |]. split.
  { cbn. unfold BLI_listbase_count. rewrite length_app. cbn. lia. }
  split; [exact Hindex |].
  unfold BKE_view_layer_override_set_remove.
  cbn [override_sets set_override_sets active_override_set override_set_id override_set].
  rewrite Hindex.
  rewrite (BLI_remlink_at override_set_id _ [] override_set heap eq_refl Hfresh).
  rewrite app_nil_r.
  unfold BLI_listbase_count. rewrite length_app. cbn [length].
  set (n := Z.of_nat (length (override_sets view_layer))).
  destruct (Z.eqb_spec n (-1)) as [Hneg | _]; [lia |].
  unfold active_index_after_remove.
  replace (Z.of_nat (length (override_sets view_layer) + 1) - 1) with n by lia.
  destruct (Z.gtb_spec n n) as [Hgt | _]; [lia |].
  rewrite Z.eqb_refl. reflexivity.
Qed.

Lemma affected_collection_find_none l c :
  affected_collection_find l c = None <-> c ∉ link_data <$> l.
Proof.
  unfold affected_collection_find. induction l as [| link l IH]; cbn.
  - split; [intros _; apply not_elem_of_nil | reflexivity].
  - case_bool_decide as Hlink.
    + split; [discriminate |]. intros Hout. exfalso. apply Hout.
      apply elem_of_cons. left. congruence.
    + rewrite IH. rewrite not_elem_of_cons. split; [intros Hout; split; congruence | tauto].
Qed.

(** [BKE_view_layer_override_set_collection_link] answers false and leaves
    the set as it is for a collection that is among the affected collections
    already; otherwise it appends one link to the collection and answers
    true.  So a set whose affected collections are distinct keeps them
    distinct, and the collection is among them afterwards in both cases. *)
Theorem override_set_collection_link_no_duplicates (heap : nat)
  (override_set : OverrideSet) (collection_ : nat) :
  let r := BKE_view_layer_override_set_collection_link heap override_set collection_ in
  (r.2 = false <-> collection_ ∈ link_data <$> affected_collections override_set) /\
  (r.2 = false -> r.1 = (heap, override_set)) /\
  (r.2 = true ->
   link_data <$> affected_collections r.1.2
   = (link_data <$> affected_collections override_set) ++ [collection_]) /\
  (collection_ ∈ link_data <$> affected_collections r.1.2) /\
  (NoDup (link_data <$> affected_collections override_set) ->
   NoDup (link_data <$> affected_collections r.1.2)).
Proof.
  cbn zeta. unfold BKE_view_layer_override_set_collection_link.
  destruct (affected_collection_find _ _) as [link |] eqn:Hfind; cbn [fst snd].
  - assert (Hin : collection_ ∈ link_data <$> affected_collections override_set).
    { destruct (decide (collection_ ∈ link_data <$> affected_collections override_set))
        as [Hin | Hout]; [exact Hin |].
      apply affected_collection_find_none in Hout. congruence. }
    split; [tauto |]. split; [reflexivity |]. split; [discriminate |]. auto.
  - apply affected_collection_find_none in Hfind.
    cbn [affected_collections]. rewrite fmap_app. cbn [fmap list_fmap link_data].
    split; [split; [discriminate | contradiction] |]. split; [discriminate |].
    split; [reflexivity |]. split.
    + apply elem_of_app. right. apply elem_of_cons. left. reflexivity.
    + intros Hnd. apply NoDup_app. split; [exact Hnd |]. split.
      * intros x Hx Hx'. apply elem_of_cons in Hx' as [-> | Hx']; [contradiction |].
        apply elem_of_nil in Hx'. contradiction.
      * apply NoDup_singleton.
Qed.

(** Linking a collection that is not among the affected collections of an
    override set and unlinking it again gives the set back as it was,
    provided the active index of the set was in range (or zero for a set
    without affected collections). *)
Theorem override_set_collection_link_then_unlink (heap : nat) (override_set : OverrideSet)
  (collection_ : nat) :
  (forall link, link ∈ affected_collections override_set -> (link_id link < heap)%nat) ->
  collection_ ∉ link_data <$> affected_collections override_set ->
  active_affected_collection override_set
  <= Z.max 0 (BLI_listbase_count (affected_collections override_set) - 1) ->
  let linked := BKE_view_layer_override_set_collection_link heap override_set collection_ in
  linked.2 = true /\
  BKE_view_layer_override_set_collection_unlink linked.1.2 collection_
  = (true, override_set).
Proof.
  intros Hbound Hout Hactive. cbn zeta.
  unfold BKE_view_layer_override_set_collection_link.
  rewrite (proj2 (affected_collection_find_none _ _) Hout). cbn [fst snd].
  split; [reflexivity |].
  pose proof (fresh_address link_id _ heap Hbound) as Hfresh.
  set (link := mkLinkData heap collection_).
  unfold BKE_view_layer_override_set_collection_unlink.
  cbn [affected_collections].
  assert (Hfind : affected_collection_find (affected_collections override_set ++ [link])
                    collection_ = Some link).
  { unfold affected_collection_find. clear Hbound Hfresh Hactive.
    induction (affected_collections override_set) as [| x l IH]; cbn.
    - rewrite bool_decide_true by reflexivity. reflexivity.
    - cbn in Hout. apply not_elem_of_cons in Hout as [Hx Hl].
      rewrite bool_decide_false by congruence. apply IH, Hl. }
  rewrite Hfind. cbn [link_id link].
  unfold BLI_findindex.
  rewrite (BLI_findindex_from_at link_id _ [] link heap 0 eq_refl Hfresh).
  rewrite (BLI_remlink_at link_id _ [] link heap eq_refl Hfresh), app_nil_r.
  f_equal. cbn [override_set_id override_set_flag active_affected_collection
                scene_properties collection_properties].
  unfold active_index_after_remove, BLI_listbase_count in *.
  set (n := Z.of_nat (length (affected_collections override_set))) in *.
  set (a := active_affected_collection override_set) in *.
  assert (Hvalue : (if a >? 0 + n then a - 1
                    else if a =? 0 + n
                         then if 0 + n =? n then Z.max 0 (0 + n - 1) else a
                         else a) = a).
  { destruct (Z.gtb_spec a (0 + n)); [lia |].
    destruct (Z.eqb_spec a (0 + n)); [| reflexivity].
    destruct (Z.eqb_spec (0 + n) n); lia. }
  rewrite Hvalue. destruct override_set. reflexivity.
Qed.

Lemma BLI_remlink_safe_absent {A : Type} (addr : A -> nat) (l : list A) (p : nat) :
  p ∉ addr <$> l -> BLI_remlink_safe addr l p = (false, l).
Proof. intros Hout. unfold BLI_remlink_safe. rewrite bool_decide_false by exact Hout. reflexivity. Qed.

Lemma BLI_remlink_safe_last {A : Type} (addr : A -> nat) (l : list A) (x : A) (p : nat) :
  addr x = p -> p ∉ addr <$> l -> BLI_remlink_safe addr (l ++ [x]) p = (true, l).
Proof.
  intros Hx Hout. unfold BLI_remlink_safe. rewrite bool_decide_true.
  - rewrite (BLI_remlink_at addr l [] x p Hx Hout), app_nil_r. reflexivity.
  - rewrite fmap_app. apply elem_of_app. right. apply elem_of_cons. left. congruence.
Qed.

(** [BKE_view_layer_override_property_remove] of the property that
    [BKE_view_layer_override_property_add] has just added gives the override
    set back as it was, whichever of the two lists the property was filed
    under; and for an address that is in neither list it answers false and
    leaves the set as it is. *)
Theorem override_property_add_then_remove (heap : nat) (override_set : OverrideSet)
  (p : RNAProperty) :
  (forall dyn_prop,
      dyn_prop ∈ scene_properties override_set ++ collection_properties override_set ->
      (dyn_prop_id dyn_prop < heap)%nat) ->
  (forall heap' override_set' dyn_prop,
      BKE_view_layer_override_property_add heap override_set p
      = (heap', override_set', Some dyn_prop) ->
      BKE_view_layer_override_property_remove override_set' (dyn_prop_id dyn_prop)
      = (true, override_set)) /\
  BKE_view_layer_override_property_remove override_set heap = (false, override_set).
Proof.
  intros Hbound.
  assert (Hscene : heap ∉ dyn_prop_id <$> scene_properties override_set).
  { apply fresh_address. intros x Hx. apply Hbound, elem_of_app. left. exact Hx. }
  assert (Hcollection : heap ∉ dyn_prop_id <$> collection_properties override_set).
  { apply fresh_address. intros x Hx. apply Hbound, elem_of_app. right. exact Hx. }
  split.
  - intros heap' override_set' dyn_prop. unfold BKE_view_layer_override_property_add.
    destruct (rna_owner_id_type p); cbn zeta; cbn match; try discriminate;
      (destruct (rna_path_from_ID p) as [rna_path_str |]; [| discriminate]);
      (destruct (array_len_exceeds (rna_array_length p)); [discriminate |]);
      intros [= <- <- <-]; unfold BKE_view_layer_override_property_remove;
      cbn [scene_properties collection_properties dyn_prop_id override_set_id
           override_set_flag affected_collections active_affected_collection].
    all: try (rewrite (BLI_remlink_safe_absent dyn_prop_id _ heap Hscene); cbn [negb];
              match goal with
              | |- context [BLI_remlink_safe dyn_prop_id (_ ++ [?x]) _] =>
                  rewrite (BLI_remlink_safe_last dyn_prop_id _ x heap eq_refl Hcollection)
              end; cbn [negb]; destruct override_set; reflexivity).
    all: match goal with
         | |- context [BLI_remlink_safe dyn_prop_id (_ ++ [?x]) _] =>
             rewrite (BLI_remlink_safe_last dyn_prop_id _ x heap eq_refl Hscene)
         end; cbn [negb]; destruct override_set; reflexivity.
  - unfold BKE_view_layer_override_property_remove.
    rewrite (BLI_remlink_safe_absent dyn_prop_id _ heap Hscene). cbn [negb].
    rewrite (BLI_remlink_safe_absent dyn_prop_id _ heap Hcollection). cbn [negb].
    destruct override_set. reflexivity.
Qed.

(** ** Selecting the objects of a layer collection *)

Lemma BKE_layer_collection_objects_select_eq collection_at deselect view_layer lc :
  BKE_layer_collection_objects_select collection_at deselect view_layer lc
  = (c ← collection lc;
     lc_collection ← collection_at c;
     if flag_test (col_flag lc_collection) COLLECTION_RESTRICT_SELECT then
       Some (view_layer, false)
     else
       st ← (if negb (flag_test (lc_flag lc) LAYER_COLLECTION_EXCLUDE)
             then objects_select_objects deselect (view_layer, false)
                    (gobject lc_collection)
             else Some (view_layer, false));
       objects_select_children (BKE_layer_collection_objects_select collection_at deselect)
         st (layer_collections lc)).
Proof. destruct lc. reflexivity. Qed.

#[local] Arguments BKE_layer_collection_objects_select : simpl never.

Lemma selection_step_refl deselect base : selection_step deselect base base.
Proof. unfold selection_step. auto. Qed.

Lemma selection_step_trans deselect b1 b2 b3 :
  selection_step deselect b1 b2 -> selection_step deselect b2 b3 ->
  selection_step deselect b1 b3.
Proof.
  intros (Hid1 & Hob1 & H1) (Hid2 & Hob2 & H2).
  split; [congruence |]. split; [congruence |].
  destruct H1 as [H1 | H1]; [rewrite <- H1; exact H2 |].
  destruct H2 as [H2 | H2]; [rewrite H2; right; exact H1 |].
  right. destruct deselect.
  - rewrite H2, H1. apply Z.bits_inj'. intros n Hn.
    repeat rewrite ?Z.land_spec, ?Z.lnot_spec by assumption.
    destruct (Z.testbit (base_flag b1) n), (Z.testbit BASE_SELECTED n); reflexivity.
  - destruct H1 as [Hsel H1], H2 as [_ H2]. split; [exact Hsel |].
    rewrite H2, H1. apply Z.bits_inj'. intros n Hn.
    repeat rewrite ?Z.lor_spec by assumption.
    destruct (Z.testbit (base_flag b1) n), (Z.testbit BASE_SELECTED n); reflexivity.
Qed.

Lemma selection_only_refl deselect v : selection_only deselect v v.
Proof.
  split; [destruct v; reflexivity |].
  apply Forall_Forall2_diag, Forall_forall. intros base _. apply selection_step_refl.
Qed.

Lemma selection_only_trans deselect v1 v2 v3 :
  selection_only deselect v1 v2 -> selection_only deselect v2 v3 ->
  selection_only deselect v1 v3.
Proof.
  intros [Hv2 H12] [Hv3 H23]. split.
  - rewrite Hv3, Hv2. reflexivity.
  - clear Hv2 Hv3. revert H23. generalize (object_bases v3).
    induction H12 as [| b1 b2 l1 l2 Hb _ IH]; intros l3 H23; inversion H23; subst;
      constructor; eauto using selection_step_trans.
Qed.

(** A flag update of one base keeps the registry consistent. *)
Lemma bases_consistent_flag_update heap view_layer a f :
  bases_consistent heap view_layer ->
  bases_consistent heap
    (set_object_bases (base_flag_update a f (object_bases view_layer)) view_layer).
Proof.
  intros (Hobs & Hids & Hbound & Hcoh).
  assert (Hmember : forall base',
    base' ∈ base_flag_update a f (object_bases view_layer) ->
    exists base, base ∈ object_bases view_layer /\
                 object base' = object base /\ base_id base' = base_id base).
  { intros base' Hin. unfold base_flag_update in Hin.
    apply list_elem_of_fmap in Hin as (base & -> & Hin). exists base.
    split; [exact Hin |]. destruct (bool_decide _); auto. }
  split; [cbn; rewrite base_flag_update_object; exact Hobs |].
  split; [cbn; rewrite base_flag_update_id; exact Hids |]. split.
  - cbn. intros base' Hin. destruct (Hmember base' Hin) as (base & Hbase & _ & ->).
    apply Hbound, Hbase.
  - cbn. intros hash Hhash ob addr. rewrite (Hcoh hash Hhash ob addr). split.
    + intros (base & Hbase & Hob & Ha).
      exists (if bool_decide (base_id base = a)
              then set_base_flag (f (base_flag base)) base else base).
      split; [unfold base_flag_update;
              exact (list_elem_of_fmap_2 _ (object_bases view_layer) base Hbase) |].
      destruct (bool_decide _); auto.
    + intros (base' & Hin & Hob & Ha).
      destruct (Hmember base' Hin) as (base & Hbase & Hob' & Ha').
      exists base. split; [exact Hbase |]. split; congruence.
Qed.

(** The update of the base at an address is a [selection_step] of every
    base when it is one of the base at that address. *)
Lemma selection_step_flag_update deselect a f l base :
  NoDup (base_id <$> l) -> base ∈ l -> base_id base = a ->
  selection_step deselect base (set_base_flag (f (base_flag base)) base) ->
  Forall2 (selection_step deselect) l (base_flag_update a f l).
Proof.
  intros Hnd Hbase Ha Hstep. unfold base_flag_update.
  apply Forall2_fmap_r, Forall_Forall2_diag, Forall_forall. intros b Hb.
  unfold compose. case_bool_decide as Hid; [| apply selection_step_refl].
  assert (b = base) as ->; [| exact Hstep].
  apply (NoDup_addr_eq base_id l); auto. congruence.
Qed.

(** One round of the object loop. *)
Lemma objects_select_object_spec heap deselect view_layer changed ob :
  bases_consistent heap view_layer ->
  exists view_layer' changed',
    objects_select_object deselect (view_layer, changed) ob = Some (view_layer', changed') /\
    selection_only deselect view_layer view_layer' /\
    bases_consistent heap view_layer' /\
    (changed' = false ->
     changed = false /\ object_bases view_layer' = object_bases view_layer).
Proof.
  intros Hcons. unfold objects_select_object.
  destruct (BKE_view_layer_base_find_spec heap view_layer ob Hcons)
    as (Hv & _ & Hcons1 & Hfind).
  cbn zeta in *.
  destruct (BKE_view_layer_base_find view_layer ob) as [v1 found]. cbn [fst snd] in *.
  assert (Hbases : object_bases v1 = object_bases view_layer) by (rewrite Hv; reflexivity).
  assert (Hhash : selection_only deselect view_layer v1).
  { split; [rewrite Hbases; exact Hv |]. rewrite Hbases.
    apply Forall_Forall2_diag, Forall_forall. intros b _. apply selection_step_refl. }
  destruct found as [a |]; [| exists v1, changed; auto].
  destruct (proj1 (Hfind a) eq_refl) as (base & Hbase & _ & Ha).
  pose proof Hcons1 as (_ & Hids & _).
  rewrite <- Hbases in Hbase.
  rewrite <- Ha, (node_at_NoDup base_id _ base Hids Hbase). cbn [mbind option_bind].
  assert (Hupdate : forall f,
    selection_step deselect base (set_base_flag (f (base_flag base)) base) ->
    selection_only deselect view_layer
      (set_object_bases (base_flag_update (base_id base) f (object_bases v1)) v1)).
  { intros f Hstep. apply (selection_only_trans _ _ v1); [exact Hhash |].
    split; [reflexivity |]. cbn [object_bases set_object_bases].
    apply (selection_step_flag_update deselect _ f _ base); auto. }
  destruct deselect.
  - destruct (flag_test (base_flag base) BASE_SELECTED).
    + eexists _, _. split; [reflexivity |]. split.
      * apply Hupdate. unfold selection_step. cbn. auto.
      * split; [apply bases_consistent_flag_update, Hcons1 | discriminate].
    + exists v1, changed. auto.
  - destruct (flag_test (base_flag base) BASE_SELECTABLED) eqn:Hselectable; cbn [andb].
    + destruct (flag_test (base_flag base) BASE_SELECTED); cbn [negb].
      * exists v1, changed. auto.
      * eexists _, _. split; [reflexivity |]. split.
        -- apply Hupdate. unfold selection_step. cbn. auto.
        -- split; [apply bases_consistent_flag_update, Hcons1 | discriminate].
    + exists v1, changed. auto.
Qed.

Lemma objects_select_objects_spec heap deselect :
  forall gobject_ view_layer changed,
    bases_consistent heap view_layer ->
    exists view_layer' changed',
      objects_select_objects deselect (view_layer, changed) gobject_
      = Some (view_layer', changed') /\
      selection_only deselect view_layer view_layer' /\
      bases_consistent heap view_layer' /\
      (changed' = false ->
       changed = false /\ object_bases view_layer' = object_bases view_layer).
Proof.
  induction gobject_ as [| ob next IH]; intros view_layer changed Hcons;
    cbn [objects_select_objects].
  - exists view_layer, changed. split; [reflexivity |].
    split; [apply selection_only_refl |]. auto.
  - destruct (objects_select_object_spec heap deselect view_layer changed ob Hcons)
      as (v1 & c1 & -> & Honly1 & Hcons1 & Hsame1).
    cbn [mbind option_bind].
    destruct (IH v1 c1 Hcons1) as (v2 & c2 & -> & Honly2 & Hcons2 & Hsame2).
    exists v2, c2. split; [reflexivity |].
    split; [eapply selection_only_trans; eassumption |]. split; [exact Hcons2 |].
    intros Hc2. destruct (Hsame2 Hc2) as [Hc1 Hb2]. destruct (Hsame1 Hc1) as [Hc Hb1].
    split; [exact Hc | congruence].
Qed.

(** The whole call and the loop over the children. *)
Lemma objects_select_spec heap collection_at deselect :
  forall lc view_layer,
    bases_consistent heap view_layer ->
    (forall node, node ∈ layer_tree_nodes lc ->
       exists c, collection node = Some c /\ is_Some (collection_at c)) ->
    exists view_layer' changed,
      BKE_layer_collection_objects_select collection_at deselect view_layer lc
      = Some (view_layer', changed) /\
      selection_only deselect view_layer view_layer' /\
      bases_consistent heap view_layer' /\
      (changed = false -> object_bases view_layer' = object_bases view_layer).
Proof.
  refine (proj1 (LayerCollection_tree_ind
    (fun lc => forall view_layer,
       bases_consistent heap view_layer ->
       (forall node, node ∈ layer_tree_nodes lc ->
          exists c, collection node = Some c /\ is_Some (collection_at c)) ->
       exists view_layer' changed,
         BKE_layer_collection_objects_select collection_at deselect view_layer lc
         = Some (view_layer', changed) /\
         selection_only deselect view_layer view_layer' /\
         bases_consistent heap view_layer' /\
         (changed = false -> object_bases view_layer' = object_bases view_layer))
    (fun l => forall view_layer changed,
       bases_consistent heap view_layer ->
       (forall node, node ∈ layer_nodes l ->
          exists c, collection node = Some c /\ is_Some (collection_at c)) ->
       exists view_layer' changed',
         objects_select_children (BKE_layer_collection_objects_select collection_at deselect)
           (view_layer, changed) l = Some (view_layer', changed') /\
         selection_only deselect view_layer view_layer' /\
         bases_consistent heap view_layer' /\
         (changed' = false ->
          changed = false /\ object_bases view_layer' = object_bases view_layer)) _ _ _)).
  - intros lc IH view_layer Hcons Hresolved.
    rewrite BKE_layer_collection_objects_select_eq.
    rewrite layer_tree_nodes_eq in Hresolved.
    destruct (Hresolved lc ltac:(apply elem_of_cons; left; reflexivity))
      as (c & -> & [lc_collection Hat]).
    cbn [mbind option_bind]. rewrite Hat. cbn [mbind option_bind].
    destruct (flag_test (col_flag lc_collection) COLLECTION_RESTRICT_SELECT).
    { exists view_layer, false. split; [reflexivity |].
      split; [apply selection_only_refl |]. auto. }
    assert (Hobjects : exists v1 c1,
      (if negb (flag_test (lc_flag lc) LAYER_COLLECTION_EXCLUDE)
       then objects_select_objects deselect (view_layer, false) (gobject lc_collection)
       else Some (view_layer, false)) = Some (v1, c1) /\
      selection_only deselect view_layer v1 /\ bases_consistent heap v1 /\
      (c1 = false -> object_bases v1 = object_bases view_layer)).
    { destruct (flag_test (lc_flag lc) LAYER_COLLECTION_EXCLUDE); cbn [negb].
      - exists view_layer, false. split; [reflexivity |].
        split; [apply selection_only_refl |]. auto.
      - destruct (objects_select_objects_spec heap deselect (gobject lc_collection)
                    view_layer false Hcons) as (v1 & c1 & Hrun & Honly & Hcons1 & Hsame).
        exists v1, c1. split; [exact Hrun |]. split; [exact Honly |].
        split; [exact Hcons1 |]. intros Hc1. apply Hsame, Hc1. }
    destruct Hobjects as (v1 & c1 & -> & Honly1 & Hcons1 & Hsame1).
    cbn [mbind option_bind]. clear Hat.
    destruct (IH v1 c1 Hcons1) as (v2 & c2 & Hrun & Honly2 & Hcons2 & Hsame2).
    { intros node Hnode. apply Hresolved, elem_of_cons. right. exact Hnode. }
    exists v2, c2. split; [exact Hrun |].
    split; [eapply selection_only_trans; eassumption |]. split; [exact Hcons2 |].
    intros Hc2. destruct (Hsame2 Hc2) as [Hc1 Hb2]. rewrite Hb2. apply Hsame1, Hc1.
  - intros view_layer changed Hcons _. exists view_layer, changed.
    split; [reflexivity |]. split; [apply selection_only_refl |]. auto.
  - intros lc l Hlc Hl view_layer changed Hcons Hresolved.
    cbn [objects_select_children]. rewrite layer_nodes_cons in Hresolved.
    destruct (Hlc view_layer Hcons) as (v1 & c1 & -> & Honly1 & Hcons1 & Hsame1).
    { intros node Hnode. apply Hresolved, elem_of_app. left. exact Hnode. }
    cbn [mbind option_bind].
    destruct (Hl v1 (changed || c1) Hcons1) as (v2 & c2 & -> & Honly2 & Hcons2 & Hsame2).
    { intros node Hnode. apply Hresolved, elem_of_app. right. exact Hnode. }
    exists v2, c2. split; [reflexivity |].
    split; [eapply selection_only_trans; eassumption |]. split; [exact Hcons2 |].
    intros Hc2. destruct (Hsame2 Hc2) as [Hor Hb2].
    apply orb_false_iff in Hor as [Hc Hc1].
    split; [exact Hc |]. rewrite Hb2. apply Hsame1, Hc1.
Qed.

(** [BKE_layer_collection_objects_select] on a node of the layer tree of a
    view layer with a consistent base registry, every node below which points
    to a collection, returns and changes nothing but the hash, which it may
    create, and the flag words of bases: a base keeps its address, its object
    and every bit other than [BASE_SELECTED]; deselecting never sets a bit,
    and selecting sets [BASE_SELECTED] only on a base that has a
    [BASE_SELECTABLED] bit.  When it answers false no flag word has changed.
    For a node whose collection has [COLLECTION_RESTRICT_SELECT] it answers
    false without looking at the objects or at the children of the node. *)
Theorem objects_select_selection_only (collection_at : nat -> option Collection)
  (deselect : bool) (heap : nat) (view_layer : ViewLayer) (lc : LayerCollection) :
  bases_consistent heap view_layer ->
  (forall node, node ∈ layer_tree_nodes lc ->
     exists c, collection node = Some c /\ is_Some (collection_at c)) ->
  (exists view_layer' changed,
     BKE_layer_collection_objects_select collection_at deselect view_layer lc
     = Some (view_layer', changed) /\
     selection_only deselect view_layer view_layer' /\
     bases_consistent heap view_layer' /\
     (changed = false -> object_bases view_layer' = object_bases view_layer)) /\
  (forall c lc_collection,
     collection lc = Some c -> collection_at c = Some lc_collection ->
     flag_test (col_flag lc_collection) COLLECTION_RESTRICT_SELECT = true ->
     BKE_layer_collection_objects_select collection_at deselect view_layer lc
     = Some (view_layer, false)).
Proof.
  intros Hcons Hresolved. split.
  - apply (objects_select_spec heap); assumption.
  - intros c lc_collection Hc Hat Hrestrict.
    rewrite BKE_layer_collection_objects_select_eq, Hc. cbn [mbind option_bind].
    rewrite Hat. cbn [mbind option_bind]. rewrite Hrestrict. reflexivity.
Qed.

(** ** What a sync keeps of the view layer *)

Lemma sync_keeps_refl v : sync_keeps v v.
Proof. unfold sync_keeps. tauto. Qed.

Lemma sync_keeps_trans v1 v2 v3 : sync_keeps v1 v2 -> sync_keeps v2 v3 -> sync_keeps v1 v3.
Proof.
  unfold sync_keeps. intros (? & ? & ? & ? & ? & ?) (? & ? & ? & ? & ? & ?).
  split; [auto |]. repeat split; congruence.
Qed.

Lemma tree_only_sync_keeps v v' : tree_only v v' -> sync_keeps v v'.
Proof. unfold tree_only. intros ->. unfold sync_keeps. cbn. tauto. Qed.

Lemma layer_collection_sync_object_keeps child_restrict s ob :
  sync_keeps (ss_view_layer s)
    (ss_view_layer (layer_collection_sync_object child_restrict s ob)).
Proof.
  unfold layer_collection_sync_object.
  destruct (bases_hash _ !! ob) as [a |].
  - destruct (base_is_first_or_last _ _); [apply sync_keeps_refl |].
    destruct (node_at _ _ _); cbn; unfold sync_keeps; cbn; tauto.
  - cbn. unfold sync_keeps. cbn. repeat split; eauto.
Qed.

Lemma layer_collection_sync_objects_keeps lc_flag_ child_restrict obs s :
  sync_keeps (ss_view_layer s)
    (ss_view_layer (layer_collection_sync_objects lc_flag_ child_restrict obs s)).
Proof.
  unfold layer_collection_sync_objects.
  destruct (flag_test _ _); [apply sync_keeps_refl |].
  revert s. induction obs as [| ob obs IH]; intros s; cbn [fold_left].
  - apply sync_keeps_refl.
  - eapply sync_keeps_trans; [apply layer_collection_sync_object_keeps | apply IH].
Qed.

Lemma layer_collection_sync_keeps_from_loop lb_scene s lb_layer parent_exclude
  parent_restrict :
  (forall s lb_layer new_lb_layer,
      sync_keeps (ss_view_layer s)
        (ss_view_layer
           (layer_collection_sync_loop layer_collection_sync_child lb_scene
              (s, lb_layer, new_lb_layer) parent_exclude parent_restrict).1.1)) ->
  sync_keeps (ss_view_layer s)
    (ss_view_layer
       (layer_collection_sync lb_scene s lb_layer parent_exclude parent_restrict).1).
Proof.
  intros Hloop. rewrite layer_collection_sync_eq. cbn zeta. cbn [fst ss_view_layer].
  eapply sync_keeps_trans;
    [apply tree_only_sync_keeps, layer_collection_sync_prune_tree_only |].
  eapply sync_keeps_trans; [| apply tree_only_sync_keeps, lb_set_tree_only].
  apply (Hloop (mkSyncState _ _ _)).
Qed.

Lemma layer_collection_sync_loop_keeps :
  forall lb_scene s lb_layer new_lb_layer parent_exclude parent_restrict,
    sync_keeps (ss_view_layer s)
      (ss_view_layer
         (layer_collection_sync_loop layer_collection_sync_child lb_scene
            (s, lb_layer, new_lb_layer) parent_exclude parent_restrict).1.1).
Proof.
  refine (proj2 (Collection_tree_ind
    (fun child => forall s lb_layer new_lb_layer parent_exclude parent_restrict,
       sync_keeps (ss_view_layer s)
         (ss_view_layer
            (layer_collection_sync_child child (s, lb_layer, new_lb_layer) parent_exclude
               parent_restrict).1.1))
    (fun lb_scene => forall s lb_layer new_lb_layer parent_exclude parent_restrict,
       sync_keeps (ss_view_layer s)
         (ss_view_layer
            (layer_collection_sync_loop layer_collection_sync_child lb_scene
               (s, lb_layer, new_lb_layer) parent_exclude parent_restrict).1.1)) _ _ _)).
  - intros child IH s lb_layer new_lb_layer parent_exclude parent_restrict.
    rewrite layer_collection_sync_child_eq. cbn zeta. cbn [fst].
    eapply sync_keeps_trans; [| apply layer_collection_sync_objects_keeps].
    eapply sync_keeps_trans;
      [apply tree_only_sync_keeps, (layer_collection_sync_lookup_tree_step child s) |].
    apply layer_collection_sync_keeps_from_loop. intros s' lb' new'. apply IH.
  - intros s lb_layer new_lb_layer parent_exclude parent_restrict. apply sync_keeps_refl.
  - intros child lb_scene Hchild Hrest s lb_layer new_lb_layer parent_exclude parent_restrict.
    cbn [layer_collection_sync_loop].
    pose proof (Hchild s lb_layer new_lb_layer parent_exclude parent_restrict) as Hstep.
    destruct (layer_collection_sync_child _ _ _ _) as [[s1 lb1] new1]. cbn [fst] in Hstep.
    eapply sync_keeps_trans; [exact Hstep | apply Hrest].
Qed.

Lemma layer_collection_sync_keeps lb_scene s lb_layer parent_exclude parent_restrict :
  sync_keeps (ss_view_layer s)
    (ss_view_layer
       (layer_collection_sync lb_scene s lb_layer parent_exclude parent_restrict).1).
Proof.
  apply layer_collection_sync_keeps_from_loop. intros s' lb' new'.
  apply layer_collection_sync_loop_keeps.
Qed.

(** The loop over the leftover bases clears the active base when it is one
    of them. *)
Lemma layer_collection_sync_remove_bases_basact (l : list Base) (view_layer : ViewLayer) :
  let view_layer' := fold_left layer_collection_sync_remove_base l view_layer in
  (is_Some (object_bases_hash view_layer) -> is_Some (object_bases_hash view_layer')) /\
  vl_flag view_layer' = vl_flag view_layer /\
  object_bases_array view_layer' = object_bases_array view_layer /\
  override_sets view_layer' = override_sets view_layer /\
  active_override_set view_layer' = active_override_set view_layer /\
  basact view_layer'
  = match basact view_layer with
    | Some a => if bool_decide (a ∈ base_id <$> l) then None else Some a
    | None => None
    end.
Proof.
  revert view_layer. induction l as [| b l IH]; intros view_layer; cbn [fold_left].
  - cbn zeta. repeat split; auto. destruct (basact view_layer) as [a |]; [| reflexivity].
    rewrite bool_decide_false by apply not_elem_of_nil. reflexivity.
  - destruct (IH (layer_collection_sync_remove_base view_layer b))
      as (Hhash & Hflag & Harray & Hsets & Hactive & Hbasact).
    assert (Hstep :
      is_Some (object_bases_hash (layer_collection_sync_remove_base view_layer b)) /\
      vl_flag (layer_collection_sync_remove_base view_layer b) = vl_flag view_layer /\
      object_bases_array (layer_collection_sync_remove_base view_layer b)
      = object_bases_array view_layer /\
      override_sets (layer_collection_sync_remove_base view_layer b)
      = override_sets view_layer /\
      active_override_set (layer_collection_sync_remove_base view_layer b)
      = active_override_set view_layer /\
      basact (layer_collection_sync_remove_base view_layer b)
      = match basact view_layer with
        | Some a => if bool_decide (a = base_id b) then None else Some a
        | None => None
        end).
    { unfold layer_collection_sync_remove_base.
      destruct (decide (basact view_layer = Some (base_id b))) as [Heq | Hne]; cbn.
      - rewrite Heq, bool_decide_true by reflexivity. repeat split; eauto.
      - repeat split; eauto. destruct (basact view_layer) as [a |]; [| reflexivity].
        rewrite bool_decide_false by congruence. reflexivity. }
    destruct Hstep as (Hhash1 & Hflag1 & Harray1 & Hsets1 & Hactive1 & Hbasact1).
    cbn zeta in *. rewrite Hflag, Harray, Hsets, Hactive, Hbasact, Hbasact1.
    split; [intros _; apply Hhash, Hhash1 |]. repeat split; auto.
    destruct (basact view_layer) as [a |]; [| reflexivity].
    rewrite fmap_cons. destruct (decide (a = base_id b)) as [-> | Hne].
    + rewrite !bool_decide_true; [reflexivity | | reflexivity].
      apply elem_of_cons. left. reflexivity.
    + rewrite (bool_decide_false _ Hne).
      destruct (decide (a ∈ base_id <$> l)) as [Hin | Hout].
      * rewrite !bool_decide_true; [reflexivity | | exact Hin].
        apply elem_of_cons. right. exact Hin.
      * rewrite !bool_decide_false; [reflexivity | | exact Hout].
        intros Hin. apply elem_of_cons in Hin as [-> | Hin]; [congruence | auto].
Qed.

(** The registry of a sync that starts: the hash exists and every flag
    word has lost the four evaluated bits. *)
Lemma sync_inv_cleared heap view_layer :
  bases_consistent heap view_layer ->
  let v1 := view_layer_bases_hash_create (set_object_bases_array None view_layer) in
  let cleared := fun base =>
    set_base_flag (Z.land (base_flag base) (Z.lnot BASE_SYNC_FLAGS)) base in
  sync_inv (mkSyncState heap (set_object_bases (cleared <$> object_bases v1) v1) []).
Proof.
  intros Hcons. pose proof Hcons as (Hobs & Hids & Hbound & _). cbn zeta.
  set (cleared := fun base => set_base_flag (Z.land (base_flag base) (Z.lnot BASE_SYNC_FLAGS))
                                base).
  set (v1 := view_layer_bases_hash_create (set_object_bases_array None view_layer)).
  assert (Hcons1 : bases_consistent heap (set_object_bases_array None view_layer))
    by exact Hcons.
  assert (Hbases1 : object_bases v1 = object_bases view_layer)
    by apply (view_layer_bases_hash_create_fields (set_object_bases_array None view_layer)).
  unfold sync_inv, sync_bases. cbn. rewrite app_nil_r, Hbases1.
  rewrite <- !list_fmap_compose.
  split; [exact Hobs |]. split; [exact Hids |]. split.
  - intros base Hbase. apply list_elem_of_fmap in Hbase as (base0 & -> & Hbase0).
    exact (Hbound _ Hbase0).
  - intros ob a.
    change (bases_hash (set_object_bases (cleared <$> object_bases view_layer) v1))
      with (bases_hash v1). unfold v1.
    rewrite (view_layer_bases_hash_create_coherent heap _ ob a Hcons1). cbn. split.
    + intros (base & Hbase & Hob & Hid). exists (cleared base).
      split; [apply list_elem_of_fmap_2, Hbase | auto].
    + intros (base & Hbase & Hob & Hid).
      apply list_elem_of_fmap in Hbase as (base0 & -> & Hbase0). eauto.
Qed.

(** The fields of the rebuilt view layer the sync does not rebuild: the
    array cache is freed, the hash exists, and the active base is kept when
    its base is in the new base list and cleared when it is not. *)
Lemma layer_collection_sync_rebuild_fields master heap view_layer :
  bases_consistent heap view_layer ->
  let r := layer_collection_sync_rebuild master heap view_layer in
  vl_flag r.2 = vl_flag view_layer /\
  object_bases_array r.2 = None /\
  is_Some (object_bases_hash r.2) /\
  override_sets r.2 = override_sets view_layer /\
  active_override_set r.2 = active_override_set view_layer /\
  ((forall a, basact view_layer = Some a -> a ∈ base_id <$> object_bases view_layer) ->
   basact r.2
   = match basact view_layer with
     | Some a => if bool_decide (a ∈ base_id <$> object_bases r.2) then Some a else None
     | None => None
     end).
Proof.
  intros Hcons. cbn zeta. unfold layer_collection_sync_rebuild.
  pose proof (sync_inv_cleared heap view_layer Hcons) as Hinv0. cbn zeta in Hinv0.
  set (cleared := fun base => set_base_flag (Z.land (base_flag base) (Z.lnot BASE_SYNC_FLAGS))
                                base) in *.
  set (v1 := view_layer_bases_hash_create (set_object_bases_array None view_layer)) in *.
  set (v2 := set_object_bases (cleared <$> object_bases v1) v1) in *.
  assert (Hbases1 : object_bases v1 = object_bases view_layer)
    by apply (view_layer_bases_hash_create_fields (set_object_bases_array None view_layer)).
  assert (Hkeeps2 : vl_flag v2 = vl_flag view_layer /\ object_bases_array v2 = None /\
                    is_Some (object_bases_hash v2) /\
                    override_sets v2 = override_sets view_layer /\
                    active_override_set v2 = active_override_set view_layer /\
                    basact v2 = basact view_layer).
  { unfold v2, v1, view_layer_bases_hash_create. cbn [object_bases_hash set_object_bases_array].
    destruct (object_bases_hash view_layer) eqn:Hhash; cbn; rewrite ?Hhash;
      repeat split; eauto. }
  destruct Hkeeps2 as (Hflag2 & Harray2 & Hhash2 & Hsets2 & Hactive2 & Hbasact2).
  pose proof (layer_collection_sync_visited [master] (mkSyncState heap v2 []) lb_view_layer
                0 0 [] eq_refl Hinv0) as [HinvF Hvisit].
  pose proof (layer_collection_sync_keeps [master] (mkSyncState heap v2 []) lb_view_layer 0 0)
    as (HhashF & HflagF & HarrayF & HbasactF & HsetsF & HactiveF).
  cbn zeta in *. cbn [ss_view_layer] in *.
  destruct (layer_collection_sync [master] (mkSyncState heap v2 []) lb_view_layer 0 0)
    as [sF t]. cbn [fst snd] in *.
  destruct (layer_collection_sync_remove_bases_basact (object_bases (ss_view_layer sF))
              (ss_view_layer sF)) as (HhashR & HflagR & HarrayR & HsetsR & HactiveR & HbasactR).
  cbn zeta in *.
  set (vF := fold_left layer_collection_sync_remove_base _ _) in *.
  cbn [vl_flag object_bases_array object_bases_hash override_sets active_override_set basact
       object_bases set_object_bases].
  split; [congruence |]. split; [congruence |]. split; [auto |].
  split; [congruence |]. split; [congruence |]. intros Hbasact.
  rewrite HbasactR, HbasactF, Hbasact2.
  destruct (basact view_layer) as [a |] eqn:Ha; [| reflexivity].
  destruct HinvF as (_ & HidsF & _). destruct Hvisit as [_ Hkept _ _].
  unfold sync_bases in *. cbn [ss_view_layer ss_new_object_bases object_bases] in *.
  specialize (Hbasact a eq_refl). apply list_elem_of_fmap in Hbasact as (base & -> & Hbase).
  assert (Hcleared : cleared base ∈ object_bases v2 ++ []).
  { rewrite app_nil_r. unfold v2. cbn. rewrite Hbases1. apply list_elem_of_fmap_2, Hbase. }
  apply Hkept in Hcleared.
  set (moved := base_granted _ (cleared base)) in Hcleared.
  assert (Hid : base_id moved = base_id base) by reflexivity.
  rewrite fmap_app in HidsF. apply NoDup_app in HidsF as (_ & Hdisjoint & _).
  apply elem_of_app in Hcleared as [Hleft | Hnew].
  - assert (Hin : base_id base ∈ base_id <$> object_bases (ss_view_layer sF)).
    { rewrite <- Hid. apply list_elem_of_fmap_2, Hleft. }
    rewrite (bool_decide_true _ Hin), bool_decide_false; [reflexivity |].
    apply Hdisjoint, Hin.
  - assert (Hin : base_id base ∈ base_id <$> ss_new_object_bases sF).
    { rewrite <- Hid. apply list_elem_of_fmap_2, Hnew. }
    rewrite (bool_decide_true _ Hin), bool_decide_false; [reflexivity |].
    intros Hleft. exact (Hdisjoint _ Hleft Hin).
Qed.

(** After a sync of a view layer with a consistent base registry the
    registry is consistent again: no object and no address occurs twice in
    the base list, and the hash, which exists, maps exactly the objects of
    the list to the addresses of their bases.  The array cache is freed, and
    the flag word and the override sets of the view layer are as they
    were. *)
Theorem sync_registry_coherent (scene : Scene) (master : Collection)
  (heap heap' : nat) (view_layer view_layer' : ViewLayer) :
  master_collection scene = Some master ->
  bases_consistent heap view_layer ->
  BKE_layer_collection_sync scene heap view_layer = Some (heap', view_layer') ->
  bases_consistent heap' view_layer' /\
  is_Some (object_bases_hash view_layer') /\
  object_bases_array view_layer' = None /\
  (heap <= heap')%nat /\
  vl_flag view_layer' = vl_flag view_layer /\
  override_sets view_layer' = override_sets view_layer /\
  active_override_set view_layer' = active_override_set view_layer.
Proof.
  intros Hmaster Hcons Hsync.
  destruct (BKE_layer_collection_sync_rebuilt _ _ _ _ _ _ Hmaster Hsync) as (-> & _ & Hv).
  pose proof (layer_collection_sync_rebuild_spec master heap view_layer Hcons)
    as (Hcons' & _ & _ & _ & Hheap).
  pose proof (layer_collection_sync_rebuild_fields master heap view_layer Hcons)
    as (Hflag & Harray & Hhash & Hsets & Hactive & _).
  cbn zeta in *.
  assert (Hcons2 : bases_consistent
                     (layer_collection_sync_rebuild master heap view_layer).1 view_layer')
    by (rewrite Hv; exact Hcons').
  split; [exact Hcons2 |]. rewrite Hv. cbn. auto 10.
Qed.

(** A sync never leaves the active base dangling.  When the active base of
    the view layer was one of its bases, it is still the active base after
    the sync if that base is in the new base list, and the view layer has no
    active base if the base was removed. *)
Theorem sync_active_base (scene : Scene) (master : Collection)
  (heap heap' : nat) (view_layer view_layer' : ViewLayer) :
  master_collection scene = Some master ->
  bases_consistent heap view_layer ->
  (forall a, basact view_layer = Some a -> a ∈ base_id <$> object_bases view_layer) ->
  BKE_layer_collection_sync scene heap view_layer = Some (heap', view_layer') ->
  match basact view_layer' with
  | Some a => basact view_layer = Some a /\ a ∈ base_id <$> object_bases view_layer'
  | None =>
      forall a, basact view_layer = Some a -> a ∉ base_id <$> object_bases view_layer'
  end.
Proof.
  intros Hmaster Hcons Hbasact Hsync.
  destruct (BKE_layer_collection_sync_rebuilt _ _ _ _ _ _ Hmaster Hsync) as (-> & _ & Hv).
  pose proof (layer_collection_sync_rebuild_fields master heap view_layer Hcons)
    as (_ & _ & _ & _ & _ & Hactive).
  cbn zeta in *. specialize (Hactive Hbasact). rewrite Hv.
  cbn [basact object_bases set_active_collection]. rewrite Hactive.
  destruct (basact view_layer) as [a |]; [| discriminate].
  case_bool_decide as Hin.
  - split; [reflexivity | exact Hin].
  - intros a' [= <-]. exact Hin.
Qed.

Lemma land_lor_outside f g m :
  Z.land g m = g ->
  Z.land (Z.lor (Z.land f (Z.lnot m)) g) (Z.lnot m) = Z.land f (Z.lnot m) /\
  Z.land g (Z.lnot m) = 0.
Proof.
  intros Hg. split; apply Z.bits_inj'; intros n Hn;
    apply (f_equal (fun z => Z.testbit z n)) in Hg;
    rewrite Z.land_spec in Hg;
    repeat rewrite ?Z.land_spec, ?Z.lor_spec, ?Z.lnot_spec, ?Z.bits_0 by assumption;
    destruct (Z.testbit f n), (Z.testbit g n), (Z.testbit m n); cbn in *; congruence.
Qed.

(** A sync keeps the identity and the local state of the bases.  The base
    of an object that a non-excluded path still reaches is in the new base
    list at the address it had, with every bit other than the four evaluated
    ones ([BASE_SELECTED] among them, when it is none of the four) as it
    was; the base of an object that no such path reaches is removed.  A base
    of the new list for an object that had none has an address handed out
    during the sync and none but evaluated bits. *)
Theorem sync_keeps_bases (scene : Scene) (master : Collection)
  (heap heap' : nat) (view_layer view_layer' : ViewLayer) :
  master_collection scene = Some master ->
  bases_consistent heap view_layer ->
  BKE_layer_collection_sync scene heap view_layer = Some (heap', view_layer') ->
  let paths := layer_paths [master] (vl_layer_collections view_layer') [] in
  (forall base, base ∈ object_bases view_layer ->
     if bool_decide (object base ∈ paths.*1) then
       exists base', base' ∈ object_bases view_layer' /\
         base_id base' = base_id base /\ object base' = object base /\
         Z.land (base_flag base') (Z.lnot BASE_SYNC_FLAGS)
         = Z.land (base_flag base) (Z.lnot BASE_SYNC_FLAGS)
     else object base ∉ object <$> object_bases view_layer') /\
  (forall base', base' ∈ object_bases view_layer' ->
     object base' ∉ object <$> object_bases view_layer ->
     (heap <= base_id base' < heap')%nat /\
     Z.land (base_flag base') (Z.lnot BASE_SYNC_FLAGS) = 0).
Proof.
  intros Hmaster Hcons Hsync paths.
  pose proof (sync_bases_are_path_objects _ _ _ _ _ _ Hmaster Hcons Hsync) as Hobjects.
  destruct (BKE_layer_collection_sync_rebuilt _ _ _ _ _ _ Hmaster Hsync) as (-> & _ & Hv).
  pose proof (layer_collection_sync_rebuild_spec master heap view_layer Hcons)
    as (_ & _ & _ & Horigin & _).
  cbn zeta in *.
  assert (Hbases : object_bases view_layer'
                   = object_bases (layer_collection_sync_rebuild master heap view_layer).2)
    by (rewrite Hv; reflexivity).
  assert (Hroots : vl_layer_collections view_layer'
                   = vl_layer_collections
                       (layer_collection_sync_rebuild master heap view_layer).2)
    by (rewrite Hv; reflexivity).
  rewrite <- Hbases, <- Hroots in Horigin. fold paths in Horigin.
  destruct Hcons as (Hobs & _).
  split.
  - intros base Hbase. case_bool_decide as Hpath.
    + apply Hobjects in Hpath. apply list_elem_of_fmap in Hpath as (base' & Hob & Hbase').
      exists base'. split; [exact Hbase' |].
      destruct (Horigin base' Hbase') as [(base0 & Hbase0 & ->) | (Hnew & _)].
      * cbn in Hob.
        assert (base0 = base) as -> by (apply (NoDup_addr_eq object _ _ _ Hobs); auto).
        cbn. split; [reflexivity |]. split; [reflexivity |].
        apply land_lor_outside. rewrite paths_grant_visits.
        apply visits_grant_in_sync_flags.
      * exfalso. apply Hnew. rewrite <- Hob. apply list_elem_of_fmap_2, Hbase.
    + intros Hin. apply Hpath, Hobjects, Hin.
  - intros base' Hbase' Hnew.
    destruct (Horigin base' Hbase') as [(base0 & Hbase0 & ->) | (_ & Hfresh & Hflag)].
    + exfalso. apply Hnew. cbn. apply list_elem_of_fmap_2, Hbase0.
    + split; [exact Hfresh |]. rewrite Hflag.
      apply (land_lor_outside 0). rewrite paths_grant_visits.
      apply visits_grant_in_sync_flags.
Qed.

(** ** The sync of a new view layer *)

(** From an empty layer list the second loop adds a new node for every
    collection, each with the exclusion flag it was called with. *)
Lemma layer_collection_sync_loop_fresh :
  forall lb_scene s lb_layer new_lb_layer parent_exclude parent_restrict,
    lb_get (ss_view_layer s) lb_layer = [] ->
    let st := layer_collection_sync_loop layer_collection_sync_child lb_scene
                (s, lb_layer, new_lb_layer) parent_exclude parent_restrict in
    exists added,
      st.2 = new_lb_layer ++ added /\
      (forall lc, lc ∈ layer_nodes added -> lc_flag lc = parent_exclude) /\
      lb_get (ss_view_layer st.1.1) st.1.2 = [].
Proof.
  refine (proj2 (Collection_tree_ind
    (fun child => forall s lb_layer new_lb_layer parent_exclude parent_restrict,
       lb_get (ss_view_layer s) lb_layer = [] ->
       let st := layer_collection_sync_child child (s, lb_layer, new_lb_layer)
                   parent_exclude parent_restrict in
       exists lc,
         st.2 = new_lb_layer ++ [lc] /\
         (forall x, x ∈ layer_tree_nodes lc -> lc_flag x = parent_exclude) /\
         lb_get (ss_view_layer st.1.1) st.1.2 = [])
    (fun lb_scene => forall s lb_layer new_lb_layer parent_exclude parent_restrict,
       lb_get (ss_view_layer s) lb_layer = [] ->
       let st := layer_collection_sync_loop layer_collection_sync_child lb_scene
                   (s, lb_layer, new_lb_layer) parent_exclude parent_restrict in
       exists added,
         st.2 = new_lb_layer ++ added /\
         (forall lc, lc ∈ layer_nodes added -> lc_flag lc = parent_exclude) /\
         lb_get (ss_view_layer st.1.1) st.1.2 = []) _ _ _)).
  - intros child IH s lb_layer new_lb_layer parent_exclude parent_restrict Hempty.
    cbn zeta. rewrite layer_collection_sync_child_eq. cbn zeta.
    assert (Hfound : layer_collection_sync_lookup child s lb_layer parent_exclude
                     = (mkSyncState (S (ss_heap s)) (ss_view_layer s) (ss_new_object_bases s),
                        lb_layer,
                        mkLayerCollection (ss_heap s) (Some (col_id child)) parent_exclude [])).
    { unfold layer_collection_sync_lookup. rewrite Hempty. reflexivity. }
    rewrite Hfound. cbn [fst snd lc_id collection lc_flag layer_collections].
    set (s1 := mkSyncState (S (ss_heap s)) (ss_view_layer s) (ss_new_object_bases s)).
    set (restrict := child_restrict_of parent_restrict child).
    pose proof (layer_collection_sync_local (children child) s1 [] parent_exclude restrict)
      as Hroots.
    assert (Hsub : forall lc,
      lc ∈ layer_nodes (layer_collection_sync (children child) s1 (lb_local [])
                          parent_exclude restrict).2 ->
      lc_flag lc = parent_exclude).
    { rewrite layer_collection_sync_eq. cbn zeta. cbn [lb_get layer_collection_sync_prune fst snd].
      edestruct (IH (mkSyncState (ss_heap s1) (ss_view_layer s1) (ss_new_object_bases s1))
                   (lb_local []) [] parent_exclude restrict eq_refl)
        as (added & Hadded & Hflags & _).
      cbn zeta in Hadded. rewrite Hadded. exact Hflags. }
    eexists. split; [reflexivity |]. split.
    + intros x Hx. rewrite layer_tree_nodes_eq in Hx. cbn [layer_collections lc_flag] in Hx.
      apply elem_of_cons in Hx as [-> | Hx]; [reflexivity | apply Hsub, Hx].
    + rewrite (lb_get_roots (ss_view_layer s) _ lb_layer); [exact Hempty |].
      destruct (layer_collection_sync_objects_tree parent_exclude restrict (gobject child)
                  (layer_collection_sync (children child) s1 (lb_local [])
                     parent_exclude restrict).1) as [-> _].
      exact Hroots.
  - intros s lb_layer new_lb_layer parent_exclude parent_restrict Hempty.
    exists []. cbn. rewrite app_nil_r. split; [reflexivity |]. split; [| exact Hempty].
    intros lc Hlc. apply elem_of_nil in Hlc. contradiction.
  - intros child lb_scene Hchild Hrest s lb_layer new_lb_layer parent_exclude parent_restrict
      Hempty.
    cbn zeta. cbn [layer_collection_sync_loop].
    destruct (Hchild s lb_layer new_lb_layer parent_exclude parent_restrict Hempty)
      as (lc & Hlc & Hflags & Hempty1).
    cbn zeta in *.
    destruct (layer_collection_sync_child _ _ _ _) as [[s1 lb1] new1]. cbn [fst snd] in *.
    subst new1.
    destruct (Hrest s1 lb1 (new_lb_layer ++ [lc]) parent_exclude parent_restrict Hempty1)
      as (added & Hadded & Hflags' & Hempty2).
    cbn zeta in *. exists (lc :: added). rewrite Hadded, <- app_assoc.
    split; [reflexivity |]. split; [| exact Hempty2].
    intros x Hx. rewrite layer_nodes_cons in Hx.
    apply elem_of_app in Hx as [Hx | Hx]; auto.
Qed.

(** Where no layer collection is excluded, a path ends at every object of
    every collection. *)
Lemma layer_paths_cover lb_scene lb_layer :
  mirrors lb_scene lb_layer ->
  (forall lc, lc ∈ layer_nodes lb_layer ->
     flag_test (lc_flag lc) LAYER_COLLECTION_EXCLUDE = false) ->
  forall prefix c ob,
    c ∈ collection_nodes lb_scene -> ob ∈ gobject c ->
    ob ∈ (layer_paths lb_scene lb_layer prefix).*1.
Proof.
  induction 1 as [| child lc lb_scene lb_layer Hcol Hsub IHsub Hrest IHrest];
    intros Hflags prefix c ob Hc Hob.
  - apply elem_of_nil in Hc. contradiction.
  - unfold layer_paths. cbn [layer_paths_loop].
    fold (layer_paths lb_scene lb_layer prefix).
    rewrite layer_child_paths_eq, !fmap_app.
    rewrite collection_nodes_first in Hc.
    assert (Hflag : flag_test (lc_flag lc) LAYER_COLLECTION_EXCLUDE = false).
    { apply Hflags. rewrite layer_nodes_first. apply elem_of_cons. left. reflexivity. }
    rewrite Hflag.
    apply elem_of_cons in Hc as [-> | Hc]; [| apply elem_of_app in Hc as [Hc | Hc]].
    + apply elem_of_app. left. apply elem_of_app. right.
      rewrite <- list_fmap_compose. cbn. rewrite list_fmap_id. exact Hob.
    + apply elem_of_app. left. apply elem_of_app. left.
      apply (IHsub ltac:(intros x Hx; apply Hflags; rewrite layer_nodes_first;
                          apply elem_of_cons; right; apply elem_of_app; left; exact Hx)
               _ c ob Hc Hob).
    + apply elem_of_app. right.
      apply (IHrest ltac:(intros x Hx; apply Hflags; rewrite layer_nodes_first;
                           apply elem_of_cons; right; apply elem_of_app; right; exact Hx)
               _ c ob Hc Hob).
Qed.

(** The sync of a view layer that has just been allocated, as
    [BKE_view_layer_add] runs it: the sync returns; the view layer gets a
    layer collection for every collection of the scene, none of them
    excluded; every object of every collection of the scene gets a base; and
    the layer collection of the master collection becomes the active one. *)
Theorem sync_new_view_layer (scene : Scene) (master : Collection) (heap : nat)
  (view_layer : ViewLayer) :
  master_collection scene = Some master ->
  vl_layer_collections view_layer = [] ->
  active_collection view_layer = None ->
  object_bases view_layer = [] ->
  object_bases_hash view_layer = None ->
  exists heap' view_layer',
    BKE_layer_collection_sync scene heap view_layer = Some (heap', view_layer') /\
    mirrors [master] (vl_layer_collections view_layer') /\
    (forall lc, lc ∈ layer_nodes (vl_layer_collections view_layer') -> lc_flag lc = 0) /\
    (forall c ob, c ∈ collection_nodes [master] -> ob ∈ gobject c ->
       ob ∈ object <$> object_bases view_layer') /\
    active_collection view_layer' = lc_id <$> head (vl_layer_collections view_layer').
Proof.
  intros Hmaster Hroots Hactive Hbases Hhash.
  assert (Hcons : bases_consistent heap view_layer).
  { unfold bases_consistent. rewrite Hbases, Hhash. cbn.
    split; [constructor |]. split; [constructor |]. split; [| discriminate].
    intros base Hbase. apply elem_of_nil in Hbase. contradiction. }
  destruct (layer_collection_sync_rebuild_tree master heap view_layer)
    as (Hroots0 & Hactive0 & Hroots1 & Hactive1 & _).
  cbn zeta in *.
  set (cleared := set_object_bases _ _) in *.
  assert (Hflags : forall lc,
    lc ∈ layer_nodes
           (vl_layer_collections (layer_collection_sync_rebuild master heap view_layer).2) ->
    lc_flag lc = 0).
  { rewrite Hroots1, layer_collection_sync_eq. cbn zeta. cbn [lb_get ss_view_layer fst snd].
    rewrite Hroots0, Hroots. cbn [layer_collection_sync_prune fst snd].
    edestruct (layer_collection_sync_loop_fresh [master]
                 (mkSyncState heap cleared []) lb_view_layer [] 0 0)
      as (added & Hadded & Hflags & _).
    { cbn [lb_get ss_view_layer]. rewrite Hroots0. exact Hroots. }
    cbn zeta in Hadded. cbn [ss_heap ss_new_object_bases]. rewrite Hadded. exact Hflags. }
  assert (Hnone : active_collection (layer_collection_sync_rebuild master heap view_layer).2
                  = None).
  { rewrite Hactive1.
    destruct (layer_collection_sync_top master (mkSyncState heap cleared []))
      as (freed & -> & _).
    { left. cbn [ss_view_layer]. rewrite Hroots0. exact Hroots. }
    cbn [ss_view_layer]. rewrite Hactive0, Hactive. reflexivity. }
  assert (Hsync : BKE_layer_collection_sync scene heap view_layer
                  = Some ((layer_collection_sync_rebuild master heap view_layer).1,
                          set_active_collection
                            (lc_id <$> head (vl_layer_collections
                               (layer_collection_sync_rebuild master heap view_layer).2))
                            (layer_collection_sync_rebuild master heap view_layer).2)).
  { unfold BKE_layer_collection_sync. rewrite Hmaster.
    destruct (layer_collection_sync_rebuild master heap view_layer) as [heap1 v1].
    cbn [fst snd] in *. unfold layer_collection_sync_active. rewrite Hnone. reflexivity. }
  eexists _, _. split; [exact Hsync |].
  pose proof (layer_collection_sync_rebuild_mirrors master heap view_layer) as Hmirror.
  split; [exact Hmirror |]. split; [exact Hflags |]. split; [| reflexivity].
  intros c ob Hc Hob.
  apply (sync_bases_are_path_objects _ _ _ _ _ _ Hmaster Hcons Hsync).
  cbn [vl_layer_collections set_active_collection].
  refine (layer_paths_cover _ _ Hmirror _ [] c ob Hc Hob).
  intros lc Hlc. rewrite (Hflags lc Hlc). reflexivity.
Qed.

(** ** Syncing the view layers of a scene *)

Lemma bases_consistent_heap heap heap' view_layer :
  (heap <= heap')%nat -> bases_consistent heap view_layer ->
  bases_consistent heap' view_layer.
Proof.
  intros Hle (Hobs & Hids & Hbound & Hcoh). repeat split; auto.
  - intros base Hbase. specialize (Hbound base Hbase). lia.
  - apply Hcoh. assumption.
  - apply Hcoh. assumption.
Qed.

(** [BKE_scene_collection_sync] syncs every view layer of the scene, in
    the order of the list and with the same collection tree: afterwards the
    scene has the same number of view layers, each with a layer tree that
    mirrors the collection tree of the scene, so with the same number of
    layer collections, and each with a consistent base registry. *)
Theorem scene_collection_sync_all_view_layers (scene : Scene) (master : Collection)
  (heap heap' : nat) (scene' : Scene) :
  master_collection scene = Some master ->
  (forall view_layer, view_layer ∈ view_layers scene -> bases_consistent heap view_layer) ->
  BKE_scene_collection_sync scene heap = Some (heap', scene') ->
  master_collection scene' = Some master /\
  scene_set scene' = scene_set scene /\
  length (view_layers scene') = length (view_layers scene) /\
  (heap <= heap')%nat /\
  forall view_layer', view_layer' ∈ view_layers scene' ->
    mirrors [master] (vl_layer_collections view_layer') /\
    BKE_layer_collection_count view_layer' = Z.of_nat (length (collection_nodes [master])) /\
    bases_consistent heap' view_layer'.
Proof.
  intros Hmaster Hcons. unfold BKE_scene_collection_sync.
  assert (Hloop : forall l heap heap' l',
    (forall view_layer, view_layer ∈ l -> bases_consistent heap view_layer) ->
    scene_collection_sync_loop scene heap l = Some (heap', l') ->
    length l' = length l /\ (heap <= heap')%nat /\
    forall view_layer', view_layer' ∈ l' ->
      mirrors [master] (vl_layer_collections view_layer') /\
      bases_consistent heap' view_layer').
  { induction l as [| view_layer l IH]; intros h h' l' Hl; cbn [scene_collection_sync_loop].
    - intros [= <- <-]. split; [reflexivity |]. split; [lia |].
      intros v Hv. apply elem_of_nil in Hv. contradiction.
    - destruct (BKE_layer_collection_sync scene h view_layer) as [[h1 v1] |] eqn:Hsync;
        [| discriminate].
      cbn [mbind option_bind].
      destruct (scene_collection_sync_loop scene h1 l) as [[h2 l2] |] eqn:Hrest;
        [| discriminate].
      cbn [mbind option_bind]. intros [= <- <-].
      assert (Hhead : bases_consistent h view_layer)
        by (apply Hl, elem_of_cons; left; reflexivity).
      destruct (BKE_layer_collection_sync_rebuilt _ _ _ _ _ _ Hmaster Hsync)
        as (Hh1 & _ & Hv1).
      pose proof (layer_collection_sync_rebuild_spec master h view_layer Hhead)
        as (Hcons1 & Hmirror1 & _ & _ & Hle1).
      cbn zeta in *. rewrite <- Hh1 in Hcons1, Hle1.
      destruct (IH h1 h2 l2) as (Hlen & Hle2 & Hall); [| exact Hrest |].
      { intros v Hv. apply (bases_consistent_heap h); [exact Hle1 |].
        apply Hl, elem_of_cons. right. exact Hv. }
      split; [cbn; lia |]. split; [lia |].
      intros v Hv. apply elem_of_cons in Hv as [-> | Hv]; [| apply Hall, Hv].
      split; [rewrite Hv1; exact Hmirror1 |].
      apply (bases_consistent_heap h1); [exact Hle2 |]. rewrite Hv1. exact Hcons1. }
  destruct (scene_collection_sync_loop scene heap (view_layers scene)) as [[h l] |] eqn:Hrun;
    [| discriminate].
  cbn [mbind option_bind]. intros [= <- <-].
  destruct (Hloop _ _ _ _ Hcons Hrun) as (Hlen & Hle & Hall).
  cbn [master_collection scene_set view_layers set_view_layers].
  split; [exact Hmaster |]. split; [reflexivity |]. split; [exact Hlen |].
  split; [exact Hle |].
  intros v Hv. destruct (Hall v Hv) as [Hmirror Hcons'].
  split; [exact Hmirror |]. split; [| exact Hcons'].
  unfold BKE_layer_collection_count. rewrite collection_count_nodes.
  apply mirrors_preorder in Hmirror. apply (f_equal length) in Hmirror.
  rewrite !length_fmap in Hmirror. rewrite Hmirror. reflexivity.
Qed.

(** ** Activating a layer collection *)

(** [BKE_layer_collection_activate] of a node of the layer tree answers
    false and leaves the view layer as it is when the node is excluded, and
    otherwise makes the node the active collection, which
    [BKE_layer_collection_get_active] then answers.  Either way a well-formed
    layer tree stays well formed: the active collection designates a node of
    the tree, so the next sync reads its flag through a valid pointer. *)
Theorem layer_collection_activate_keeps_tree_ok (heap : nat) (master : Collection)
  (view_layer : ViewLayer) (lc : LayerCollection) :
  layer_tree_ok heap master view_layer ->
  lc ∈ layer_nodes (vl_layer_collections view_layer) ->
  let r := BKE_layer_collection_activate view_layer lc in
  layer_tree_ok heap master r.1 /\
  r.2 = negb (flag_test (lc_flag lc) LAYER_COLLECTION_EXCLUDE) /\
  (r.2 = true -> BKE_layer_collection_get_active r.1 = Some (lc_id lc)) /\
  (r.2 = false -> r.1 = view_layer).
Proof.
  intros [Hroot Hsiblings Hids Hbound Hactive] Hlc. cbn zeta.
  unfold BKE_layer_collection_activate.
  destruct (flag_test (lc_flag lc) LAYER_COLLECTION_EXCLUDE); cbn [fst snd negb].
  - split; [constructor; assumption |]. split; [reflexivity |].
    split; [discriminate | reflexivity].
  - split; [| split; [reflexivity | split; [reflexivity | discriminate]]].
    constructor; cbn [vl_layer_collections set_active_collection]; try assumption.
    right. exists lc. split; [exact Hlc | reflexivity].
Qed.

(** ** The default view layers of a scene *)

(** In a scene that has view layers, [BKE_view_layer_default_view] answers
    a view layer of the scene that is not flagged [VIEW_LAYER_RENDER]
    whenever the scene has one, and [BKE_view_layer_default_render] one that
    is flagged whenever the scene has one; each falls back to the first view
    layer. *)
Theorem default_view_and_render (scene : Scene) :
  view_layers scene <> [] ->
  exists view render,
    BKE_view_layer_default_view scene = Some view /\
    BKE_view_layer_default_render scene = Some render /\
    view ∈ view_layers scene /\ render ∈ view_layers scene /\
    (flag_test (vl_flag view) VIEW_LAYER_RENDER = true ->
     head (view_layers scene) = Some view /\
     forall other, other ∈ view_layers scene ->
       flag_test (vl_flag other) VIEW_LAYER_RENDER = true) /\
    (flag_test (vl_flag render) VIEW_LAYER_RENDER = false ->
     head (view_layers scene) = Some render /\
     forall other, other ∈ view_layers scene ->
       flag_test (vl_flag other) VIEW_LAYER_RENDER = false).
Proof.
  intros Hsome. unfold BKE_view_layer_default_view, BKE_view_layer_default_render.
  pose proof (find_first
    (fun view_layer => negb (flag_test (vl_flag view_layer) VIEW_LAYER_RENDER))
    (view_layers scene)) as Hview.
  pose proof (find_first
    (fun view_layer => flag_test (vl_flag view_layer) VIEW_LAYER_RENDER)
    (view_layers scene)) as Hrender.
  destruct (view_layers scene) as [| first rest] eqn:Hlayers; [congruence |].
  rewrite <- Hlayers in *.
  assert (Hfirst : first ∈ view_layers scene)
    by (rewrite Hlayers; apply elem_of_cons; left; reflexivity).
  assert (Hhead : head (view_layers scene) = Some first) by (rewrite Hlayers; reflexivity).
  assert (Hmiddle : forall (x : ViewLayer) before after,
    view_layers scene = before ++ x :: after -> x ∈ view_layers scene).
  { intros x before after ->. apply elem_of_app. right. apply elem_of_cons. left.
    reflexivity. }
  destruct (List.find (fun v => negb (flag_test (vl_flag v) VIEW_LAYER_RENDER)) _)
    as [view |];
    destruct (List.find (fun v => flag_test (vl_flag v) VIEW_LAYER_RENDER) _)
      as [render |]; rewrite ?Hhead.
  - destruct Hview as (b1 & a1 & Hs1 & Hf1 & _).
    destruct Hrender as (b2 & a2 & Hs2 & Hf2 & _).
    apply negb_true_iff in Hf1.
    exists view, render. repeat split; eauto; congruence.
  - destruct Hview as (b1 & a1 & Hs1 & Hf1 & _). apply negb_true_iff in Hf1.
    exists view, first. repeat split; eauto; congruence.
  - destruct Hrender as (b2 & a2 & Hs2 & Hf2 & _).
    exists first, render. repeat split; eauto; try congruence.
    intros other Hother. specialize (Hview other Hother).
    apply negb_false_iff in Hview. exact Hview.
  - exfalso. specialize (Hview first Hfirst). specialize (Hrender first Hfirst).
    apply negb_false_iff in Hview. congruence.
Qed.

End LayerQueriesProperties.

(** * Concrete runs *)

Lemma base_select_witness :
  basact (BKE_view_layer_base_select example_bases_view_layer 2) = Some 2%nat /\
  object_bases (BKE_view_layer_base_select example_bases_view_layer 2)
  = [mkBase 1 10 4; mkBase 2 11 0] /\
  object_bases (BKE_view_layer_base_select example_bases_view_layer 1)
  = [mkBase 1 10 5; mkBase 2 11 0].
Proof.
  split; [| split; reflexivity].
  exact (proj1 (base_select_activates_and_selects example_bases_view_layer 2%nat)).
Defined.

Lemma override_set_remove_witness :
  BKE_view_layer_override_set_remove example_override_view_layer 9
  = (false, example_override_view_layer) /\
  active_override_set (BKE_view_layer_override_set_remove example_override_view_layer 7).2 = 1.
Proof.
  split; [| reflexivity].
  apply (proj1 override_set_remove_and_unlink example_override_view_layer 9%nat).
  cbn. intros Hin. repeat (apply elem_of_cons in Hin as [Hin | Hin]; [discriminate |]).
  apply elem_of_nil in Hin. exact Hin.
Defined.



Lemma example_new_view_layer_consistent : bases_consistent 0 example_new_view_layer.
Proof.
  unfold bases_consistent. cbn.
  split; [constructor |]. split; [constructor |].
  split; [intros base Hin; apply elem_of_nil in Hin; contradiction | discriminate].
Defined.

Lemma sync_union_witness :
  exists heap' view_layer' base,
    BKE_layer_collection_sync example_scene 0 example_new_view_layer
    = Some (heap', view_layer') /\
    object_bases view_layer' = [base; mkBase 3 2 BASE_VISIBLE_RENDER] /\
    object base = 1%nat /\
    Z.land (base_flag base) BASE_SYNC_FLAGS
    = Z.lor (path_grant COLLECTION_RESTRICT_VIEW) (path_grant 0).
Proof.
  destruct (BKE_layer_collection_sync example_scene 0 example_new_view_layer)
    as [[heap' view_layer'] |] eqn:Hsync; [| vm_compute in Hsync; discriminate].
  destruct (sync_one_base_with_union_of_grants example_scene example_master 0 heap'
              example_new_view_layer view_layer' eq_refl example_new_view_layer_consistent
              Hsync 1%nat) as (before & base & after & Hsplit & Hob & _ & _ & Hflag).
  { pose proof Hsync as Hval. vm_compute in Hval. injection Hval as <- <-. vm_compute.
    apply elem_of_cons. left. reflexivity. }
  pose proof Hsync as Hval. vm_compute in Hval. injection Hval as <- <-.
  destruct before as [| b before]; [| exfalso].
  - injection Hsplit as <- <-. eexists _, _, _.
    split; [exact Hsync |]. split; [reflexivity |]. split; [reflexivity |].
    vm_compute. reflexivity.
  - destruct before as [| b' before]; [| destruct before; discriminate].
    cbn in Hsplit. injection Hsplit as _ <-. discriminate.
Defined.

Lemma sync_twice_witness :
  exists heap1 view_layer1 heap2 view_layer2,
    BKE_layer_collection_sync example_scene 0 example_new_view_layer
    = Some (heap1, view_layer1) /\
    BKE_layer_collection_sync example_scene heap1 view_layer1 = Some (heap2, view_layer2) /\
    vl_layer_collections view_layer2 = vl_layer_collections view_layer1 /\
    object_bases view_layer2 = object_bases view_layer1 /\
    object_bases view_layer1
    = [mkBase 2 1 (Z.lor BASE_SYNC_FLAGS 0); mkBase 3 2 BASE_VISIBLE_RENDER].
Proof.
  destruct (BKE_layer_collection_sync example_scene 0 example_new_view_layer)
    as [[heap1 view_layer1] |] eqn:Hsync; [| vm_compute in Hsync; discriminate].
  destruct (sync_twice_same_tree_and_bases example_scene 0 heap1 example_new_view_layer
              view_layer1 example_new_view_layer_consistent Hsync)
    as (heap2 & view_layer2 & Hagain & Htree & Hbases).
  exists heap1, view_layer1, heap2, view_layer2.
  split; [reflexivity |]. split; [exact Hagain |]. split; [exact Htree |].
  split; [exact Hbases |].
  vm_compute in Hsync. injection Hsync as <- <-. reflexivity.
Defined.

(** The object 1 of [example_hidden] is visible after the sync, through
    [example_shown], although [example_hidden] is not the master collection
    and is restricted in the viewport. *)
Lemma restricted_collection_object_visible :
  exists heap' view_layer' base,
    BKE_layer_collection_sync example_scene 0 example_new_view_layer
    = Some (heap', view_layer') /\
    example_hidden ∈ children example_master /\
    Z.land (col_flag example_hidden) COLLECTION_IS_MASTER = 0 /\
    Z.land (col_flag example_hidden) COLLECTION_RESTRICT_VIEW <> 0 /\
    base ∈ object_bases view_layer' /\
    object base ∈ gobject example_hidden /\
    Z.land (base_flag base) BASE_VISIBLED <> 0.
Proof.
  destruct (BKE_layer_collection_sync example_scene 0 example_new_view_layer)
    as [[heap' view_layer'] |] eqn:Hsync; [| vm_compute in Hsync; discriminate].
  exists heap', view_layer', (mkBase 2 1 198).
  split; [reflexivity |].
  vm_compute in Hsync. injection Hsync as <- <-.
  split; [apply elem_of_cons; left; reflexivity |].
  split; [reflexivity |]. split; [discriminate |].
  split; [apply elem_of_cons; left; reflexivity |].
  split; [apply elem_of_cons; left; reflexivity | discriminate].
Defined.

Lemma restriction_inherited_witness :
  exists heap' view_layer' base_hidden base_shared,
    BKE_layer_collection_sync example_scene 0 example_new_view_layer
    = Some (heap', view_layer') /\
    object_bases view_layer' = [base_shared; base_hidden] /\
    object base_hidden = 2%nat /\
    Z.land (base_flag base_hidden) BASE_VISIBLED = 0 /\
    object base_shared = 1%nat /\
    Z.land (base_flag base_shared) BASE_VISIBLED = BASE_VISIBLED.
Proof.
  destruct (BKE_layer_collection_sync example_scene 0 example_new_view_layer)
    as [[heap' view_layer'] |] eqn:Hsync; [| vm_compute in Hsync; discriminate].
  pose proof (proj2 (proj2 (proj2 (proj2 restriction_inherited_along_paths))) example_scene
                example_master 0%nat example_new_view_layer heap' view_layer' eq_refl
                example_new_view_layer_consistent Hsync BASE_VISIBLED) as Hbits.
  cbn zeta in Hbits.
  assert (Hbit : exists restrict_bit, withheld_by restrict_bit BASE_VISIBLED)
    by (eexists; apply view_withholds_visibled).
  pose proof Hsync as Hval. vm_compute in Hval. injection Hval as <- <-.
  eexists _, _, (mkBase 3 2 BASE_VISIBLE_RENDER), (mkBase 2 1 198).
  split; [exact Hsync |]. split; [reflexivity |]. split; [reflexivity |].
  split; [| split; [reflexivity |]].
  - apply (Hbits (mkBase 3 2 BASE_VISIBLE_RENDER) Hbit).
    + apply elem_of_cons. right. apply elem_of_cons. left. reflexivity.
    + intros path Hpath. exists example_hidden, COLLECTION_RESTRICT_VIEW.
      split; [| split; [reflexivity | split; [apply view_withholds_visibled | discriminate]]].
      vm_compute in Hpath.
      apply elem_of_cons in Hpath as [[=] | Hpath].
      apply elem_of_cons in Hpath as [[= ->] | Hpath].
      * apply elem_of_cons. right. apply elem_of_cons. left. reflexivity.
      * apply elem_of_cons in Hpath as [[=] | Hpath]. apply elem_of_nil in Hpath.
        contradiction.
  - apply (Hbits (mkBase 2 1 198) Hbit).
    + apply elem_of_cons. left. reflexivity.
    + exists [example_master; example_shown]. split.
      * vm_compute. do 2 (apply elem_of_cons; right). apply elem_of_cons. left. reflexivity.
      * intros (c & restrict_bit & Hc & Hm & _ & Hflag).
        apply elem_of_cons in Hc as [-> | Hc]; [discriminate |].
        apply elem_of_cons in Hc as [-> | Hc]; [apply Hflag; reflexivity |].
        apply elem_of_nil in Hc. exact Hc.
Defined.

Lemma example_excluding_view_layer_consistent :
  bases_consistent 3 example_excluding_view_layer.
Proof.
  unfold bases_consistent. cbn.
  split; [constructor |]. split; [constructor |].
  split; [intros base Hin; apply elem_of_nil in Hin; contradiction | discriminate].
Defined.

Lemma excluded_collection_witness :
  exists heap' view_layer' base,
    BKE_layer_collection_sync example_nested_scene 3 example_excluding_view_layer
    = Some (heap', view_layer') /\
    vl_layer_collections view_layer' = vl_layer_collections example_excluding_view_layer /\
    (1%nat ∉ object <$> object_bases view_layer') /\
    object_bases view_layer' = [base] /\
    object base = 2%nat /\
    Z.land (base_flag base) BASE_SYNC_FLAGS = BASE_SYNC_FLAGS.
Proof.
  destruct (BKE_layer_collection_sync example_nested_scene 3 example_excluding_view_layer)
    as [[heap' view_layer'] |] eqn:Hsync; [| vm_compute in Hsync; discriminate].
  destruct (excluded_collection_skips_own_objects_only example_nested_scene
              example_nested_master 3%nat heap' example_excluding_view_layer view_layer'
              eq_refl example_excluding_view_layer_consistent Hsync)
    as (_ & _ & Hobjects & Hflags).
  pose proof Hsync as Hval. vm_compute in Hval. injection Hval as <- <-.
  eexists _, _, (mkBase 3 2 BASE_SYNC_FLAGS).
  split; [exact Hsync |]. split; [reflexivity |]. split; [| split; [reflexivity |]].
  - rewrite Hobjects. vm_compute.
    intros Hin. apply elem_of_cons in Hin as [[=] | Hin]. apply elem_of_nil in Hin.
    contradiction.
  - split; [reflexivity |].
    rewrite (Hflags (mkBase 3 2 BASE_SYNC_FLAGS)); [reflexivity |].
    apply elem_of_cons. left. reflexivity.
Defined.

(** [example_inner] has no layer collection before the sync, so nothing
    has excluded it.  The sync gives it a layer collection that carries the
    exclusion of the node of [example_outer] above it, and its object 2 ends
    the sync without a base. *)
Lemma new_layer_collection_inherits_exclude :
  exists heap' view_layer' lc,
    BKE_layer_collection_sync example_nested_scene 2 example_unlinked_inner_view_layer
    = Some (heap', view_layer') /\
    example_inner ∈ children example_outer /\
    BKE_layer_collection_first_from_scene_collection example_unlinked_inner_view_layer
      (col_id example_inner) = None /\
    BKE_layer_collection_first_from_scene_collection view_layer' (col_id example_inner)
    = Some lc /\
    Z.land (lc_flag lc) LAYER_COLLECTION_EXCLUDE <> 0 /\
    2%nat ∈ gobject example_inner /\
    2%nat ∉ object <$> object_bases view_layer'.
Proof.
  destruct (BKE_layer_collection_sync example_nested_scene 2
              example_unlinked_inner_view_layer)
    as [[heap' view_layer'] |] eqn:Hsync; [| vm_compute in Hsync; discriminate].
  vm_compute in Hsync. injection Hsync as <- <-.
  eexists _, _, _. split; [reflexivity |].
  split; [apply elem_of_cons; left; reflexivity |].
  split; [reflexivity |]. split; [reflexivity |]. split; [discriminate |].
  split; [apply elem_of_cons; left; reflexivity |].
  intros Hin. apply elem_of_nil in Hin. exact Hin.
Defined.

Lemma renderable_objects_witness :
  renderable_objects 20 (fun _ => 0) example_render_scene = Some [2; 3]%nat.
Proof.
  destruct (renderable_objects_once_and_visible (fun _ => 0) example_render_scene 20)
    as (obs & Hrun & Hobs & _).
  - intros scene' Hin. vm_compute in Hin.
    apply elem_of_cons in Hin as [-> | Hin]; [discriminate |].
    apply elem_of_cons in Hin as [-> | Hin]; [discriminate |].
    apply elem_of_nil in Hin. contradiction.
  - vm_compute. lia.
  - rewrite Hrun, Hobs. reflexivity.
Defined.


Lemma example_shared_view_layer_ok :
  layer_tree_ok 5 example_shared_master example_shared_view_layer.
Proof.
  constructor.
  - right. eexists. split; reflexivity.
  - split; [apply (bool_decide_unpack _); vm_compute; exact I |].
    intros lc Hin. vm_compute in Hin.
    repeat (apply elem_of_cons in Hin as [-> | Hin];
            [apply (bool_decide_unpack _); vm_compute; exact I |]).
    apply elem_of_nil in Hin. contradiction.
  - apply (bool_decide_unpack _). vm_compute. exact I.
  - intros a Hin. vm_compute in Hin.
    repeat (apply elem_of_cons in Hin as [-> | Hin]; [lia |]).
    apply elem_of_nil in Hin. contradiction.
  - right. exists (mkLayerCollection 4 (Some 13%nat) LAYER_COLLECTION_EXCLUDE []).
    split; [| reflexivity]. vm_compute.
    do 4 (apply elem_of_cons; right). apply elem_of_cons. left. reflexivity.
Defined.


(** The traversal ends without going over the second view layer of the
    scene: the visible object 5 is not yielded. *)
Lemma second_view_layer_not_traversed :
  exists view_layer base,
    view_layers example_two_layer_scene !! 1%nat = Some view_layer /\
    base ∈ object_bases view_layer /\
    object base = 5%nat /\
    Z.land (base_flag base) BASE_VISIBLED <> 0 /\
    renderable_objects 10 (fun _ => 0) example_two_layer_scene = Some [].
Proof.
  eexists _, _. split; [reflexivity |].
  split; [apply elem_of_cons; left; reflexivity |].
  split; [reflexivity |]. split; [discriminate | reflexivity].
Defined.

(** ** Concrete runs of the lookups, the selection, the traversals and the evaluation *)

Lemma findindex_from_index_witness :
  0 <= BKE_layer_collection_findindex example_shared_view_layer 3
    < BKE_layer_collection_count example_shared_view_layer /\
  exists node,
    BKE_layer_collection_from_index example_shared_view_layer
      (BKE_layer_collection_findindex example_shared_view_layer 3) = Some node /\
    lc_id node = 3%nat.
Proof.
  apply (layer_collection_findindex_from_index example_shared_view_layer 3).
  apply (bool_decide_unpack _). vm_compute. exact I.
Defined.

Lemma from_index_findindex_witness :
  BKE_layer_collection_findindex example_shared_view_layer
    (lc_id (mkLayerCollection 2 (Some 13%nat) 0 [])) = 2.
Proof.
  apply (layer_collection_from_index_findindex example_shared_view_layer 2).
  - apply (bool_decide_unpack _). vm_compute. exact I.
  - reflexivity.
Defined.

Lemma sync_layer_collection_count_witness :
  exists heap' view_layer',
    BKE_layer_collection_sync example_scene 0 example_new_view_layer
    = Some (heap', view_layer') /\
    BKE_layer_collection_count view_layer' = 3.
Proof.
  destruct (BKE_layer_collection_sync example_scene 0 example_new_view_layer)
    as [[heap' view_layer'] |] eqn:Hsync; [| vm_compute in Hsync; discriminate].
  exists heap', view_layer'. split; [reflexivity |].
  rewrite (sync_layer_collection_count example_scene example_master 0 heap'
             example_new_view_layer view_layer' eq_refl Hsync).
  reflexivity.
Defined.

Lemma sync_has_every_collection_witness :
  exists heap' view_layer',
    BKE_layer_collection_sync example_scene 0 example_new_view_layer
    = Some (heap', view_layer') /\
    BKE_view_layer_has_collection view_layer' 12 = true /\
    BKE_view_layer_has_collection view_layer' 13 <> true.
Proof.
  destruct (BKE_layer_collection_sync example_scene 0 example_new_view_layer)
    as [[heap' view_layer'] |] eqn:Hsync; [| vm_compute in Hsync; discriminate].
  exists heap', view_layer'. split; [reflexivity |].
  rewrite !(sync_has_every_collection example_scene example_master 0 heap'
              example_new_view_layer view_layer' _ eq_refl Hsync).
  split.
  - apply (bool_decide_unpack _). vm_compute. exact I.
  - intros Hin. apply (bool_decide_pack _) in Hin. vm_compute in Hin. exact Hin.
Defined.

Lemma example_bases_view_layer_consistent :
  bases_consistent 3 example_bases_view_layer.
Proof.
  unfold bases_consistent. cbn.
  split; [apply (bool_decide_unpack _); vm_compute; exact I |].
  split; [apply (bool_decide_unpack _); vm_compute; exact I |].
  split; [| discriminate].
  intros base Hin.
  repeat (apply elem_of_cons in Hin as [-> | Hin]; [cbn; lia |]).
  apply elem_of_nil in Hin. contradiction.
Defined.

Lemma base_find_witness :
  (BKE_view_layer_base_find example_bases_view_layer 11).2 = Some 2%nat /\
  (BKE_view_layer_base_find example_bases_view_layer 12).2 = None.
Proof.
  destruct (view_layer_base_find_registry 3 example_bases_view_layer 11
              example_bases_view_layer_consistent) as (_ & _ & _ & Hfind & _).
  destruct (view_layer_base_find_registry 3 example_bases_view_layer 12
              example_bases_view_layer_consistent) as (_ & _ & _ & _ & Hnone).
  split.
  - apply Hfind. exists (mkBase 2 11 0). split; [| split; reflexivity].
    apply elem_of_cons. right. apply elem_of_cons. left. reflexivity.
  - apply Hnone. intros Hin. apply (bool_decide_pack _) in Hin. vm_compute in Hin.
    exact Hin.
Defined.

Lemma sync_base_find_witness :
  exists heap' view_layer',
    BKE_layer_collection_sync example_scene 0 example_new_view_layer
    = Some (heap', view_layer') /\
    is_Some (BKE_view_layer_base_find view_layer' 2).2.
Proof.
  destruct (BKE_layer_collection_sync example_scene 0 example_new_view_layer)
    as [[heap' view_layer'] |] eqn:Hsync; [| vm_compute in Hsync; discriminate].
  exists heap', view_layer'. split; [reflexivity |].
  apply (sync_base_find_path_objects example_scene example_master 0 heap'
           example_new_view_layer view_layer' 2 eq_refl example_new_view_layer_consistent
           Hsync).
  vm_compute in Hsync. injection Hsync as <- <-.
  apply (bool_decide_unpack _). vm_compute. exact I.
Defined.

Lemma example_render_scene_consistent :
  forall view_layer,
    view_layer ∈ view_layers example_render_scene -> bases_consistent 24 view_layer.
Proof.
  intros view_layer Hin.
  repeat (apply elem_of_cons in Hin as [-> | Hin];
          [unfold bases_consistent; cbn;
           split; [apply (bool_decide_unpack _); vm_compute; exact I |];
           split; [apply (bool_decide_unpack _); vm_compute; exact I |];
           split; [| discriminate];
           intros base Hbase;
           repeat (apply elem_of_cons in Hbase as [-> | Hbase]; [cbn; lia |]);
           apply elem_of_nil in Hbase; contradiction |]).
  apply elem_of_nil in Hin. contradiction.
Defined.

Lemma scene_has_object_witness :
  (BKE_scene_has_object example_render_scene 2).2 = true /\
  (BKE_scene_has_object example_render_scene 3).2 <> true.
Proof.
  destruct (scene_has_object_some_view_layer 24 example_render_scene 2
              example_render_scene_consistent) as (Hfound & _).
  destruct (scene_has_object_some_view_layer 24 example_render_scene 3
              example_render_scene_consistent) as (Habsent & _).
  split.
  - apply Hfound. eexists. split; [apply elem_of_cons; left; reflexivity |].
    apply (bool_decide_unpack _). vm_compute. exact I.
  - intros Htrue. apply Habsent in Htrue as (view_layer & Hin & Hob).
    repeat (apply elem_of_cons in Hin as [-> | Hin];
            [apply (bool_decide_pack _) in Hob; vm_compute in Hob; exact Hob |]).
    apply elem_of_nil in Hin. contradiction.
Defined.

Lemma flagged_bases_traversal_witness :
  bases_traversal (BKE_view_layer_selected_bases_iterator_begin example_selection_view_layer)
    BKE_view_layer_selected_bases_iterator_next 3
  = Some [current_base (mkBase 1 10 7); current_base (mkBase 3 12 69)] /\
  bases_traversal (BKE_view_layer_visible_bases_iterator_begin example_selection_view_layer)
    BKE_view_layer_visible_bases_iterator_next 3
  = Some [current_base (mkBase 1 10 7); current_base (mkBase 2 11 130)].
Proof.
  destruct (flagged_bases_traversal example_selection_view_layer 3) as [Hselected Hvisible].
  - vm_compute. lia.
  - rewrite Hselected, Hvisible. split; reflexivity.
Defined.

Lemma flagged_objects_traversal_witness :
  bases_traversal (BKE_view_layer_selected_objects_iterator_begin example_selection_view_layer)
    BKE_view_layer_selected_objects_iterator_next 3
  = Some [current_object 10; current_object 12] /\
  bases_traversal (BKE_view_layer_visible_objects_iterator_begin example_selection_view_layer)
    BKE_view_layer_visible_objects_iterator_next 3
  = Some [current_object 10; current_object 11].
Proof.
  destruct (flagged_objects_traversal example_selection_view_layer 3) as [Hselected Hvisible].
  - vm_compute. lia.
  - rewrite Hselected, Hvisible. split; reflexivity.
Defined.

Lemma selected_editable_objects_traversal_witness :
  bases_traversal
    (BKE_view_layer_selected_editable_objects_iterator_begin
       (fun ob => bool_decide (ob = 10%nat)) example_selection_view_layer)
    (BKE_view_layer_selected_editable_objects_iterator_next
       (fun ob => bool_decide (ob = 10%nat))) 3
  = Some [current_object 12].
Proof.
  rewrite (selected_editable_objects_traversal (fun ob => bool_decide (ob = 10%nat))
             example_selection_view_layer 3).
  - reflexivity.
  - vm_compute. lia.
Defined.

Lemma bases_in_mode_traversal_witness :
  bases_in_mode_from (fun _ => 1) (fun ob => if decide (ob = 12%nat) then 2 else 0) 4
    (BKE_view_layer_bases_in_mode_iterator_begin 2 example_selection_view_layer
       (Some (mkBase 2 11 130)))
  = Some [mkBase 2 11 130; mkBase 3 12 69].
Proof.
  rewrite (bases_in_mode_traversal (fun _ => 1) (fun ob => if decide (ob = 12%nat) then 2 else 0)
             2 example_selection_view_layer (Some (mkBase 2 11 130)) 4).
  - reflexivity.
  - vm_compute. lia.
Defined.

Lemma deselect_all_then_select_witness :
  bases_traversal
    (BKE_view_layer_selected_objects_iterator_begin
       (BKE_view_layer_base_deselect_all example_selection_view_layer))
    BKE_view_layer_selected_objects_iterator_next 3 = Some [] /\
  bases_traversal
    (BKE_view_layer_selected_objects_iterator_begin
       (BKE_view_layer_base_select
          (BKE_view_layer_base_deselect_all example_selection_view_layer) 3))
    BKE_view_layer_selected_objects_iterator_next 3 = Some [current_object 12] /\
  bases_traversal
    (BKE_view_layer_selected_objects_iterator_begin
       (BKE_view_layer_base_select
          (BKE_view_layer_base_deselect_all example_selection_view_layer) 2))
    BKE_view_layer_selected_objects_iterator_next 3 = Some [].
Proof.
  destruct (deselect_all_then_select example_selection_view_layer 3 3)
    as (Hnone & _ & Hthird); [reflexivity | discriminate | vm_compute; lia |].
  destruct (deselect_all_then_select example_selection_view_layer 2 3)
    as (_ & _ & Hsecond); [reflexivity | discriminate | vm_compute; lia |].
  cbn zeta in *. rewrite Hnone, Hthird, Hsecond. repeat split.
Defined.

Lemma eval_view_layer_visibility_witness :
  object_bases (BKE_layer_eval_view_layer 4 DAG_EVAL_VIEWPORT example_selection_view_layer)
  = [mkBase 1 10 5; mkBase 2 11 128; mkBase 3 12 71] /\
  Forall2
    (fun base base' =>
       Z.land (base_flag base') BASE_VISIBLED
       = (if flag_test (base_flag base) BASE_VISIBLE_VIEWPORT then BASE_VISIBLED else 0))
    (object_bases example_selection_view_layer)
    (object_bases (BKE_layer_eval_view_layer 4 DAG_EVAL_VIEWPORT example_selection_view_layer)).
Proof.
  split; [reflexivity |].
  pose proof (eval_view_layer_visibility 4 DAG_EVAL_VIEWPORT example_selection_view_layer
                eq_refl) as Hall.
  cbn zeta in Hall. eapply Forall2_impl; [exact Hall |].
  intros base base' (_ & _ & Hvisible & _). exact Hvisible.
Defined.

Lemma example_selection_view_layer_consistent :
  bases_consistent 4 example_selection_view_layer.
Proof.
  unfold bases_consistent. cbn.
  split; [apply (bool_decide_unpack _); vm_compute; exact I |].
  split; [apply (bool_decide_unpack _); vm_compute; exact I |].
  split; [| discriminate].
  intros base Hin.
  repeat (apply elem_of_cons in Hin as [-> | Hin]; [cbn; lia |]).
  apply elem_of_nil in Hin. contradiction.
Defined.

Lemma eval_view_layer_array_cache_witness :
  object_bases_array
    (BKE_layer_eval_view_layer 4 DAG_EVAL_RENDER example_selection_view_layer)
  = Some [1; 2; 3]%nat /\
  bases_consistent 4
    (BKE_layer_eval_view_layer 4 DAG_EVAL_RENDER example_selection_view_layer).
Proof.
  destruct (eval_view_layer_array_cache 4 DAG_EVAL_RENDER 4 example_selection_view_layer
              example_selection_view_layer_consistent) as (Hcons & Harray & _).
  split; [rewrite Harray; reflexivity | exact Hcons].
Defined.

Lemma override_set_add_then_remove_witness :
  BKE_view_layer_override_set_remove
    (BKE_view_layer_override_set_add 8 example_override_view_layer).1.2 8
  = (true, example_override_view_layer).
Proof.
  destruct (override_set_add_then_remove 8 example_override_view_layer)
    as (_ & _ & _ & Hremove).
  - intros override_set Hin.
    repeat (apply elem_of_cons in Hin as [-> | Hin]; [cbn; lia |]).
    apply elem_of_nil in Hin. contradiction.
  - exact Hremove.
Defined.

Lemma override_set_collection_link_then_unlink_witness :
  (BKE_view_layer_override_set_collection_link 6 example_override_set 10).2 = true /\
  BKE_view_layer_override_set_collection_unlink
    (BKE_view_layer_override_set_collection_link 6 example_override_set 10).1.2 10
  = (true, example_override_set).
Proof.
  apply (override_set_collection_link_then_unlink 6 example_override_set 10).
  - intros link Hin. apply elem_of_nil in Hin. contradiction.
  - apply not_elem_of_nil.
  - vm_compute. discriminate.
Defined.

Lemma override_property_add_then_remove_witness :
  exists dyn_prop override_set',
    BKE_view_layer_override_property_add 6 example_override_set example_rna_property
    = (7%nat, override_set', Some dyn_prop) /\
    BKE_view_layer_override_property_remove override_set' (dyn_prop_id dyn_prop)
    = (true, example_override_set) /\
    BKE_view_layer_override_property_remove example_override_set 6
    = (false, example_override_set).
Proof.
  destruct (override_property_add_then_remove 6 example_override_set example_rna_property)
    as [Hround Habsent].
  - intros dyn_prop Hin. apply elem_of_nil in Hin. contradiction.
  - eexists _, _. split; [reflexivity |]. split; [| exact Habsent].
    apply (Hround 7%nat). reflexivity.
Defined.

Lemma example_synced_view_layer_consistent :
  bases_consistent 5 example_synced_view_layer.
Proof.
  unfold bases_consistent. cbn.
  split; [apply (bool_decide_unpack _); vm_compute; exact I |].
  split; [apply (bool_decide_unpack _); vm_compute; exact I |].
  split; [| discriminate].
  intros base Hin.
  repeat (apply elem_of_cons in Hin as [-> | Hin]; [cbn; lia |]).
  apply elem_of_nil in Hin. contradiction.
Defined.

Lemma objects_select_witness :
  exists view_layer',
    BKE_layer_collection_objects_select (fun c => collection_deref c example_master) false
      example_synced_view_layer
      (mkLayerCollection 0 (Some 10%nat) 0
         [mkLayerCollection 1 (Some 11%nat) 0 []; mkLayerCollection 4 (Some 12%nat) 0 []])
    = Some (view_layer', true) /\
    object_bases view_layer'
    = [mkBase 2 1 (Z.lor BASE_SYNC_FLAGS BASE_SELECTED); mkBase 3 2 BASE_VISIBLE_RENDER] /\
    selection_only false example_synced_view_layer view_layer' /\
    bases_consistent 5 view_layer'.
Proof.
  destruct (objects_select_selection_only (fun c => collection_deref c example_master) false
              5 example_synced_view_layer
              (mkLayerCollection 0 (Some 10%nat) 0
                 [mkLayerCollection 1 (Some 11%nat) 0 [];
                  mkLayerCollection 4 (Some 12%nat) 0 []])
              example_synced_view_layer_consistent)
    as [(view_layer' & changed & Hrun & Honly & Hcons & _) _].
  - intros node Hin. vm_compute in Hin.
    repeat (apply elem_of_cons in Hin as [-> | Hin];
            [eexists; split; [reflexivity | vm_compute; eauto] |]).
    apply elem_of_nil in Hin. contradiction.
  - exists view_layer'. pose proof Hrun as Hval. vm_compute in Hval.
    injection Hval as <- <-. split; [exact Hrun |]. split; [reflexivity |].
    split; [exact Honly | exact Hcons].
Defined.

Lemma example_active_base_view_layer_consistent :
  bases_consistent 2 example_active_base_view_layer.
Proof.
  unfold bases_consistent. cbn.
  split; [apply (bool_decide_unpack _); vm_compute; exact I |].
  split; [apply (bool_decide_unpack _); vm_compute; exact I |].
  split; [| discriminate].
  intros base Hin.
  repeat (apply elem_of_cons in Hin as [-> | Hin]; [cbn; lia |]).
  apply elem_of_nil in Hin. contradiction.
Defined.

Lemma sync_registry_coherent_witness :
  exists heap' view_layer',
    BKE_layer_collection_sync example_scene 2 example_active_base_view_layer
    = Some (heap', view_layer') /\
    bases_consistent heap' view_layer' /\
    is_Some (object_bases_hash view_layer') /\
    object_bases_array view_layer' = None.
Proof.
  destruct (BKE_layer_collection_sync example_scene 2 example_active_base_view_layer)
    as [[heap' view_layer'] |] eqn:Hsync; [| vm_compute in Hsync; discriminate].
  destruct (sync_registry_coherent example_scene example_master 2 heap'
              example_active_base_view_layer view_layer' eq_refl
              example_active_base_view_layer_consistent Hsync)
    as (Hcons & Hhash & Harray & _).
  exists heap', view_layer'. auto.
Defined.

Lemma sync_active_base_witness :
  exists heap' view_layer',
    BKE_layer_collection_sync example_scene 2 example_active_base_view_layer
    = Some (heap', view_layer') /\
    basact example_active_base_view_layer = Some 1%nat /\
    basact view_layer' = None /\
    1%nat ∉ base_id <$> object_bases view_layer'.
Proof.
  destruct (BKE_layer_collection_sync example_scene 2 example_active_base_view_layer)
    as [[heap' view_layer'] |] eqn:Hsync; [| vm_compute in Hsync; discriminate].
  pose proof (sync_active_base example_scene example_master 2 heap'
                example_active_base_view_layer view_layer' eq_refl
                example_active_base_view_layer_consistent) as Hactive.
  exists heap', view_layer'. split; [reflexivity |]. split; [reflexivity |].
  assert (Hnone : basact view_layer' = None)
    by (vm_compute in Hsync; injection Hsync as <- <-; reflexivity).
  split; [exact Hnone |].
  rewrite Hnone in Hactive. apply Hactive; [| exact Hsync | reflexivity].
  intros a [= <-]. apply (bool_decide_unpack _). vm_compute. exact I.
Defined.

Lemma sync_keeps_bases_witness :
  exists heap' view_layer' base',
    BKE_layer_collection_sync example_scene 2 example_active_base_view_layer
    = Some (heap', view_layer') /\
    base' ∈ object_bases view_layer' /\
    base_id base' = 0%nat /\ object base' = 1%nat /\
    Z.land (base_flag base') (Z.lnot BASE_SYNC_FLAGS) = BASE_SELECTED /\
    7%nat ∉ object <$> object_bases view_layer'.
Proof.
  destruct (BKE_layer_collection_sync example_scene 2 example_active_base_view_layer)
    as [[heap' view_layer'] |] eqn:Hsync; [| vm_compute in Hsync; discriminate].
  destruct (sync_keeps_bases example_scene example_master 2 heap'
              example_active_base_view_layer view_layer' eq_refl
              example_active_base_view_layer_consistent Hsync) as [Hold _].
  pose proof (Hold (mkBase 0 1 BASE_SELECTED)
                ltac:(apply elem_of_cons; left; reflexivity)) as Hkept.
  pose proof (Hold (mkBase 1 7 0)
                ltac:(apply elem_of_cons; right; apply elem_of_cons; left; reflexivity))
    as Hgone.
  pose proof Hsync as Hval. vm_compute in Hval. injection Hval as <- <-.
  rewrite bool_decide_true in Hkept by (apply (bool_decide_unpack _); vm_compute; exact I).
  rewrite bool_decide_false in Hgone
    by (intros Hin; apply (bool_decide_pack _) in Hin; vm_compute in Hin; exact Hin).
  destruct Hkept as (base' & Hin & Hid & Hob & Hflag).
  eexists _, _, base'. split; [exact Hsync |]. split; [exact Hin |].
  split; [exact Hid |]. split; [exact Hob |]. split; [exact Hflag | exact Hgone].
Defined.

Lemma sync_new_view_layer_witness :
  exists heap' view_layer',
    BKE_layer_collection_sync example_scene 0 example_new_view_layer
    = Some (heap', view_layer') /\
    mirrors [example_master] (vl_layer_collections view_layer') /\
    (forall lc, lc ∈ layer_nodes (vl_layer_collections view_layer') -> lc_flag lc = 0) /\
    (forall c ob, c ∈ collection_nodes [example_master] -> ob ∈ gobject c ->
       ob ∈ object <$> object_bases view_layer') /\
    active_collection view_layer' = lc_id <$> head (vl_layer_collections view_layer').
Proof.
  apply (sync_new_view_layer example_scene example_master 0 example_new_view_layer);
    reflexivity.
Defined.

Lemma example_two_view_scene_consistent :
  forall view_layer,
    view_layer ∈ view_layers example_two_view_scene -> bases_consistent 2 view_layer.
Proof.
  intros view_layer Hin.
  apply elem_of_cons in Hin as [-> | Hin].
  - apply (bases_consistent_heap 0); [lia | exact example_new_view_layer_consistent].
  - apply elem_of_cons in Hin as [-> | Hin];
      [exact example_active_base_view_layer_consistent |].
    apply elem_of_nil in Hin. contradiction.
Defined.

Lemma scene_collection_sync_witness :
  exists heap' scene',
    BKE_scene_collection_sync example_two_view_scene 2 = Some (heap', scene') /\
    length (view_layers scene') = 2%nat /\
    forall view_layer', view_layer' ∈ view_layers scene' ->
      mirrors [example_master] (vl_layer_collections view_layer') /\
      BKE_layer_collection_count view_layer' = 3 /\
      bases_consistent heap' view_layer'.
Proof.
  destruct (BKE_scene_collection_sync example_two_view_scene 2)
    as [[heap' scene'] |] eqn:Hsync; [| vm_compute in Hsync; discriminate].
  destruct (scene_collection_sync_all_view_layers example_two_view_scene example_master 2
              heap' scene' eq_refl example_two_view_scene_consistent Hsync)
    as (_ & _ & Hlength & _ & Hall).
  exists heap', scene'. split; [reflexivity |]. split; [exact Hlength |]. exact Hall.
Defined.

Lemma layer_collection_activate_witness :
  layer_tree_ok 5 example_shared_master
    (BKE_layer_collection_activate example_shared_view_layer
       (mkLayerCollection 3 (Some 12%nat) 0
          [mkLayerCollection 4 (Some 13%nat) LAYER_COLLECTION_EXCLUDE []])).1 /\
  BKE_layer_collection_get_active
    (BKE_layer_collection_activate example_shared_view_layer
       (mkLayerCollection 3 (Some 12%nat) 0
          [mkLayerCollection 4 (Some 13%nat) LAYER_COLLECTION_EXCLUDE []])).1
  = Some 3%nat /\
  (BKE_layer_collection_activate example_shared_view_layer
     (mkLayerCollection 4 (Some 13%nat) LAYER_COLLECTION_EXCLUDE [])).2 = false.
Proof.
  destruct (layer_collection_activate_keeps_tree_ok 5 example_shared_master
              example_shared_view_layer
              (mkLayerCollection 3 (Some 12%nat) 0
                 [mkLayerCollection 4 (Some 13%nat) LAYER_COLLECTION_EXCLUDE []])
              example_shared_view_layer_ok) as (Hok & _ & Hactive & _).
  - vm_compute. do 3 (apply elem_of_cons; right). apply elem_of_cons. left. reflexivity.
  - split; [exact Hok |]. split; [apply Hactive; reflexivity | reflexivity].
Defined.

Lemma default_view_and_render_witness :
  exists view render,
    BKE_view_layer_default_view example_render_scene = Some view /\
    BKE_view_layer_default_render example_render_scene = Some render /\
    vl_flag view = 0 /\ vl_flag render = VIEW_LAYER_RENDER.
Proof.
  destruct (default_view_and_render example_render_scene)
    as (view & render & Hview & Hrender & _); [discriminate |].
  exists view, render. split; [exact Hview |]. split; [exact Hrender |].
  vm_compute in Hview, Hrender. injection Hview as <-. injection Hrender as <-.
  split; reflexivity.
Defined.
